(** * AI form generator: extraction of JSON from a completion, and schema validation

    A shallow embedding of
    - [generateFormInternal] (app/actions.ts), from the point where the
      completion text has been read: cleaning, the cascade of decode
      attempts, and the check of the generated schema;
    - [validateFormSchema] (lib/form-validator.ts);
    - [handleExport] and [handleFileChange] (app/page.tsx);
    - the rest of the server action (app/actions.ts): [withTimeout],
      [generateForm], and [generateFormInternal] from the answer of
      [fetch] on;
    - [POST] of the API route (app/api/generate-form/route.ts);
    - [handleGenerate] (app/page.tsx);
    - the names made from the title (lib/code-generator.ts,
      components/form-preview.tsx) and the default values of the form
      (components/form-preview.tsx);
    together with the parts of the JavaScript run time these functions call:
    string methods, the regular expressions, [JSON.parse] and
    [JSON.stringify], and the Numbers of the language, which are binary64
    values: the rounding of a literal and the digits [JSON.stringify]
    writes. *)

From Stdlib Require Import String Ascii.
From Stdlib Require Import DecimalString.
From Stdlib Require Import List NArith ZArith Lia Bool.
Import ListNotations.

Set Implicit Arguments.

(* ================================================================== *)
(** * Part I: definitions *)
(* ================================================================== *)

(** ** JavaScript strings

    A JavaScript string is a sequence of UTF-16 code units. *)

Definition char := N.
Definition jsstring := list char.

(** A string literal of the source, code unit by code unit. *)
Definition js (s : string) : jsstring :=
  map N_of_ascii (list_ascii_of_string s).

(** The same, for literals that contain double quotes: every apostrophe
    of [s] stands for a double quote. *)
Definition jq (s : string) : jsstring :=
  map (fun c => if N.eqb c 39 then 34%N else c) (js s).

Module Ch.
Definition tab : char := 9%N.
Definition lf : char := 10%N.
Definition ff : char := 12%N.
Definition cr : char := 13%N.
Definition space : char := 32%N.
Definition quote : char := 34%N.
Definition plus : char := 43%N.
Definition comma : char := 44%N.
Definition minus : char := 45%N.
Definition dot : char := 46%N.
Definition slash : char := 47%N.
Definition zero : char := 48%N.
Definition colon : char := 58%N.
Definition lbracket : char := 91%N.
Definition backslash : char := 92%N.
Definition rbracket : char := 93%N.
Definition backtick : char := 96%N.
Definition lbrace : char := 123%N.
Definition rbrace : char := 125%N.
End Ch.

Definition is_lbrace (c : char) : bool := N.eqb c Ch.lbrace.
Definition is_rbrace (c : char) : bool := N.eqb c Ch.rbrace.

(** [WhiteSpace] and [LineTerminator] of ECMAScript: what [trim] removes
    and what [\s] matches. *)
Definition is_space (c : char) : bool :=
  ((9 <=? c) && (c <=? 13) || (c =? 32) || (c =? 160) || (c =? 5760)
   || (8192 <=? c) && (c <=? 8202) || (c =? 8232) || (c =? 8233)
   || (c =? 8239) || (c =? 8287) || (c =? 12288) || (c =? 65279))%N.

Fixpoint dropWhile (p : char -> bool) (s : jsstring) : jsstring :=
  match s with
  | [] => []
  | c :: r => if p c then dropWhile p r else s
  end.

Definition trimStart (s : jsstring) : jsstring := dropWhile is_space s.
Definition trimEnd (s : jsstring) : jsstring := rev (dropWhile is_space (rev s)).

(** [s.trim()] *)
Definition trim (s : jsstring) : jsstring := trimEnd (trimStart s).

(** [s.startsWith(p)] *)
Fixpoint startsWith (p s : jsstring) : bool :=
  match p, s with
  | [], _ => true
  | _ :: _, [] => false
  | a :: p', c :: s' => N.eqb a c && startsWith p' s'
  end.

(** ASCII upper case, as the canonicalisation of an [/i] pattern does for
    the letters of [json]. *)
Definition upper (c : char) : char :=
  if ((97 <=? c) && (c <=? 122))%N then (c - 32)%N else c.

Fixpoint startsWith_ci (p s : jsstring) : bool :=
  match p, s with
  | [], _ => true
  | _ :: _, [] => false
  | a :: p', c :: s' => N.eqb (upper a) (upper c) && startsWith_ci p' s'
  end.

(** [s.indexOf(c)] and [s.lastIndexOf(c)] for a one-character needle:
    the index, or -1. *)
Fixpoint indexOf_from (p : char -> bool) (s : jsstring) (i : Z) : Z :=
  match s with
  | [] => (-1)%Z
  | c :: r => if p c then i else indexOf_from p r (i + 1)%Z
  end.

Definition indexOf (p : char -> bool) (s : jsstring) : Z := indexOf_from p s 0%Z.

Fixpoint lastIndexOf_from (p : char -> bool) (s : jsstring) (i : Z) (found : Z) : Z :=
  match s with
  | [] => found
  | c :: r => lastIndexOf_from p r (i + 1)%Z (if p c then i else found)
  end.

Definition lastIndexOf (p : char -> bool) (s : jsstring) : Z :=
  lastIndexOf_from p s 0%Z (-1)%Z.

(** [s.substring(a, b)]: both indices are clamped to [0, length], and
    swapped when [a > b]. *)
Definition clamp (s : jsstring) (i : Z) : Z :=
  Z.max 0 (Z.min i (Z.of_nat (length s))).

Definition substring (a b : Z) (s : jsstring) : jsstring :=
  let lo := Z.min (clamp s a) (clamp s b) in
  let hi := Z.max (clamp s a) (clamp s b) in
  firstn (Z.to_nat (hi - lo)) (skipn (Z.to_nat lo) s).

(** [s.includes(p)] *)
Fixpoint includes (p s : jsstring) : bool :=
  startsWith p s ||
  match s with
  | [] => false
  | _ :: r => includes p r
  end.

(** ** The three regular expressions of [generateFormInternal] *)

(** [s.replace(/^```json\s*/i, '')] *)
Definition strip_json_fence (s : jsstring) : jsstring :=
  if startsWith_ci (js "```json") s then trimStart (skipn 7 s) else s.

(** [s.replace(/^```\s*/i, '')] *)
Definition strip_fence (s : jsstring) : jsstring :=
  if startsWith (js "```") s then trimStart (skipn 3 s) else s.

(** [s.replace(/\s*```$/i, '')]: without the [m] flag [$] is the end of the
    string, so the only match is the final fence with the white space
    before it. *)
Definition strip_closing_fence (s : jsstring) : jsstring :=
  match rev s with
  | a :: b :: c :: r =>
      if (N.eqb a Ch.backtick && N.eqb b Ch.backtick && N.eqb c Ch.backtick)%bool
      then rev (dropWhile is_space r)
      else s
  | _ => s
  end.

(** The longest prefix of [s] that ends with a closing brace: what
    [[\s\S]*\}] matches, the star being greedy. *)
Fixpoint upto_last_rbrace (s : jsstring) : option jsstring :=
  match s with
  | [] => None
  | c :: r =>
      match upto_last_rbrace r with
      | Some m => Some (c :: m)
      | None => if is_rbrace c then Some [c] else None
      end
  end.

(** [s.match(/\{[\s\S]*\}/)]: element 0 of the match, at the leftmost
    position where the pattern matches. *)
Fixpoint match_braces (s : jsstring) : option jsstring :=
  match s with
  | [] => None
  | c :: r =>
      if is_lbrace c then
        match upto_last_rbrace r with
        | Some m => Some (c :: m)
        | None => match_braces r
        end
      else match_braces r
  end.

(** ** Numbers

    A Number is a value of binary64.  [JSON.parse] yields no NaN: a
    Number is a zero with its sign, an infinity with its sign, or
    [m * 2 ^ e] with its sign, where [m] is below [2 ^ 53], [e] is
    between -1074 and 971, and [m] is [2 ^ 52] at least unless [e] is
    -1074 (predicate [wf_number]). *)
Inductive binary64 : Type :=
| Zero (negative : bool)
| Finite (negative : bool) (m : positive) (e : Z)
| Infinite (negative : bool).

(** ** JSON values *)

Unset Elimination Schemes.
Inductive JSON : Type :=
| JNull
| JBool (b : bool)
| JNumber (x : binary64)
| JString (s : jsstring)
| JArray (elements : list JSON)
| JObject (properties : list (jsstring * JSON)).
Set Elimination Schemes.

Definition object := list (jsstring * JSON).

Fixpoint str_eqb (a b : jsstring) : bool :=
  match a, b with
  | [], [] => true
  | x :: a', y :: b' => N.eqb x y && str_eqb a' b'
  | _, _ => false
  end.

(** Own property [p] of an object. *)
Fixpoint lookup (p : jsstring) (o : object) : option JSON :=
  match o with
  | [] => None
  | (k, v) :: o' => if str_eqb p k then Some v else lookup p o'
  end.

Definition has_key (p : jsstring) (o : object) : bool :=
  match lookup p o with Some _ => true | None => false end.

(** ** Property order of an object

    The own properties of an ordinary object are kept with the array-index
    keys first, in ascending numeric order, and then the other keys in
    the order of their creation.  Defining a property that exists changes
    its value and leaves it in place. *)

Definition is_digit (c : char) : bool := ((48 <=? c) && (c <=? 57))%N.

Fixpoint digits_value (acc : N) (s : jsstring) : N :=
  match s with
  | [] => acc
  | c :: r => digits_value (acc * 10 + (c - 48))%N r
  end.

(** The array index a key denotes: a canonical decimal numeral (no
    leading zero) of value at most 2^32 - 2. *)
Definition array_index (k : jsstring) : option N :=
  match k with
  | [] => None
  | c :: r =>
      if (forallb is_digit k
          && (negb (N.eqb c Ch.zero) || match r with [] => true | _ => false end)
          && (length k <=? 10)%nat)%bool
      then if (digits_value 0 k <=? 4294967294)%N then Some (digits_value 0 k) else None
      else None
  end.

(** Whether a new key [k] is enumerated before the existing key [k']. *)
Definition key_before (k k' : jsstring) : bool :=
  match array_index k with
  | None => false
  | Some n => match array_index k' with
              | None => true
              | Some n' => (n <? n')%N
              end
  end.

Fixpoint obj_replace (k : jsstring) (v : JSON) (o : object) : object :=
  match o with
  | [] => []
  | (k', v') :: o' =>
      if str_eqb k k' then (k', v) :: o' else (k', v') :: obj_replace k v o'
  end.

Fixpoint obj_insert (k : jsstring) (v : JSON) (o : object) : object :=
  match o with
  | [] => [(k, v)]
  | (k', v') :: o' =>
      if key_before k k' then (k, v) :: o else (k', v') :: obj_insert k v o'
  end.

(** [CreateDataProperty(o, k, v)] *)
Definition obj_set (k : jsstring) (v : JSON) (o : object) : object :=
  if has_key k o then obj_replace k v o else obj_insert k v o.

(** ** [JSON.parse]

    A recursive-descent reader of the JSON grammar.  A failure carries
    the input that remained at the offending position.  A number
    literal is rounded to the nearest value of binary64 ([to_number]). *)

Inductive parsed (A : Type) : Type :=
| POk (a : A) (rest : jsstring)
| PErr (remaining : jsstring).
Arguments PErr {A} remaining.

Definition pmap {A B : Type} (f : A -> B) (r : parsed A) : parsed B :=
  match r with
  | POk a rest => POk (f a) rest
  | PErr e => PErr e
  end.

Definition is_json_ws (c : char) : bool :=
  (N.eqb c Ch.space || N.eqb c Ch.tab || N.eqb c Ch.lf || N.eqb c Ch.cr)%bool.

Definition skip_ws (s : jsstring) : jsstring := dropWhile is_json_ws s.

Definition hex_value (c : char) : option N :=
  if is_digit c then Some (c - 48)%N
  else if ((97 <=? c) && (c <=? 102))%N then Some (c - 87)%N
  else if ((65 <=? c) && (c <=? 70))%N then Some (c - 55)%N
  else None.

Definition hex4 (a b c d : char) : option char :=
  match hex_value a, hex_value b, hex_value c, hex_value d with
  | Some x, Some y, Some z, Some w => Some (((x * 16 + y) * 16 + z) * 16 + w)%N
  | _, _, _, _ => None
  end.

(** The character a one-letter escape denotes. *)
Definition unescape (c : char) : option char :=
  if N.eqb c Ch.quote then Some Ch.quote
  else if N.eqb c Ch.backslash then Some Ch.backslash
  else if N.eqb c Ch.slash then Some Ch.slash
  else if N.eqb c 98 then Some 8%N
  else if N.eqb c 102 then Some Ch.ff
  else if N.eqb c 110 then Some Ch.lf
  else if N.eqb c 114 then Some Ch.cr
  else if N.eqb c 116 then Some Ch.tab
  else None.

(** The characters of a string literal, after its opening quote. *)
Fixpoint parse_chars (s : jsstring) : parsed jsstring :=
  match s with
  | [] => PErr []
  | c :: r =>
      if N.eqb c Ch.quote then POk [] r
      else if N.eqb c Ch.backslash then
        match r with
        | [] => PErr []
        | e :: r1 =>
            if N.eqb e 117 then
              match r1 with
              | h1 :: h2 :: h3 :: h4 :: r2 =>
                  match hex4 h1 h2 h3 h4 with
                  | Some u => pmap (cons u) (parse_chars r2)
                  | None => PErr r1
                  end
              | _ => PErr r1
              end
            else
              match unescape e with
              | Some u => pmap (cons u) (parse_chars r1)
              | None => PErr r
              end
        end
      else if (c <? 32)%N then PErr s
      else pmap (cons c) (parse_chars r)
  end.

Fixpoint span_digits (s : jsstring) : jsstring * jsstring :=
  match s with
  | [] => ([], [])
  | c :: r =>
      if is_digit c then let (ds, r') := span_digits r in (c :: ds, r')
      else ([], s)
  end.

Definition is_e (c : char) : bool := (N.eqb c 101 || N.eqb c 69)%bool.

Definition lex_exponent (pre s : jsstring) : parsed jsstring :=
  match s with
  | e :: r =>
      if is_e e then
        let (sg, r1) :=
          match r with
          | c :: r' => if (N.eqb c Ch.plus || N.eqb c Ch.minus)%bool then ([c], r') else ([], r)
          | [] => ([], r)
          end in
        let (ds, r2) := span_digits r1 in
        match ds with
        | [] => PErr r1
        | _ :: _ => POk (pre ++ e :: sg ++ ds) r2
        end
      else POk pre s
  | [] => POk pre []
  end.

Definition lex_fraction (pre s : jsstring) : parsed jsstring :=
  match s with
  | c :: r =>
      if N.eqb c Ch.dot then
        let (ds, r') := span_digits r in
        match ds with
        | [] => PErr r
        | _ :: _ => lex_exponent (pre ++ c :: ds) r'
        end
      else lex_exponent pre s
  | [] => POk pre []
  end.

(** A number literal: an optional minus sign; either 0 or a digit 1-9
    and more digits; an optional fraction, a dot and one digit or more; an
    optional exponent, e or E, an optional sign and one digit or more. *)
Definition lex_number (s : jsstring) : parsed jsstring :=
  let (sign, s1) :=
    match s with
    | c :: r => if N.eqb c Ch.minus then ([c], r) else ([], s)
    | [] => ([], s)
    end in
  match s1 with
  | [] => PErr []
  | c :: r =>
      if N.eqb c Ch.zero then lex_fraction (sign ++ [c]) r
      else if is_digit c then
        let (ds, r') := span_digits r in lex_fraction (sign ++ c :: ds) r'
      else PErr s1
  end.

(** *** The Number a literal denotes

    The value of a literal is an exact decimal, [digits * 10 ^ e10]; the
    Number is the value of binary64 nearest to it, the one with an even
    significand when two are as near, an infinity beyond the largest
    one. *)

Section Rounding.
Open Scope Z_scope.

(** The integer nearest to [num / den], the even one of two. *)
Definition nearest_even (num den : Z) : Z :=
  let f := num / den in
  match 2 * (num mod den) ?= den with
  | Lt => f
  | Eq => if Z.even f then f else f + 1
  | Gt => f + 1
  end.

(** The Number for the rational [p / q], [0 <= p] and [0 < q].  In units
    of [2 ^ -1074], the smallest step of binary64, the value is
    [P / q]; it is rounded to 53 significant bits, that is to a multiple
    of [2 ^ sh]. *)
Definition round64 (negative : bool) (p q : Z) : binary64 :=
  let P := p * 2 ^ 1074 in
  let sh := Z.max 0 (Z.log2 (P / q) - 52) in
  let n := nearest_even P (q * 2 ^ sh) in
  let m := if n =? 2 ^ 53 then 2 ^ 52 else n in
  let e := (if n =? 2 ^ 53 then sh + 1 else sh) - 1074 in
  if m =? 0 then Zero negative
  else if 971 <? e then Infinite negative
  else Finite negative (Z.to_pos m) e.

(** [s * 10 ^ e10] as a fraction. *)
Definition decimal_fraction (s e10 : Z) : Z * Z :=
  if 0 <=? e10 then (s * 10 ^ e10, 1) else (s, 10 ^ (- e10)).

(** The digits and the exponent of ten of a literal without sign: its
    value is [digits * 10 ^ exponent]. *)
Definition unsigned_value (s : jsstring) : Z * Z :=
  let (int, s1) := span_digits s in
  let (frac, s2) :=
    match s1 with
    | c :: r => if N.eqb c Ch.dot then span_digits r else ([], s1)
    | [] => ([], [])
    end in
  let exponent :=
    match s2 with
    | _ :: c :: r =>
        if N.eqb c Ch.minus then - Z.of_N (digits_value 0 r)
        else if N.eqb c Ch.plus then Z.of_N (digits_value 0 r)
        else Z.of_N (digits_value 0 (c :: r))
    | _ => 0
    end in
  (Z.of_N (digits_value 0 (int ++ frac)), exponent - Z.of_nat (length frac)).

Definition split_sign (literal : jsstring) : bool * jsstring :=
  match literal with
  | c :: r => if N.eqb c Ch.minus then (true, r) else (false, literal)
  | [] => (false, [])
  end.

(** The Number that the literal [literal], as [lex_number] returns it,
    denotes: its value correctly rounded, whatever the number of its
    digits, as V8 computes it. *)
Definition to_number (literal : jsstring) : binary64 :=
  let (negative, s) := split_sign literal in
  let (digits, e10) := unsigned_value s in
  let (p, q) := decimal_fraction digits e10 in
  round64 negative p q.

End Rounding.

(** The elements of a non-empty array, up to its closing bracket. *)
Fixpoint parse_elements (pv : jsstring -> parsed JSON) (n : nat) (s : jsstring)
  : parsed (list JSON) :=
  match n with
  | O => PErr s
  | S n' =>
      match pv s with
      | POk v r =>
          match skip_ws r with
          | [] => PErr []
          | c :: r' =>
              if N.eqb c Ch.comma then pmap (cons v) (parse_elements pv n' r')
              else if N.eqb c Ch.rbracket then POk [v] r'
              else PErr (c :: r')
          end
      | PErr e => PErr e
      end
  end.

(** The members of a non-empty object, up to its closing brace; [acc]
    holds the properties defined so far. *)
Fixpoint parse_members (pv : jsstring -> parsed JSON) (n : nat) (s : jsstring)
  (acc : object) : parsed object :=
  match n with
  | O => PErr s
  | S n' =>
      match skip_ws s with
      | [] => PErr []
      | c :: r =>
          if N.eqb c Ch.quote then
            match parse_chars r with
            | POk key r1 =>
                match skip_ws r1 with
                | [] => PErr []
                | c1 :: r2 =>
                    if N.eqb c1 Ch.colon then
                      match pv r2 with
                      | POk v r3 =>
                          match skip_ws r3 with
                          | [] => PErr []
                          | c2 :: r4 =>
                              if N.eqb c2 Ch.comma
                              then parse_members pv n' r4 (obj_set key v acc)
                              else if N.eqb c2 Ch.rbrace
                              then POk (obj_set key v acc) r4
                              else PErr (c2 :: r4)
                          end
                      | PErr e => PErr e
                      end
                    else PErr (c1 :: r2)
                end
            | PErr e => PErr e
            end
          else PErr (c :: r)
      end
  end.

Fixpoint parse_value (fuel : nat) (s : jsstring) : parsed JSON :=
  match fuel with
  | O => PErr s
  | S fuel' =>
      match skip_ws s with
      | [] => PErr []
      | c :: r =>
          if N.eqb c Ch.lbrace then
            match skip_ws r with
            | [] => PErr []
            | c' :: r' =>
                if N.eqb c' Ch.rbrace then POk (JObject []) r'
                else pmap JObject (parse_members (parse_value fuel') fuel' r [])
            end
          else if N.eqb c Ch.lbracket then
            match skip_ws r with
            | [] => PErr []
            | c' :: r' =>
                if N.eqb c' Ch.rbracket then POk (JArray []) r'
                else pmap JArray (parse_elements (parse_value fuel') fuel' r)
            end
          else if N.eqb c Ch.quote then pmap JString (parse_chars r)
          else if startsWith (js "true") (c :: r) then POk (JBool true) (skipn 4 (c :: r))
          else if startsWith (js "false") (c :: r) then POk (JBool false) (skipn 5 (c :: r))
          else if startsWith (js "null") (c :: r) then POk JNull (skipn 4 (c :: r))
          else if (N.eqb c Ch.minus || is_digit c)%bool then pmap (fun literal => JNumber (to_number literal)) (lex_number (c :: r))
          else PErr (c :: r)
      end
  end.

(** The whole text must be one value, white space apart.  Every level of
    nesting and every element consumes a character, so the length of the
    text bounds the recursion (lemma [parse_value_fuel]). *)
Definition parse_json (text : jsstring) : parsed JSON :=
  match parse_value (S (length text)) text with
  | POk v r =>
      match skip_ws r with
      | [] => POk v []
      | c :: r' => PErr (c :: r')
      end
  | PErr e => PErr e
  end.

(** ** [JSON.stringify(value, null, 2)] *)

Definition hex_digit (n : N) : char :=
  if (n <? 10)%N then (n + 48)%N else (n + 87)%N.

(** [\uXXXX], in lower-case hexadecimal *)
Definition unicode_escape (c : char) : jsstring :=
  [Ch.backslash; 117%N;
   hex_digit (c / 4096 mod 16); hex_digit (c / 256 mod 16);
   hex_digit (c / 16 mod 16); hex_digit (c mod 16)]%N.

Definition is_high_surrogate (c : char) : bool := ((55296 <=? c) && (c <=? 56319))%N.
Definition is_low_surrogate (c : char) : bool := ((56320 <=? c) && (c <=? 57343))%N.

(** One code unit that is not the first half of a surrogate pair. *)
Definition quote_char (c : char) : jsstring :=
  if N.eqb c 8 then [Ch.backslash; 98%N]
  else if N.eqb c Ch.tab then [Ch.backslash; 116%N]
  else if N.eqb c Ch.lf then [Ch.backslash; 110%N]
  else if N.eqb c Ch.ff then [Ch.backslash; 102%N]
  else if N.eqb c Ch.cr then [Ch.backslash; 114%N]
  else if N.eqb c Ch.quote then [Ch.backslash; Ch.quote]
  else if N.eqb c Ch.backslash then [Ch.backslash; Ch.backslash]
  else if ((c <? 32) || is_high_surrogate c || is_low_surrogate c)%N%bool
  then unicode_escape c
  else [c].

(** The body of [QuoteJSONString]: a surrogate pair is copied, a lone
    surrogate is escaped. *)
Fixpoint quote_chars (s : jsstring) : jsstring :=
  match s with
  | [] => []
  | c :: r =>
      if is_high_surrogate c then
        match r with
        | d :: r' =>
            if is_low_surrogate d then c :: d :: quote_chars r'
            else unicode_escape c ++ quote_chars r
        | [] => unicode_escape c
        end
      else quote_char c ++ quote_chars r
  end.

Definition QuoteJSONString (s : jsstring) : jsstring :=
  Ch.quote :: quote_chars s ++ [Ch.quote].

Fixpoint join (sep : jsstring) (l : list jsstring) : jsstring :=
  match l with
  | [] => []
  | [x] => x
  | x :: rest => x ++ sep ++ join sep rest
  end.

(** The gap of [JSON.stringify(_, null, 2)]: two spaces. *)
Definition gap : jsstring := [Ch.space; Ch.space].

(** *** [Number::toString]

    A finite Number that is not zero is written with the fewest digits
    that read back as that Number; of several such numerals the one
    nearest to the Number is taken, the even one of two (the standard
    leaves this last choice to the engine and recommends it; V8 and the
    other engines follow it). *)

Section NumberToString.
Open Scope Z_scope.

(** The decimal digits of a natural number, the most significant first. *)
Fixpoint digits_fuel (fuel : nat) (z : Z) (acc : jsstring) : jsstring :=
  match fuel with
  | O => acc
  | S fuel' =>
      let acc' := Z.to_N (48 + z mod 10) :: acc in
      if z <? 10 then acc' else digits_fuel fuel' (z / 10) acc'
  end.

Definition digits (z : Z) : jsstring := digits_fuel (S (Z.to_nat (Z.log2 z))) z [].

Definition number_eqb (x y : binary64) : bool :=
  match x, y with
  | Zero a, Zero b => Bool.eqb a b
  | Finite a m e, Finite b m' e' => Bool.eqb a b && Pos.eqb m m' && Z.eqb e e'
  | Infinite a, Infinite b => Bool.eqb a b
  | _, _ => false
  end.

Section Shortest.
Variables (m : positive) (e : Z).

(** The value [m * 2 ^ e] as a fraction. *)
Definition exact_fraction : Z * Z :=
  if 0 <=? e then (Zpos m * 2 ^ e, 1) else (Zpos m, 2 ^ (- e)).

(** The numeral [s * 10 ^ (- i)] reads as the Number. *)
Definition reads_as (s i : Z) : bool :=
  if 1 <=? s then
    let (p, q) := decimal_fraction s (- i) in
    number_eqb (round64 false p q) (Finite false m e)
  else false.

(** The numeral with [i] decimals, if one reads as the Number: of the two
    numerals [lo * 10 ^ (- i)] and [(lo + 1) * 10 ^ (- i)] around the
    value, the nearer one that does. *)
Definition candidate (i : Z) : option Z :=
  let (vp, vq) := exact_fraction in
  let (num, den) := if 0 <=? i then (vp * 10 ^ i, vq) else (vp, vq * 10 ^ (- i)) in
  let lo := num / den in
  let r := num mod den in
  match reads_as lo i, reads_as (lo + 1) i with
  | true, true =>
      match 2 * r ?= den with
      | Lt => Some lo
      | Eq => Some (if Z.even lo then lo else lo + 1)
      | Gt => Some (lo + 1)
      end
  | true, false => Some lo
  | false, true => Some (lo + 1)
  | false, false => None
  end.

(** With [exact_decimals] decimals the value itself is a numeral, of
    digits [exact_digits]. *)
Definition exact_decimals : Z := if 0 <=? e then 0 else - e.
Definition exact_digits : Z := if 0 <=? e then Zpos m * 2 ^ e else Zpos m * 5 ^ (- e).

(** The first numeral that reads as the Number, from [i] decimals on:
    the fewer the decimals, the fewer the digits. *)
Fixpoint shortest_from (fuel : nat) (i : Z) : Z * Z :=
  match fuel with
  | O => (exact_digits, exact_decimals)
  | S fuel' =>
      match candidate i with
      | Some s => (s, i)
      | None => shortest_from fuel' (i + 1)
      end
  end.

(** The power of ten above the value [vp / vq] is [10 ^ n]: the number
    of decimals of its numeral, [- n]. *)
Definition first_decimals (vp vq : Z) : Z :=
  if vq <=? vp then - Z.of_nat (length (digits (vp / vq)))
  else Z.of_nat (length (digits ((vq - 1) / vp))) - 1.

(** The digits [s] and the number [i] of decimals of the shortest
    numeral [s * 10 ^ (- i)]; the search begins at the power of ten above
    the value. *)
Definition shortest : Z * Z :=
  let (vp, vq) := exact_fraction in
  let first := first_decimals vp vq in
  shortest_from (Z.to_nat (exact_decimals - first)) first.

End Shortest.

(** Steps 6 to 10 of [Number::toString]: the digits [ds], [k] of them,
    with the decimal point after the [n]th. *)
Definition digits_text (ds : jsstring) (n : Z) : jsstring :=
  let k := Z.of_nat (length ds) in
  if (k <=? n) && (n <=? 21) then ds ++ repeat Ch.zero (Z.to_nat (n - k))
  else if (0 <? n) && (n <=? 21) then
    firstn (Z.to_nat n) ds ++ Ch.dot :: skipn (Z.to_nat n) ds
  else if (-6 <? n) && (n <=? 0) then
    Ch.zero :: Ch.dot :: repeat Ch.zero (Z.to_nat (- n)) ++ ds
  else
    let exponent :=
      101%N :: (if n - 1 <? 0 then Ch.minus else Ch.plus) :: digits (Z.abs (n - 1)) in
    match ds with
    | [] => []
    | [d] => d :: exponent
    | d :: rest => d :: Ch.dot :: rest ++ exponent
    end.

(** [Number::toString(x, 10)] *)
Definition number_text (x : binary64) : jsstring :=
  match x with
  | Zero _ => js "0"
  | Infinite negative => if negative then js "-Infinity" else js "Infinity"
  | Finite negative m e =>
      let (s, i) := shortest m e in
      (if negative then [Ch.minus] else [])
        ++ digits_text (digits s) (Z.of_nat (length (digits s)) - i)
  end.

End NumberToString.

(** [SerializeJSONProperty], at the current indentation.  A finite
    Number is written by [Number::toString], an infinity as [null]. *)
Fixpoint serialize (indent : jsstring) (v : JSON) {struct v} : jsstring :=
  match v with
  | JNull => js "null"
  | JBool true => js "true"
  | JBool false => js "false"
  | JNumber (Infinite _) => js "null"
  | JNumber x => number_text x
  | JString s => QuoteJSONString s
  | JArray [] => js "[]"
  | JArray elements =>
      Ch.lbracket :: Ch.lf :: (indent ++ gap)
        ++ join (Ch.comma :: Ch.lf :: indent ++ gap)
             (map (serialize (indent ++ gap)) elements)
        ++ Ch.lf :: indent ++ [Ch.rbracket]
  | JObject [] => js "{}"
  | JObject properties =>
      Ch.lbrace :: Ch.lf :: (indent ++ gap)
        ++ join (Ch.comma :: Ch.lf :: indent ++ gap)
             (map (fun '(k, x) =>
                     QuoteJSONString k ++ Ch.colon :: Ch.space :: serialize (indent ++ gap) x)
                properties)
        ++ Ch.lf :: indent ++ [Ch.rbrace]
  end.

Definition JSON_stringify (v : JSON) : jsstring := serialize [] v.

(** ** Exceptions, results and the console *)

Inductive exn : Type :=
| SyntaxError (msg : jsstring)
| TypeError (msg : jsstring)
| Error (msg : jsstring).

(** [e.message] *)
Definition message (e : exn) : jsstring :=
  match e with
  | SyntaxError m => m
  | TypeError m => m
  | Error m => m
  end.

(** The wording of the errors that the engine itself raises is left to
    the engine: the message of the [SyntaxError] of [JSON.parse] on a
    text, and of the [TypeError] of reading a property of [null]. *)
Record engine : Type := {
  syntax_message : jsstring -> jsstring;
  null_property_message : jsstring -> jsstring
}.

(** What [generateFormInternal] resolves to. *)
Inductive result : Type :=
| Success (schema : JSON)
| Failure (error : jsstring).

Inductive logged : Type :=
| LString (s : jsstring)
| LError (e : exn)
| LNumber (n : nat).

(** The lines written with [console.error], oldest first. *)
Definition console := list (list logged).

(** How a block of statements ends: normally, by [return], or by a
    thrown exception. *)
Inductive completion (A : Type) : Type :=
| Normal (a : A)
| Return (r : result)
| Throw (e : exn).
Arguments Return {A} r.
Arguments Throw {A} e.

Definition M (A : Type) : Type := console -> completion A * console.

Definition bind {A B : Type} (m : M A) (k : A -> M B) : M B :=
  fun c =>
    match m c with
    | (Normal a, c') => k a c'
    | (Return r, c') => (Return r, c')
    | (Throw e, c') => (Throw e, c')
    end.

Definition return_ {A : Type} (r : result) : M A := fun c => (Return r, c).
Definition console_error (args : list logged) : M unit :=
  fun c => (Normal tt, c ++ [args]).

(** [try { m } catch (e) { h e }] *)
Definition try_catch {A : Type} (m : M A) (h : exn -> M A) : M A :=
  fun c =>
    match m c with
    | (Throw e, c') => h e c'
    | other => other
    end.

Declare Scope js_scope.
Delimit Scope js_scope with M.
Notation "x <- m ;; k" := (bind m (fun x => k))
  (at level 61, m at next level, right associativity) : js_scope.
Notation "m ;; k" := (bind m (fun _ => k))
  (at level 61, right associativity) : js_scope.
Open Scope js_scope.

(** An expression that yields a value or throws, with no other effect. *)
Inductive outcome (A : Type) : Type :=
| Value (a : A)
| Raised (e : exn).
Arguments Raised {A} e.

Definition lift {A : Type} (o : outcome A) : M A :=
  fun c =>
    match o with
    | Value a => (Normal a, c)
    | Raised e => (Throw e, c)
    end.

Section Engine.

Variable E : engine.

(** [JSON.parse(text)] *)
Definition JSON_parse (text : jsstring) : outcome JSON :=
  match parse_json text with
  | POk v _ => Value v
  | PErr _ => Raised (SyntaxError (syntax_message E text))
  end.

(** ** Reading and testing values *)

(** [v.p] for the property names that the program reads: [formTitle],
    [fields], [id], [label] and [type].  None of them is a property of an
    array, of a primitive value, or of a prototype; [undefined] is [None].
    Reading a property of [null] throws. *)
Definition Get (v : JSON) (p : jsstring) : outcome (option JSON) :=
  match v with
  | JNull => Raised (TypeError (null_property_message E p))
  | JObject properties => Value (lookup p properties)
  | _ => Value None
  end.

Definition is_zero (x : binary64) : bool :=
  match x with
  | Zero _ => true
  | _ => false
  end.

(** [ToBoolean]: what [!v] negates.  A Number is falsy when it is zero,
    of either sign. *)
Definition truthy (v : option JSON) : bool :=
  match v with
  | None => false
  | Some JNull => false
  | Some (JBool b) => b
  | Some (JNumber x) => negb (is_zero x)
  | Some (JString s) => match s with [] => false | _ :: _ => true end
  | Some (JArray _) => true
  | Some (JObject _) => true
  end.

(** [Array.isArray(v)] *)
Definition isArray (v : option JSON) : bool :=
  match v with
  | Some (JArray _) => true
  | _ => false
  end.

(** [typeof v === 'object'] *)
Definition typeof_object (v : JSON) : bool :=
  match v with
  | JNull | JArray _ | JObject _ => true
  | _ => false
  end.

(** [!field.id || !field.label || !field.type] *)
Definition field_incomplete (field : JSON) : outcome bool :=
  match Get field (js "id") with
  | Raised e => Raised e
  | Value id =>
      if negb (truthy id) then Value true
      else
        match Get field (js "label") with
        | Raised e => Raised e
        | Value label =>
            if negb (truthy label) then Value true
            else
              match Get field (js "type") with
              | Raised e => Raised e
              | Value type => Value (negb (truthy type))
              end
        end
  end.

(** ** [generateFormInternal]: cleaning the completion *)

Definition clean (text : jsstring) : jsstring :=
  (* 1. Trim leading/trailing whitespace. *)
  let jsonString := trim text in
  (* 2. Strip Markdown code fences. *)
  let jsonString :=
    if startsWith (js "```json") jsonString
    then strip_closing_fence (strip_json_fence jsonString)
    else if startsWith (js "```") jsonString
    then strip_closing_fence (strip_fence jsonString)
    else jsonString in
  (* 3. Extract substring between first { and last }. *)
  let firstBrace := indexOf is_lbrace jsonString in
  let lastBrace := lastIndexOf is_rbrace jsonString in
  if (negb (firstBrace =? -1) && negb (lastBrace =? -1) && (lastBrace >? firstBrace))%Z
  then substring firstBrace (lastBrace + 1) jsonString
  else jsonString.

(** ** [generateFormInternal]: the fallbacks

    The body of each inner [try] block, as the value it assigns to
    [formSchema] or the exception it throws. *)

(** 5. Fallback A: regex to capture the first {...} object. *)
Definition fallbackA (jsonString : jsstring) : outcome JSON :=
  match match_braces jsonString with
  | Some (c :: m) => JSON_parse (c :: m)
  | _ => Raised (Error (js "No JSON object found with regex"))
  end.

(** 6. Fallback B: re-apply first { and last } boundaries. *)
Definition fallbackB (jsonString : jsstring) : outcome JSON :=
  let firstBrace := indexOf is_lbrace jsonString in
  let lastBrace := lastIndexOf is_rbrace jsonString in
  if (negb (firstBrace =? -1) && negb (lastBrace =? -1) && (lastBrace >? firstBrace))%Z
  then JSON_parse (substring firstBrace (lastBrace + 1) jsonString)
  else Raised (Error (js "Could not find JSON boundaries")).

(** The [for] loop of fallback C, from index [i] on; [rest] is what
    remains of [jsonString] at [i]. *)
Fixpoint scan_loop (jsonString rest : jsstring) (i depth start : Z)
  (jsonObjects : list jsstring) : list jsstring :=
  match rest with
  | [] => jsonObjects
  | c :: rest' =>
      if is_lbrace c then
        scan_loop jsonString rest' (i + 1)%Z (depth + 1)%Z
          (if (depth =? 0)%Z then i else start) jsonObjects
      else if is_rbrace c then
        if ((depth - 1 =? 0) && negb (start =? -1))%Z
        then scan_loop jsonString rest' (i + 1)%Z (depth - 1)%Z (-1)%Z
               (jsonObjects ++ [substring start (i + 1) jsonString])
        else scan_loop jsonString rest' (i + 1)%Z (depth - 1)%Z start jsonObjects
      else scan_loop jsonString rest' (i + 1)%Z depth start jsonObjects
  end.

Definition scan_objects (jsonString : jsstring) : list jsstring :=
  scan_loop jsonString jsonString 0%Z 0%Z (-1)%Z [].

(** [jsonObjects.reduce((a, b) => (a.length > b.length ? a : b))] *)
Definition longer (a b : jsstring) : jsstring :=
  if (length b <? length a)%nat then a else b.

Definition largest (jsonObjects : list jsstring) : option jsstring :=
  match jsonObjects with
  | [] => None
  | a :: rest => Some (fold_left longer rest a)
  end.

(** 7. Fallback C: find all complete {...} by brace depth, parse the largest. *)
Definition fallbackC (jsonString : jsstring) : outcome JSON :=
  match largest (scan_objects jsonString) with
  | Some candidate => JSON_parse candidate
  | None => Raised (Error (js "No valid JSON objects found"))
  end.

(** The three lines that the [catch] of the primary attempt writes. *)
Definition parse_log (jsonString : jsstring) (parseError : exn) : console :=
  [[LString (js "JSON parsing error:"); LError parseError];
   [LString (js "Raw response (first 1000 chars):"); LString (substring 0 1000 jsonString)];
   [LString (js "Raw response length:"); LNumber (length jsonString)]].

Definition parse_failure (parseError : exn) : result :=
  Failure (js "Failed to parse AI response. Tried multiple parsing strategies. Error: "
             ++ message parseError ++ js ". Please try again.").

(** ** [generateFormInternal]: from the completion text to [formSchema] *)

Definition extract (text : jsstring) : M JSON :=
  let jsonString := clean text in
  try_catch
    (* 4. Primary: parse the cleaned string as JSON. *)
    (lift (JSON_parse jsonString))
    (fun parseError =>
       console_error [LString (js "JSON parsing error:"); LError parseError] ;;
       console_error [LString (js "Raw response (first 1000 chars):");
                      LString (substring 0 1000 jsonString)] ;;
       console_error [LString (js "Raw response length:"); LNumber (length jsonString)] ;;
       try_catch (lift (fallbackA jsonString)) (fun _ =>
       try_catch (lift (fallbackB jsonString)) (fun _ =>
       try_catch (lift (fallbackC jsonString)) (fun _ =>
       return_ (parse_failure parseError))))).

(** ** [generateFormInternal]: the check of the generated schema *)

Fixpoint check_fields (formSchema : JSON) (fields : list JSON) : M result :=
  match fields with
  | [] => return_ (Success formSchema)
  | field :: rest =>
      incomplete <- lift (field_incomplete field) ;;
      if (incomplete : bool)
      then return_ (Failure (js "Invalid field structure in generated schema"))
      else check_fields formSchema rest
  end.

(** The three reads of the first test are of one value: once the first
    has not thrown, no later one can, and which operand of [||] decides
    does not change the branch taken. *)
Definition check_generated (formSchema : JSON) : M result :=
  formTitle <- lift (Get formSchema (js "formTitle")) ;;
  fields <- lift (Get formSchema (js "fields")) ;;
  if (negb (truthy formTitle) || negb (truthy fields) || negb (isArray fields))%bool
  then return_ (Failure (js "Invalid form schema generated: missing formTitle or fields"))
  else
    match fields with
    | Some (JArray elements) => check_fields formSchema elements
    | _ => return_ (Failure (js "Invalid form schema generated: missing formTitle or fields"))
    end.

(** The outer [try]/[catch] of [generateFormInternal], around a body that
    ends by [return]. *)
Definition catch_all (body : M result) : console -> result * console :=
  fun c =>
    match body c with
    | (Normal r, c') => (r, c')
    | (Return r, c') => (r, c')
    | (Throw e, c') =>
        (Failure (message e), c' ++ [[LString (js "Error generating form:"); LError e]])
    end.

(** [generateFormInternal], once the completion [text] has been read
    from the response of the model. *)
Definition generateFormInternal (text : jsstring) : console -> result * console :=
  catch_all (formSchema <- extract text ;; check_generated formSchema).

(** ** [validateFormSchema] *)

Record validation : Type := {
  isValid : bool;
  error : option jsstring
}.

Fixpoint validate_fields (fields : list JSON) : outcome validation :=
  match fields with
  | [] => Value {| isValid := true; error := None |}
  | field :: rest =>
      match field_incomplete field with
      | Raised e => Raised e
      | Value true =>
          Value {| isValid := false;
                   error := Some (js "Invalid JSON file: missing required field properties") |}
      | Value false => validate_fields rest
      end
  end.

Definition validateFormSchema (schema : JSON) : outcome validation :=
  if (negb (truthy (Some schema)) || negb (typeof_object schema))%bool
  then Value {| isValid := false; error := Some (js "Invalid JSON file: not a valid object") |}
  else
    match Get schema (js "fields") with
    | Raised e => Raised e
    | Value fields =>
        if (negb (truthy fields) || negb (isArray fields))%bool
        then Value {| isValid := false;
                      error := Some (js "Invalid JSON file: missing fields array") |}
        else
          match fields with
          | Some (JArray elements) => validate_fields elements
          | _ => Value {| isValid := false;
                          error := Some (js "Invalid JSON file: missing fields array") |}
          end
    end.

(** ** The page: [handleExport] and [handleFileChange] *)

Record state : Type := {
  formSchema : option JSON;
  errorText : option jsstring;
  toastMessage : option jsstring
}.

(** [handleExport]: the new state, and the text of the file offered for
    download, if any.  The file holds the text as it is: the writer
    escapes every character that an encoding to UTF-8 would lose. *)
Definition handleExport (st : state) : state * option jsstring :=
  if negb (truthy (formSchema st)) then (st, None)
  else
    match formSchema st with
    | Some schema =>
        ({| formSchema := formSchema st;
            errorText := errorText st;
            toastMessage := Some (js "JSON exported successfully!") |},
         Some (JSON_stringify schema))
    | None => (st, None)
    end.

(** [handleFileChange], from the moment the text of the chosen file has
    been read: the body of [reader.onload]. *)
Definition handleFileChange (jsonString : jsstring) (st : state) : state :=
  match JSON_parse jsonString with
  | Raised _ =>
      {| formSchema := formSchema st;
         errorText := Some (js "Failed to parse JSON file. Please check the file format.");
         toastMessage := toastMessage st |}
  | Value importedSchema =>
      match validateFormSchema importedSchema with
      | Raised _ =>
          {| formSchema := formSchema st;
             errorText := Some (js "Failed to parse JSON file. Please check the file format.");
             toastMessage := toastMessage st |}
      | Value validation =>
          if negb (isValid validation)
          then {| formSchema := formSchema st;
                  errorText :=
                    Some (match error validation with
                          | Some (c :: m) => c :: m
                          | _ => js "Invalid JSON file"
                          end);
                  toastMessage := toastMessage st |}
          else {| formSchema := Some importedSchema;
                  errorText := None;
                  toastMessage := Some (js "Form loaded successfully!") |}
      end
  end.

End Engine.

(** ** A reference engine

    Messages in the style of V8: the offending character and its
    position, or the end of the input.  It serves where a statement needs
    a text for the message; the general statements hold for every
    engine. *)

Definition decimal (n : nat) : jsstring :=
  js (NilEmpty.string_of_uint (Nat.to_uint n)).

Definition reference_syntax_message (text : jsstring) : jsstring :=
  match parse_json text with
  | POk _ _ => []
  | PErr [] => js "Unexpected end of JSON input"
  | PErr (c :: r) =>
      js "Unexpected token " ++ c :: js " in JSON at position "
        ++ decimal (length text - length (c :: r))
  end.

Definition reference_engine : engine := {|
  syntax_message := reference_syntax_message;
  null_property_message := fun p =>
    js "Cannot read properties of null (reading '" ++ p ++ js "')"
|}.

(** ** Notions used in the statements *)

(** [s] occurs in [t] as a run of consecutive characters. *)
Definition occurs_in (s t : jsstring) : Prop :=
  exists a b, t = a ++ s ++ b.

(** The outcome of the extraction, in the words of the specification. *)
Inductive ExtractionOutcome : Type :=
| Recovered (v : JSON)
| Failed (reason : jsstring)
| Raises (e : exn).

Definition extraction_outcome (E : engine) (text : jsstring) (c : console)
  : ExtractionOutcome :=
  match fst (extract E text c) with
  | Normal v => Recovered v
  | Return (Failure reason) => Failed reason
  | Return (Success v) => Recovered v
  | Throw e => Raises e
  end.

(** The selection that the specification describes for the depth scan:
    the candidate of greatest length and, among several of that length,
    the first one found. *)
Definition longer_or_first (a b : jsstring) : jsstring :=
  if (length a <? length b)%nat then b else a.

Definition first_largest (jsonObjects : list jsstring) : option jsstring :=
  match jsonObjects with
  | [] => None
  | a :: rest => Some (fold_left longer_or_first rest a)
  end.

(** What the depth scan can see of a character: an opening brace, a
    closing brace, or anything else. *)
Inductive brace_class : Type := Opening | Closing | Other.

Definition classify (c : char) : brace_class :=
  if is_lbrace c then Opening else if is_rbrace c then Closing else Other.

Definition skeleton (s : jsstring) : list brace_class := map classify s.

(** The failure message as the specification describes it: it carries
    the error of the last stage attempted, the depth scan, and an excerpt
    of the original text, its first 1000 characters. *)
Definition carries_last_error_and_excerpt (E : engine) (text : jsstring) (c : console)
  : Prop :=
  forall reason, extraction_outcome E text c = Failed reason ->
    (forall e, fallbackC E (clean text) = Raised e -> includes (message e) reason = true)
    /\ includes (substring 0 1000 text) reason = true.

(** The [formTitle] property of a decoded value; [None] when the value
    has none. *)
Definition formTitle_of (v : JSON) : option JSON :=
  match v with
  | JObject properties => lookup (js "formTitle") properties
  | _ => None
  end.

(** The value without its [formTitle] property. *)
Definition without_formTitle (v : JSON) : JSON :=
  match v with
  | JObject properties =>
      JObject (filter (fun kv => negb (str_eqb (js "formTitle") (fst kv))) properties)
  | _ => v
  end.

(** The check of the AI-output path accepts [v]. *)
Definition generated_accepted (E : engine) (v : JSON) (c : console) : Prop :=
  exists schema c', catch_all (check_generated E v) c = (Success schema, c').

(** The check of the file-import path accepts [v]. *)
Definition import_accepted (E : engine) (v : JSON) : Prop :=
  exists verdict, validateFormSchema E v = Value verdict /\ isValid verdict = true.

(** The two checks as the specification describes them: one set of
    rules, so the same values accepted. *)
Definition same_verdict (E : engine) (v : JSON) : Prop :=
  generated_accepted E v [] <-> import_accepted E v.

(** The rule on [formTitle] as the specification describes it, for both
    callers: without a title, not accepted. *)
Definition title_required (E : engine) (v : JSON) : Prop :=
  truthy (formTitle_of v) = false ->
  ~ generated_accepted E v [] /\ ~ import_accepted E v.

(** An element of [fields] as the specification wants it: an object
    whose [id], [label] and [type] are present and not empty, that is,
    not falsy. *)
Definition complete_field (field : JSON) : bool :=
  match field with
  | JObject properties =>
      truthy (lookup (js "id") properties)
      && truthy (lookup (js "label") properties)
      && truthy (lookup (js "type") properties)
  | _ => false
  end.

(** The first element of [fields] that is not complete. *)
Fixpoint first_incomplete (fields : list JSON) : option JSON :=
  match fields with
  | [] => None
  | field :: rest => if complete_field field then first_incomplete rest else Some field
  end.

(** The test of step 3 of the cleaning: an opening brace, and a closing
    brace after it. *)
Definition has_brace_pair (s : jsstring) : bool :=
  (negb (indexOf is_lbrace s =? -1) && negb (lastIndexOf is_rbrace s =? -1)
   && (lastIndexOf is_rbrace s >? indexOf is_lbrace s))%Z.

Definition is_object (v : JSON) : bool :=
  match v with
  | JObject _ => true
  | _ => false
  end.

(** The direct decode as the specification describes it: a text that is
    valid JSON once trimmed is recovered as the value it denotes, by the
    first attempt. *)
Definition direct_decode (E : engine) (text : jsstring) : Prop :=
  forall v, JSON_parse E (trim text) = Value v ->
  forall c, extract E text c = (Normal v, c).

Definition is_number (v : JSON) : bool :=
  match v with
  | JNumber _ => true
  | _ => false
  end.

(** [r] is what remains of [s] after some of its first characters. *)
Definition suffix (r s : jsstring) : Prop := exists pre, s = pre ++ r.

Definition brace_free (s : jsstring) : bool :=
  forallb (fun c => negb (is_lbrace c) && negb (is_rbrace c)) s.

(** [s] holds the braced text [B] between a beginning without opening
    brace and an end without closing brace. *)
Definition framed (B s : jsstring) : Prop :=
  exists a b, s = a ++ B ++ b
              /\ forallb (fun c => negb (is_lbrace c)) a = true
              /\ forallb (fun c => negb (is_rbrace c)) b = true.

(** Inside braces opened [S d] times, [s] brings the count of open
    braces back to zero at its last character, and not before. *)
Fixpoint closes (d : nat) (s : jsstring) : bool :=
  match s with
  | [] => false
  | c :: r =>
      if is_lbrace c then closes (S d) r
      else if is_rbrace c then
        match d with
        | O => match r with [] => true | _ :: _ => false end
        | S d' => closes d' r
        end
      else closes d r
  end.

(** [o] is one complete candidate for the count of braces: it begins
    with an opening brace, which its last character closes. *)
Definition one_object (o : jsstring) : bool :=
  match o with
  | [] => false
  | c :: r => is_lbrace c && closes 0 r
  end.

(** The choice between two objects as the specification describes it:
    two decodable objects of different lengths, in prose without braces,
    and the longer one recovered. *)
Definition selects_longer (E : engine) (p0 o1 p1 o2 p2 : jsstring) : Prop :=
  forall v1 v2,
    JSON_parse E o1 = Value v1 -> is_object v1 = true ->
    JSON_parse E o2 = Value v2 -> is_object v2 = true ->
    length o1 <> length o2 ->
    brace_free p0 = true -> brace_free p1 = true -> brace_free p2 = true ->
    forall c, extraction_outcome E (p0 ++ o1 ++ p1 ++ o2 ++ p2) c
              = Recovered (if (length o2 <? length o1)%nat then v1 else v2).

(** A value of binary64 in its one representation. *)
Definition canonical (m : positive) (e : Z) : bool :=
  ((Zpos m <? 2 ^ 53) && (-1074 <=? e) && (e <=? 971)
   && ((2 ^ 52 <=? Zpos m) || (e =? -1074)))%Z.

Definition wf_number (x : binary64) : bool :=
  match x with
  | Finite _ m e => canonical m e
  | _ => true
  end.

(** A Number that JSON text can denote: it is finite, and it is not the
    negative zero, which [JSON.stringify] writes as [0]. *)
Definition plain_number (x : binary64) : bool :=
  match x with
  | Zero negative => negb negative
  | Finite _ _ _ => true
  | Infinite _ => false
  end.

(** Every Number of the value is finite and is not the negative zero. *)
Fixpoint plain_numbers (v : JSON) : bool :=
  match v with
  | JNumber x => plain_number x
  | JArray elements => forallb plain_numbers elements
  | JObject properties => forallb (fun '(_, x) => plain_numbers x) properties
  | _ => true
  end.

(** The decimal digits [ds] of the natural number [z]: no leading zero. *)
Definition numeral (z : Z) (ds : jsstring) : Prop :=
  forallb is_digit ds = true
  /\ Z.of_N (digits_value 0 ds) = z
  /\ exists d r, ds = d :: r /\ ((1 <= z)%Z -> N.eqb d Ch.zero = false).

(** The numeral [s * 10 ^ (- i)] reads as the Number [m * 2 ^ e]. *)
Definition written (m : positive) (e : Z) (si : Z * Z) : Prop :=
  (1 <= fst si)%Z
  /\ round64 false (fst (decimal_fraction (fst si) (- snd si)))
       (snd (decimal_fraction (fst si) (- snd si))) = Finite false m e.

(** What may follow a number literal: nothing, or a character that does
    not continue it. *)
Definition delimited (rest : jsstring) : bool :=
  match rest with
  | [] => true
  | c :: _ => negb (is_digit c) && negb (N.eqb c Ch.dot) && negb (is_e c)
  end.

Definition stops (s : jsstring) : bool :=
  match s with
  | [] => true
  | c :: _ => negb (is_digit c)
  end.

(** A literal by its parts: the digits before the decimal point, those
    after it, and the exponent with its sign. *)
Definition fraction_part (frac : jsstring) : jsstring :=
  match frac with
  | [] => []
  | _ :: _ => Ch.dot :: frac
  end.

Definition exponent_part (ex : option (bool * jsstring)) : jsstring :=
  match ex with
  | None => []
  | Some (negative, ds) => 101%N :: (if negative then Ch.minus else Ch.plus) :: ds
  end.

Definition exponent_value (ex : option (bool * jsstring)) : Z :=
  match ex with
  | None => 0%Z
  | Some (negative, ds) =>
      if negative then (- Z.of_N (digits_value 0 ds))%Z else Z.of_N (digits_value 0 ds)
  end.

Definition literal_text (int frac : jsstring) (ex : option (bool * jsstring)) : jsstring :=
  int ++ fraction_part frac ++ exponent_part ex.

Definition minus_sign (negative : bool) : jsstring := if negative then [Ch.minus] else [].

Record literal_ok (int frac : jsstring) (ex : option (bool * jsstring)) : Prop := {
  int_digits : forallb is_digit int = true;
  int_head : exists d r, int = d :: r /\ (N.eqb d Ch.zero = true -> r = []);
  frac_digits : forallb is_digit frac = true;
  ex_digits : match ex with
              | None => True
              | Some (_, ds) => forallb is_digit ds = true /\ ds <> []
              end
}.

(** The keys of an object in the order of enumeration: no key twice,
    and no key that would have been enumerated before an earlier one. *)
Fixpoint ordered_keys (ks : list jsstring) : bool :=
  match ks with
  | [] => true
  | k :: rest =>
      forallb (fun k' => negb (str_eqb k' k) && negb (key_before k' k)) rest
      && ordered_keys rest
  end.

(** The objects and the Numbers of the value are as [JSON.parse] builds
    them. *)
Fixpoint wf_json (v : JSON) : bool :=
  match v with
  | JNumber x => wf_number x
  | JArray elements => forallb wf_json elements
  | JObject properties =>
      ordered_keys (map fst properties) && forallb (fun '(_, x) => wf_json x) properties
  | _ => true
  end.

(** The number of values in a value: a bound on the fuel its text needs. *)
Fixpoint size (v : JSON) : nat :=
  match v with
  | JArray elements => S (list_sum (map size elements))
  | JObject properties => S (list_sum (map (fun '(_, x) => size x) properties))
  | _ => 1
  end.

(** The schema of the specification's example:
    [{"formTitle":"T","formDescription":"D","fields":[{"id":"a","label":"A","type":"text","required":true}]}] *)
Definition sample_text : jsstring :=
  jq "{'formTitle':'T','formDescription':'D','fields':[{'id':'a','label':'A','type':'text','required':true}]}".

Definition sample_schema : JSON :=
  JObject [(js "formTitle", JString (js "T"));
           (js "formDescription", JString (js "D"));
           (js "fields",
            JArray [JObject [(js "id", JString (js "a"));
                             (js "label", JString (js "A"));
                             (js "type", JString (js "text"));
                             (js "required", JBool true)]])].

Definition sample_state : state :=
  {| formSchema := Some sample_schema; errorText := None; toastMessage := None |}.

(** The round trip as the specification describes it: a value that
    validation accepted and that the page displays is written to a file
    by export; importing that file, whatever the page displays by then,
    decodes it, accepts it and displays a value equal to the original. *)
Definition round_trip (E : engine) (v : JSON) : Prop :=
  generated_accepted E v [] \/ import_accepted E v ->
  forall st, formSchema st = Some v ->
  exists file st',
    handleExport st = (st', Some file)
    /\ forall st0, formSchema (handleFileChange E file st0) = Some v.

(** A schema with a number beyond the range of binary64 as the [id] of
    its field:
    [{"formTitle":"T","fields":[{"id":1e999,"label":"A","type":"text"}]}] *)
Definition overflow_text : jsstring :=
  jq "{'formTitle':'T','fields':[{'id':1e999,'label':'A','type':'text'}]}".

Definition overflow_schema : JSON :=
  JObject [(js "formTitle", JString (js "T"));
           (js "fields",
            JArray [JObject [(js "id", JNumber (Infinite false));
                             (js "label", JString (js "A"));
                             (js "type", JString (js "text"))]])].

(** What [JSON.stringify] and [JSON.parse] make of it: the [id] is [null]. *)
Definition overflow_schema_read_back : JSON :=
  JObject [(js "formTitle", JString (js "T"));
           (js "fields",
            JArray [JObject [(js "id", JNull);
                             (js "label", JString (js "A"));
                             (js "type", JString (js "text"))]])].

(** A schema with numbers, 0.5 and 120:
    [{"formTitle":"T","fields":[{"id":"age","label":"Age","type":"number","min":0.5,"max":120}]}] *)
Definition numbered_text : jsstring :=
  jq "{'formTitle':'T','fields':[{'id':'age','label':'Age','type':'number','min':0.5,'max':120}]}".

Definition numbered_schema : JSON :=
  JObject [(js "formTitle", JString (js "T"));
           (js "fields",
            JArray [JObject [(js "id", JString (js "age"));
                             (js "label", JString (js "Age"));
                             (js "type", JString (js "number"));
                             (js "min", JNumber (Finite false 4503599627370496 (-53)));
                             (js "max", JNumber (Finite false 8444249301319680 (-46)))]])].

Definition numbered_state : state :=
  {| formSchema := Some numbered_schema; errorText := None; toastMessage := None |}.

(** ** The declared type of a schema (types/form.ts) *)

Module Form.

Inductive FieldType : Type := text | textarea | number | email | select | checkbox.

Record FormField : Type := {
  id : jsstring;
  label : jsstring;
  type : FieldType;
  placeholder : option jsstring;
  required : bool;
  options : option (list jsstring)
}.

Record FormSchema : Type := {
  formTitle : jsstring;
  formDescription : jsstring;
  fields : list FormField
}.

Definition type_name (t : FieldType) : jsstring :=
  match t with
  | text => js "text"
  | textarea => js "textarea"
  | number => js "number"
  | email => js "email"
  | select => js "select"
  | checkbox => js "checkbox"
  end.

Definition optional (k : jsstring) (v : option JSON) : object :=
  match v with
  | Some x => [(k, x)]
  | None => []
  end.

(** A field as an object, its properties in the order of the interface;
    an optional property that is absent is not a property. *)
Definition field_json (f : FormField) : JSON :=
  JObject ([(js "id", JString (id f));
            (js "label", JString (label f));
            (js "type", JString (type_name (type f)))]
             ++ optional (js "placeholder") (option_map JString (placeholder f))
             ++ [(js "required", JBool (required f))]
             ++ optional (js "options")
                  (option_map (fun l => JArray (map JString l)) (options f))).

Definition schema_json (s : FormSchema) : JSON :=
  JObject [(js "formTitle", JString (formTitle s));
           (js "formDescription", JString (formDescription s));
           (js "fields", JArray (map field_json (fields s)))].

End Form.

(** ** More of the run time: reading a path of a decoded value *)

(** The wording of three more errors of the engine: the [TypeError] of
    reading a property of [undefined], of calling what is not a function,
    and of destructuring [null]. *)
Record wording : Type := {
  undefined_property_message : jsstring -> jsstring;
  not_a_function_message : jsstring -> jsstring;
  destructure_message : jsstring -> jsstring
}.

(** Messages in the style of V8, for the reference engine. *)
Definition reference_wording : wording := {|
  undefined_property_message := fun p =>
    js "Cannot read properties of undefined (reading '" ++ p ++ js "')";
  not_a_function_message := fun f => f ++ js " is not a function";
  destructure_message := fun p =>
    js "Cannot destructure property '" ++ p
      ++ js "' of '(intermediate value)' as it is null."
|}.

(** [o >>= k] on expressions that yield a value or throw. *)
Definition and_then {A B : Type} (o : outcome A) (k : A -> outcome B) : outcome B :=
  match o with
  | Value a => k a
  | Raised e => Raised e
  end.

Section Reading.

Variable E : engine.
Variable W : wording.

(** [v.p], for a [v] that may be [undefined] and the property names that
    the program reads. *)
Definition GetV (v : option JSON) (p : jsstring) : outcome (option JSON) :=
  match v with
  | None => Raised (TypeError (undefined_property_message W p))
  | Some x => Get E x p
  end.

(** [v[0]]: the first element of an array, the first code unit of a
    string, the property named [0] of an object. *)
Definition index0 (v : option JSON) : outcome (option JSON) :=
  match v with
  | None => Raised (TypeError (undefined_property_message W (js "0")))
  | Some JNull => Raised (TypeError (null_property_message E (js "0")))
  | Some (JArray elements) => Value (nth_error elements 0)
  | Some (JString s) => Value (option_map (fun c => JString [c]) (nth_error s 0))
  | Some (JObject properties) => Value (lookup (js "0") properties)
  | Some _ => Value None
  end.

(** [const { p } = v] *)
Definition destructure (v : JSON) (p : jsstring) : outcome (option JSON) :=
  match v with
  | JNull => Raised (TypeError (destructure_message W p))
  | _ => Get E v p
  end.

(** The receiver of [jsonString.trim()]: a string, or the call throws. *)
Definition trim_receiver (jsonString : option JSON) : outcome jsstring :=
  match jsonString with
  | None => Raised (TypeError (undefined_property_message W (js "trim")))
  | Some JNull => Raised (TypeError (null_property_message E (js "trim")))
  | Some (JString s) => Value s
  | Some _ => Raised (TypeError (not_a_function_message W (js "jsonString.trim")))
  end.

End Reading.

(** ** The server action (app/actions.ts): [withTimeout], [generateForm]
    and the whole of [generateFormInternal] *)

Module Action.

(** What the program reads of the response of [fetch]; [body] is what
    reading the body gives, its text or the rejection of the read. *)
Record Response : Type := {
  ok : bool;
  status : nat;
  statusText : jsstring;
  body : outcome jsstring
}.

(** [withTimeout(promise, timeoutMs, errorMessage)]: the race of the
    promise against a timer.  A promise is given by what it settles to
    when it settles before a timer of that many milliseconds fires. *)
Definition withTimeout {A : Type} (promise : N -> option (outcome A)) (timeoutMs : N)
  (errorMessage : jsstring) : outcome A :=
  match promise timeoutMs with
  | Some settled => settled
  | None => Raised (Error errorMessage)
  end.

Section Server.

Variable E : engine.
Variable W : wording.

(** [response.json()] *)
Definition json (response : Response) : outcome JSON :=
  and_then (body response) (JSON_parse E).

(** [data.candidates[0].content.parts[0].text] *)
Definition completion_text (data : JSON) : outcome (option JSON) :=
  and_then (Get E data (js "candidates")) (fun candidates =>
  and_then (index0 E W candidates) (fun candidate =>
  and_then (GetV E W candidate (js "content")) (fun content =>
  and_then (GetV E W content (js "parts")) (fun parts =>
  and_then (index0 E W parts) (fun part =>
  GetV E W part (js "text")))))).

(** [generateFormInternal], from the answer of [fetch] on: [fetched] is
    the response, or the rejection of the call.  The request, which is
    all that [prompt] and [apiKey] go into, is not part of the model. *)
Definition generateFormInternal (fetched : outcome Response) : console -> result * console :=
  catch_all
    (response <- lift fetched ;;
     if negb (ok response) then
       errorText <- lift (body response) ;;
       console_error [LString (js "Gemini API Error:"); LNumber (status response);
                      LString errorText] ;;
       return_ (Failure (js "Gemini API Error: " ++ decimal (status response)
                           ++ js " " ++ statusText response))
     else
       data <- lift (json response) ;;
       jsonString <- lift (completion_text data) ;;
       text <- lift (trim_receiver E W jsonString) ;;
       formSchema <- extract E text ;;
       check_generated E formSchema).

(** [generateForm(prompt)]: [apiKey] is [process.env.GEMINI_API_KEY];
    [network ms] is the answer of [fetch] if it comes, body read, before
    a timer of [ms] milliseconds fires. *)
Definition generateForm (apiKey : option jsstring) (prompt : jsstring)
  (network : N -> option (outcome Response)) : console -> result * console :=
  fun c =>
    if negb (truthy (option_map JString apiKey))
    then (Failure (js "GEMINI_API_KEY is not configured"), c)
    else if (negb (truthy (Some (JString prompt))) || (length (trim prompt) =? 0)%nat)%bool
    then (Failure (js "Prompt is required"), c)
    else
      match withTimeout
              (fun ms => option_map (fun fetched => Value (generateFormInternal fetched c))
                           (network ms))
              60000
              (js "Timeout: The operation exceeded 60 seconds. Please try again.")
      with
      | Value settled => settled
      | Raised error =>
          if includes (js "Timeout") (message error)
          then (Failure (message error), c)
          else (Failure (message error),
                c ++ [[LString (js "Error generating form:"); LError error]])
      end.

End Server.

End Action.

(** ** The API route (app/api/generate-form/route.ts): [POST] *)

Module Route.

(** The body of a response: [{ error }] or [{ schema }]. *)
Inductive Body : Type :=
| ErrorBody (error : jsstring)
| SchemaBody (schema : JSON).

(** [NextResponse.json(body, { status })]; the status is 200 when none
    is given. *)
Record NextResponse : Type := {
  body : Body;
  status : nat
}.

Definition drop_lf (s : jsstring) : jsstring :=
  match s with
  | c :: r => if N.eqb c Ch.lf then r else s
  | [] => []
  end.

(** [s.replace(/^```json\n?/, '')] *)
Definition strip_json_fence (s : jsstring) : jsstring :=
  if startsWith (js "```json") s then drop_lf (skipn 7 s) else s.

(** [s.replace(/^```\n?/, '')] *)
Definition strip_fence (s : jsstring) : jsstring :=
  if startsWith (js "```") s then drop_lf (skipn 3 s) else s.

(** [s.replace(/\n?```$/, '')]: the final fence, with the line feed
    before it if there is one. *)
Definition strip_closing_fence (s : jsstring) : jsstring :=
  match rev s with
  | a :: b :: c :: r =>
      if (N.eqb a Ch.backtick && N.eqb b Ch.backtick && N.eqb c Ch.backtick)%bool
      then rev (drop_lf r)
      else s
  | _ => s
  end.

(** Clean the response - remove markdown code blocks if present. *)
Definition clean (text : jsstring) : jsstring :=
  let jsonText := trim text in
  if startsWith (js "```json") jsonText
  then strip_closing_fence (strip_json_fence jsonText)
  else if startsWith (js "```") jsonText
  then strip_closing_fence (strip_fence jsonText)
  else jsonText.

Section Handler.

Variable E : engine.
Variable W : wording.

Fixpoint check_fields (formSchema : JSON) (fields : list JSON) : outcome NextResponse :=
  match fields with
  | [] => Value {| body := SchemaBody formSchema; status := 200 |}
  | field :: rest =>
      and_then (field_incomplete E field) (fun incomplete =>
      if (incomplete : bool)
      then Value {| body := ErrorBody (js "Invalid field structure in generated schema");
                    status := 500 |}
      else check_fields formSchema rest)
  end.

(** Validate the schema: the test on [formTitle] and [fields], then the
    loop over the fields. *)
Definition check (formSchema : JSON) : outcome NextResponse :=
  and_then (Get E formSchema (js "formTitle")) (fun formTitle =>
  and_then (Get E formSchema (js "fields")) (fun fields =>
  if (negb (truthy formTitle) || negb (truthy fields) || negb (isArray fields))%bool
  then Value {| body := ErrorBody (js "Invalid form schema generated"); status := 500 |}
  else
    match fields with
    | Some (JArray elements) => check_fields formSchema elements
    | _ => Value {| body := ErrorBody (js "Invalid form schema generated"); status := 500 |}
    end)).

(** The body of the [try] block.  [request] is the text of the body of
    the request; [generated] is the text of the answer of the model, or
    the rejection of the call. *)
Definition handle (request : jsstring) (apiKey : option jsstring)
  (generated : outcome jsstring) : outcome NextResponse :=
  and_then (JSON_parse E request) (fun parsed =>
  and_then (destructure E W parsed (js "description")) (fun description =>
  if (negb (truthy description)
      || negb (match description with Some (JString _) => true | _ => false end))%bool
  then Value {| body := ErrorBody (js "Description is required"); status := 400 |}
  else if negb (truthy (option_map JString apiKey))
  then Value {| body := ErrorBody (js "GEMINI_API_KEY is not configured"); status := 500 |}
  else
    and_then generated (fun text =>
    let jsonText := clean text in
    and_then (JSON_parse E jsonText) check))).

(** [POST(request)] *)
Definition POST (request : jsstring) (apiKey : option jsstring)
  (generated : outcome jsstring) : console -> NextResponse * console :=
  fun c =>
    match handle request apiKey generated with
    | Value response => (response, c)
    | Raised error =>
        ({| body := ErrorBody (js "Failed to generate form. Please try again.");
            status := 500 |},
         c ++ [[LString (js "Error generating form:"); LError error]])
    end.

End Handler.

End Route.

(** ** The page (app/page.tsx): [handleGenerate] *)

(** The state of the page: the prompt, and what [state] holds. *)
Record home : Type := {
  prompt : jsstring;
  page : state
}.

(** [handleGenerate], up to the end of the transition; [generateForm] is
    what the call of the server action resolves to. *)
Definition handleGenerate (generateForm : jsstring -> result) (h : home) : home :=
  if negb (truthy (Some (JString (trim (prompt h)))))
  then {| prompt := prompt h;
          page := {| formSchema := formSchema (page h);
                     errorText := Some (js "Please enter a form description");
                     toastMessage := toastMessage (page h) |} |}
  else
    match generateForm (prompt h) with
    | Success schema =>
        {| prompt := prompt h;
           page := {| formSchema := Some schema;
                      errorText := None;
                      toastMessage := toastMessage (page h) |} |}
    | Failure error =>
        {| prompt := prompt h;
           page := {| formSchema := None;
                      errorText := Some error;
                      toastMessage := toastMessage (page h) |} |}
    end.

(** ** Names made from the title, and the default values of the form
    (lib/code-generator.ts, components/form-preview.tsx) *)

(** [[a-zA-Z0-9]] *)
Definition is_alnum (c : char) : bool :=
  ((97 <=? c) && (c <=? 122) || (65 <=? c) && (c <=? 90) || (48 <=? c) && (c <=? 57))%N.

(** [s.replace(/[^a-zA-Z0-9]/g, r)]: without the [u] flag the pattern
    matches one code unit at a time. *)
Fixpoint replace_non_alnum (r s : jsstring) : jsstring :=
  match s with
  | [] => []
  | c :: s' => (if is_alnum c then [c] else r) ++ replace_non_alnum r s'
  end.

(** [componentName] of [generateFormComponentCode], and the name of the
    function that the generated code declares. *)
Definition componentName (formTitle : jsstring) : jsstring :=
  replace_non_alnum [] formTitle.

Definition component_function (formTitle : jsstring) : jsstring :=
  componentName formTitle ++ js "Form".

(** [fileName] of [generatePDF] *)
Definition fileName (formTitle : jsstring) : jsstring :=
  replace_non_alnum (js "-") formTitle ++ js "-filled.pdf".

(** [acc[k] = v] for a primitive [v], on an ordinary object: the key
    [__proto__] reaches the setter of [Object.prototype], which ignores a
    value that is neither an object nor [null]; any other key becomes, or
    stays, an own property. *)
Definition assign (k : jsstring) (v : JSON) (acc : object) : object :=
  if str_eqb k (js "__proto__") then acc else obj_set k v acc.

(** The default value of a field: [field.type === 'checkbox' ? false : ''] *)
Definition default_value (field : Form.FormField) : JSON :=
  match Form.type field with
  | Form.checkbox => JBool false
  | _ => JString []
  end.

(** [defaultValues] of [FormPreview]:
    [schema.fields.reduce((acc, field) => { acc[field.id] = ...; return acc; }, {})] *)
Definition defaultValues (fields : list Form.FormField) : object :=
  fold_left (fun acc field => assign (Form.id field) (default_value field) acc) fields [].

(** ** Notions used in the statements on the rest of the code *)

(** The braces that [s] leaves open, read inside braces opened [S d]
    times; [None] when [s] closes them all. *)
Fixpoint still_open (d : nat) (s : jsstring) : option nat :=
  match s with
  | [] => Some d
  | c :: r =>
      if is_lbrace c then still_open (S d) r
      else if is_rbrace c then
        match d with
        | O => None
        | S d' => still_open d' r
        end
      else still_open d r
  end.

(** The texts of [l] occur in [t] one after the other, without overlap. *)
Fixpoint in_order (l : list jsstring) (t : jsstring) : Prop :=
  match l with
  | [] => True
  | x :: rest => exists a b, t = a ++ x ++ b /\ in_order rest b
  end.

(** [s] is not the empty string: as a value, it is truthy. *)
Definition nonempty (s : jsstring) : bool :=
  match s with
  | [] => false
  | _ :: _ => true
  end.

(** A field of the declared type that both checks accept: its [id] and
    its [label] are not empty (its [type], one of six names, never is). *)
Definition named_field (f : Form.FormField) : bool :=
  nonempty (Form.id f) && nonempty (Form.label f).

(** ** Examples *)

(** The schema of the specification's example, as a value of the
    declared type. *)
Definition sample_form : Form.FormSchema :=
  {| Form.formTitle := js "T";
     Form.formDescription := js "D";
     Form.fields :=
       [{| Form.id := js "a"; Form.label := js "A"; Form.type := Form.text;
           Form.placeholder := None; Form.required := true; Form.options := None |}] |}.

(** An answer of the model that holds [text] as its completion. *)
Definition answer_with (text : jsstring) : JSON :=
  JObject [(js "candidates",
            JArray [JObject [(js "content",
                              JObject [(js "parts",
                                        JArray [JObject [(js "text", JString text)]])])]])].

Definition sample_response : Action.Response :=
  {| Action.ok := true;
     Action.status := 200;
     Action.statusText := js "OK";
     Action.body := Value (JSON_stringify (answer_with sample_text)) |}.

Definition sample_network : N -> option (outcome Action.Response) :=
  fun _ => Some (Value sample_response).

Definition sample_home : home :=
  {| prompt := js "A form";
     page := {| formSchema := None; errorText := None; toastMessage := None |} |}.

(** The example schema, written by [JSON.stringify] inside a fence, as
    the completion of an answer of the model. *)
Definition fenced_text : jsstring :=
  (js "```json" ++ [Ch.lf]) ++ JSON_stringify (Form.schema_json sample_form)
    ++ (Ch.lf :: js "```").

Definition fenced_response : Action.Response :=
  {| Action.ok := true;
     Action.status := 200;
     Action.statusText := js "OK";
     Action.body := Value (JSON_stringify (answer_with fenced_text)) |}.

(** ** Tactics *)

(** Rewriting with an equation on [f a], [a] being taken up to conversion. *)
Ltac rewrite_arg H :=
  match type of H with
  | ?f ?a = _ =>
      match goal with
      | |- context [f ?b] => change (f b) with (f a); rewrite H
      end
  end.

(** The same, [a] being taken up to an equality that [tac] proves. *)
Ltac rewrite_upto H tac :=
  match type of H with
  | ?f ?a = _ =>
      match goal with
      | |- context [f ?b] =>
          let Heq := fresh "Heq" in
          assert (Heq : b = a) by tac; rewrite Heq, H; clear Heq
      end
  end.

(** Arithmetic on the lengths of concatenations. *)
Ltac lengths := repeat rewrite length_app in *; cbn [length] in *; lia.


(* ================================================================== *)
(** * Part II: properties *)
(* ================================================================== *)

Unset Implicit Arguments.

(** ** Numbers: rounding, digits and literals *)

Section NumberFacts.
Open Scope Z_scope.

Lemma nearest_even_exact (n den : Z) : 0 < den -> nearest_even (n * den) den = n.
Proof.
  intros H. unfold nearest_even.
  rewrite Z.div_mul, Z.mod_mul by lia.
  destruct (2 * 0 ?= den) eqn:Hc; try reflexivity.
  - apply Z.compare_eq in Hc. lia.
  - apply Z.compare_gt_iff in Hc. lia.
Qed.

Lemma canonical_spec (m : positive) (e : Z) :
  canonical m e = true ->
  Zpos m < 2 ^ 53 /\ -1074 <= e <= 971 /\ (2 ^ 52 <= Zpos m \/ e = -1074).
Proof.
  unfold canonical. rewrite !andb_true_iff, orb_true_iff.
  rewrite Z.ltb_lt, !Z.leb_le, Z.eqb_eq. tauto.
Qed.

Lemma canonical_shift (m : positive) (e : Z) :
  canonical m e = true -> Z.max 0 (Z.log2 (Zpos m) + (e + 1074) - 52) = e + 1074.
Proof.
  intros H. apply canonical_spec in H. destruct H as (Hm & He & [Hn|Hs]).
  - rewrite (Z.log2_unique (Zpos m) 52) by (change (52 + 1) with 53; lia). lia.
  - assert (Z.log2 (Zpos m) < 53) by (apply Z.log2_lt_pow2; lia). 
    assert (0 <= Z.log2 (Zpos m)) by apply Z.log2_nonneg.
    destruct (Z.le_gt_cases (2 ^ 52) (Zpos m)) as [Hn|Hn].
    + rewrite (Z.log2_unique (Zpos m) 52) by (change (52 + 1) with 53; lia). lia.
    + assert (Z.log2 (Zpos m) < 52) by (apply Z.log2_lt_pow2; lia). lia.
Qed.

(** Rounding a value of binary64 gives that value. *)
Lemma round64_exact (negative : bool) (a b : Z) (m : positive) (e : Z) :
  canonical m e = true -> 0 < b ->
  a * 2 ^ 1074 = Zpos m * 2 ^ (e + 1074) * b ->
  round64 negative a b = Finite negative m e.
Proof.
  intros Hc Hb Hab. pose proof (canonical_spec _ _ Hc) as (Hm & He & _).
  unfold round64. rewrite Hab.
  rewrite Z.div_mul by lia.
  rewrite Z.log2_mul_pow2 by lia.
  replace (e + 1074 + Z.log2 (Z.pos m) - 52) with (Z.log2 (Z.pos m) + (e + 1074) - 52) by lia.
  rewrite (canonical_shift _ _ Hc).
  replace (Z.pos m * 2 ^ (e + 1074) * b) with (Z.pos m * (b * 2 ^ (e + 1074))) by ring.
  rewrite nearest_even_exact by (apply Z.mul_pos_pos; [lia|apply Z.pow_pos_nonneg; lia]).
  destruct (Z.pos m =? 2 ^ 53) eqn:H53; [apply Z.eqb_eq in H53; lia|].
  change (Z.pos m =? 0) with false. cbv iota.
  replace (e + 1074 - 1074) with e by lia.
  destruct (971 <? e) eqn:H971; [apply Z.ltb_lt in H971; lia|].
  reflexivity.
Qed.

Lemma round64_sign (negative : bool) (p q : Z) (m : positive) (e : Z) :
  round64 false p q = Finite false m e -> round64 negative p q = Finite negative m e.
Proof.
  unfold round64.
  destruct (_ =? 0); [discriminate|]. destruct (971 <? _); [discriminate|].
  intros H. injection H as <- <-. reflexivity.
Qed.

Lemma number_eqb_eq (x y : binary64) : number_eqb x y = true -> x = y.
Proof.
  destruct x as [a|a m e|a], y as [b|b m' e'|b]; cbn [number_eqb]; try discriminate.
  - intros H. apply eqb_prop in H. now subst.
  - rewrite !andb_true_iff. intros [[H1 H2] H3].
    apply eqb_prop in H1. apply Pos.eqb_eq in H2. apply Z.eqb_eq in H3. now subst.
  - intros H. apply eqb_prop in H. now subst.
Qed.

Lemma reads_as_written (m : positive) (e s i : Z) :
  reads_as m e s i = true -> written m e (s, i).
Proof.
  unfold reads_as, written. cbn [fst snd].
  destruct (1 <=? s) eqn:Hs; [|discriminate]. apply Z.leb_le in Hs.
  destruct (decimal_fraction s (- i)) as [p q]. cbn [fst snd].
  intros H. split; [exact Hs|]. now apply number_eqb_eq.
Qed.

Lemma candidate_written (m : positive) (e i s : Z) :
  candidate m e i = Some s -> written m e (s, i).
Proof.
  unfold candidate. destruct (exact_fraction m e) as [vp vq].
  destruct (if 0 <=? i then _ else _) as [num den].
  destruct (reads_as m e (num / den) i) eqn:Hlo;
    destruct (reads_as m e (num / den + 1) i) eqn:Hhi;
    try discriminate.
  - destruct (2 * (num mod den) ?= den).
    + destruct (Z.even (num / den)); intros H; injection H as <-;
        now apply reads_as_written.
    + intros H; injection H as <-; now apply reads_as_written.
    + intros H; injection H as <-; now apply reads_as_written.
  - intros H; injection H as <-; now apply reads_as_written.
  - intros H; injection H as <-; now apply reads_as_written.
Qed.

Lemma exact_written (m : positive) (e : Z) :
  canonical m e = true -> written m e (exact_digits m e, exact_decimals e).
Proof.
  intros Hc. pose proof (canonical_spec _ _ Hc) as (Hm & He & _).
  unfold written, exact_digits, exact_decimals, decimal_fraction. cbn [fst snd].
  destruct (0 <=? e) eqn:H0.
  - apply Z.leb_le in H0. change (0 <=? - 0) with true. cbn [fst snd].
    split; [assert (0 < 2 ^ e) by (apply Z.pow_pos_nonneg; lia); nia|].
    apply round64_exact; [exact Hc|lia|].
    change (10 ^ (- 0)) with 1.
    rewrite Z.pow_add_r by lia. ring.
  - apply Z.leb_gt in H0.
    replace (- - e) with e by lia.
    destruct (0 <=? e) eqn:H1; [apply Z.leb_le in H1; lia|]. cbn [fst snd].
    split; [assert (0 < 5 ^ (- e)) by (apply Z.pow_pos_nonneg; lia); nia|].
    apply round64_exact; [exact Hc|apply Z.pow_pos_nonneg; lia|].
    replace 1074 with ((e + 1074) + (- e)) at 1 by lia.
    rewrite Z.pow_add_r by lia.
    change 10 with (2 * 5). rewrite Z.pow_mul_l. ring.
Qed.

Lemma shortest_from_written (m : positive) (e : Z) (fuel : nat) (i : Z) :
  canonical m e = true -> written m e (shortest_from m e fuel i).
Proof.
  intros Hc. revert i. induction fuel as [|fuel IH]; intros i; cbn [shortest_from].
  - now apply exact_written.
  - destruct (candidate m e i) as [s|] eqn:Hcand; [|apply IH].
    now apply candidate_written in Hcand.
Qed.

Lemma shortest_written (m : positive) (e : Z) :
  canonical m e = true -> written m e (shortest m e).
Proof.
  intros Hc. unfold shortest. destruct (exact_fraction m e) as [vp vq].
  now apply shortest_from_written.
Qed.

Lemma digits_value_app (a b : jsstring) (acc : N) :
  digits_value acc (a ++ b) = digits_value (digits_value acc a) b.
Proof. revert acc. induction a as [|c a IH]; intros acc; [reflexivity|apply IH]. Qed.

Lemma digits_value_zeros (j : nat) (acc : N) :
  digits_value acc (repeat Ch.zero j) = (acc * 10 ^ N.of_nat j)%N.
Proof.
  revert acc. induction j as [|j IH]; intros acc.
  - cbn [repeat digits_value]. change (N.of_nat 0) with 0%N. rewrite N.pow_0_r. lia.
  - cbn [repeat digits_value]. rewrite IH. rewrite Nat2N.inj_succ, N.pow_succ_r'.
    unfold Ch.zero. lia.
Qed.

Lemma digit_char (z : Z) :
  0 <= z < 10 ->
  is_digit (Z.to_N (48 + z)) = true /\ (Z.to_N (48 + z) - 48)%N = Z.to_N z
  /\ (1 <= z -> N.eqb (Z.to_N (48 + z)) Ch.zero = false).
Proof.
  intros H. unfold is_digit, Ch.zero. repeat split.
  - apply andb_true_iff. split; apply N.leb_le; lia.
  - lia.
  - intros H1. apply N.eqb_neq. lia.
Qed.

Lemma digits_fuel_spec (fuel : nat) :
  forall z acc, 0 <= z < 2 ^ Z.of_nat (S fuel) ->
  exists ds, digits_fuel (S fuel) z acc = ds ++ acc /\ numeral z ds.
Proof.
  induction fuel as [|fuel IH]; intros z acc Hz.
  - change (2 ^ Z.of_nat 1) with 2 in Hz. cbn [digits_fuel].
    destruct (z <? 10) eqn:H10; [|apply Z.ltb_ge in H10; lia].
    rewrite Z.mod_small by lia.
    destruct (digit_char z ltac:(lia)) as (Hd & Hv & Hh).
    exists [Z.to_N (48 + z)]. split; [reflexivity|]. split; [|split].
    + cbn [forallb]. now rewrite Hd.
    + cbn [digits_value]. rewrite Hv. lia.
    + eexists _, _. split; [reflexivity|exact Hh].
  - remember (S fuel) as f eqn:Hf. cbn [digits_fuel].
    pose proof (Z.mod_pos_bound z 10 ltac:(lia)) as Hmod.
    destruct (digit_char (z mod 10) Hmod) as (Hd & Hv & Hh).
    destruct (z <? 10) eqn:H10.
    + apply Z.ltb_lt in H10. rewrite Z.mod_small in * by lia.
      exists [Z.to_N (48 + z)]. split; [reflexivity|]. split; [|split].
      * cbn [forallb]. now rewrite Hd.
      * cbn [digits_value]. rewrite Hv. lia.
      * eexists _, _. split; [reflexivity|exact Hh].
    + apply Z.ltb_ge in H10.
      assert (Hq : 0 <= z / 10 < 2 ^ Z.of_nat f).
      { split; [apply Z.div_pos; lia|].
        apply Z.div_lt_upper_bound; [lia|].
        replace (Z.of_nat (S f)) with (Z.succ (Z.of_nat f)) in Hz by lia.
        rewrite Z.pow_succ_r in Hz by lia. lia. }
      destruct (IH (z / 10) (Z.to_N (48 + z mod 10) :: acc) Hq)
        as (ds & Hds & Hall & Hval & d & r & Hcons & Hhead).
      exists (ds ++ [Z.to_N (48 + z mod 10)]). split; [|split; [|split]].
      * rewrite Hds, <- app_assoc. reflexivity.
      * rewrite forallb_app, Hall. cbn [forallb]. now rewrite Hd.
      * rewrite digits_value_app. cbn [digits_value]. rewrite Hv.
        pose proof (Z.div_mod z 10 ltac:(lia)). 
        assert (0 <= z / 10) by lia. lia.
      * exists d, (r ++ [Z.to_N (48 + z mod 10)]). split; [now rewrite Hcons|].
        intros _. apply Hhead.
        apply Z.div_le_lower_bound; lia.
Qed.

Lemma digits_numeral (z : Z) : 0 <= z -> numeral z (digits z).
Proof.
  intros Hz. unfold digits.
  destruct (digits_fuel_spec (Z.to_nat (Z.log2 z)) z []) as (ds & Hds & Hn).
  - split; [exact Hz|].
    destruct (Z.eq_dec z 0) as [->|Hne]; [reflexivity|].
    replace (Z.of_nat (S (Z.to_nat (Z.log2 z)))) with (Z.succ (Z.log2 z))
      by (pose proof (Z.log2_nonneg z); lia).
    apply Z.log2_spec. lia.
  - rewrite Hds, app_nil_r. exact Hn.
Qed.

Lemma span_digits_stops (ds r : jsstring) :
  forallb is_digit ds = true -> stops r = true -> span_digits (ds ++ r) = (ds, r).
Proof.
  intros Hd Hr. induction ds as [|c ds IH]; cbn [app].
  - destruct r as [|c r]; [reflexivity|]. cbn [span_digits]. cbn [stops] in Hr.
    now destruct (is_digit c).
  - cbn [forallb] in Hd. apply andb_true_iff in Hd. destruct Hd as [Hc Hd].
    cbn [span_digits]. rewrite Hc, (IH Hd). reflexivity.
Qed.

Lemma digit_bounds (c : char) : is_digit c = true -> (48 <= c <= 57)%N.
Proof.
  unfold is_digit. rewrite andb_true_iff, !N.leb_le. tauto.
Qed.

Lemma digit_not (c d : char) : is_digit c = true -> (d < 48 \/ 57 < d)%N -> N.eqb c d = false.
Proof. intros H Hd. apply digit_bounds in H. apply N.eqb_neq. lia. Qed.

Lemma digit_not_e (c : char) : is_digit c = true -> is_e c = false.
Proof.
  intros H. unfold is_e. rewrite !(digit_not _ _ H) by lia. reflexivity.
Qed.

Lemma delimited_stops (rest : jsstring) : delimited rest = true -> stops rest = true.
Proof.
  destruct rest as [|c r]; [reflexivity|]. cbn [delimited stops].
  rewrite !andb_true_iff. tauto.
Qed.

Lemma stops_exponent (ex : option (bool * jsstring)) (rest : jsstring) :
  delimited rest = true -> stops (exponent_part ex ++ rest) = true.
Proof.
  intros H. destruct ex as [[n ds]|]; [reflexivity|]. now apply delimited_stops.
Qed.

Lemma lex_exponent_part (pre rest : jsstring) (ex : option (bool * jsstring)) :
  match ex with
  | None => True
  | Some (_, ds) => forallb is_digit ds = true /\ ds <> []
  end ->
  delimited rest = true ->
  lex_exponent pre (exponent_part ex ++ rest) = POk (pre ++ exponent_part ex) rest.
Proof.
  intros Hex Hrest. destruct ex as [[n ds]|]; cbn [exponent_part app].
  - destruct Hex as [Hds Hne].
    assert (H : forall sg, (N.eqb sg Ch.plus || N.eqb sg Ch.minus)%bool = true ->
              lex_exponent pre (101%N :: sg :: ds ++ rest) = POk (pre ++ 101%N :: sg :: ds) rest).
    { intros sg Hsg. unfold lex_exponent. change (is_e 101%N) with true. cbv iota.
      rewrite Hsg. rewrite (span_digits_stops ds rest Hds (delimited_stops _ Hrest)).
      destruct ds as [|d ds]; [contradiction|]. reflexivity. }
    destruct n; apply H; reflexivity.
  - rewrite app_nil_r. destruct rest as [|c r]; [reflexivity|].
    unfold lex_exponent. cbn [delimited] in Hrest.
    rewrite !andb_true_iff in Hrest. destruct Hrest as [_ He].
    now destruct (is_e c).
Qed.

Lemma lex_fraction_part (pre frac rest : jsstring) (ex : option (bool * jsstring)) :
  forallb is_digit frac = true ->
  match ex with
  | None => True
  | Some (_, ds) => forallb is_digit ds = true /\ ds <> []
  end ->
  delimited rest = true ->
  lex_fraction pre (fraction_part frac ++ exponent_part ex ++ rest)
  = POk (pre ++ fraction_part frac ++ exponent_part ex) rest.
Proof.
  intros Hfrac Hex Hrest. destruct frac as [|f frac]; cbn [fraction_part app].
  - assert (H : lex_fraction pre (exponent_part ex ++ rest)
                = lex_exponent pre (exponent_part ex ++ rest)).
    { destruct ex as [[n ds]|]; [reflexivity|]. cbn [exponent_part app].
      destruct rest as [|c r]; [reflexivity|]. unfold lex_fraction.
      cbn [delimited] in Hrest. rewrite !andb_true_iff in Hrest.
      destruct Hrest as [[_ Hdot] _]. now destruct (N.eqb c Ch.dot). }
    rewrite H. now apply lex_exponent_part.
  - unfold lex_fraction. change (N.eqb Ch.dot Ch.dot) with true. cbv iota.
    change (f :: frac ++ exponent_part ex ++ rest)
      with ((f :: frac) ++ exponent_part ex ++ rest).
    rewrite (span_digits_stops (f :: frac) _ Hfrac (stops_exponent ex rest Hrest)).
    rewrite (lex_exponent_part _ rest ex Hex Hrest).
    rewrite <- app_assoc. reflexivity.
Qed.

Lemma stops_tail (frac rest : jsstring) (ex : option (bool * jsstring)) :
  delimited rest = true -> stops (fraction_part frac ++ exponent_part ex ++ rest) = true.
Proof.
  intros H. destruct frac; [now apply stops_exponent|reflexivity].
Qed.

(** The lexer reads a literal to its end. *)
Lemma lex_literal (negative : bool) (int frac rest : jsstring)
  (ex : option (bool * jsstring)) :
  literal_ok int frac ex -> delimited rest = true ->
  lex_number (minus_sign negative ++ literal_text int frac ex ++ rest)
  = POk (minus_sign negative ++ literal_text int frac ex) rest.
Proof.
  intros [Hint (d & r & -> & Hzero) Hfrac Hex] Hrest.
  cbn [forallb] in Hint. apply andb_true_iff in Hint. destruct Hint as [Hd Hr].
  assert (Hnm : N.eqb d Ch.minus = false) by (apply (digit_not _ _ Hd); unfold Ch.minus; lia).
  unfold literal_text. rewrite <- !app_assoc.
  set (tail := fraction_part frac ++ exponent_part ex ++ rest).
  assert (Hlex : forall sg,
            (if N.eqb d Ch.zero then lex_fraction (sg ++ [d]) (r ++ tail)
             else if is_digit d
                  then let (ds, r') := span_digits (r ++ tail) in
                       lex_fraction (sg ++ d :: ds) r'
                  else PErr (d :: r ++ tail))
            = POk (sg ++ (d :: r) ++ fraction_part frac ++ exponent_part ex) rest).
  { intros sg. destruct (N.eqb d Ch.zero) eqn:Hz.
    - rewrite (Hzero eq_refl). cbn [app]. unfold tail.
      rewrite lex_fraction_part by assumption. now rewrite <- app_assoc.
    - rewrite Hd. unfold tail at 1.
      rewrite (span_digits_stops r _ Hr (stops_tail frac rest ex Hrest)).
      unfold tail. rewrite lex_fraction_part by assumption.
      rewrite <- app_assoc. reflexivity. }
  unfold lex_number. destruct negative; cbn [minus_sign app].
  - change (N.eqb Ch.minus Ch.minus) with true. cbv iota. apply (Hlex [Ch.minus]).
  - rewrite Hnm. apply (Hlex []).
Qed.

Lemma unsigned_value_literal (int frac : jsstring) (ex : option (bool * jsstring)) :
  literal_ok int frac ex ->
  unsigned_value (literal_text int frac ex)
  = (Z.of_N (digits_value 0 (int ++ frac)), exponent_value ex - Z.of_nat (length frac)).
Proof.
  intros [Hint _ Hfrac Hex].
  unfold unsigned_value, literal_text.
  pose proof (stops_tail frac [] ex eq_refl) as Hstop. rewrite app_nil_r in Hstop.
  rewrite (span_digits_stops int _ Hint Hstop).
  destruct frac as [|f frac]; cbn [fraction_part app].
  - destruct ex as [[n ds]|]; cbn [exponent_part exponent_value].
    + change (N.eqb 101 Ch.dot) with false. cbv iota.
      destruct n.
      * change (N.eqb Ch.minus Ch.minus) with true. cbv iota. now rewrite app_nil_r.
      * change (N.eqb Ch.plus Ch.minus) with false.
        change (N.eqb Ch.plus Ch.plus) with true. cbv iota. now rewrite app_nil_r.
    + now rewrite app_nil_r.
  - change (N.eqb Ch.dot Ch.dot) with true. cbv iota.
    pose proof (stops_exponent ex [] eq_refl) as Hstop'. rewrite app_nil_r in Hstop'.
    change (f :: frac ++ exponent_part ex) with ((f :: frac) ++ exponent_part ex).
    rewrite (span_digits_stops (f :: frac) _ Hfrac Hstop').
    destruct ex as [[n ds]|]; cbn [exponent_part exponent_value].
    + destruct n.
      * change (N.eqb Ch.minus Ch.minus) with true. reflexivity.
      * change (N.eqb Ch.plus Ch.minus) with false.
        change (N.eqb Ch.plus Ch.plus) with true. reflexivity.
    + reflexivity.
Qed.

Lemma to_number_literal (negative : bool) (int frac : jsstring)
  (ex : option (bool * jsstring)) :
  literal_ok int frac ex ->
  to_number (minus_sign negative ++ literal_text int frac ex)
  = round64 negative
      (fst (decimal_fraction (Z.of_N (digits_value 0 (int ++ frac)))
              (exponent_value ex - Z.of_nat (length frac))))
      (snd (decimal_fraction (Z.of_N (digits_value 0 (int ++ frac)))
              (exponent_value ex - Z.of_nat (length frac)))).
Proof.
  intros Hok. pose proof Hok as [Hint (d & r & Hcons & _) _ _].
  assert (Hd : is_digit d = true).
  { rewrite Hcons in Hint. cbn [forallb] in Hint. now apply andb_true_iff in Hint. }
  assert (Hnm : N.eqb d Ch.minus = false) by (apply (digit_not _ _ Hd); unfold Ch.minus; lia).
  unfold to_number.
  assert (Hsign : split_sign (minus_sign negative ++ literal_text int frac ex)
                  = (negative, literal_text int frac ex)).
  { destruct negative; cbn [minus_sign app]; [reflexivity|].
    unfold literal_text, split_sign. rewrite Hcons. cbn [app]. now rewrite Hnm. }
  rewrite Hsign, (unsigned_value_literal _ _ _ Hok).
  now destruct (decimal_fraction _ _).
Qed.

Lemma zeros_digits (j : nat) : forallb is_digit (repeat Ch.zero j) = true.
Proof. induction j as [|j IH]; [reflexivity|exact IH]. Qed.

Lemma forallb_firstn {A : Type} (p : A -> bool) (n : nat) (l : list A) :
  forallb p l = true -> forallb p (firstn n l) = true.
Proof.
  intros H. rewrite <- (firstn_skipn n l), forallb_app in H.
  now apply andb_true_iff in H.
Qed.

Lemma forallb_skipn {A : Type} (p : A -> bool) (n : nat) (l : list A) :
  forallb p l = true -> forallb p (skipn n l) = true.
Proof.
  intros H. rewrite <- (firstn_skipn n l), forallb_app in H.
  now apply andb_true_iff in H.
Qed.

Lemma digits_value_leading_zeros (j : nat) (ds : jsstring) :
  digits_value 0 (Ch.zero :: repeat Ch.zero j ++ ds) = digits_value 0 ds.
Proof.
  change (Ch.zero :: repeat Ch.zero j ++ ds) with (repeat Ch.zero (S j) ++ ds).
  rewrite digits_value_app, digits_value_zeros. reflexivity.
Qed.

(** The text of the digits [ds] of [s], with the decimal point after the
    [n]th digit, is a literal of value [s * 10 ^ (n - k)]. *)
Lemma digits_text_literal (s : Z) (ds : jsstring) (n : Z) :
  numeral s ds -> 1 <= s ->
  exists int frac ex,
    digits_text ds n = literal_text int frac ex
    /\ literal_ok int frac ex
    /\ decimal_fraction (Z.of_N (digits_value 0 (int ++ frac)))
         (exponent_value ex - Z.of_nat (length frac))
       = decimal_fraction s (n - Z.of_nat (length ds)).
Proof.
  intros (Hall & Hval & d & r & Hcons & Hhead) Hs.
  specialize (Hhead Hs).
  assert (Hd : is_digit d = true).
  { rewrite Hcons in Hall. cbn [forallb] in Hall. now apply andb_true_iff in Hall. }
  assert (Hk : 1 <= Z.of_nat (length ds)) by (rewrite Hcons; cbn [length]; lia).
  unfold digits_text. cbv zeta.
  destruct ((Z.of_nat (length ds) <=? n) && (n <=? 21))%bool eqn:Ha.
  { (* the digits, and zeros *)
    apply andb_true_iff in Ha. destruct Ha as [Ha _]. apply Z.leb_le in Ha.
    exists (ds ++ repeat Ch.zero (Z.to_nat (n - Z.of_nat (length ds)))), [], None.
    split; [unfold literal_text; cbn [fraction_part exponent_part]; now rewrite !app_nil_r|].
    split.
    - constructor.
      + now rewrite forallb_app, Hall, zeros_digits.
      + exists d, (r ++ repeat Ch.zero (Z.to_nat (n - Z.of_nat (length ds)))).
        split; [now rewrite Hcons|]. intros H. congruence.
      + reflexivity.
      + exact I.
    - rewrite app_nil_r, digits_value_app, digits_value_zeros.
      cbn [exponent_value length]. unfold decimal_fraction.
      change (0 <=? 0 - Z.of_nat 0) with true. cbv iota.
      destruct (0 <=? n - Z.of_nat (length ds)) eqn:H0; [|apply Z.leb_gt in H0; lia].
      change (0 - Z.of_nat 0) with 0. rewrite Z.pow_0_r, Z.mul_1_r.
      rewrite N2Z.inj_mul, N2Z.inj_pow, Hval, nat_N_Z, Z2Nat.id by lia.
      reflexivity. }
  destruct ((0 <? n) && (n <=? 21))%bool eqn:Hb.
  { (* the decimal point inside the digits *)
    apply andb_true_iff in Hb. destruct Hb as [Hb Hb21]. apply Z.ltb_lt in Hb.
    assert (Hn : n < Z.of_nat (length ds)).
    { apply andb_false_iff in Ha. destruct Ha as [Ha|Ha]; [now apply Z.leb_gt in Ha|congruence]. }
    exists (firstn (Z.to_nat n) ds), (skipn (Z.to_nat n) ds), None.
    assert (Hlen : length (skipn (Z.to_nat n) ds) = (length ds - Z.to_nat n)%nat)
      by apply length_skipn.
    split; [|split].
    - unfold literal_text. cbn [exponent_part]. rewrite app_nil_r.
      destruct (skipn (Z.to_nat n) ds) as [|f fs] eqn:Hsk; [cbn [length] in Hlen; lia|].
      reflexivity.
    - constructor.
      + now apply forallb_firstn.
      + destruct (Z.to_nat n) as [|n'] eqn:Hn'; [lia|].
        rewrite Hcons. cbn [firstn]. eexists _, _. split; [reflexivity|congruence].
      + now apply forallb_skipn.
      + exact I.
    - rewrite firstn_skipn, Hval, Hlen. cbn [exponent_value].
      f_equal. lia. }
  destruct ((-6 <? n) && (n <=? 0))%bool eqn:Hc.
  { (* zeros after the decimal point, and the digits *)
    apply andb_true_iff in Hc. destruct Hc as [_ Hc]. apply Z.leb_le in Hc.
    exists [Ch.zero], (repeat Ch.zero (Z.to_nat (- n)) ++ ds), None.
    split; [|split].
    - unfold literal_text. cbn [exponent_part]. rewrite app_nil_r.
      rewrite Hcons. destruct (repeat Ch.zero (Z.to_nat (- n))); reflexivity.
    - constructor.
      + reflexivity.
      + now exists Ch.zero, [].
      + now rewrite forallb_app, zeros_digits.
      + exact I.
    - cbn [app]. rewrite digits_value_leading_zeros, Hval.
      rewrite length_app, repeat_length. cbn [exponent_value].
      f_equal. lia. }
  (* one digit, the others after the decimal point, and an exponent *)
  assert (Hn : n - 1 <> 0).
  { apply andb_false_iff in Ha. apply andb_false_iff in Hb. apply andb_false_iff in Hc.
    rewrite Z.leb_gt, Z.ltb_ge in *. lia. }
  pose proof (digits_numeral (Z.abs (n - 1)) (Z.abs_nonneg _))
    as (Heall & Heval & de & re & Hecons & _).
  assert (Hex : exponent_value (Some (n - 1 <? 0, digits (Z.abs (n - 1)))) = n - 1).
  { cbn [exponent_value]. rewrite Heval.
    destruct (n - 1 <? 0) eqn:Hneg; [apply Z.ltb_lt in Hneg|apply Z.ltb_ge in Hneg]; lia. }
  exists [d], r, (Some (n - 1 <? 0, digits (Z.abs (n - 1)))).
  split; [|split].
  - rewrite Hcons. unfold literal_text. cbn [exponent_part].
    destruct r as [|d' r']; [reflexivity|].
    cbn [fraction_part app]. reflexivity.
  - constructor.
    + cbn [forallb]. now rewrite Hd.
    + now exists d, [].
    + rewrite Hcons in Hall. cbn [forallb] in Hall. now apply andb_true_iff in Hall.
    + split; [exact Heall|]. rewrite Hecons. discriminate.
  - change ([d] ++ r) with (d :: r). rewrite <- Hcons, Hval, Hex.
    f_equal. rewrite Hcons. cbn [length]. lia.
Qed.

Lemma digits_text_head (s : Z) (ds : jsstring) (n : Z) :
  numeral s ds -> exists c t, digits_text ds n = c :: t /\ is_digit c = true.
Proof.
  intros (Hall & _ & d & r & -> & _).
  cbn [forallb] in Hall. apply andb_true_iff in Hall. destruct Hall as [Hd _].
  unfold digits_text. cbv zeta.
  destruct ((Z.of_nat (length (d :: r)) <=? n) && (n <=? 21))%bool;
    [eexists d, _; split; [reflexivity|exact Hd]|].
  destruct ((0 <? n) && (n <=? 21))%bool eqn:Hb.
  - apply andb_true_iff in Hb. destruct Hb as [Hb _]. apply Z.ltb_lt in Hb.
    destruct (Z.to_nat n) as [|n'] eqn:Hn'; [lia|].
    eexists d, _; split; [reflexivity|exact Hd].
  - destruct ((-6 <? n) && (n <=? 0))%bool; [eexists Ch.zero, _; split; reflexivity|].
    destruct r; (eexists d, _; split; [reflexivity|exact Hd]).
Qed.

Lemma nearest_even_bounds (num den : Z) :
  num / den <= nearest_even num den <= num / den + 1.
Proof.
  unfold nearest_even.
  destruct (2 * (num mod den) ?= den); [destruct (Z.even (num / den))|..]; lia.
Qed.

Lemma round64_wf (negative : bool) (p q : Z) :
  0 <= p -> 0 < q -> wf_number (round64 negative p q) = true.
Proof.
  intros Hp Hq. unfold round64.
  set (P := p * 2 ^ 1074).
  set (sh := Z.max 0 (Z.log2 (P / q) - 52)).
  set (n := nearest_even P (q * 2 ^ sh)).
  assert (HP : 0 <= P) by (apply Z.mul_nonneg_nonneg; [exact Hp|apply Z.pow_nonneg; lia]).
  assert (Ht : 0 <= P / q) by (apply Z.div_pos; lia).
  assert (Hsh : 0 <= sh) by (unfold sh; lia).
  assert (H2 : 0 < 2 ^ sh) by (apply Z.pow_pos_nonneg; lia).
  assert (Hf : P / (q * 2 ^ sh) = P / q / 2 ^ sh) by (rewrite Z.div_div; lia).
  assert (Hupper : P / q / 2 ^ sh < 2 ^ 53).
  { destruct (Z.eq_dec (P / q) 0) as [->|Hne].
    - rewrite Z.div_0_l by lia. reflexivity.
    - pose proof (Z.log2_spec (P / q) ltac:(lia)) as [_ Hlt].
      apply Z.div_lt_upper_bound; [exact H2|].
      rewrite <- Z.pow_add_r by lia.
      eapply Z.lt_le_trans; [exact Hlt|].
      apply Z.pow_le_mono_r; [lia|]. unfold sh. lia. }
  assert (Hlower : 0 < sh -> 2 ^ 52 <= P / q / 2 ^ sh).
  { intros Hpos.
    assert (Hne : 0 < P / q).
    { destruct (Z.eq_dec (P / q) 0) as [H0|Hne]; [|lia].
      unfold sh in Hpos. rewrite H0 in Hpos. cbn in Hpos. lia. }
    pose proof (Z.log2_spec (P / q) Hne) as [Hle _].
    apply Z.div_le_lower_bound; [exact H2|].
    rewrite <- Z.pow_add_r by lia.
    eapply Z.le_trans; [|exact Hle].
    apply Z.pow_le_mono_r; [lia|]. unfold sh. unfold sh in Hpos. lia. }
  pose proof (nearest_even_bounds P (q * 2 ^ sh)) as Hn. fold n in Hn. rewrite Hf in Hn.
  destruct (n =? 2 ^ 53) eqn:H53.
  - change (2 ^ 52 =? 0) with false. cbv iota.
    destruct (971 <? sh + 1 - 1074) eqn:He; [reflexivity|]. apply Z.ltb_ge in He.
    cbn [wf_number]. unfold canonical.
    change (Z.pos (Z.to_pos (2 ^ 52))) with (2 ^ 52).
    change (2 ^ 52 <? 2 ^ 53) with true. change (2 ^ 52 <=? 2 ^ 52) with true.
    cbn [andb orb]. rewrite andb_true_r.
    apply andb_true_iff. split; apply Z.leb_le; lia.
  - apply Z.eqb_neq in H53.
    destruct (n =? 0) eqn:H0; [reflexivity|]. apply Z.eqb_neq in H0.
    destruct (971 <? sh - 1074) eqn:He; [reflexivity|]. apply Z.ltb_ge in He.
    assert (Hnpos : 0 < n).
    { pose proof (Z.div_pos (P / q) (2 ^ sh) Ht H2). lia. }
    cbn [wf_number]. unfold canonical. rewrite Z2Pos.id by exact Hnpos.
    rewrite !andb_true_iff, orb_true_iff, Z.ltb_lt, !Z.leb_le, Z.eqb_eq.
    repeat split; lia.
Qed.

Lemma decimal_fraction_positive (s e10 : Z) :
  0 <= s -> 0 <= fst (decimal_fraction s e10) /\ 0 < snd (decimal_fraction s e10).
Proof.
  intros Hs. unfold decimal_fraction. destruct (0 <=? e10) eqn:H; cbn [fst snd].
  - apply Z.leb_le in H. split; [|lia].
    apply Z.mul_nonneg_nonneg; [exact Hs|apply Z.pow_nonneg; lia].
  - apply Z.leb_gt in H. split; [exact Hs|apply Z.pow_pos_nonneg; lia].
Qed.

Lemma to_number_wf (literal : jsstring) : wf_number (to_number literal) = true.
Proof.
  unfold to_number. destruct (split_sign literal) as [negative s].
  unfold unsigned_value.
  destruct (span_digits s) as [int s1].
  destruct (match s1 with [] => _ | _ => _ end) as [frac s2].
  set (ex := match s2 with [] => _ | _ => _ end).
  pose proof (decimal_fraction_positive (Z.of_N (digits_value 0 (int ++ frac)))
                (ex - Z.of_nat (length frac)) (N2Z.is_nonneg _)) as [H1 H2].
  destruct (decimal_fraction _ _) as [p q]. cbn [fst snd] in *.
  now apply round64_wf.
Qed.

Lemma number_text_literal (x : binary64) :
  wf_number x = true -> plain_number x = true ->
  exists negative int frac ex,
    number_text x = minus_sign negative ++ literal_text int frac ex
    /\ literal_ok int frac ex
    /\ round64 negative
         (fst (decimal_fraction (Z.of_N (digits_value 0 (int ++ frac)))
                 (exponent_value ex - Z.of_nat (length frac))))
         (snd (decimal_fraction (Z.of_N (digits_value 0 (int ++ frac)))
                 (exponent_value ex - Z.of_nat (length frac)))) = x.
Proof.
  destruct x as [[|]|negative m e|negative]; cbn [wf_number plain_number];
    intros Hwf Hplain; try discriminate.
  - exists false, [Ch.zero], [], None. split; [reflexivity|]. split.
    + constructor; [reflexivity|now exists Ch.zero, []|reflexivity|exact I].
    + vm_compute. reflexivity.
  - pose proof (shortest_written m e Hwf) as [Hs Hround].
    cbn [number_text]. destruct (shortest m e) as [s i]. cbn [fst snd] in *.
    pose proof (digits_numeral s ltac:(lia)) as Hnum.
    destruct (digits_text_literal s (digits s) (Z.of_nat (length (digits s)) - i) Hnum Hs)
      as (int & frac & ex & Htext & Hok & Hval).
    exists negative, int, frac, ex. split; [|split; [exact Hok|]].
    + rewrite Htext. now destruct negative.
    + rewrite Hval.
      replace (Z.of_nat (length (digits s)) - i - Z.of_nat (length (digits s))) with (- i) by lia.
      now apply round64_sign.
Qed.

Lemma number_text_read (x : binary64) (rest : jsstring) :
  wf_number x = true -> plain_number x = true -> delimited rest = true ->
  lex_number (number_text x ++ rest) = POk (number_text x) rest
  /\ to_number (number_text x) = x.
Proof.
  intros Hwf Hplain Hrest.
  destruct (number_text_literal x Hwf Hplain)
    as (negative & int & frac & ex & -> & Hok & Hround).
  split.
  - rewrite <- app_assoc. now apply lex_literal.
  - now rewrite to_number_literal.
Qed.

End NumberFacts.

(** ** Strings *)

Lemma occurs_in_refl (s : jsstring) : occurs_in s s.
Proof. exists [], []. now rewrite app_nil_r. Qed.

Lemma occurs_in_trans (s t u : jsstring) :
  occurs_in s t -> occurs_in t u -> occurs_in s u.
Proof.
  intros (a & b & ->) (a' & b' & ->).
  exists (a' ++ a), (b ++ b'). now rewrite !app_assoc.
Qed.

Lemma dropWhile_suffix (p : char -> bool) (s : jsstring) :
  exists a, s = a ++ dropWhile p s /\ forallb p a = true.
Proof.
  induction s as [|c r IH]; simpl.
  - now exists [].
  - destruct (p c) eqn:Hc.
    + destruct IH as (a & Ha & Hp). exists (c :: a). simpl.
      rewrite Hc, Hp. split; [now f_equal|reflexivity].
    + now exists [].
Qed.

Lemma occurs_in_dropWhile (p : char -> bool) (s : jsstring) :
  occurs_in (dropWhile p s) s.
Proof.
  destruct (dropWhile_suffix p s) as (a & Ha & _).
  exists a, []. now rewrite app_nil_r.
Qed.

Lemma trimEnd_prefix (s : jsstring) :
  exists b, s = trimEnd s ++ b /\ forallb is_space b = true.
Proof.
  unfold trimEnd.
  destruct (dropWhile_suffix is_space (rev s)) as (a & Ha & Hp).
  exists (rev a). split.
  - rewrite <- rev_app_distr, <- Ha. now rewrite rev_involutive.
  - rewrite forallb_forall in Hp |- *. intros x Hx. apply Hp. now apply in_rev.
Qed.

Lemma occurs_in_trimEnd (s : jsstring) : occurs_in (trimEnd s) s.
Proof.
  destruct (trimEnd_prefix s) as (b & Hb & _). now exists [], b.
Qed.

Lemma occurs_in_trim (s : jsstring) : occurs_in (trim s) s.
Proof.
  unfold trim. eapply occurs_in_trans; [apply occurs_in_trimEnd|].
  apply occurs_in_dropWhile.
Qed.

Lemma occurs_in_skipn (n : nat) (s : jsstring) : occurs_in (skipn n s) s.
Proof.
  exists (firstn n s), []. now rewrite app_nil_r, firstn_skipn.
Qed.

Lemma occurs_in_firstn (n : nat) (s : jsstring) : occurs_in (firstn n s) s.
Proof.
  exists [], (skipn n s). simpl. now rewrite firstn_skipn.
Qed.

Lemma occurs_in_substring (a b : Z) (s : jsstring) : occurs_in (substring a b s) s.
Proof.
  unfold substring. eapply occurs_in_trans; [apply occurs_in_firstn|apply occurs_in_skipn].
Qed.

Lemma occurs_in_strip_json_fence (s : jsstring) : occurs_in (strip_json_fence s) s.
Proof.
  unfold strip_json_fence. destruct (startsWith_ci _ _).
  - eapply occurs_in_trans; [apply occurs_in_dropWhile|apply occurs_in_skipn].
  - apply occurs_in_refl.
Qed.

Lemma occurs_in_strip_fence (s : jsstring) : occurs_in (strip_fence s) s.
Proof.
  unfold strip_fence. destruct (startsWith _ _).
  - eapply occurs_in_trans; [apply occurs_in_dropWhile|apply occurs_in_skipn].
  - apply occurs_in_refl.
Qed.

Lemma rev_eq_cons (s r : jsstring) (a : char) :
  rev s = a :: r -> s = rev r ++ [a].
Proof.
  intros H. rewrite <- (rev_involutive s), H. reflexivity.
Qed.

Lemma occurs_in_strip_closing_fence (s : jsstring) :
  occurs_in (strip_closing_fence s) s.
Proof.
  unfold strip_closing_fence.
  destruct (rev s) as [|a [|b [|c r]]] eqn:Hr; try apply occurs_in_refl.
  destruct (_ && _); [|apply occurs_in_refl].
  apply rev_eq_cons in Hr. subst s. simpl.
  destruct (trimEnd_prefix (rev r)) as (t & Ht & _). unfold trimEnd in Ht.
  rewrite rev_involutive in Ht.
  exists [], (t ++ [c; b; a]). simpl.
  rewrite Ht at 1. now rewrite <- !app_assoc.
Qed.

Lemma occurs_in_clean (text : jsstring) : occurs_in (clean text) text.
Proof.
  unfold clean.
  set (t := trim text).
  assert (Ht : occurs_in t text) by apply occurs_in_trim.
  set (u := if startsWith (js "```json") t then _ else _).
  assert (Hu : occurs_in u text).
  { subst u. destruct (startsWith (js "```json") t).
    - eapply occurs_in_trans; [apply occurs_in_strip_closing_fence|].
      eapply occurs_in_trans; [apply occurs_in_strip_json_fence|exact Ht].
    - destruct (startsWith (js "```") t); [|exact Ht].
      eapply occurs_in_trans; [apply occurs_in_strip_closing_fence|].
      eapply occurs_in_trans; [apply occurs_in_strip_fence|exact Ht]. }
  destruct (_ && _); [|exact Hu].
  eapply occurs_in_trans; [apply occurs_in_substring|exact Hu].
Qed.

Lemma upto_last_rbrace_prefix (s m : jsstring) :
  upto_last_rbrace s = Some m -> exists b, s = m ++ b.
Proof.
  revert m. induction s as [|c r IH]; simpl; intros m H; [discriminate|].
  destruct (upto_last_rbrace r) as [m'|].
  - injection H as <-. destruct (IH m' eq_refl) as (b & ->). now exists b.
  - destruct (is_rbrace c); [|discriminate]. injection H as <-. now exists r.
Qed.

Lemma occurs_in_cons (c : char) (s t : jsstring) :
  occurs_in s t -> occurs_in s (c :: t).
Proof. intros (a & b & ->). now exists (c :: a), b. Qed.

Lemma occurs_in_match_braces (s m : jsstring) :
  match_braces s = Some m -> occurs_in m s.
Proof.
  induction s as [|c r IH]; simpl; [discriminate|].
  destruct (is_lbrace c).
  - destruct (upto_last_rbrace r) as [m'|] eqn:Hm.
    + intros H. injection H as <-.
      destruct (upto_last_rbrace_prefix _ _ Hm) as (b & ->). now exists [], b.
    + intros H. apply occurs_in_cons. auto.
  - intros H. apply occurs_in_cons. auto.
Qed.

(** ** The depth scan and the choice of the largest candidate *)

Lemma scan_loop_occurs (j rest : jsstring) (i depth start : Z) (acc : list jsstring) :
  forall x, In x (scan_loop j rest i depth start acc) -> In x acc \/ occurs_in x j.
Proof.
  revert i depth start acc.
  induction rest as [|c r IH]; simpl; intros i depth start acc x Hx; [now left|].
  destruct (is_lbrace c); [now apply IH in Hx|].
  destruct (is_rbrace c); [|now apply IH in Hx].
  destruct (_ && _); [|now apply IH in Hx].
  apply IH in Hx. destruct Hx as [Hx|Hx]; [|now right].
  apply in_app_or in Hx. destruct Hx as [Hx|[<-|[]]]; [now left|].
  right. apply occurs_in_substring.
Qed.

Lemma scan_objects_occurs (j x : jsstring) :
  In x (scan_objects j) -> occurs_in x j.
Proof.
  intros H. apply scan_loop_occurs in H. now destruct H as [[]|H].
Qed.

(** [fold_left longer rest a] is the last element of greatest length. *)
Lemma fold_longer_last_max (rest : list jsstring) (a : jsstring) :
  exists before after,
    a :: rest = before ++ fold_left longer rest a :: after
    /\ (forall x, In x before -> length x <= length (fold_left longer rest a))
    /\ (forall x, In x after -> length x < length (fold_left longer rest a)).
Proof.
  revert a. induction rest as [|b rest IH]; intros a; simpl.
  - exists [], []. repeat split; intros x [].
  - destruct (IH (longer a b)) as (before & after & Heq & Hb & Ha).
    set (w := fold_left longer rest (longer a b)) in *.
    unfold longer in Heq.
    destruct (Nat.ltb_spec (length b) (length a)) as [Hlt|Hge].
    + (* a is kept: b is strictly shorter *)
      destruct before as [|x before].
      * injection Heq as Hw Hrest. exists [], (b :: after). simpl.
        repeat split.
        -- now rewrite <- Hw, <- Hrest.
        -- intros x [].
        -- intros x [<-|Hx]; [rewrite <- Hw; exact Hlt|now apply Ha].
      * injection Heq as Hx Hrest. subst x.
        exists (a :: b :: before), after. simpl. repeat split.
        -- now rewrite Hrest.
        -- intros x [<-|[<-|Hx]].
           ++ apply Hb. now left.
           ++ assert (length a <= length w) by (apply Hb; now left). lia.
           ++ apply Hb. now right.
        -- exact Ha.
    + (* b replaces a *)
      exists (a :: before), after. simpl. repeat split.
      * now rewrite Heq.
      * intros x [<-|Hx]; [|now apply Hb].
        destruct before as [|y before].
        -- injection Heq as Hw _. rewrite <- Hw. exact Hge.
        -- injection Heq as Hy _. subst y.
           assert (length b <= length w) by (apply Hb; now left). lia.
      * exact Ha.
Qed.

Lemma largest_In (l : list jsstring) (x : jsstring) :
  largest l = Some x -> In x l.
Proof.
  destruct l as [|a rest]; unfold largest; [discriminate|].
  intros H. injection H as <-.
  destruct (fold_longer_last_max rest a) as (before & after & Heq & _).
  rewrite Heq. apply in_or_app. right. now left.
Qed.

(** ** The cascade of [extract], stage by stage *)

Lemma extract_eq (E : engine) (text : jsstring) (c : console) :
  extract E text c =
  match JSON_parse E (clean text) with
  | Value v => (Normal v, c)
  | Raised parseError =>
      let c1 := c ++ parse_log (clean text) parseError in
      match fallbackA E (clean text) with
      | Value v => (Normal v, c1)
      | Raised _ =>
          match fallbackB E (clean text) with
          | Value v => (Normal v, c1)
          | Raised _ =>
              match fallbackC E (clean text) with
              | Value v => (Normal v, c1)
              | Raised _ => (Return (parse_failure parseError), c1)
              end
          end
      end
  end.
Proof.
  unfold extract, try_catch, bind, lift, console_error, return_, parse_log.
  destruct (JSON_parse E (clean text)) as [v|e]; [reflexivity|].
  cbn [fst snd]. rewrite <- !app_assoc. cbn [app].
  destruct (fallbackA E (clean text)); [reflexivity|].
  destruct (fallbackB E (clean text)); [reflexivity|].
  destruct (fallbackC E (clean text)); reflexivity.
Qed.

Lemma fallbackA_occurs (E : engine) (j : jsstring) (v : JSON) :
  fallbackA E j = Value v -> exists s, occurs_in s j /\ JSON_parse E s = Value v.
Proof.
  unfold fallbackA. destruct (match_braces j) as [[|c m]|] eqn:Hm; try discriminate.
  intros H. exists (c :: m). split; [now apply occurs_in_match_braces|exact H].
Qed.

Lemma fallbackB_occurs (E : engine) (j : jsstring) (v : JSON) :
  fallbackB E j = Value v -> exists s, occurs_in s j /\ JSON_parse E s = Value v.
Proof.
  unfold fallbackB. destruct (_ && _); [|discriminate].
  intros H. eexists. split; [apply occurs_in_substring|exact H].
Qed.

Lemma fallbackC_occurs (E : engine) (j : jsstring) (v : JSON) :
  fallbackC E j = Value v -> exists s, occurs_in s j /\ JSON_parse E s = Value v.
Proof.
  unfold fallbackC. destruct (largest (scan_objects j)) as [cand|] eqn:Hl; [|discriminate].
  intros H. exists cand. split; [|exact H].
  apply scan_objects_occurs. now apply largest_In.
Qed.

Lemma parse_failure_nonempty (e : exn) :
  exists reason, parse_failure e = Failure reason /\ reason <> [].
Proof.
  unfold parse_failure. eexists. split; [reflexivity|]. discriminate.
Qed.

Lemma extract_failed (E : engine) (text : jsstring) (c : console) (e eA eB eC : exn) :
  JSON_parse E (clean text) = Raised e ->
  fallbackA E (clean text) = Raised eA ->
  fallbackB E (clean text) = Raised eB ->
  fallbackC E (clean text) = Raised eC ->
  extract E text c = (Return (parse_failure e), c ++ parse_log (clean text) e).
Proof.
  intros H HA HB HC. rewrite extract_eq, H, HA, HB, HC. reflexivity.
Qed.

Lemma failed_outcome (E : engine) (text : jsstring) (c c' : console) (e : exn) :
  extract E text c = (Return (parse_failure e), c') ->
  exists reason, extraction_outcome E text c = Failed reason /\ reason <> [].
Proof.
  intros H. unfold extraction_outcome. rewrite H. cbn [fst].
  destruct (parse_failure_nonempty e) as (reason & -> & Hne). now exists reason.
Qed.

(** C1. For every text, the extraction ends with a value: either it
    recovers a JSON value, decoded from a run of characters of the text,
    or it fails with a message that is not empty.  It never ends with an
    exception.  In particular a text none of whose parts decodes (the
    empty text is one, and so is a text of unbalanced braces) yields the
    failure. *)
Theorem extract_returns_a_value (E : engine) (text : jsstring) (c : console) :
  ((exists v, extraction_outcome E text c = Recovered v
              /\ exists s, occurs_in s text /\ JSON_parse E s = Value v)
   \/ (exists reason, extraction_outcome E text c = Failed reason /\ reason <> []))
  /\ (exists reason, extraction_outcome E [] c = Failed reason /\ reason <> [])
  /\ (exists reason, extraction_outcome E (js "{{") c = Failed reason /\ reason <> []).
Proof.
  split; [|split].
  - pose proof (occurs_in_clean text) as Hc.
    destruct (JSON_parse E (clean text)) as [v|e] eqn:Hp.
    { left. exists v. unfold extraction_outcome. rewrite extract_eq, Hp.
      split; [reflexivity|]. now exists (clean text). }
    destruct (fallbackA E (clean text)) as [v|eA] eqn:HA.
    { left. exists v. unfold extraction_outcome. rewrite extract_eq, Hp, HA.
      split; [reflexivity|].
      destruct (fallbackA_occurs _ _ _ HA) as (s & Hs & Hv).
      exists s. split; [eapply occurs_in_trans; eassumption|exact Hv]. }
    destruct (fallbackB E (clean text)) as [v|eB] eqn:HB.
    { left. exists v. unfold extraction_outcome. rewrite extract_eq, Hp, HA, HB.
      split; [reflexivity|].
      destruct (fallbackB_occurs _ _ _ HB) as (s & Hs & Hv).
      exists s. split; [eapply occurs_in_trans; eassumption|exact Hv]. }
    destruct (fallbackC E (clean text)) as [v|eC] eqn:HC.
    { left. exists v. unfold extraction_outcome. rewrite extract_eq, Hp, HA, HB, HC.
      split; [reflexivity|].
      destruct (fallbackC_occurs _ _ _ HC) as (s & Hs & Hv).
      exists s. split; [eapply occurs_in_trans; eassumption|exact Hv]. }
    right. eapply failed_outcome. eapply extract_failed; eassumption.
  - eapply failed_outcome. eapply extract_failed; reflexivity.
  - eapply failed_outcome. eapply extract_failed; reflexivity.
Qed.

(** C8, as stated, fails: two candidates of the same greatest length,
    and the one selected is the second, not the first one found. *)
Lemma tie_selects_last_counterexample :
  scan_objects (js "{a} {b}") = [js "{a}"; js "{b}"]
  /\ largest (scan_objects (js "{a} {b}")) = Some (js "{b}")
  /\ first_largest (scan_objects (js "{a} {b}")) = Some (js "{a}")
  /\ largest (scan_objects (js "{a} {b}")) <> first_largest (scan_objects (js "{a} {b}")).
Proof.
  repeat split; try reflexivity. vm_compute. discriminate.
Qed.

(** C8, amended. In the depth scan stage the candidate that is decoded
    is one of greatest length among all the candidates collected, and
    when several candidates have that length it is the last one found:
    every candidate after it is strictly shorter.  Without a candidate
    the stage throws. *)
Theorem largest_is_last_of_greatest_length (E : engine) (jsonString : jsstring) :
  match largest (scan_objects jsonString) with
  | Some candidate =>
      fallbackC E jsonString = JSON_parse E candidate
      /\ exists before after,
           scan_objects jsonString = before ++ candidate :: after
           /\ (forall x, In x before -> length x <= length candidate)
           /\ (forall x, In x after -> length x < length candidate)
  | None =>
      scan_objects jsonString = []
      /\ fallbackC E jsonString = Raised (Error (js "No valid JSON objects found"))
  end.
Proof.
  unfold fallbackC.
  destruct (scan_objects jsonString) as [|a rest]; unfold largest.
  - split; reflexivity.
  - split; [reflexivity|]. apply fold_longer_last_max.
Qed.

(** ** The scan sees braces only *)

Lemma skeleton_length (s t : jsstring) : skeleton s = skeleton t -> length s = length t.
Proof.
  intros H. apply (f_equal (@length _)) in H. unfold skeleton in H.
  now rewrite !length_map in H.
Qed.

Lemma skeleton_substring (a b : Z) (s t : jsstring) :
  skeleton s = skeleton t -> skeleton (substring a b s) = skeleton (substring a b t).
Proof.
  intros H. unfold substring, clamp. rewrite (skeleton_length _ _ H).
  unfold skeleton in *. rewrite <- !firstn_map, <- !skipn_map. now rewrite H.
Qed.

Lemma scan_loop_skeleton (j1 j2 : jsstring) (Hj : skeleton j1 = skeleton j2) :
  forall (r1 r2 : jsstring) (i depth start : Z) (acc1 acc2 : list jsstring),
    skeleton r1 = skeleton r2 ->
    Forall2 (fun x y => skeleton x = skeleton y) acc1 acc2 ->
    Forall2 (fun x y => skeleton x = skeleton y)
      (scan_loop j1 r1 i depth start acc1) (scan_loop j2 r2 i depth start acc2).
Proof.
  induction r1 as [|c1 r1 IH]; intros [|c2 r2] i depth start acc1 acc2 Hr Hacc;
    try discriminate; [exact Hacc|].
  injection Hr as Hc Hr. simpl.
  unfold classify in Hc.
  destruct (is_lbrace c1), (is_lbrace c2); try discriminate;
    try (destruct (is_rbrace c1); discriminate);
    try (destruct (is_rbrace c2); discriminate).
  - now apply IH.
  - destruct (is_rbrace c1), (is_rbrace c2); try discriminate.
    + destruct (_ && _); apply IH; auto.
      apply Forall2_app; [exact Hacc|]. constructor; [|constructor].
      now apply skeleton_substring.
    + now apply IH.
Qed.

(** C10. The depth scan tells its candidates apart by the braces alone:
    two texts with the same braces at the same places are cut at the same
    places, whatever the other characters are, quotes included.  So, on
    the text [{"a":1} {"b":"}"}], which reaches the scan, the second
    candidate ends at the brace inside the string; it is the one
    selected, it does not decode, and the extraction fails, although the
    object [{"b":"}"}] occurs in the text and decodes. *)
Theorem scan_ignores_string_literals (E : engine) (c : console) :
  (forall t1 t2 : jsstring, skeleton t1 = skeleton t2 ->
     Forall2 (fun x y => skeleton x = skeleton y) (scan_objects t1) (scan_objects t2))
  /\ let text := jq "{'a':1} {'b':'}'}" in
     JSON_parse E (clean text) = Raised (SyntaxError (syntax_message E text))
     /\ fallbackA E (clean text) = Raised (SyntaxError (syntax_message E text))
     /\ fallbackB E (clean text) = Raised (SyntaxError (syntax_message E text))
     /\ scan_objects (clean text) = [jq "{'a':1}"; jq "{'b':'}"]
     /\ largest (scan_objects (clean text)) = Some (jq "{'b':'}")
     /\ jq "{'b':'}'}" = jq "{'b':'}" ++ jq "'}"
     /\ occurs_in (jq "{'b':'}'}") text
     /\ JSON_parse E (jq "{'b':'}'}") = Value (JObject [(js "b", JString (js "}"))])
     /\ JSON_parse E (jq "{'b':'}") = Raised (SyntaxError (syntax_message E (jq "{'b':'}")))
     /\ exists reason, extraction_outcome E text c = Failed reason /\ reason <> [].
Proof.
  split.
  - intros t1 t2 H. unfold scan_objects. apply scan_loop_skeleton; auto.
  - cbv zeta. repeat split; try reflexivity.
    + exists (jq "{'a':1} "), []. reflexivity.
    + eapply failed_outcome.
      apply extract_failed
        with (e := SyntaxError (syntax_message E (jq "{'a':1} {'b':'}'}")))
             (eA := SyntaxError (syntax_message E (jq "{'a':1} {'b':'}'}")))
             (eB := SyntaxError (syntax_message E (jq "{'a':1} {'b':'}'}")))
             (eC := SyntaxError (syntax_message E (jq "{'b':'}")));
        vm_compute; reflexivity.
Qed.

(** ** The message of the failure *)

(** C5, as stated, fails: on [{"a":1} {bbbbbbb}] every stage fails; the
    message holds neither the error of the last stage nor the beginning
    of the text. *)
Lemma failure_message_counterexample :
  let text := jq "{'a':1} {bbbbbbb}" in
  let reason := js "Failed to parse AI response. Tried multiple parsing strategies. Error: Unexpected token { in JSON at position 8. Please try again." in
  extraction_outcome reference_engine text [] = Failed reason
  /\ fallbackC reference_engine (clean text)
     = Raised (SyntaxError (js "Unexpected token b in JSON at position 1"))
  /\ includes (js "Unexpected token b in JSON at position 1") reason = false
  /\ includes (substring 0 1000 text) reason = false
  /\ ~ carries_last_error_and_excerpt reference_engine text [].
Proof.
  cbv zeta. repeat split; try (vm_compute; reflexivity).
  intros H.
  destruct (H (js "Failed to parse AI response. Tried multiple parsing strategies. Error: Unexpected token { in JSON at position 8. Please try again.")
              eq_refl) as [_ Hexcerpt].
  vm_compute in Hexcerpt. discriminate.
Qed.

(** C5, amended. When every stage of the cascade fails to decode, the
    message of the failure is a fixed sentence around the message of the
    decode error of the first attempt, the one on the cleaned text, and
    nothing else; the first 1000 characters of the cleaned text are
    written to the console, with that error and the length of the
    cleaned text. *)
Theorem failure_carries_primary_error (E : engine) (text : jsstring) (c : console)
  (reason : jsstring) :
  extraction_outcome E text c = Failed reason ->
  exists parseError,
    JSON_parse E (clean text) = Raised parseError
    /\ reason = js "Failed to parse AI response. Tried multiple parsing strategies. Error: "
                  ++ message parseError ++ js ". Please try again."
    /\ snd (extract E text c) =
         c ++ [[LString (js "JSON parsing error:"); LError parseError];
               [LString (js "Raw response (first 1000 chars):");
                LString (substring 0 1000 (clean text))];
               [LString (js "Raw response length:"); LNumber (length (clean text))]].
Proof.
  unfold extraction_outcome. rewrite extract_eq.
  destruct (JSON_parse E (clean text)) as [v|e]; [discriminate|].
  cbv zeta.
  destruct (fallbackA E (clean text)); [discriminate|].
  destruct (fallbackB E (clean text)); [discriminate|].
  destruct (fallbackC E (clean text)); [discriminate|].
  cbn [fst snd]. unfold parse_failure. intros H. injection H as <-.
  exists e. repeat split.
Qed.

Lemma failure_carries_primary_error_witness :
  exists parseError,
    JSON_parse reference_engine (clean (js "{{")) = Raised parseError
    /\ js "Failed to parse AI response. Tried multiple parsing strategies. Error: Unexpected token { in JSON at position 1. Please try again."
       = js "Failed to parse AI response. Tried multiple parsing strategies. Error: "
           ++ message parseError ++ js ". Please try again."
    /\ snd (extract reference_engine (js "{{") []) =
         [] ++ [[LString (js "JSON parsing error:"); LError parseError];
                [LString (js "Raw response (first 1000 chars):");
                 LString (substring 0 1000 (clean (js "{{")))];
                [LString (js "Raw response length:"); LNumber (length (clean (js "{{")))]].
Proof.
  apply (failure_carries_primary_error reference_engine (js "{{") []).
  vm_compute. reflexivity.
Defined.

(** ** The two checks of a decoded value *)

Lemma str_eqb_eq (a b : jsstring) : str_eqb a b = true <-> a = b.
Proof.
  revert b. induction a as [|x a IH]; intros [|y b]; simpl; split; intros H;
    try discriminate; try reflexivity.
  - apply andb_true_iff in H. destruct H as [Hx Hab].
    apply N.eqb_eq in Hx. apply IH in Hab. now subst.
  - injection H as -> ->. rewrite N.eqb_refl. now apply IH.
Qed.

Lemma str_eqb_refl (a : jsstring) : str_eqb a a = true.
Proof. now apply str_eqb_eq. Qed.

Lemma field_incomplete_complete (E : engine) (field : JSON) :
  field <> JNull -> field_incomplete E field = Value (negb (complete_field field)).
Proof.
  intros Hn. unfold field_incomplete, complete_field.
  destruct field as [|b|l|s|els|o]; try reflexivity; [contradiction|].
  unfold Get.
  destruct (truthy (lookup (js "id") o)); [|reflexivity].
  destruct (truthy (lookup (js "label") o)); reflexivity.
Qed.

Lemma complete_field_not_null (field : JSON) : complete_field field = true -> field <> JNull.
Proof. intros H ->. discriminate. Qed.

(** The loop over [fields] in [validateFormSchema], by the first element
    that is not complete. *)
Lemma validate_fields_first_incomplete (E : engine) (fields : list JSON) :
  validate_fields E fields =
  match first_incomplete fields with
  | None => Value {| isValid := true; error := None |}
  | Some JNull => Raised (TypeError (null_property_message E (js "id")))
  | Some _ =>
      Value {| isValid := false;
               error := Some (js "Invalid JSON file: missing required field properties") |}
  end.
Proof.
  induction fields as [|field rest IH]; [reflexivity|].
  cbn [validate_fields first_incomplete].
  destruct (complete_field field) eqn:Hc.
  - rewrite field_incomplete_complete by now apply complete_field_not_null.
    rewrite Hc. exact IH.
  - destruct field as [|b|l|s|els|o]; try reflexivity.
    rewrite field_incomplete_complete by discriminate. now rewrite Hc.
Qed.

(** The same loop in [generateFormInternal]. *)
Lemma check_fields_first_incomplete (E : engine) (formSchema : JSON) (fields : list JSON)
  (c : console) :
  check_fields E formSchema fields c =
  match first_incomplete fields with
  | None => (Return (Success formSchema), c)
  | Some JNull => (Throw (TypeError (null_property_message E (js "id"))), c)
  | Some _ => (Return (Failure (js "Invalid field structure in generated schema")), c)
  end.
Proof.
  induction fields as [|field rest IH]; [reflexivity|].
  cbn [check_fields first_incomplete]. unfold bind, lift.
  destruct (complete_field field) eqn:Hc.
  - rewrite field_incomplete_complete by now apply complete_field_not_null.
    rewrite Hc. exact IH.
  - destruct field as [|b|l|s|els|o]; try reflexivity.
    rewrite field_incomplete_complete by discriminate. now rewrite Hc.
Qed.

Lemma check_generated_eq (E : engine) (v : JSON) (c : console) :
  check_generated E v c =
  match v with
  | JNull => (Throw (TypeError (null_property_message E (js "formTitle"))), c)
  | JObject o =>
      match truthy (lookup (js "formTitle") o), lookup (js "fields") o with
      | true, Some (JArray elements) => check_fields E v elements c
      | _, _ =>
          (Return (Failure (js "Invalid form schema generated: missing formTitle or fields")), c)
      end
  | _ => (Return (Failure (js "Invalid form schema generated: missing formTitle or fields")), c)
  end.
Proof.
  unfold check_generated, bind, lift, return_.
  destruct v as [|b|l|s|els|o]; cbn [Get]; try reflexivity.
  destruct (truthy (lookup (js "formTitle") o));
    destruct (lookup (js "fields") o) as [[|b|l|s|elements|o']|];
    cbn [truthy isArray negb orb]; try reflexivity;
    try (now destruct b); try (now destruct (is_zero l)); now destruct s.
Qed.

Lemma validateFormSchema_eq (E : engine) (v : JSON) :
  validateFormSchema E v =
  match v with
  | JObject o =>
      match lookup (js "fields") o with
      | Some (JArray elements) => validate_fields E elements
      | _ => Value {| isValid := false;
                      error := Some (js "Invalid JSON file: missing fields array") |}
      end
  | JArray _ =>
      Value {| isValid := false; error := Some (js "Invalid JSON file: missing fields array") |}
  | _ => Value {| isValid := false; error := Some (js "Invalid JSON file: not a valid object") |}
  end.
Proof.
  unfold validateFormSchema.
  destruct v as [|b|l|s|els|o]; cbn [Get truthy typeof_object negb orb];
    try reflexivity.
  - now destruct b.
  - now destruct (is_zero l).
  - now destruct s.
  - destruct (lookup (js "fields") o) as [[|b|l|s|elements|o']|];
      cbn [truthy isArray negb orb]; try reflexivity.
    + now destruct b.
    + now destruct (is_zero l).
    + now destruct s.
Qed.

Lemma generated_accepted_iff (E : engine) (v : JSON) (c : console) :
  generated_accepted E v c <->
  exists o elements,
    v = JObject o
    /\ truthy (lookup (js "formTitle") o) = true
    /\ lookup (js "fields") o = Some (JArray elements)
    /\ first_incomplete elements = None.
Proof.
  unfold generated_accepted, catch_all. rewrite check_generated_eq.
  split.
  - intros (schema & c' & H).
    destruct v as [|b|l|s|els|o]; try discriminate.
    destruct (truthy (lookup (js "formTitle") o)) eqn:Ht; [|discriminate].
    destruct (lookup (js "fields") o) as [[|b|l|s|elements|o']|] eqn:Hf; try discriminate.
    rewrite check_fields_first_incomplete in H.
    destruct (first_incomplete elements) as [[|b|l|s|els|o']|] eqn:Hb; try discriminate.
    now exists o, elements.
  - intros (o & elements & -> & Ht & Hf & Hb).
    rewrite Ht, Hf, check_fields_first_incomplete, Hb. now eexists _, _.
Qed.

Lemma import_accepted_iff (E : engine) (v : JSON) :
  import_accepted E v <->
  exists o elements,
    v = JObject o
    /\ lookup (js "fields") o = Some (JArray elements)
    /\ first_incomplete elements = None.
Proof.
  unfold import_accepted. rewrite validateFormSchema_eq.
  split.
  - intros (verdict & H & Hv).
    destruct v as [|b|l|s|els|o]; try (injection H as <-; discriminate).
    destruct (lookup (js "fields") o) as [[|b|l|s|elements|o']|] eqn:Hf;
      try (injection H as <-; discriminate).
    rewrite validate_fields_first_incomplete in H.
    destruct (first_incomplete elements) as [[|b|l|s|els|o']|] eqn:Hb;
      try discriminate; try (injection H as <-; discriminate).
    now exists o, elements.
  - intros (o & elements & -> & Hf & Hb).
    rewrite Hf, validate_fields_first_incomplete, Hb. now eexists.
Qed.

Lemma lookup_filter_other (p q : jsstring) (o : object) :
  str_eqb p q = false ->
  lookup p (filter (fun kv => negb (str_eqb q (fst kv))) o) = lookup p o.
Proof.
  intros Hpq. induction o as [|[k x] o IH]; [reflexivity|].
  cbn [filter fst lookup].
  destruct (str_eqb q k) eqn:Hqk; cbn [negb].
  - apply str_eqb_eq in Hqk. subst k. now rewrite Hpq.
  - cbn [lookup]. now rewrite IH.
Qed.

(** C2, as stated, fails: the object [{"fields": []}] is refused by the
    check of the AI-output path and accepted by [validateFormSchema]. *)
Lemma same_verdict_counterexample :
  validateFormSchema reference_engine (JObject [(js "fields", JArray [])])
  = Value {| isValid := true; error := None |}
  /\ catch_all (check_generated reference_engine (JObject [(js "fields", JArray [])])) []
     = (Failure (js "Invalid form schema generated: missing formTitle or fields"), [])
  /\ ~ same_verdict reference_engine (JObject [(js "fields", JArray [])]).
Proof.
  split; [reflexivity|]. split; [reflexivity|].
  intros [_ H].
  assert (Hi : import_accepted reference_engine (JObject [(js "fields", JArray [])])).
  { eexists. split; reflexivity. }
  apply H in Hi. apply generated_accepted_iff in Hi.
  destruct Hi as (o & elements & Ho & Ht & _). injection Ho as <-. discriminate.
Qed.

(** A number too small for binary64 is zero, and falsy: with such a
    [formTitle] the schema is refused by the check of the AI-output
    path, as it is without [formTitle]. *)
Lemma underflow_title_refused :
  JSON_parse reference_engine (jq "{'formTitle':1e-400,'fields':[]}")
  = Value (JObject [(js "formTitle", JNumber (Zero false)); (js "fields", JArray [])])
  /\ catch_all (check_generated reference_engine
                  (JObject [(js "formTitle", JNumber (Zero false));
                            (js "fields", JArray [])])) []
     = (Failure (js "Invalid form schema generated: missing formTitle or fields"), []).
Proof. split; vm_compute; reflexivity. Qed.

(** C2, amended. The check of the AI-output path is the check of
    [validateFormSchema] with one more rule, the one on [formTitle]: a
    decoded value passes the first exactly when [validateFormSchema]
    returns [isValid] true for it and its [formTitle] is present and not
    empty. *)
Theorem generated_check_is_import_check_and_title (E : engine) (v : JSON) (c : console) :
  generated_accepted E v c <->
  import_accepted E v /\ truthy (formTitle_of v) = true.
Proof.
  rewrite generated_accepted_iff, import_accepted_iff. split.
  - intros (o & elements & -> & Ht & Hf & Hb). split; [|exact Ht].
    now exists o, elements.
  - intros [(o & elements & -> & Hf & Hb) Ht]. now exists o, elements.
Qed.

(** C6, as stated, fails for the file import: [{"fields": []}] has no
    [formTitle], [validateFormSchema] returns [isValid] true for it, and
    [handleFileChange] loads it. *)
Lemma title_required_counterexample :
  formTitle_of (JObject [(js "fields", JArray [])]) = None
  /\ validateFormSchema reference_engine (JObject [(js "fields", JArray [])])
     = Value {| isValid := true; error := None |}
  /\ formSchema (handleFileChange reference_engine (jq "{'fields':[]}")
                   {| formSchema := None; errorText := None; toastMessage := None |})
     = Some (JObject [(js "fields", JArray [])])
  /\ ~ title_required reference_engine (JObject [(js "fields", JArray [])]).
Proof.
  repeat split; try reflexivity.
  intros H. destruct (H eq_refl) as [_ Hi]. apply Hi.
  eexists. split; reflexivity.
Qed.

(** C6, amended. For every decoded value whose [formTitle] is missing or
    empty, the check of the AI-output path returns a failure.  The check
    of the file-import path, [validateFormSchema], does not read
    [formTitle]: its verdict is the one it gives for the value without
    that property. *)
Theorem missing_title_fails_generated (E : engine) (v : JSON) (c : console) :
  truthy (formTitle_of v) = false ->
  (exists reason c', catch_all (check_generated E v) c = (Failure reason, c'))
  /\ validateFormSchema E v = validateFormSchema E (without_formTitle v).
Proof.
  intros Ht. split.
  - unfold catch_all. rewrite check_generated_eq.
    destruct v as [|b|l|s|els|o]; try (now eexists _, _).
    cbn [formTitle_of] in Ht. rewrite Ht. now eexists _, _.
  - rewrite !validateFormSchema_eq.
    destruct v as [|b|l|s|els|o]; try reflexivity.
    cbn [without_formTitle]. now rewrite lookup_filter_other by reflexivity.
Qed.

Lemma missing_title_fails_generated_witness :
  (exists reason c',
     catch_all (check_generated reference_engine (JObject [(js "fields", JArray [])])) []
     = (Failure reason, c'))
  /\ validateFormSchema reference_engine (JObject [(js "fields", JArray [])])
     = validateFormSchema reference_engine
         (without_formTitle (JObject [(js "fields", JArray [])])).
Proof.
  apply (missing_title_fails_generated reference_engine
           (JObject [(js "fields", JArray [])]) []).
  reflexivity.
Defined.

(** Where the first element of [fields] that is not complete is not
    [null], both checks report the structure of the field. *)
Lemma incomplete_field_rejected (E : engine) (o : object) (elements : list JSON)
  (bad : JSON) (c : console) :
  lookup (js "fields") o = Some (JArray elements) ->
  first_incomplete elements = Some bad ->
  bad <> JNull ->
  validateFormSchema E (JObject o)
  = Value {| isValid := false;
             error := Some (js "Invalid JSON file: missing required field properties") |}
  /\ (truthy (lookup (js "formTitle") o) = true ->
      catch_all (check_generated E (JObject o)) c
      = (Failure (js "Invalid field structure in generated schema"), c)).
Proof.
  intros Hf Hb Hn. split.
  - rewrite validateFormSchema_eq, Hf, validate_fields_first_incomplete, Hb.
    destruct bad; try reflexivity. contradiction.
  - intros Ht. unfold catch_all.
    rewrite check_generated_eq, Ht, Hf, check_fields_first_incomplete, Hb.
    destruct bad; try reflexivity. contradiction.
Qed.

(** C7, at the element [null]. On [{"formTitle":"T","fields":[null]}]
    reading [field.id] throws a [TypeError]: [validateFormSchema] ends
    with that exception instead of a verdict, so that [handleFileChange]
    reports a file that could not be parsed; and [generateFormInternal]
    returns the message of the exception, not the one for the structure of
    a field. *)
Theorem null_field_raises (E : engine) (c : console) (st : state) :
  let v := JObject [(js "formTitle", JString (js "T")); (js "fields", JArray [JNull])] in
  JSON_parse E (jq "{'formTitle':'T','fields':[null]}") = Value v
  /\ validateFormSchema E v = Raised (TypeError (null_property_message E (js "id")))
  /\ handleFileChange E (jq "{'formTitle':'T','fields':[null]}") st
     = {| formSchema := formSchema st;
          errorText := Some (js "Failed to parse JSON file. Please check the file format.");
          toastMessage := toastMessage st |}
  /\ generateFormInternal E (jq "{'formTitle':'T','fields':[null]}") c
     = (Failure (null_property_message E (js "id")),
        c ++ [[LString (js "Error generating form:");
               LError (TypeError (null_property_message E (js "id")))]]).
Proof.
  cbv zeta. repeat split; reflexivity.
Qed.

(** ** The reader of JSON: what it consumes *)

Lemma length_induction (P : jsstring -> Prop) :
  (forall s, (forall s', length s' < length s -> P s') -> P s) -> forall s, P s.
Proof.
  intros H s. remember (length s) as n eqn:Hn. revert s Hn.
  induction n as [n IH] using lt_wf_ind. intros s ->.
  apply H. intros s' Hs'. now apply (IH (length s')).
Qed.

Lemma suffix_refl (s : jsstring) : suffix s s.
Proof. now exists []. Qed.

Lemma suffix_cons (c : char) (r s : jsstring) : suffix r s -> suffix r (c :: s).
Proof. intros (pre & ->). now exists (c :: pre). Qed.

Lemma suffix_trans (a b c : jsstring) : suffix a b -> suffix b c -> suffix a c.
Proof. intros (p & ->) (q & ->). exists (q ++ p). now rewrite app_assoc. Qed.

Lemma suffix_length (r s : jsstring) : suffix r s -> length r <= length s.
Proof. intros (pre & ->). rewrite length_app. lia. Qed.

Lemma suffix_skipn (n : nat) (s : jsstring) : suffix (skipn n s) s.
Proof. exists (firstn n s). now rewrite firstn_skipn. Qed.

Lemma suffix_dropWhile (p : char -> bool) (s : jsstring) : suffix (dropWhile p s) s.
Proof. destruct (dropWhile_suffix p s) as (a & Ha & _). now exists a. Qed.

Lemma pmap_ok {A B : Type} (f : A -> B) (p : parsed A) (b : B) (r : jsstring) :
  pmap f p = POk b r -> exists a, p = POk a r /\ b = f a.
Proof. destruct p as [a r'|e]; simpl; intros H; [|discriminate]. injection H as <- <-. now exists a. Qed.

Lemma parse_chars_suffix (s k r : jsstring) :
  parse_chars s = POk k r -> suffix r s /\ length r < length s.
Proof.
  revert k r. induction s as [s IH] using length_induction. intros k r.
  destruct s as [|c s1]; cbn [parse_chars]; [discriminate|].
  destruct (N.eqb c Ch.quote).
  { intros H. injection H as <- <-. split; [apply suffix_cons, suffix_refl|simpl; lia]. }
  destruct (N.eqb c Ch.backslash).
  - destruct s1 as [|e s2]; [discriminate|].
    destruct (N.eqb e 117).
    + destruct s2 as [|h1 [|h2 [|h3 [|h4 s3]]]]; try discriminate.
      destruct (hex4 h1 h2 h3 h4); [|discriminate].
      intros H. apply pmap_ok in H. destruct H as (k' & H & _).
      apply IH in H; [|simpl; lia]. destruct H as [Hs Hl]. split.
      * do 6 apply suffix_cons. exact Hs.
      * simpl in *. lia.
    + destruct (unescape e); [|discriminate].
      intros H. apply pmap_ok in H. destruct H as (k' & H & _).
      apply IH in H; [|simpl; lia]. destruct H as [Hs Hl]. split.
      * do 2 apply suffix_cons. exact Hs.
      * simpl in *. lia.
  - destruct (c <? 32)%N; [discriminate|].
    intros H. apply pmap_ok in H. destruct H as (k' & H & _).
    apply IH in H; [|simpl; lia]. destruct H as [Hs Hl]. split.
    + apply suffix_cons. exact Hs.
    + simpl in *. lia.
Qed.

Lemma span_digits_app (s ds r : jsstring) :
  span_digits s = (ds, r) -> s = ds ++ r /\ forallb is_digit ds = true.
Proof.
  revert ds r. induction s as [|c s IH]; simpl; intros ds r H.
  - injection H as <- <-. now split.
  - destruct (is_digit c) eqn:Hc.
    + destruct (span_digits s) as [ds' r'] eqn:Hs. injection H as <- <-.
      destruct (IH _ _ eq_refl) as [-> Hd]. split; [reflexivity|].
      simpl. now rewrite Hc.
    + injection H as <- <-. now split.
Qed.

Lemma lex_exponent_suffix (pre s lit r : jsstring) :
  lex_exponent pre s = POk lit r -> suffix r s.
Proof.
  unfold lex_exponent. destruct s as [|e s1].
  { intros H. injection H as _ <-. apply suffix_refl. }
  destruct (is_e e); [|intros H; injection H as _ <-; apply suffix_refl].
  set (p := match s1 with [] => _ | c :: r' => _ end).
  assert (Hp : suffix (snd p) s1).
  { subst p. destruct s1 as [|c s2]; [apply suffix_refl|].
    destruct (_ || _); [apply suffix_cons|]; apply suffix_refl. }
  destruct p as [sg r1]. cbn [snd] in Hp.
  destruct (span_digits r1) as [ds r2] eqn:Hd.
  apply span_digits_app in Hd. destruct Hd as [-> _].
  destruct ds as [|d ds]; [discriminate|].
  intros H. injection H as _ <-.
  apply suffix_cons. eapply suffix_trans; [|exact Hp]. now exists (d :: ds).
Qed.

Lemma lex_fraction_suffix (pre s lit r : jsstring) :
  lex_fraction pre s = POk lit r -> suffix r s.
Proof.
  unfold lex_fraction. destruct s as [|c s1].
  { intros H. injection H as _ <-. apply suffix_refl. }
  destruct (N.eqb c Ch.dot); [|apply lex_exponent_suffix].
  destruct (span_digits s1) as [ds r1] eqn:Hd.
  apply span_digits_app in Hd. destruct Hd as [-> _].
  destruct ds as [|d ds]; [discriminate|].
  intros H. apply lex_exponent_suffix in H.
  apply suffix_cons. eapply suffix_trans; [exact H|]. now exists (d :: ds).
Qed.

Lemma lex_number_suffix (s lit r : jsstring) :
  lex_number s = POk lit r -> suffix r s /\ length r < length s.
Proof.
  unfold lex_number.
  set (p := match s with [] => _ | c :: r' => _ end).
  assert (Hp : suffix (snd p) s).
  { subst p. destruct s as [|c s1]; [apply suffix_refl|].
    destruct (N.eqb c Ch.minus); [apply suffix_cons|]; apply suffix_refl. }
  destruct p as [sign s1]. cbn [snd] in Hp.
  destruct s1 as [|c s2]; [discriminate|].
  assert (Hlen : forall r', suffix r' s2 -> suffix r' s /\ length r' < length s).
  { intros r' Hr. split.
    - eapply suffix_trans; [|exact Hp]. now apply suffix_cons.
    - apply suffix_length in Hr, Hp. simpl in Hp. lia. }
  destruct (N.eqb c Ch.zero).
  - intros H. apply lex_fraction_suffix in H. now apply Hlen.
  - destruct (is_digit c); [|discriminate].
    destruct (span_digits s2) as [ds r1] eqn:Hd.
    apply span_digits_app in Hd. destruct Hd as [Hs2 _].
    intros H. apply lex_fraction_suffix in H. apply Hlen.
    eapply suffix_trans; [exact H|]. now exists ds.
Qed.

Lemma suffix_skip_ws (s : jsstring) : suffix (skip_ws s) s.
Proof. apply suffix_dropWhile. Qed.

Lemma closed_by_trans (c : char) (r a s : jsstring) :
  (exists pre, a = pre ++ c :: r) -> suffix a s -> exists pre, s = pre ++ c :: r.
Proof.
  intros (pre & ->) (q & ->). exists (q ++ pre). now rewrite app_assoc.
Qed.

Lemma skip_ws_closed (c : char) (r s : jsstring) :
  skip_ws s = c :: r -> exists pre, s = pre ++ c :: r.
Proof.
  intros H. destruct (suffix_skip_ws s) as (pre & Hs). rewrite H in Hs. now exists pre.
Qed.

Lemma parse_elements_closed (pv : jsstring -> parsed JSON) :
  (forall s v r, pv s = POk v r -> suffix r s) ->
  forall n s l r, parse_elements pv n s = POk l r -> exists pre, s = pre ++ Ch.rbracket :: r.
Proof.
  intros Hpv. induction n as [|n IH]; intros s l r; cbn [parse_elements]; [discriminate|].
  destruct (pv s) as [v r1|e] eqn:Hv; [|discriminate].
  apply Hpv in Hv.
  destruct (skip_ws r1) as [|c r2] eqn:Hw; [discriminate|].
  apply skip_ws_closed in Hw.
  destruct (N.eqb c Ch.comma).
  - intros H. apply pmap_ok in H. destruct H as (l' & H & _). apply IH in H.
    eapply closed_by_trans; [exact H|].
    destruct Hw as (pre & ->). eapply suffix_trans; [|exact Hv].
    exists (pre ++ [c]). now rewrite <- app_assoc.
  - destruct (N.eqb_spec c Ch.rbracket) as [->|]; [|discriminate].
    intros H. injection H as _ <-. eapply closed_by_trans; [exact Hw|exact Hv].
Qed.

Lemma parse_members_closed (pv : jsstring -> parsed JSON) :
  (forall s v r, pv s = POk v r -> suffix r s) ->
  forall n s acc o r, parse_members pv n s acc = POk o r ->
    exists pre, s = pre ++ Ch.rbrace :: r.
Proof.
  intros Hpv. induction n as [|n IH]; intros s acc o r; cbn [parse_members]; [discriminate|].
  destruct (skip_ws s) as [|c s1] eqn:Hw0; [discriminate|].
  pose proof (suffix_skip_ws s) as Hs0. rewrite Hw0 in Hs0.
  destruct (N.eqb c Ch.quote); [|discriminate].
  destruct (parse_chars s1) as [key r1|e] eqn:Hk; [|discriminate].
  apply parse_chars_suffix in Hk. destruct Hk as [Hk _].
  destruct (skip_ws r1) as [|c1 r2] eqn:Hw1; [discriminate|].
  pose proof (suffix_skip_ws r1) as Hs1. rewrite Hw1 in Hs1.
  destruct (N.eqb c1 Ch.colon); [|discriminate].
  destruct (pv r2) as [v r3|e] eqn:Hv; [|discriminate].
  apply Hpv in Hv.
  destruct (skip_ws r3) as [|c2 r4] eqn:Hw2; [discriminate|].
  apply skip_ws_closed in Hw2.
  assert (Hr3 : suffix r3 s).
  { eapply suffix_trans; [exact Hv|].
    eapply suffix_trans; [|exact Hs0]. apply suffix_cons.
    eapply suffix_trans; [|exact Hk].
    eapply suffix_trans; [|exact Hs1]. apply suffix_cons, suffix_refl. }
  destruct (N.eqb c2 Ch.comma).
  - intros H. apply IH in H.
    eapply closed_by_trans; [exact H|].
    destruct Hw2 as (pre & ->). eapply suffix_trans; [|exact Hr3].
    exists (pre ++ [c2]). now rewrite <- app_assoc.
  - destruct (N.eqb_spec c2 Ch.rbrace) as [->|]; [|discriminate].
    intros H. injection H as _ <-. eapply closed_by_trans; [exact Hw2|exact Hr3].
Qed.

Lemma closed_suffix (c : char) (r s : jsstring) :
  (exists pre, s = pre ++ c :: r) -> suffix r s.
Proof. intros (pre & ->). exists (pre ++ [c]). now rewrite <- app_assoc. Qed.

Lemma parse_value_suffix (f : nat) :
  forall s v r, parse_value f s = POk v r -> suffix r s.
Proof.
  induction f as [|f IH]; intros s v r; cbn [parse_value]; [discriminate|].
  destruct (skip_ws s) as [|c s1] eqn:Hw; [discriminate|].
  pose proof (suffix_skip_ws s) as Hs. rewrite Hw in Hs.
  assert (Hsub : forall r', suffix r' (c :: s1) -> suffix r' s)
    by (intros r' Hr; eapply suffix_trans; eassumption).
  destruct (N.eqb c Ch.lbrace).
  { destruct (skip_ws s1) as [|c' s2] eqn:Hw1; [discriminate|].
    destruct (N.eqb c' Ch.rbrace).
    - intros H. injection H as _ <-. apply Hsub, suffix_cons.
      apply skip_ws_closed in Hw1. eapply closed_suffix.
      destruct Hw1 as (pre & ->). now exists pre.
    - intros H. apply pmap_ok in H. destruct H as (o & H & _).
      apply parse_members_closed in H; [|exact IH].
      apply Hsub, suffix_cons. eapply closed_suffix. exact H. }
  destruct (N.eqb c Ch.lbracket).
  { destruct (skip_ws s1) as [|c' s2] eqn:Hw1; [discriminate|].
    destruct (N.eqb c' Ch.rbracket).
    - intros H. injection H as _ <-. apply Hsub, suffix_cons.
      apply skip_ws_closed in Hw1. eapply closed_suffix.
      destruct Hw1 as (pre & ->). now exists pre.
    - intros H. apply pmap_ok in H. destruct H as (o & H & _).
      apply parse_elements_closed in H; [|exact IH].
      apply Hsub, suffix_cons. eapply closed_suffix. exact H. }
  destruct (N.eqb c Ch.quote).
  { intros H. apply pmap_ok in H. destruct H as (k & H & _).
    apply parse_chars_suffix in H. apply Hsub, suffix_cons. apply H. }
  destruct (startsWith (js "true") (c :: s1)).
  { intros H. injection H as _ <-. exact (Hsub _ (suffix_skipn 4 (c :: s1))). }
  destruct (startsWith (js "false") (c :: s1)).
  { intros H. injection H as _ <-. exact (Hsub _ (suffix_skipn 5 (c :: s1))). }
  destruct (startsWith (js "null") (c :: s1)).
  { intros H. injection H as _ <-. exact (Hsub _ (suffix_skipn 4 (c :: s1))). }
  destruct (_ || _); [|discriminate].
  intros H. apply pmap_ok in H. destruct H as (k & H & _).
  apply lex_number_suffix in H. apply Hsub, H.
Qed.

(** The text of an object: an opening brace first, white space apart,
    and a closing brace last. *)
Lemma parse_value_object (f : nat) (s : jsstring) (o : object) (r : jsstring) :
  parse_value f s = POk (JObject o) r ->
  exists s1, skip_ws s = Ch.lbrace :: s1 /\ exists pre, s1 = pre ++ Ch.rbrace :: r.
Proof.
  destruct f as [|f]; cbn [parse_value]; [discriminate|].
  destruct (skip_ws s) as [|c s1] eqn:Hw; [discriminate|].
  destruct (N.eqb_spec c Ch.lbrace) as [->|Hc].
  { intros H. exists s1. split; [reflexivity|].
    destruct (skip_ws s1) as [|c' s2] eqn:Hw1; [discriminate|].
    destruct (N.eqb_spec c' Ch.rbrace) as [->|].
    - injection H as _ <-. now apply skip_ws_closed.
    - apply pmap_ok in H. destruct H as (o' & H & _).
      apply parse_members_closed in H; [exact H|]. apply parse_value_suffix. }
  destruct (N.eqb c Ch.lbracket).
  { destruct (skip_ws s1) as [|c' s2]; [discriminate|].
    destruct (N.eqb c' Ch.rbracket); [discriminate|].
    intros H. apply pmap_ok in H. destruct H as (? & _ & ?). discriminate. }
  destruct (N.eqb c Ch.quote).
  { intros H. apply pmap_ok in H. destruct H as (? & _ & ?). discriminate. }
  destruct (startsWith (js "true") (c :: s1)); [discriminate|].
  destruct (startsWith (js "false") (c :: s1)); [discriminate|].
  destruct (startsWith (js "null") (c :: s1)); [discriminate|].
  destruct (_ || _); [|discriminate].
  intros H. apply pmap_ok in H. destruct H as (? & _ & ?). discriminate.
Qed.

(** No JSON text begins with a backtick. *)
Lemma parse_value_backtick (f : nat) (s : jsstring) :
  exists e, parse_value f (Ch.backtick :: s) = PErr e.
Proof. destruct f; now eexists. Qed.

(** ** Trimmed texts *)

Lemma is_json_ws_space (c : char) : is_json_ws c = true -> is_space c = true.
Proof.
  unfold is_json_ws. intros H.
  repeat (apply orb_true_iff in H; destruct H as [H|H]);
    apply N.eqb_eq in H; subst c; reflexivity.
Qed.

Lemma dropWhile_head (p : char -> bool) (s r : jsstring) (c : char) :
  dropWhile p s = c :: r -> p c = false.
Proof.
  induction s as [|x s IH]; simpl; [discriminate|].
  destruct (p x) eqn:Hx; [exact IH|]. intros H. now injection H as <- _.
Qed.

Lemma dropWhile_id (p : char -> bool) (s : jsstring) (c : char) :
  p c = false -> dropWhile p (c :: s) = c :: s.
Proof. intros H. simpl. now rewrite H. Qed.

Lemma dropWhile_nil (p : char -> bool) (s : jsstring) :
  dropWhile p s = [] -> forallb p s = true.
Proof.
  induction s as [|x s IH]; simpl; [reflexivity|].
  destruct (p x); [exact IH|discriminate].
Qed.

Lemma trimEnd_last (s t : jsstring) (c : char) :
  trimEnd s = t ++ [c] -> is_space c = false.
Proof.
  unfold trimEnd. intros H.
  apply (f_equal (@rev _)) in H. rewrite rev_involutive, rev_app_distr in H.
  simpl in H. now apply dropWhile_head in H.
Qed.

Lemma trimEnd_head (s t : jsstring) (c : char) :
  trimEnd s = c :: t -> exists s', s = c :: s'.
Proof.
  intros H. destruct (trimEnd_prefix s) as (b & Hb & _).
  rewrite H in Hb. now exists (t ++ b).
Qed.

Lemma trim_head (text t : jsstring) (c : char) :
  trim text = c :: t -> is_space c = false.
Proof.
  unfold trim. intros H. apply trimEnd_head in H. destruct H as (s' & H).
  now apply dropWhile_head in H.
Qed.

Lemma trim_last (text t : jsstring) (c : char) :
  trim text = t ++ [c] -> is_space c = false.
Proof. unfold trim. apply trimEnd_last. Qed.

Lemma forallb_last (p : char -> bool) (s : jsstring) (c : char) :
  forallb p (s ++ [c]) = true -> p c = true.
Proof.
  rewrite forallb_app. simpl. intros H. apply andb_true_iff in H.
  destruct H as [_ H]. now rewrite andb_true_r in H.
Qed.

(** ** Indices *)

Lemma lastIndexOf_from_last (p : char -> bool) (s : jsstring) (c : char) (i found : Z) :
  p c = true -> lastIndexOf_from p (s ++ [c]) i found = (i + Z.of_nat (length s))%Z.
Proof.
  intros Hc. revert i found. induction s as [|x s IH]; intros i found.
  - simpl. rewrite Hc. lia.
  - cbn [app lastIndexOf_from]. rewrite IH. cbn [length]. lia.
Qed.

Lemma substring_all (s : jsstring) (b : Z) :
  (Z.of_nat (length s) <= b)%Z -> substring 0 b s = s.
Proof.
  intros Hb. unfold substring, clamp.
  replace (Z.max 0 (Z.min 0 (Z.of_nat (length s)))) with 0%Z by lia.
  replace (Z.max 0 (Z.min b (Z.of_nat (length s)))) with (Z.of_nat (length s)) by lia.
  replace (Z.min 0 (Z.of_nat (length s))) with 0%Z by lia.
  replace (Z.max 0 (Z.of_nat (length s))) with (Z.of_nat (length s)) by lia.
  rewrite Z.sub_0_r, Nat2Z.id. simpl. apply firstn_all.
Qed.

(** A text that begins with an opening brace and ends with a closing one
    is what step 3 keeps, what the regular expression matches, and what
    the boundaries of fallback B delimit. *)
Lemma braced_boundaries (m : jsstring) :
  let s := Ch.lbrace :: m ++ [Ch.rbrace] in
  indexOf is_lbrace s = 0%Z
  /\ lastIndexOf is_rbrace s = Z.of_nat (S (length m))
  /\ has_brace_pair s = true
  /\ substring (indexOf is_lbrace s) (lastIndexOf is_rbrace s + 1) s = s.
Proof.
  cbv zeta.
  assert (H1 : indexOf is_lbrace (Ch.lbrace :: m ++ [Ch.rbrace]) = 0%Z) by reflexivity.
  assert (H2 : lastIndexOf is_rbrace (Ch.lbrace :: m ++ [Ch.rbrace]) = Z.of_nat (S (length m))).
  { unfold lastIndexOf. cbn [lastIndexOf_from].
    rewrite lastIndexOf_from_last by reflexivity. lia. }
  repeat split; try assumption.
  - unfold has_brace_pair. rewrite H1, H2.
    destruct (Z.gtb_spec (Z.of_nat (S (length m))) 0); [|lia].
    destruct (Z.eqb_spec (Z.of_nat (S (length m))) (-1)); [lia|reflexivity].
  - rewrite H1, H2. apply substring_all. cbn [length]. rewrite length_app. simpl. lia.
Qed.

Lemma startsWith_head (a : char) (p s : jsstring) :
  startsWith (a :: p) s = true -> exists s', s = a :: s'.
Proof.
  destruct s as [|c s]; simpl; [discriminate|].
  intros H. apply andb_true_iff in H. destruct H as [H _].
  apply N.eqb_eq in H. subst c. now exists s.
Qed.

Lemma startsWith_app (p q s : jsstring) :
  startsWith (p ++ q) s = true -> startsWith p s = true.
Proof.
  revert s. induction p as [|a p IH]; intros s; [reflexivity|].
  destruct s as [|c s]; simpl; [discriminate|].
  intros H. apply andb_true_iff in H. destruct H as [-> H]. now apply IH.
Qed.

Lemma clean_unfenced (text : jsstring) :
  startsWith (js "```") (trim text) = false ->
  clean text = if has_brace_pair (trim text)
               then substring (indexOf is_lbrace (trim text))
                      (lastIndexOf is_rbrace (trim text) + 1) (trim text)
               else trim text.
Proof.
  intros H. unfold clean, has_brace_pair.
  assert (Hj : startsWith (js "```json") (trim text) = false).
  { destruct (startsWith (js "```json") (trim text)) eqn:Hj; [|reflexivity].
    change (js "```json") with (js "```" ++ js "json") in Hj.
    apply startsWith_app in Hj. congruence. }
  rewrite Hj, H. reflexivity.
Qed.

Lemma JSON_parse_inv (E : engine) (t : jsstring) (v : JSON) :
  JSON_parse E t = Value v ->
  exists r, parse_value (S (length t)) t = POk v r /\ skip_ws r = [].
Proof.
  unfold JSON_parse, parse_json.
  destruct (parse_value (S (length t)) t) as [v' r|e]; [|discriminate].
  destruct (skip_ws r) eqn:Hr; [|discriminate].
  intros H. injection H as <-. now exists r.
Qed.

Lemma decodable_not_fenced (E : engine) (t : jsstring) (v : JSON) :
  JSON_parse E t = Value v -> startsWith (js "```") t = false.
Proof.
  intros H. apply JSON_parse_inv in H. destruct H as (r & H & _).
  remember (S (length t)) as f eqn:Hf. clear Hf.
  destruct (startsWith (js "```") t) eqn:Hs; [|reflexivity].
  apply startsWith_head in Hs. destruct Hs as (s' & ->).
  change (parse_value f (Ch.backtick :: s') = POk v r) in H.
  destruct (parse_value_backtick f s') as (e & He).
  rewrite He in H. discriminate.
Qed.

(** The trimmed text of an object is braced. *)
Lemma trimmed_object_braced (E : engine) (text : jsstring) (o : object) :
  JSON_parse E (trim text) = Value (JObject o) ->
  exists m, trim text = Ch.lbrace :: m ++ [Ch.rbrace].
Proof.
  intros H. apply JSON_parse_inv in H. destruct H as (r & H & Hr).
  apply parse_value_object in H. destruct H as (s1 & Hw & pre & ->).
  destruct (trim text) as [|c t] eqn:Ht; [discriminate|].
  pose proof (trim_head _ _ _ Ht) as Hc.
  unfold skip_ws in Hw. rewrite dropWhile_id in Hw.
  2:{ destruct (is_json_ws c) eqn:Hj; [|reflexivity].
      apply is_json_ws_space in Hj. congruence. }
  injection Hw as -> ->.
  exists pre. f_equal. f_equal.
  destruct r as [|x r] using rev_ind; [reflexivity|]. exfalso.
  apply dropWhile_nil in Hr. apply forallb_last in Hr. apply is_json_ws_space in Hr.
  assert (Hl : is_space x = false).
  { apply trim_last with (text := text) (t := Ch.lbrace :: pre ++ Ch.rbrace :: r).
    rewrite Ht. cbn [app]. now rewrite <- app_assoc. }
  congruence.
Qed.

(** C3, as stated, fails: [[{"a":1}]] is valid JSON with no wrapping, an
    array, and the extraction returns the object inside it. *)
Lemma direct_decode_counterexample :
  let text := jq "[{'a':1}]" in
  JSON_parse reference_engine (trim text)
  = Value (JArray [JObject [(js "a", JNumber (to_number (js "1")))]])
  /\ extract reference_engine text [] = (Normal (JObject [(js "a", JNumber (to_number (js "1")))]), [])
  /\ ~ direct_decode reference_engine text.
Proof.
  cbv zeta. repeat split; try reflexivity.
  intros H. specialize (H _ eq_refl []). discriminate.
Qed.

(** C3, amended. For every text that, once trimmed, is the JSON text of
    an object, or is valid JSON in which no opening brace comes before a
    closing one, the extraction returns exactly the value it denotes,
    from the first decode attempt: no fallback runs, nothing is written to
    the console. *)
Theorem direct_decode_of_objects (E : engine) (text : jsstring) (v : JSON) (c : console) :
  JSON_parse E (trim text) = Value v ->
  is_object v = true \/ has_brace_pair (trim text) = false ->
  extract E text c = (Normal v, c).
Proof.
  intros Hv Hcase.
  assert (Hclean : clean text = trim text).
  { rewrite clean_unfenced by (eapply decodable_not_fenced; exact Hv).
    destruct Hcase as [Ho|Hn]; [|now rewrite Hn].
    destruct v; try discriminate.
    destruct (trimmed_object_braced _ _ _ Hv) as (m & ->).
    destruct (braced_boundaries m) as (_ & _ & -> & ->). reflexivity. }
  rewrite extract_eq, Hclean, Hv. reflexivity.
Qed.

Lemma direct_decode_of_objects_witness :
  extract reference_engine (jq "  {'formTitle':'X','fields':[]} ") []
  = (Normal (JObject [(js "formTitle", JString (js "X")); (js "fields", JArray [])]), []).
Proof.
  apply (direct_decode_of_objects reference_engine
           (jq "  {'formTitle':'X','fields':[]} ")).
  - reflexivity.
  - left. reflexivity.
Defined.

(** ** The reader of JSON: more fuel, more input *)

Lemma parse_elements_mono (pv pv' : jsstring -> parsed JSON) :
  (forall s v r, pv s = POk v r -> pv' s = POk v r) ->
  forall n n' s l r, n <= n' ->
    parse_elements pv n s = POk l r -> parse_elements pv' n' s = POk l r.
Proof.
  intros Hpv. induction n as [|n IH]; intros n' s l r Hn; cbn [parse_elements];
    [discriminate|].
  destruct n' as [|n']; [lia|]. cbn [parse_elements].
  destruct (pv s) as [v r1|e] eqn:Hv; [|discriminate].
  rewrite (Hpv _ _ _ Hv).
  destruct (skip_ws r1) as [|c r2]; [discriminate|].
  destruct (N.eqb c Ch.comma); [|trivial].
  intros H. apply pmap_ok in H. destruct H as (l' & H & ->).
  rewrite (IH n' _ _ _ ltac:(lia) H). reflexivity.
Qed.

Lemma parse_members_mono (pv pv' : jsstring -> parsed JSON) :
  (forall s v r, pv s = POk v r -> pv' s = POk v r) ->
  forall n n' s acc o r, n <= n' ->
    parse_members pv n s acc = POk o r -> parse_members pv' n' s acc = POk o r.
Proof.
  intros Hpv. induction n as [|n IH]; intros n' s acc o r Hn; cbn [parse_members];
    [discriminate|].
  destruct n' as [|n']; [lia|]. cbn [parse_members].
  destruct (skip_ws s) as [|c s1]; [discriminate|].
  destruct (N.eqb c Ch.quote); [|discriminate].
  destruct (parse_chars s1) as [key r1|e]; [|discriminate].
  destruct (skip_ws r1) as [|c1 r2]; [discriminate|].
  destruct (N.eqb c1 Ch.colon); [|discriminate].
  destruct (pv r2) as [v r3|e] eqn:Hv; [|discriminate].
  rewrite (Hpv _ _ _ Hv).
  destruct (skip_ws r3) as [|c2 r4]; [discriminate|].
  destruct (N.eqb c2 Ch.comma); [|trivial].
  apply IH. lia.
Qed.

Lemma parse_value_mono (f : nat) :
  forall f' s v r, f <= f' -> parse_value f s = POk v r -> parse_value f' s = POk v r.
Proof.
  induction f as [|f IH]; intros f' s v r Hf; cbn [parse_value]; [discriminate|].
  destruct f' as [|f']; [lia|]. cbn [parse_value].
  assert (Hpv : forall s v r, parse_value f s = POk v r -> parse_value f' s = POk v r)
    by (intros; apply IH; [lia|assumption]).
  destruct (skip_ws s) as [|c s1]; [discriminate|].
  destruct (N.eqb c Ch.lbrace).
  { destruct (skip_ws s1) as [|c' s2]; [discriminate|].
    destruct (N.eqb c' Ch.rbrace); [trivial|].
    intros H. apply pmap_ok in H. destruct H as (o & H & ->).
    now rewrite (parse_members_mono _ _ Hpv f f' _ _ _ _ ltac:(lia) H). }
  destruct (N.eqb c Ch.lbracket); [|trivial].
  destruct (skip_ws s1) as [|c' s2]; [discriminate|].
  destruct (N.eqb c' Ch.rbracket); [trivial|].
  intros H. apply pmap_ok in H. destruct H as (o & H & ->).
  now rewrite (parse_elements_mono _ _ Hpv f f' _ _ _ ltac:(lia) H).
Qed.

Lemma skip_ws_app (s x r : jsstring) (c : char) :
  skip_ws s = c :: r -> skip_ws (s ++ x) = c :: r ++ x.
Proof.
  unfold skip_ws. induction s as [|a s IH]; simpl; [discriminate|].
  destruct (is_json_ws a); [exact IH|].
  intros H. injection H as <- <-. reflexivity.
Qed.

Lemma parse_chars_app (x : jsstring) (s k r : jsstring) :
  parse_chars s = POk k r -> parse_chars (s ++ x) = POk k (r ++ x).
Proof.
  revert k r. induction s as [s IH] using length_induction. intros k r.
  destruct s as [|c s1]; cbn [parse_chars app]; [discriminate|].
  destruct (N.eqb c Ch.quote).
  { intros H. injection H as <- <-. reflexivity. }
  destruct (N.eqb c Ch.backslash).
  - destruct s1 as [|e s2]; [discriminate|]. cbn [app].
    destruct (N.eqb e 117).
    + destruct s2 as [|h1 [|h2 [|h3 [|h4 s3]]]]; try discriminate. cbn [app].
      destruct (hex4 h1 h2 h3 h4); [|discriminate].
      intros H. apply pmap_ok in H. destruct H as (k' & H & ->).
      rewrite (IH s3 ltac:(simpl; lia) _ _ H). reflexivity.
    + destruct (unescape e); [|discriminate].
      intros H. apply pmap_ok in H. destruct H as (k' & H & ->).
      rewrite (IH s2 ltac:(simpl; lia) _ _ H). reflexivity.
  - destruct (c <? 32)%N; [discriminate|].
    intros H. apply pmap_ok in H. destruct H as (k' & H & ->).
    rewrite (IH s1 ltac:(simpl; lia) _ _ H). reflexivity.
Qed.

Lemma span_digits_ext (x s ds r : jsstring) (c : char) :
  span_digits s = (ds, c :: r) -> span_digits (s ++ x) = (ds, c :: r ++ x).
Proof.
  revert ds. induction s as [|a s IH]; simpl; intros ds; [discriminate|].
  destruct (is_digit a).
  - destruct (span_digits s) as [ds' r'] eqn:Hs. intros H. injection H as <- ->.
    now rewrite (IH _ eq_refl).
  - intros H. injection H as <- <- <-. reflexivity.
Qed.

Lemma lex_exponent_ext (x pre s lit r : jsstring) :
  lex_exponent pre s = POk lit r -> r <> [] ->
  lex_exponent pre (s ++ x) = POk lit (r ++ x).
Proof.
  unfold lex_exponent. destruct s as [|e s1].
  { intros H Hr. injection H as _ <-. contradiction. }
  cbn [app]. destruct (is_e e); [|intros H _; now injection H as <- <-].
  destruct s1 as [|c s2].
  { cbn. discriminate. }
  cbn [app].
  destruct (N.eqb c Ch.plus || N.eqb c Ch.minus)%bool.
  - destruct (span_digits s2) as [ds r2] eqn:Hd.
    destruct ds as [|d ds]; [discriminate|].
    intros H Hr. injection H as <- <-.
    destruct r2 as [|c2 r2]; [contradiction|].
    now rewrite (span_digits_ext x _ _ _ _ Hd).
  - destruct (span_digits (c :: s2)) as [ds r2] eqn:Hd.
    destruct ds as [|d ds]; [discriminate|].
    intros H Hr. injection H as <- <-.
    destruct r2 as [|c2 r2]; [contradiction|].
    change (c :: s2 ++ x) with ((c :: s2) ++ x).
    now rewrite (span_digits_ext x _ _ _ _ Hd).
Qed.

Lemma lex_exponent_nil (pre lit r : jsstring) :
  lex_exponent pre [] = POk lit r -> r = [].
Proof. intros H. now injection H as _ <-. Qed.

Lemma lex_fraction_ext (x pre s lit r : jsstring) :
  lex_fraction pre s = POk lit r -> r <> [] ->
  lex_fraction pre (s ++ x) = POk lit (r ++ x).
Proof.
  unfold lex_fraction. destruct s as [|c s1].
  { intros H Hr. injection H as _ <-. contradiction. }
  cbn [app]. destruct (N.eqb c Ch.dot).
  - destruct (span_digits s1) as [ds r1] eqn:Hd.
    destruct ds as [|d ds]; [discriminate|].
    intros H Hr.
    destruct r1 as [|c1 r1]; [apply lex_exponent_nil in H; contradiction|].
    rewrite (span_digits_ext x _ _ _ _ Hd).
    change (c1 :: r1 ++ x) with ((c1 :: r1) ++ x). now apply lex_exponent_ext.
  - intros H Hr. change (c :: s1 ++ x) with ((c :: s1) ++ x). now apply lex_exponent_ext.
Qed.

Lemma lex_fraction_nil (pre lit r : jsstring) :
  lex_fraction pre [] = POk lit r -> r = [].
Proof. intros H. now injection H as _ <-. Qed.

Lemma lex_number_ext (x s lit r : jsstring) :
  lex_number s = POk lit r -> r <> [] -> lex_number (s ++ x) = POk lit (r ++ x).
Proof.
  assert (Hunsigned : forall sign s : jsstring,
    match s with
    | [] => PErr []
    | c :: r0 =>
        if N.eqb c Ch.zero then lex_fraction (sign ++ [c]) r0
        else if is_digit c
             then let (ds, r') := span_digits r0 in lex_fraction (sign ++ c :: ds) r'
             else PErr s
    end = POk lit r -> r <> [] ->
    match s ++ x with
    | [] => PErr []
    | c :: r0 =>
        if N.eqb c Ch.zero then lex_fraction (sign ++ [c]) r0
        else if is_digit c
             then let (ds, r') := span_digits r0 in lex_fraction (sign ++ c :: ds) r'
             else PErr (s ++ x)
    end = POk lit (r ++ x)).
  { intros sign s0. destruct s0 as [|c s1]; [discriminate|]. cbn [app].
    destruct (N.eqb c Ch.zero); [apply lex_fraction_ext|].
    destruct (is_digit c); [|discriminate].
    destruct (span_digits s1) as [ds r1] eqn:Hd.
    intros H Hr.
    destruct r1 as [|c1 r1]; [apply lex_fraction_nil in H; contradiction|].
    rewrite (span_digits_ext x _ _ _ _ Hd).
    change (c1 :: r1 ++ x) with ((c1 :: r1) ++ x). now apply lex_fraction_ext. }
  unfold lex_number. destruct s as [|c s1]; [discriminate|]. cbn [app].
  destruct (N.eqb c Ch.minus).
  - apply Hunsigned.
  - apply (Hunsigned [] (c :: s1)).
Qed.

Lemma startsWith_ext (p s x : jsstring) :
  startsWith p s = true ->
  startsWith p (s ++ x) = true /\ skipn (length p) (s ++ x) = skipn (length p) s ++ x.
Proof.
  revert s. induction p as [|a p IH]; intros s; [now split|].
  destruct s as [|c s]; simpl; [discriminate|].
  intros H. apply andb_true_iff in H. destruct H as [-> H]. now apply IH.
Qed.

Lemma parse_elements_ext (x : jsstring) (pv : jsstring -> parsed JSON) :
  (forall s v r, pv s = POk v r -> r <> [] -> pv (s ++ x) = POk v (r ++ x)) ->
  forall n s l r, parse_elements pv n s = POk l r ->
    parse_elements pv n (s ++ x) = POk l (r ++ x).
Proof.
  intros Hpv. induction n as [|n IH]; intros s l r; cbn [parse_elements]; [discriminate|].
  destruct (pv s) as [v r1|e] eqn:Hv; [|discriminate].
  destruct (skip_ws r1) as [|c r2] eqn:Hw; [discriminate|].
  rewrite (Hpv _ _ _ Hv) by (intros ->; discriminate).
  rewrite (skip_ws_app _ x _ _ Hw).
  destruct (N.eqb c Ch.comma).
  - intros H. apply pmap_ok in H. destruct H as (l' & H & ->).
    now rewrite (IH _ _ _ H).
  - destruct (N.eqb c Ch.rbracket); [|discriminate].
    intros H. now injection H as <- <-.
Qed.

Lemma parse_members_ext (x : jsstring) (pv : jsstring -> parsed JSON) :
  (forall s v r, pv s = POk v r -> r <> [] -> pv (s ++ x) = POk v (r ++ x)) ->
  forall n s acc o r, parse_members pv n s acc = POk o r ->
    parse_members pv n (s ++ x) acc = POk o (r ++ x).
Proof.
  intros Hpv. induction n as [|n IH]; intros s acc o r; cbn [parse_members]; [discriminate|].
  destruct (skip_ws s) as [|c s1] eqn:Hw0; [discriminate|].
  rewrite (skip_ws_app _ x _ _ Hw0).
  destruct (N.eqb c Ch.quote); [|discriminate].
  destruct (parse_chars s1) as [key r1|e] eqn:Hk; [|discriminate].
  rewrite (parse_chars_app x _ _ _ Hk).
  destruct (skip_ws r1) as [|c1 r2] eqn:Hw1; [discriminate|].
  rewrite (skip_ws_app _ x _ _ Hw1).
  destruct (N.eqb c1 Ch.colon); [|discriminate].
  destruct (pv r2) as [v r3|e] eqn:Hv; [|discriminate].
  destruct (skip_ws r3) as [|c2 r4] eqn:Hw2; [discriminate|].
  rewrite (Hpv _ _ _ Hv) by (intros ->; discriminate).
  rewrite (skip_ws_app _ x _ _ Hw2).
  destruct (N.eqb c2 Ch.comma); [apply IH|].
  destruct (N.eqb c2 Ch.rbrace); [|discriminate].
  intros H. now injection H as <- <-.
Qed.

Lemma parse_value_ext (x : jsstring) (f : nat) :
  forall s v r, parse_value f s = POk v r ->
    r <> [] \/ is_number v = false ->
    parse_value f (s ++ x) = POk v (r ++ x).
Proof.
  induction f as [|f IH]; intros s v r; cbn [parse_value]; [discriminate|].
  assert (Hpv : forall s v r, parse_value f s = POk v r -> r <> [] ->
                  parse_value f (s ++ x) = POk v (r ++ x))
    by (intros; apply IH; auto).
  destruct (skip_ws s) as [|c s1] eqn:Hw; [discriminate|].
  rewrite (skip_ws_app _ x _ _ Hw).
  destruct (N.eqb c Ch.lbrace).
  { destruct (skip_ws s1) as [|c' s2] eqn:Hw1; [discriminate|].
    rewrite (skip_ws_app _ x _ _ Hw1).
    destruct (N.eqb c' Ch.rbrace).
    - intros H _. now injection H as <- <-.
    - intros H _. apply pmap_ok in H. destruct H as (o & H & ->).
      now rewrite (parse_members_ext x _ Hpv _ _ _ _ _ H). }
  destruct (N.eqb c Ch.lbracket).
  { destruct (skip_ws s1) as [|c' s2] eqn:Hw1; [discriminate|].
    rewrite (skip_ws_app _ x _ _ Hw1).
    destruct (N.eqb c' Ch.rbracket).
    - intros H _. now injection H as <- <-.
    - intros H _. apply pmap_ok in H. destruct H as (o & H & ->).
      now rewrite (parse_elements_ext x _ Hpv _ _ _ _ H). }
  destruct (N.eqb c Ch.quote).
  { intros H _. apply pmap_ok in H. destruct H as (k & H & ->).
    now rewrite (parse_chars_app x _ _ _ H). }
  change (c :: s1 ++ x) with ((c :: s1) ++ x).
  destruct (startsWith (js "true") (c :: s1)) eqn:Ht.
  { destruct (startsWith_ext _ _ x Ht) as [-> Hs]. intros H _.
    injection H as <- <-. f_equal. exact Hs. }
  destruct (startsWith (js "false") (c :: s1)) eqn:Hf.
  { destruct (startsWith_ext _ _ x Hf) as [Hf' Hs]. intros H _.
    apply startsWith_head in Hf. destruct Hf as (s' & Hc). injection Hc as -> _.
    match goal with
    | |- context [startsWith (js "true") ?t] =>
        replace (startsWith (js "true") t) with false by reflexivity
    end.
    rewrite Hf'. injection H as <- <-. f_equal. exact Hs. }
  destruct (startsWith (js "null") (c :: s1)) eqn:Hn.
  { destruct (startsWith_ext _ _ x Hn) as [Hn' Hs]. intros H _.
    apply startsWith_head in Hn. destruct Hn as (s' & Hc). injection Hc as -> _.
    match goal with
    | |- context [startsWith (js "true") ?t] =>
        replace (startsWith (js "true") t) with false by reflexivity
    end.
    match goal with
    | |- context [startsWith (js "false") ?t] =>
        replace (startsWith (js "false") t) with false by reflexivity
    end.
    rewrite Hn'. injection H as <- <-. f_equal. exact Hs. }
  destruct (N.eqb c Ch.minus || is_digit c)%bool eqn:Hd; [|discriminate].
  intros H Hr. apply pmap_ok in H. destruct H as (lit & H & ->).
  destruct Hr as [Hr|Hr]; [|discriminate].
  rewrite (lex_number_ext x _ _ _ H Hr).
  assert (Hfirst : forall a p, N.eqb a c = false ->
                     startsWith (a :: p) ((c :: s1) ++ x) = false).
  { intros a p Ha. cbn [app startsWith]. now rewrite Ha. }
  assert (Hc : forall a, (97 <=? a)%N = true -> N.eqb a c = false).
  { intros a Ha. apply N.eqb_neq. intros ->.
    apply orb_true_iff in Hd. destruct Hd as [Hd|Hd].
    - apply N.eqb_eq in Hd. subst c. discriminate.
    - unfold is_digit in Hd. apply andb_true_iff in Hd. destruct Hd as [_ Hd].
      apply N.leb_le in Ha, Hd. lia. }
  change (js "true") with (116%N :: js "rue").
  change (js "false") with (102%N :: js "alse").
  change (js "null") with (110%N :: js "ull").
  rewrite !Hfirst by (apply Hc; reflexivity). reflexivity.
Qed.

(** ** Cleaning keeps the braced text *)

Lemma space_not_brace (c : char) :
  is_space c = true -> is_lbrace c = false /\ is_rbrace c = false.
Proof.
  intros H. unfold is_lbrace, is_rbrace. split.
  - destruct (N.eqb_spec c Ch.lbrace) as [->|]; [discriminate|reflexivity].
  - destruct (N.eqb_spec c Ch.rbrace) as [->|]; [discriminate|reflexivity].
Qed.

Lemma framed_front (m s : jsstring) (c : char) :
  framed (Ch.lbrace :: m) (c :: s) -> is_lbrace c = false -> framed (Ch.lbrace :: m) s.
Proof.
  intros (a & b & Hs & Ha & Hb) Hc.
  destruct a as [|x a].
  - cbn [app] in Hs. injection Hs as -> _. discriminate.
  - cbn [app] in Hs. injection Hs as <- ->.
    cbn [forallb] in Ha. apply andb_true_iff in Ha. destruct Ha as [_ Ha].
    now exists a, b.
Qed.

Lemma framed_back (m s : jsstring) (c : char) :
  framed (m ++ [Ch.rbrace]) (s ++ [c]) -> is_rbrace c = false ->
  framed (m ++ [Ch.rbrace]) s.
Proof.
  intros (a & b & Hs & Ha & Hb) Hc.
  destruct b as [|x b] using rev_ind.
  - rewrite app_nil_r, app_assoc in Hs. apply app_inj_tail in Hs.
    destruct Hs as [_ ->]. discriminate.
  - clear IHb. rewrite !app_assoc in Hs. apply app_inj_tail in Hs.
    destruct Hs as [-> ->]. rewrite forallb_app in Hb.
    apply andb_true_iff in Hb. destruct Hb as [Hb _].
    exists a, b. rewrite <- !app_assoc. now repeat split.
Qed.

Lemma framed_trimStart (m s : jsstring) :
  framed (Ch.lbrace :: m) s -> framed (Ch.lbrace :: m) (trimStart s).
Proof.
  unfold trimStart. induction s as [|c s IH]; intros H; [exact H|].
  simpl. destruct (is_space c) eqn:Hc; [|exact H].
  apply IH. eapply framed_front; [exact H|]. now apply space_not_brace.
Qed.

Lemma framed_trimEnd (m s : jsstring) :
  framed (m ++ [Ch.rbrace]) s -> framed (m ++ [Ch.rbrace]) (trimEnd s).
Proof.
  unfold trimEnd. induction s as [|c s IH] using rev_ind; intros H; [exact H|].
  rewrite rev_app_distr. cbn [rev app dropWhile].
  destruct (is_space c) eqn:Hc.
  - apply IH. eapply framed_back; [exact H|]. now apply space_not_brace.
  - cbn [rev]. now rewrite rev_involutive.
Qed.

Lemma framed_skip (m p s : jsstring) :
  forallb (fun a => negb (is_lbrace a)) p = true ->
  startsWith p s = true ->
  framed (Ch.lbrace :: m) s -> framed (Ch.lbrace :: m) (skipn (length p) s).
Proof.
  revert s. induction p as [|a p IH]; intros s Hp Hs H; [exact H|].
  destruct s as [|c s]; [discriminate|].
  cbn [startsWith] in Hs. apply andb_true_iff in Hs. destruct Hs as [Hac Hs].
  apply N.eqb_eq in Hac. subst c.
  cbn [forallb] in Hp. apply andb_true_iff in Hp. destruct Hp as [Ha Hp].
  cbn [length skipn]. apply IH; [exact Hp|exact Hs|].
  eapply framed_front; [exact H|]. now destruct (is_lbrace a).
Qed.

Lemma framed_skip_ci (m p s : jsstring) :
  forallb (fun a => negb (N.eqb (upper a) Ch.lbrace)) p = true ->
  startsWith_ci p s = true ->
  framed (Ch.lbrace :: m) s -> framed (Ch.lbrace :: m) (skipn (length p) s).
Proof.
  revert s. induction p as [|a p IH]; intros s Hp Hs H; [exact H|].
  destruct s as [|c s]; [discriminate|].
  cbn [startsWith_ci] in Hs. apply andb_true_iff in Hs. destruct Hs as [Hac Hs].
  apply N.eqb_eq in Hac.
  cbn [forallb] in Hp. apply andb_true_iff in Hp. destruct Hp as [Ha Hp].
  cbn [length skipn]. apply IH; [exact Hp|exact Hs|].
  eapply framed_front; [exact H|].
  unfold is_lbrace. destruct (N.eqb_spec c Ch.lbrace) as [->|]; [|reflexivity].
  rewrite Hac in Ha. discriminate.
Qed.

Lemma framed_strip_closing_fence (m s : jsstring) :
  framed (m ++ [Ch.rbrace]) s -> framed (m ++ [Ch.rbrace]) (strip_closing_fence s).
Proof.
  intros H. unfold strip_closing_fence.
  destruct (rev s) as [|a [|b [|c r]]] eqn:Hr; try exact H.
  destruct (N.eqb_spec a Ch.backtick) as [->|]; [|exact H].
  destruct (N.eqb_spec b Ch.backtick) as [->|]; [|exact H].
  destruct (N.eqb_spec c Ch.backtick) as [->|]; [|exact H].
  cbn [andb].
  apply (f_equal (@rev _)) in Hr. rewrite rev_involutive in Hr. cbn [rev] in Hr.
  subst s.
  do 3 (apply framed_back in H; [|reflexivity]).
  apply framed_trimEnd in H. unfold trimEnd in H. now rewrite rev_involutive in H.
Qed.

Lemma indexOf_from_framed (p : char -> bool) (a s : jsstring) (c : char) (i : Z) :
  forallb (fun x => negb (p x)) a = true -> p c = true ->
  indexOf_from p (a ++ c :: s) i = (i + Z.of_nat (length a))%Z.
Proof.
  revert i. induction a as [|x a IH]; intros i Ha Hc.
  - simpl. rewrite Hc. lia.
  - cbn [forallb] in Ha. apply andb_true_iff in Ha. destruct Ha as [Hx Ha].
    cbn [app indexOf_from]. destruct (p x); [discriminate|].
    rewrite IH by assumption. cbn [length]. lia.
Qed.

Lemma lastIndexOf_from_free (p : char -> bool) (b : jsstring) (i found : Z) :
  forallb (fun x => negb (p x)) b = true -> lastIndexOf_from p b i found = found.
Proof.
  revert i. induction b as [|x b IH]; intros i Hb; [reflexivity|].
  cbn [forallb] in Hb. apply andb_true_iff in Hb. destruct Hb as [Hx Hb].
  cbn [lastIndexOf_from]. destruct (p x); [discriminate|]. now apply IH.
Qed.

Lemma lastIndexOf_from_app (p : char -> bool) (a b : jsstring) (i found : Z) :
  lastIndexOf_from p (a ++ b) i found
  = lastIndexOf_from p b (i + Z.of_nat (length a)) (lastIndexOf_from p a i found).
Proof.
  revert i found. induction a as [|x a IH]; intros i found.
  - simpl. now rewrite Z.add_0_r.
  - cbn [app lastIndexOf_from]. rewrite IH. cbn [length]. f_equal. lia.
Qed.

Lemma substring_middle (a m b : jsstring) :
  substring (Z.of_nat (length a)) (Z.of_nat (length a + length m)) (a ++ m ++ b) = m.
Proof.
  unfold substring, clamp. rewrite !length_app.
  set (A := Z.of_nat (length a)).
  set (B := Z.of_nat (length a + length m)).
  set (L := Z.of_nat (length a + (length m + length b))).
  replace (Z.min (Z.max 0 (Z.min A L)) (Z.max 0 (Z.min B L))) with A by lia.
  replace (Z.max (Z.max 0 (Z.min A L)) (Z.max 0 (Z.min B L))) with B by lia.
  subst A B L.
  replace (Z.to_nat (Z.of_nat (length a + length m) - Z.of_nat (length a)))
    with (length m) by lia.
  rewrite Nat2Z.id, skipn_app, skipn_all, Nat.sub_diag. cbn [skipn app].
  rewrite firstn_app, firstn_all, Nat.sub_diag. cbn [firstn]. now rewrite app_nil_r.
Qed.

(** Step 3 on a framed text. *)
Lemma framed_boundaries (m s : jsstring) :
  framed (Ch.lbrace :: m ++ [Ch.rbrace]) s ->
  has_brace_pair s = true
  /\ substring (indexOf is_lbrace s) (lastIndexOf is_rbrace s + 1) s
     = Ch.lbrace :: m ++ [Ch.rbrace].
Proof.
  intros (a & b & -> & Ha & Hb).
  assert (H1 : indexOf is_lbrace (a ++ (Ch.lbrace :: m ++ [Ch.rbrace]) ++ b)
               = Z.of_nat (length a)).
  { unfold indexOf. cbn [app]. rewrite indexOf_from_framed by (exact Ha || reflexivity). lia. }
  assert (H2 : lastIndexOf is_rbrace (a ++ (Ch.lbrace :: m ++ [Ch.rbrace]) ++ b)
               = Z.of_nat (length a + S (length m))).
  { unfold lastIndexOf.
    replace (a ++ (Ch.lbrace :: m ++ [Ch.rbrace]) ++ b)
      with (((a ++ Ch.lbrace :: m) ++ [Ch.rbrace]) ++ b)
      by (repeat (rewrite <- app_assoc || cbn [app]); reflexivity).
    rewrite lastIndexOf_from_app, lastIndexOf_from_free by exact Hb.
    rewrite lastIndexOf_from_last by reflexivity.
    rewrite length_app. cbn [length]. lia. }
  split.
  - unfold has_brace_pair. rewrite H1, H2.
    destruct (Z.eqb_spec (Z.of_nat (length a)) (-1)); [lia|].
    destruct (Z.eqb_spec (Z.of_nat (length a + S (length m))) (-1)); [lia|].
    destruct (Z.gtb_spec (Z.of_nat (length a + S (length m))) (Z.of_nat (length a)));
      [reflexivity|lia].
  - rewrite H1, H2.
    replace (Z.of_nat (length a + S (length m)) + 1)%Z
      with (Z.of_nat (length a + length (Ch.lbrace :: m ++ [Ch.rbrace]))).
    + apply substring_middle.
    + cbn [length]. rewrite length_app. cbn [length]. lia.
Qed.

(** The cleaning of a framed text is the braced text. *)
Lemma clean_framed (m text : jsstring) :
  framed (Ch.lbrace :: m ++ [Ch.rbrace]) text ->
  clean text = Ch.lbrace :: m ++ [Ch.rbrace].
Proof.
  intros H.
  assert (Ht : framed (Ch.lbrace :: m ++ [Ch.rbrace]) (trim text)).
  { unfold trim. apply (framed_trimEnd (Ch.lbrace :: m)). now apply framed_trimStart. }
  unfold clean.
  set (u := if startsWith (js "```json") (trim text) then _ else _).
  assert (Hu : framed (Ch.lbrace :: m ++ [Ch.rbrace]) u).
  { subst u. destruct (startsWith (js "```json") (trim text)) eqn:Hj.
    - apply (framed_strip_closing_fence (Ch.lbrace :: m)).
      unfold strip_json_fence.
      destruct (startsWith_ci (js "```json") (trim text)) eqn:Hci; [|exact Ht].
      apply framed_trimStart.
      apply (framed_skip_ci _ (js "```json")); [reflexivity|exact Hci|exact Ht].
    - destruct (startsWith (js "```") (trim text)) eqn:Hf; [|exact Ht].
      apply (framed_strip_closing_fence (Ch.lbrace :: m)).
      unfold strip_fence. rewrite Hf.
      apply framed_trimStart.
      apply (framed_skip _ (js "```")); [reflexivity|exact Hf|exact Ht]. }
  destruct (framed_boundaries _ _ Hu) as [Hp Hs].
  unfold has_brace_pair in Hp. rewrite Hp. exact Hs.
Qed.

(** ** The depth scan over complete objects *)

Lemma closes_last (s : jsstring) :
  forall d, closes d s = true -> exists m, s = m ++ [Ch.rbrace].
Proof.
  induction s as [|c r IH]; intros d; cbn [closes]; [discriminate|].
  assert (Hc : forall d', closes d' r = true -> exists m, c :: r = m ++ [Ch.rbrace]).
  { intros d' H. destruct (IH _ H) as (m & ->). now exists (c :: m). }
  destruct (is_lbrace c); [apply Hc|].
  destruct (N.eqb_spec c Ch.rbrace) as [->|Hn].
  - change (is_rbrace Ch.rbrace) with true. cbn iota.
    destruct d as [|d]; [|apply Hc].
    destruct r; [|discriminate]. intros _. now exists [].
  - unfold is_rbrace. apply N.eqb_neq in Hn. rewrite Hn. apply Hc.
Qed.

Lemma one_object_braced (o : jsstring) :
  one_object o = true -> exists m, o = Ch.lbrace :: m ++ [Ch.rbrace].
Proof.
  destruct o as [|c r]; cbn [one_object]; [discriminate|].
  intros H. apply andb_true_iff in H. destruct H as [Hc Hr].
  apply N.eqb_eq in Hc. subst c.
  destruct (closes_last _ _ Hr) as (m & ->). now exists m.
Qed.

Lemma scan_loop_closes (j : jsstring) (s : jsstring) :
  forall (d : nat) (rest : jsstring) (i start : Z) (acc : list jsstring),
    closes d s = true -> start <> (-1)%Z ->
    scan_loop j (s ++ rest) i (Z.of_nat (S d)) start acc
    = scan_loop j rest (i + Z.of_nat (length s)) 0 (-1)
        (acc ++ [substring start (i + Z.of_nat (length s)) j]).
Proof.
  induction s as [|c r IH]; intros d rest i start acc; cbn [closes]; [discriminate|].
  intros H Hstart. cbn [app scan_loop length].
  replace (i + Z.of_nat (S (length r)))%Z with (i + 1 + Z.of_nat (length r))%Z by lia.
  destruct (is_lbrace c).
  - destruct (Z.eqb_spec (Z.of_nat (S d)) 0) as [|_]; [lia|].
    replace (Z.of_nat (S d) + 1)%Z with (Z.of_nat (S (S d))) by lia.
    now apply IH.
  - destruct (is_rbrace c).
    + destruct d as [|d].
      * destruct r as [|]; [|discriminate]. cbn [app length].
        change (Z.of_nat 1 - 1 =? 0)%Z with true.
        destruct (Z.eqb_spec start (-1)); [contradiction|]. cbn [negb andb].
        now rewrite !Z.add_0_r.
      * replace (Z.of_nat (S (S d)) - 1)%Z with (Z.of_nat (S d)) by lia.
        destruct (Z.eqb_spec (Z.of_nat (S d)) 0) as [|_]; [lia|]. cbn [andb].
        now apply IH.
    + now apply IH.
Qed.

Lemma scan_loop_object (j o rest : jsstring) (i : Z) (acc : list jsstring) :
  one_object o = true -> (0 <= i)%Z ->
  scan_loop j (o ++ rest) i 0 (-1) acc
  = scan_loop j rest (i + Z.of_nat (length o)) 0 (-1)
      (acc ++ [substring i (i + Z.of_nat (length o)) j]).
Proof.
  destruct o as [|c r]; cbn [one_object]; [discriminate|].
  intros H Hi. apply andb_true_iff in H. destruct H as [Hc Hr].
  cbn [app scan_loop length]. rewrite Hc.
  change (0 =? 0)%Z with true. cbn iota.
  change (0 + 1)%Z with (Z.of_nat 1).
  rewrite (scan_loop_closes j r 0 rest (i + 1) i acc Hr) by lia.
  replace (i + 1 + Z.of_nat (length r))%Z with (i + Z.of_nat (S (length r)))%Z by lia.
  reflexivity.
Qed.

Lemma scan_loop_object_end (j o : jsstring) (i : Z) (acc : list jsstring) :
  one_object o = true -> (0 <= i)%Z ->
  scan_loop j o i 0 (-1) acc = acc ++ [substring i (i + Z.of_nat (length o)) j].
Proof.
  intros H Hi. pose proof (scan_loop_object j o [] i acc H Hi) as Hs.
  rewrite app_nil_r in Hs. exact Hs.
Qed.

Lemma scan_loop_brace_free (j p rest : jsstring) (i depth start : Z)
  (acc : list jsstring) :
  brace_free p = true ->
  scan_loop j (p ++ rest) i depth start acc
  = scan_loop j rest (i + Z.of_nat (length p)) depth start acc.
Proof.
  revert i. induction p as [|c p IH]; intros i H.
  - simpl. now rewrite Z.add_0_r.
  - cbn [brace_free forallb] in H. apply andb_true_iff in H. destruct H as [Hc H].
    apply andb_true_iff in Hc. destruct Hc as [Hl Hr].
    cbn [app scan_loop length].
    destruct (is_lbrace c); [discriminate|]. destruct (is_rbrace c); [discriminate|].
    rewrite IH by exact H. f_equal. lia.
Qed.

(** Two complete objects with brace-free text between them are the two
    candidates of the scan. *)
Lemma scan_two_objects (o1 p1 o2 : jsstring) :
  one_object o1 = true -> brace_free p1 = true -> one_object o2 = true ->
  scan_objects (o1 ++ p1 ++ o2) = [o1; o2].
Proof.
  intros H1 Hp H2. unfold scan_objects.
  assert (S1 : substring 0 (0 + Z.of_nat (length o1)) (o1 ++ p1 ++ o2) = o1).
  { rewrite Z.add_0_l. apply (substring_middle [] o1 (p1 ++ o2)). }
  assert (S2 : substring (0 + Z.of_nat (length o1) + Z.of_nat (length p1))
                 (0 + Z.of_nat (length o1) + Z.of_nat (length p1) + Z.of_nat (length o2))
                 (o1 ++ p1 ++ o2) = o2).
  { replace (0 + Z.of_nat (length o1) + Z.of_nat (length p1))%Z
      with (Z.of_nat (length (o1 ++ p1))) by (rewrite length_app; lia).
    replace (Z.of_nat (length (o1 ++ p1)) + Z.of_nat (length o2))%Z
      with (Z.of_nat (length (o1 ++ p1) + length o2)) by lia.
    pose proof (substring_middle (o1 ++ p1) o2 []) as Hs.
    rewrite app_nil_r, <- app_assoc in Hs. exact Hs. }
  rewrite scan_loop_object by (assumption || lia).
  rewrite scan_loop_brace_free by assumption.
  rewrite scan_loop_object_end by (assumption || lia).
  rewrite S1, S2. reflexivity.
Qed.

Lemma upto_last_rbrace_last (m : jsstring) :
  upto_last_rbrace (m ++ [Ch.rbrace]) = Some (m ++ [Ch.rbrace]).
Proof.
  induction m as [|c m IH]; [reflexivity|].
  cbn [app upto_last_rbrace]. now rewrite IH.
Qed.

Lemma match_braces_braced (m : jsstring) :
  match_braces (Ch.lbrace :: m ++ [Ch.rbrace]) = Some (Ch.lbrace :: m ++ [Ch.rbrace]).
Proof.
  cbn [match_braces]. change (is_lbrace Ch.lbrace) with true. cbn iota.
  now rewrite upto_last_rbrace_last.
Qed.

(** On a braced text, the regular expression and the boundaries give
    back the text: fallbacks A and B repeat the first attempt. *)
Lemma fallbacks_repeat_primary (E : engine) (m : jsstring) :
  fallbackA E (Ch.lbrace :: m ++ [Ch.rbrace]) = JSON_parse E (Ch.lbrace :: m ++ [Ch.rbrace])
  /\ fallbackB E (Ch.lbrace :: m ++ [Ch.rbrace]) = JSON_parse E (Ch.lbrace :: m ++ [Ch.rbrace]).
Proof.
  split.
  - unfold fallbackA. now rewrite match_braces_braced.
  - unfold fallbackB.
    destruct (braced_boundaries m) as (_ & _ & Hp & Hs). cbv zeta in Hp, Hs.
    unfold has_brace_pair in Hp. rewrite Hp. now rewrite Hs.
Qed.

Lemma parse_value_lbrace (f : nat) (s : jsstring) (v : JSON) (r : jsstring) :
  parse_value f (Ch.lbrace :: s) = POk v r -> is_object v = true.
Proof.
  destruct f as [|f]; cbn [parse_value]; [discriminate|].
  change (skip_ws (Ch.lbrace :: s)) with (Ch.lbrace :: s). cbn iota.
  change (N.eqb Ch.lbrace Ch.lbrace) with true. cbn iota.
  destruct (skip_ws s) as [|c' s2]; [discriminate|].
  destruct (N.eqb c' Ch.rbrace).
  - intros H. now injection H as <- _.
  - intros H. apply pmap_ok in H. now destruct H as (o & _ & ->).
Qed.

Lemma dropWhile_app_stop (p : char -> bool) (a b : jsstring) (c : char) :
  p c = false -> dropWhile p (a ++ c :: b) <> [].
Proof.
  intros Hc. induction a as [|x a IH]; simpl.
  - rewrite Hc. discriminate.
  - destruct (p x); [exact IH|discriminate].
Qed.

(** A complete object followed by more than white space is not valid
    JSON: the first attempt fails on it. *)
Lemma object_and_more_fails (E : engine) (o x : jsstring) (v : JSON) :
  one_object o = true -> JSON_parse E o = Value v -> skip_ws x <> [] ->
  JSON_parse E (o ++ x) = Raised (SyntaxError (syntax_message E (o ++ x))).
Proof.
  intros Ho Hv Hx.
  destruct (one_object_braced _ Ho) as (m & ->).
  apply JSON_parse_inv in Hv. destruct Hv as (r & Hp & Hr).
  assert (Hnil : r = []).
  { destruct r as [|c r] using rev_ind; [reflexivity|]. exfalso.
    apply dropWhile_nil in Hr. apply forallb_last in Hr.
    apply parse_value_suffix in Hp. destruct Hp as (pre & Hp).
    change (Ch.lbrace :: m ++ [Ch.rbrace]) with ((Ch.lbrace :: m) ++ [Ch.rbrace]) in Hp.
    rewrite app_assoc in Hp. apply app_inj_tail in Hp. destruct Hp as [_ <-].
    discriminate. }
  subst r.
  pose proof (parse_value_lbrace _ _ _ _ Hp) as Hobj.
  apply (parse_value_ext x) in Hp.
  2:{ right. now destruct v. }
  apply (parse_value_mono _ (S (length ((Ch.lbrace :: m ++ [Ch.rbrace]) ++ x)))) in Hp.
  2:{ rewrite length_app. lia. }
  unfold JSON_parse, parse_json. rewrite Hp. cbn [app].
  destruct (skip_ws x); [contradiction|reflexivity].
Qed.

(** C4, as stated, fails: two decodable objects of different lengths in
    prose without braces, the first with a closing brace inside a string,
    and the extraction fails. *)
Lemma selects_longer_counterexample :
  let text := jq "noise {'a':'}'} more {'formTitle':'X','fields':[]} end" in
  text = js "noise " ++ jq "{'a':'}'}" ++ js " more "
           ++ jq "{'formTitle':'X','fields':[]}" ++ js " end"
  /\ JSON_parse reference_engine (jq "{'a':'}'}")
     = Value (JObject [(js "a", JString (js "}"))])
  /\ JSON_parse reference_engine (jq "{'formTitle':'X','fields':[]}")
     = Value (JObject [(js "formTitle", JString (js "X")); (js "fields", JArray [])])
  /\ extraction_outcome reference_engine text []
     = Failed (js "Failed to parse AI response. Tried multiple parsing strategies. Error: Unexpected token m in JSON at position 10. Please try again.")
  /\ ~ selects_longer reference_engine (js "noise ") (jq "{'a':'}'}") (js " more ")
         (jq "{'formTitle':'X','fields':[]}") (js " end").
Proof.
  cbv zeta. repeat split; try (vm_compute; reflexivity).
  intros H.
  specialize (H _ _ eq_refl eq_refl eq_refl eq_refl ltac:(vm_compute; lia)
                eq_refl eq_refl eq_refl []).
  vm_compute in H. discriminate.
Qed.

(** C4, amended. For every text made of two decodable JSON objects of
    different lengths, each of them one complete candidate for the count
    of braces (its first brace is closed by its last character, whatever
    stands inside its strings), separated and surrounded by text without
    braces, the extraction recovers the longer of the two objects. *)
Theorem longer_of_two_objects_recovered (E : engine) (p0 o1 p1 o2 p2 : jsstring)
  (v1 v2 : JSON) (c : console) :
  JSON_parse E o1 = Value v1 -> one_object o1 = true ->
  JSON_parse E o2 = Value v2 -> one_object o2 = true ->
  length o1 <> length o2 ->
  brace_free p0 = true -> brace_free p1 = true -> brace_free p2 = true ->
  extraction_outcome E (p0 ++ o1 ++ p1 ++ o2 ++ p2) c
  = Recovered (if (length o2 <? length o1)%nat then v1 else v2).
Proof.
  intros Hv1 Ho1 Hv2 Ho2 Hlen Hp0 Hp1 Hp2.
  destruct (one_object_braced _ Ho1) as (m1 & Hm1).
  destruct (one_object_braced _ Ho2) as (m2 & Hm2).
  set (j := o1 ++ p1 ++ o2).
  assert (Hj : j = Ch.lbrace :: (m1 ++ [Ch.rbrace] ++ p1 ++ Ch.lbrace :: m2) ++ [Ch.rbrace]).
  { subst j. rewrite Hm1, Hm2. cbn [app]. f_equal.
    repeat (rewrite <- app_assoc || cbn [app]). reflexivity. }
  assert (Hclean : clean (p0 ++ o1 ++ p1 ++ o2 ++ p2) = j).
  { rewrite Hj. apply clean_framed. rewrite <- Hj. subst j.
    exists p0, p2. split; [now rewrite <- !app_assoc|]. split.
    - unfold brace_free in Hp0. rewrite forallb_forall in Hp0 |- *.
      intros x Hx. apply Hp0 in Hx. apply andb_true_iff in Hx. apply Hx.
    - unfold brace_free in Hp2. rewrite forallb_forall in Hp2 |- *.
      intros x Hx. apply Hp2 in Hx. apply andb_true_iff in Hx. apply Hx. }
  assert (Hprimary : JSON_parse E j = Raised (SyntaxError (syntax_message E j))).
  { subst j. apply object_and_more_fails with (v := v1); try assumption.
    rewrite Hm2. apply dropWhile_app_stop. reflexivity. }
  destruct (fallbacks_repeat_primary E (m1 ++ [Ch.rbrace] ++ p1 ++ Ch.lbrace :: m2))
    as [HA HB].
  rewrite <- Hj in HA, HB.
  assert (HC : fallbackC E j = Value (if (length o2 <? length o1)%nat then v1 else v2)).
  { unfold fallbackC. subst j. rewrite scan_two_objects by assumption.
    cbn [largest fold_left]. unfold longer.
    destruct (length o2 <? length o1)%nat; assumption. }
  unfold extraction_outcome.
  rewrite extract_eq, Hclean, Hprimary, HA, Hprimary, HB, Hprimary, HC.
  reflexivity.
Qed.

Lemma longer_of_two_objects_recovered_witness :
  extraction_outcome reference_engine
    (js "noise " ++ jq "{'a':1}" ++ js " more "
       ++ jq "{'formTitle':'X','fields':[]}" ++ js " end") []
  = Recovered (if (length (jq "{'formTitle':'X','fields':[]}") <? length (jq "{'a':1}"))%nat
               then JObject [(js "a", JNumber (to_number (js "1")))]
               else JObject [(js "formTitle", JString (js "X")); (js "fields", JArray [])]).
Proof.
  apply (longer_of_two_objects_recovered reference_engine);
    try reflexivity.
  vm_compute. lia.
Defined.

(** ** Strings survive [JSON.stringify] and [JSON.parse] *)

Lemma hex_value_digit (n : N) : (n < 16)%N -> hex_value (hex_digit n) = Some n.
Proof.
  intros H. unfold hex_value, hex_digit, is_digit.
  destruct (N.ltb_spec n 10).
  - replace ((48 <=? n + 48) && (n + 48 <=? 57))%N with true.
    + f_equal. lia.
    + symmetry. apply andb_true_iff. split; apply N.leb_le; lia.
  - replace ((48 <=? n + 87) && (n + 87 <=? 57))%N with false.
    + replace ((97 <=? n + 87) && (n + 87 <=? 102))%N with true.
      * f_equal. lia.
      * symmetry. apply andb_true_iff. split; apply N.leb_le; lia.
    + symmetry. apply andb_false_iff. right. apply N.leb_gt. lia.
Qed.

Lemma hex4_escape (c : N) :
  (c < 65536)%N ->
  hex4 (hex_digit (c / 4096 mod 16)) (hex_digit (c / 256 mod 16))
       (hex_digit (c / 16 mod 16)) (hex_digit (c mod 16)) = Some c.
Proof.
  intros H. unfold hex4.
  rewrite !hex_value_digit by (apply N.mod_lt; discriminate).
  f_equal. zify. Z.to_euclidean_division_equations. lia.
Qed.

Lemma parse_chars_escape (c : char) (t : jsstring) :
  (c < 65536)%N ->
  parse_chars (unicode_escape c ++ t) = pmap (cons c) (parse_chars t).
Proof.
  intros H. unfold unicode_escape. cbn [app parse_chars].
  change (N.eqb Ch.backslash Ch.quote) with false.
  change (N.eqb Ch.backslash Ch.backslash) with true.
  change (N.eqb 117 117) with true. cbn iota.
  now rewrite hex4_escape.
Qed.

Lemma parse_chars_plain (c : char) (t : jsstring) :
  N.eqb c Ch.quote = false -> N.eqb c Ch.backslash = false -> (c <? 32)%N = false ->
  parse_chars (c :: t) = pmap (cons c) (parse_chars t).
Proof. intros H1 H2 H3. cbn [parse_chars]. now rewrite H1, H2, H3. Qed.

Lemma parse_chars_quote_char (c : char) (t : jsstring) :
  is_high_surrogate c = false ->
  parse_chars (quote_char c ++ t) = pmap (cons c) (parse_chars t).
Proof.
  intros Hh. unfold quote_char.
  destruct (N.eqb_spec c 8) as [->|H8]; [reflexivity|].
  destruct (N.eqb_spec c Ch.tab) as [->|H9]; [reflexivity|].
  destruct (N.eqb_spec c Ch.lf) as [->|H10]; [reflexivity|].
  destruct (N.eqb_spec c Ch.ff) as [->|H12]; [reflexivity|].
  destruct (N.eqb_spec c Ch.cr) as [->|H13]; [reflexivity|].
  destruct (N.eqb_spec c Ch.quote) as [->|Hq]; [reflexivity|].
  destruct (N.eqb_spec c Ch.backslash) as [->|Hb]; [reflexivity|].
  rewrite Hh. cbn [orb].
  destruct (N.ltb_spec c 32) as [Hlt|Hge].
  - cbn [orb]. apply parse_chars_escape. lia.
  - cbn [orb]. destruct (is_low_surrogate c) eqn:Hl.
    + apply parse_chars_escape. unfold is_low_surrogate in Hl.
      apply andb_true_iff in Hl. destruct Hl as [_ Hl]. apply N.leb_le in Hl. lia.
    + cbn [app]. apply parse_chars_plain.
      * now apply N.eqb_neq.
      * now apply N.eqb_neq.
      * apply N.ltb_ge. exact Hge.
Qed.

Lemma surrogate_plain (c : char) :
  (55296 <=? c)%N = true ->
  N.eqb c Ch.quote = false /\ N.eqb c Ch.backslash = false /\ (c <? 32)%N = false.
Proof.
  intros H. apply N.leb_le in H. repeat split.
  - apply N.eqb_neq. unfold Ch.quote. lia.
  - apply N.eqb_neq. unfold Ch.backslash. lia.
  - apply N.ltb_ge. lia.
Qed.

Lemma parse_quote_chars (rest : jsstring) (s : jsstring) :
  parse_chars (quote_chars s ++ Ch.quote :: rest) = POk s rest.
Proof.
  induction s as [s IH] using length_induction.
  destruct s as [|c r]; [reflexivity|].
  cbn [quote_chars].
  destruct (is_high_surrogate c) eqn:Hh.
  - assert (Hc : (c < 65536)%N /\ (55296 <=? c)%N = true).
    { unfold is_high_surrogate in Hh. apply andb_true_iff in Hh. destruct Hh as [H1 H2].
      apply N.leb_le in H2. split; [lia|exact H1]. }
    destruct r as [|d r'].
    + rewrite parse_chars_escape by apply Hc. reflexivity.
    + destruct (is_low_surrogate d) eqn:Hl.
      * assert (Hd : (55296 <=? d)%N = true).
        { unfold is_low_surrogate in Hl. apply andb_true_iff in Hl. destruct Hl as [H1 _].
          apply N.leb_le in H1. apply N.leb_le. lia. }
        destruct (surrogate_plain c (proj2 Hc)) as (C1 & C2 & C3).
        destruct (surrogate_plain d Hd) as (D1 & D2 & D3).
        cbn [app]. rewrite (parse_chars_plain c _ C1 C2 C3).
        rewrite (parse_chars_plain d _ D1 D2 D3).
        now rewrite (IH r') by (simpl; lia).
      * rewrite <- app_assoc, parse_chars_escape by apply Hc.
        now rewrite (IH (d :: r')) by (simpl; lia).
  - rewrite <- app_assoc, parse_chars_quote_char by exact Hh.
    now rewrite (IH r) by (simpl; lia).
Qed.

(** ** Induction on JSON values *)

Lemma JSON_induction (P : JSON -> Prop) :
  P JNull ->
  (forall b, P (JBool b)) ->
  (forall literal, P (JNumber literal)) ->
  (forall s, P (JString s)) ->
  (forall elements, Forall P elements -> P (JArray elements)) ->
  (forall properties, Forall (fun kv => P (snd kv)) properties -> P (JObject properties)) ->
  forall v, P v.
Proof.
  intros Hnull Hbool Hnum Hstr Harr Hobj.
  refine (fix F (v : JSON) : P v :=
            match v with
            | JNull => Hnull
            | JBool b => Hbool b
            | JNumber l => Hnum l
            | JString s => Hstr s
            | JArray els =>
                Harr els ((fix G (l : list JSON) : Forall P l :=
                             match l with
                             | [] => Forall_nil _
                             | x :: l' => Forall_cons x (F x) (G l')
                             end) els)
            | JObject ps =>
                Hobj ps ((fix G (l : list (jsstring * JSON))
                            : Forall (fun kv => P (snd kv)) l :=
                            match l with
                            | [] => Forall_nil _
                            | kv :: l' => Forall_cons kv (F (snd kv)) (G l')
                            end) ps)
            end).
Qed.

(** ** Objects: defining a property *)

Lemma has_key_In (k : jsstring) (o : object) :
  has_key k o = true <-> In k (map fst o).
Proof.
  unfold has_key. induction o as [|[k' x] o IH]; cbn [lookup map fst In].
  - split; [discriminate|contradiction].
  - destruct (str_eqb k k') eqn:Hk.
    + apply str_eqb_eq in Hk. subst k'. split; [now left|reflexivity].
    + rewrite IH. split; [now right|]. intros [->|H]; [|exact H].
      rewrite str_eqb_refl in Hk. discriminate.
Qed.

Lemma obj_insert_end (k : jsstring) (x : JSON) (o : object) :
  forallb (fun k' => negb (key_before k k')) (map fst o) = true ->
  obj_insert k x o = o ++ [(k, x)].
Proof.
  induction o as [|[k' x'] o IH]; cbn [map fst forallb obj_insert app]; [reflexivity|].
  intros H. apply andb_true_iff in H. destruct H as [Hk H].
  destruct (key_before k k'); [discriminate|]. now rewrite IH.
Qed.

Lemma ordered_keys_app (a b : list jsstring) :
  ordered_keys (a ++ b) = true ->
  ordered_keys a = true
  /\ forall k, In k a -> forall k', In k' b ->
       str_eqb k' k = false /\ key_before k' k = false.
Proof.
  induction a as [|x a IH]; cbn [app ordered_keys].
  - intros _. split; [reflexivity|contradiction].
  - intros H. apply andb_true_iff in H. destruct H as [Hx H].
    destruct (IH H) as [Ha Hab]. rewrite forallb_app in Hx.
    apply andb_true_iff in Hx. destruct Hx as [Hxa Hxb].
    split; [now rewrite Hxa, Ha|].
    intros k [<-|Hk] k' Hk'; [|now apply Hab].
    rewrite forallb_forall in Hxb. specialize (Hxb _ Hk').
    apply andb_true_iff in Hxb. destruct Hxb as [H1 H2].
    split; [now destruct (str_eqb k' x)|now destruct (key_before k' x)].
Qed.

(** In an ordered object a property defined after the others comes last. *)
Lemma obj_set_append (k : jsstring) (x : JSON) (o rest : object) :
  ordered_keys (map fst (o ++ (k, x) :: rest)) = true ->
  obj_set k x o = o ++ [(k, x)].
Proof.
  intros H. rewrite map_app in H. apply ordered_keys_app in H.
  destruct H as [_ H].
  assert (Hk : forall k0, In k0 (map fst o) ->
                 str_eqb k k0 = false /\ key_before k k0 = false).
  { intros k0 Hk0. apply (H k0 Hk0 k). now left. }
  unfold obj_set.
  destruct (has_key k o) eqn:Hh.
  - apply has_key_In in Hh. destruct (Hk _ Hh) as [Hne _].
    rewrite str_eqb_refl in Hne. discriminate.
  - apply obj_insert_end. apply forallb_forall. intros k0 Hk0.
    destruct (Hk _ Hk0) as [_ ->]. reflexivity.
Qed.

(** ** Values survive [JSON.stringify] and [JSON.parse] *)

Lemma skip_ws_ws (w s : jsstring) :
  forallb is_json_ws w = true -> skip_ws (w ++ s) = skip_ws s.
Proof.
  unfold skip_ws. induction w as [|c w IH]; cbn [forallb app dropWhile]; [reflexivity|].
  intros H. apply andb_true_iff in H. destruct H as [-> H]. now apply IH.
Qed.

Lemma parse_value_ws (f : nat) (w s : jsstring) :
  forallb is_json_ws w = true -> parse_value (S f) (w ++ s) = parse_value (S f) s.
Proof.
  intros H. cbn [parse_value]. now rewrite skip_ws_ws.
Qed.

(** The first character of the text of a Number: a digit, or the sign. *)
Lemma number_text_head (x : binary64) :
  wf_number x = true -> plain_number x = true ->
  exists c t, number_text x = c :: t /\ (is_digit c = true \/ c = Ch.minus).
Proof.
  intros Hwf Hplain.
  destruct (number_text_literal x Hwf Hplain)
    as (negative & int & frac & ex & -> & [Hint (d & r & -> & _) _ _] & _).
  cbn [forallb] in Hint. apply andb_true_iff in Hint. destruct Hint as [Hd _].
  destruct negative; cbn [minus_sign app literal_text].
  - eexists _, _. split; [reflexivity|now right].
  - eexists _, _. split; [reflexivity|now left].
Qed.

Lemma serialize_number (indent : jsstring) (x : binary64) :
  plain_number x = true -> serialize indent (JNumber x) = number_text x.
Proof. destruct x; [reflexivity|reflexivity|discriminate]. Qed.

Lemma number_head_char (c : char) :
  is_digit c = true \/ c = Ch.minus ->
  is_json_ws c = false /\ N.eqb c Ch.rbracket = false /\ N.eqb c Ch.lbrace = false
  /\ N.eqb c Ch.lbracket = false /\ N.eqb c Ch.quote = false
  /\ N.eqb c 116 = false /\ N.eqb c 102 = false /\ N.eqb c 110 = false
  /\ (N.eqb c Ch.minus || is_digit c)%bool = true.
Proof.
  intros [H| ->]; [|repeat split; reflexivity].
  unfold is_json_ws. rewrite H, orb_true_r.
  unfold Ch.space, Ch.tab, Ch.lf, Ch.cr, Ch.rbracket, Ch.lbrace, Ch.lbracket, Ch.quote.
  rewrite !(digit_not _ _ H) by lia. repeat split; reflexivity.
Qed.

(** The first character of the text of a value. *)
Lemma serialize_head (indent : jsstring) (v : JSON) :
  wf_json v = true -> plain_numbers v = true ->
  exists c t, serialize indent v = c :: t
              /\ is_json_ws c = false /\ N.eqb c Ch.rbracket = false.
Proof.
  destruct v as [|b|x|s|els|ps]; intros Hwf H.
  - now eexists _, _.
  - destruct b; now eexists _, _.
  - cbn [wf_json plain_numbers] in *. rewrite (serialize_number indent x H).
    destruct (number_text_head x Hwf H) as (c & t & -> & Hc).
    apply number_head_char in Hc. exists c, t. tauto.
  - now eexists _, _.
  - destruct els; now eexists _, _.
  - destruct ps; now eexists _, _.
Qed.

(** White space, and the closing bracket or brace, end a number. *)
Lemma delimited_closing (closing rest : jsstring) (c : char) :
  forallb is_json_ws closing = true -> delimited (c :: rest) = true ->
  delimited (closing ++ c :: rest) = true.
Proof.
  intros Hws Hc. destruct closing as [|w closing]; [exact Hc|].
  cbn [forallb] in Hws. apply andb_true_iff in Hws. destruct Hws as [Hw _].
  cbn [app delimited]. unfold is_json_ws in Hw.
  rewrite !orb_true_iff, !N.eqb_eq in Hw.
  destruct Hw as [[[-> | ->] | ->] | ->]; reflexivity.
Qed.

(** A Number is read back from its text. *)
Lemma parse_value_number (f : nat) (x : binary64) (rest : jsstring) :
  wf_number x = true -> plain_number x = true -> delimited rest = true ->
  parse_value (S f) (number_text x ++ rest) = POk (JNumber x) rest.
Proof.
  intros Hwf Hplain Hrest.
  destruct (number_text_read x rest Hwf Hplain Hrest) as [Hlex Hnum].
  destruct (number_text_head x Hwf Hplain) as (c & t & Htext & Hc).
  apply number_head_char in Hc.
  destruct Hc as (Hws & _ & Hlb & Hlk & Hq & Ht & Hf & Hn & Hnumber).
  cbn [parse_value]. rewrite Htext in *. cbn [app] in *.
  unfold skip_ws. cbn [dropWhile]. rewrite Hws.
  rewrite Hlb, Hlk, Hq.
  cbn [startsWith js list_ascii_of_string map].
  change (N_of_ascii "t") with 116%N. change (N_of_ascii "f") with 102%N.
  change (N_of_ascii "n") with 110%N.
  rewrite (N.eqb_sym 116), (N.eqb_sym 102), (N.eqb_sym 110), Ht, Hf, Hn.
  cbn [andb]. rewrite Hnumber, Hlex. cbn [pmap]. now rewrite Hnum.
Qed.

Lemma join_cons (sep x : jsstring) (l : list jsstring) :
  exists t, join sep (x :: l) = x ++ t.
Proof.
  destruct l as [|y l]; cbn [join].
  - exists []. now rewrite app_nil_r.
  - now eexists.
Qed.

(** The elements of an array, as [parse_elements] reads them back. *)
Lemma elements_round_trip (pv : jsstring -> parsed JSON) (ind closing rest : jsstring)
  (elements : list JSON) :
  elements <> [] ->
  Forall (fun e => forall w t, forallb is_json_ws w = true -> delimited t = true ->
                     pv (w ++ serialize ind e ++ t) = POk e t) elements ->
  forallb is_json_ws ind = true -> forallb is_json_ws closing = true ->
  forall n, length elements <= n ->
    parse_elements pv n
      (Ch.lf :: ind ++ join (Ch.comma :: Ch.lf :: ind) (map (serialize ind) elements)
         ++ closing ++ Ch.rbracket :: rest)
    = POk elements rest.
Proof.
  intros Hne Hall Hind Hclosing.
  induction Hall as [|e es He Hes IH]; [contradiction|].
  intros n Hn. destruct n as [|n]; [simpl in Hn; lia|].
  cbn [parse_elements map].
  assert (Hw : forallb is_json_ws (Ch.lf :: ind) = true) by (cbn [forallb]; now rewrite Hind).
  destruct es as [|e' es].
  - cbn [join map].
    pose proof (He (Ch.lf :: ind) (closing ++ Ch.rbracket :: rest) Hw
                  (delimited_closing closing rest Ch.rbracket Hclosing eq_refl)) as Hp.
    rewrite_arg Hp.
    rewrite skip_ws_ws by exact Hclosing. reflexivity.
  - cbn [join map].
    pose proof (He (Ch.lf :: ind)
                  (Ch.comma :: (Ch.lf :: ind
                     ++ join (Ch.comma :: Ch.lf :: ind) (map (serialize ind) (e' :: es))
                     ++ closing ++ Ch.rbracket :: rest)) Hw eq_refl) as Hp.
    rewrite_upto Hp ltac:(cbn [app map join];
                          repeat (rewrite <- app_assoc || cbn [app]); reflexivity).
    change (skip_ws (Ch.comma :: ?t)) with (Ch.comma :: t).
    change (N.eqb Ch.comma Ch.comma) with true. cbn iota.
    rewrite IH; [reflexivity|discriminate|simpl in Hn |- *; lia].
Qed.

(** One member of an object, as [parse_members] reads it back. *)
Lemma parse_member_step (pv : jsstring -> parsed JSON) (n : nat)
  (w ind k T : jsstring) (x : JSON) (acc : object) :
  forallb is_json_ws w = true ->
  pv ([Ch.space] ++ serialize ind x ++ T) = POk x T ->
  parse_members pv (S n)
    (w ++ QuoteJSONString k ++ Ch.colon :: Ch.space :: serialize ind x ++ T) acc
  = match skip_ws T with
    | [] => PErr []
    | c2 :: r4 =>
        if N.eqb c2 Ch.comma then parse_members pv n r4 (obj_set k x acc)
        else if N.eqb c2 Ch.rbrace then POk (obj_set k x acc) r4
        else PErr (c2 :: r4)
    end.
Proof.
  intros Hw Hpv. cbn [parse_members]. rewrite skip_ws_ws by exact Hw.
  unfold QuoteJSONString. cbn [app].
  change (skip_ws (Ch.quote :: ?t)) with (Ch.quote :: t).
  change (N.eqb Ch.quote Ch.quote) with true. cbn iota.
  rewrite <- app_assoc. cbn [app]. rewrite parse_quote_chars.
  change (skip_ws (Ch.colon :: ?t)) with (Ch.colon :: t).
  change (N.eqb Ch.colon Ch.colon) with true. cbn iota.
  cbn [app] in Hpv. rewrite Hpv. reflexivity.
Qed.

(** The members of an object, as [parse_members] reads them back. *)
Lemma members_round_trip (pv : jsstring -> parsed JSON) (ind closing rest : jsstring)
  (properties : object) :
  properties <> [] ->
  Forall (fun kv => forall w t, forallb is_json_ws w = true -> delimited t = true ->
                      pv (w ++ serialize ind (snd kv) ++ t) = POk (snd kv) t) properties ->
  forallb is_json_ws ind = true -> forallb is_json_ws closing = true ->
  forall n acc, length properties <= n ->
    ordered_keys (map fst (acc ++ properties)) = true ->
    parse_members pv n
      (Ch.lf :: ind
         ++ join (Ch.comma :: Ch.lf :: ind)
              (map (fun '(k, x) =>
                      QuoteJSONString k ++ Ch.colon :: Ch.space :: serialize ind x)
                 properties)
         ++ closing ++ Ch.rbrace :: rest) acc
    = POk (acc ++ properties) rest.
Proof.
  intros Hne Hall Hind Hclosing.
  induction Hall as [|[k x] ps Hx Hps IH]; [contradiction|].
  intros n acc Hn Hord. destruct n as [|n]; [simpl in Hn; lia|].
  assert (Hw : forallb is_json_ws (Ch.lf :: ind) = true) by (cbn [forallb]; now rewrite Hind).
  cbn [snd] in Hx.
  destruct ps as [|kv' ps].
  - cbn [join map].
    pose proof (parse_member_step pv n (Ch.lf :: ind) ind k
                  (closing ++ Ch.rbrace :: rest) x acc Hw
                  (Hx [Ch.space] _ eq_refl
                     (delimited_closing closing rest Ch.rbrace Hclosing eq_refl))) as Hp.
    rewrite skip_ws_ws in Hp by exact Hclosing.
    change (skip_ws (Ch.rbrace :: rest)) with (Ch.rbrace :: rest) in Hp.
    cbn iota in Hp.
    change (N.eqb Ch.rbrace Ch.comma) with false in Hp.
    change (N.eqb Ch.rbrace Ch.rbrace) with true in Hp. cbn iota in Hp.
    rewrite (obj_set_append k x acc [] Hord) in Hp.
    etransitivity; [|exact Hp]. f_equal.
    cbn [app]. repeat (rewrite <- app_assoc || cbn [app]). reflexivity.
  - cbn [join map].
    set (members := join (Ch.comma :: Ch.lf :: ind)
                      (map (fun '(k0, x0) =>
                              QuoteJSONString k0 ++ Ch.colon :: Ch.space :: serialize ind x0)
                         (kv' :: ps))) in *.
    pose proof (parse_member_step pv n (Ch.lf :: ind) ind k
                  (Ch.comma :: (Ch.lf :: ind ++ members ++ closing ++ Ch.rbrace :: rest))
                  x acc Hw
                  (Hx [Ch.space]
                     (Ch.comma :: (Ch.lf :: ind ++ members ++ closing ++ Ch.rbrace :: rest))
                     eq_refl eq_refl)) as Hp.
    change (skip_ws (Ch.comma :: ?t)) with (Ch.comma :: t) in Hp.
    cbn iota in Hp.
    change (N.eqb Ch.comma Ch.comma) with true in Hp. cbn iota in Hp.
    rewrite IH in Hp.
    + rewrite (obj_set_append k x acc (kv' :: ps) Hord) in Hp.
      rewrite <- app_assoc in Hp. cbn [app] in Hp.
      etransitivity; [|exact Hp]. f_equal.
      cbn [app]. repeat (rewrite <- app_assoc || cbn [app]). reflexivity.
    + discriminate.
    + simpl in Hn |- *. lia.
    + rewrite (obj_set_append k x acc (kv' :: ps) Hord).
      rewrite <- app_assoc. exact Hord.
Qed.

Lemma skip_ws_lf_indent (ind s : jsstring) :
  forallb is_json_ws ind = true -> skip_ws (Ch.lf :: ind ++ s) = skip_ws s.
Proof.
  intros H. apply (skip_ws_ws (Ch.lf :: ind)). cbn [forallb]. now rewrite H.
Qed.

Lemma parse_value_array (f : nat) (r rest t0 : jsstring) (c0 : char) (elements : list JSON) :
  skip_ws r = c0 :: t0 -> N.eqb c0 Ch.rbracket = false ->
  parse_elements (parse_value f) f r = POk elements rest ->
  parse_value (S f) (Ch.lbracket :: r) = POk (JArray elements) rest.
Proof.
  intros Hs Hc Hp. cbn [parse_value].
  change (skip_ws (Ch.lbracket :: r)) with (Ch.lbracket :: r). cbn iota.
  change (N.eqb Ch.lbracket Ch.lbrace) with false.
  change (N.eqb Ch.lbracket Ch.lbracket) with true. cbn iota.
  now rewrite Hs, Hc, Hp.
Qed.

Lemma parse_value_members (f : nat) (r rest t0 : jsstring) (c0 : char) (properties : object) :
  skip_ws r = c0 :: t0 -> N.eqb c0 Ch.rbrace = false ->
  parse_members (parse_value f) f r [] = POk properties rest ->
  parse_value (S f) (Ch.lbrace :: r) = POk (JObject properties) rest.
Proof.
  intros Hs Hc Hp. cbn [parse_value].
  change (skip_ws (Ch.lbrace :: r)) with (Ch.lbrace :: r). cbn iota.
  change (N.eqb Ch.lbrace Ch.lbrace) with true. cbn iota.
  now rewrite Hs, Hc, Hp.
Qed.

Lemma size_positive (v : JSON) : 1 <= size v.
Proof. destruct v; simpl; lia. Qed.

Lemma list_sum_In (l : list nat) (n : nat) : In n l -> n <= list_sum l.
Proof.
  induction l as [|m l IH]; [contradiction|].
  intros [->|H]; simpl; [lia|]. apply IH in H. lia.
Qed.

Lemma list_sum_length (l : list nat) : Forall (fun n => 1 <= n) l -> length l <= list_sum l.
Proof.
  induction 1 as [|n l Hn _ IH]; simpl; lia.
Qed.

(** Reading back the text of a value gives the value, whatever follows
    the text, at any indentation. *)
Lemma parse_serialize (v : JSON) :
  wf_json v = true -> plain_numbers v = true ->
  forall indent f rest,
    forallb is_json_ws indent = true -> size v <= f -> delimited rest = true ->
    parse_value f (serialize indent v ++ rest) = POk v rest.
Proof.
  induction v as [|b|x|s|elements IH|properties IH] using JSON_induction;
    intros Hwf Hnf indent f rest Hind Hf Hrest.
  - destruct f as [|f]; [simpl in Hf; lia|]. reflexivity.
  - destruct f as [|f]; [simpl in Hf; lia|]. destruct b; reflexivity.
  - destruct f as [|f]; [simpl in Hf; lia|].
    cbn [wf_json plain_numbers] in *. rewrite (serialize_number indent x Hnf).
    now apply parse_value_number.
  - destruct f as [|f]; [simpl in Hf; lia|].
    cbn [serialize parse_value]. unfold QuoteJSONString. cbn [app].
    change (skip_ws (Ch.quote :: ?t)) with (Ch.quote :: t). cbn iota.
    change (N.eqb Ch.quote Ch.lbrace) with false.
    change (N.eqb Ch.quote Ch.lbracket) with false.
    change (N.eqb Ch.quote Ch.quote) with true. cbn iota.
    rewrite <- app_assoc. cbn [app]. now rewrite parse_quote_chars.
  - (* arrays *)
    destruct elements as [|e es].
    { destruct f as [|f]; [simpl in Hf; lia|]. reflexivity. }
    destruct f as [|f]; [simpl in Hf; lia|].
    cbn [wf_json] in Hwf. cbn [plain_numbers] in Hnf. cbn [size] in Hf.
    set (ind := indent ++ gap).
    assert (Hws : forallb is_json_ws ind = true).
    { subst ind. rewrite forallb_app, Hind. reflexivity. }
    assert (Hshape : serialize indent (JArray (e :: es)) ++ rest
                     = Ch.lbracket
                         :: (Ch.lf :: ind
                               ++ join (Ch.comma :: Ch.lf :: ind)
                                    (map (serialize ind) (e :: es))
                               ++ (Ch.lf :: indent) ++ Ch.rbracket :: rest)).
    { cbn [serialize]. fold ind.
      cbn [app]. repeat (rewrite <- app_assoc || cbn [app]). reflexivity. }
    rewrite Hshape.
    assert (He : plain_numbers e = true)
      by (cbn [forallb] in Hnf; now apply andb_true_iff in Hnf).
    assert (He' : wf_json e = true)
      by (cbn [forallb] in Hwf; now apply andb_true_iff in Hwf).
    destruct (serialize_head ind e He' He) as (c0 & t0 & Hhead & Hc0 & Hc0').
    destruct (join_cons (Ch.comma :: Ch.lf :: ind) (serialize ind e)
                (map (serialize ind) es)) as (tj & Hj).
    eapply parse_value_array with (c0 := c0).
    + cbn [map]. rewrite Hj, Hhead.
      change (Ch.lf :: ind ++ ((c0 :: t0) ++ tj) ++ (Ch.lf :: indent) ++ Ch.rbracket :: rest)
        with ((Ch.lf :: ind)
                ++ c0 :: (t0 ++ tj) ++ (Ch.lf :: indent) ++ Ch.rbracket :: rest).
      rewrite skip_ws_ws by (cbn [forallb]; now rewrite Hws).
      unfold skip_ws. cbn [dropWhile]. rewrite Hc0. reflexivity.
    + exact Hc0'.
    + apply elements_round_trip.
      * discriminate.
      * rewrite Forall_forall in IH |- *. intros x Hx w t Hw Ht.
        assert (Hsx : size x <= f).
        { apply (in_map size) in Hx. apply list_sum_In in Hx. lia. }
        destruct f as [|f']; [pose proof (size_positive x); lia|].
        rewrite parse_value_ws by exact Hw.
        rewrite forallb_forall in Hwf, Hnf.
        apply IH; auto.
      * exact Hws.
      * cbn [forallb]. now rewrite Hind.
      * assert (length (e :: es) <= list_sum (map size (e :: es))).
        { rewrite <- (length_map size). apply list_sum_length.
          rewrite Forall_forall. intros n Hn. apply in_map_iff in Hn.
          destruct Hn as (x & <- & _). apply size_positive. }
        lia.
  - (* objects *)
    destruct properties as [|[k0 x0] ps].
    { destruct f as [|f]; [simpl in Hf; lia|]. reflexivity. }
    destruct f as [|f]; [simpl in Hf; lia|].
    cbn [wf_json] in Hwf. apply andb_true_iff in Hwf. destruct Hwf as [Hord Hwf].
    cbn [plain_numbers] in Hnf. cbn [size] in Hf.
    set (ind := indent ++ gap).
    assert (Hws : forallb is_json_ws ind = true).
    { subst ind. rewrite forallb_app, Hind. reflexivity. }
    set (member := fun '(k, x) =>
                     QuoteJSONString k ++ Ch.colon :: Ch.space :: serialize ind x).
    assert (Hshape : serialize indent (JObject ((k0, x0) :: ps)) ++ rest
                     = Ch.lbrace
                         :: (Ch.lf :: ind
                               ++ join (Ch.comma :: Ch.lf :: ind)
                                    (map member ((k0, x0) :: ps))
                               ++ (Ch.lf :: indent) ++ Ch.rbrace :: rest)).
    { cbn [serialize]. fold ind. fold member.
      cbn [app]. repeat (rewrite <- app_assoc || cbn [app]). reflexivity. }
    rewrite Hshape.
    assert (Hsk : exists t0,
               skip_ws (Ch.lf :: ind
                          ++ join (Ch.comma :: Ch.lf :: ind) (map member ((k0, x0) :: ps))
                          ++ (Ch.lf :: indent) ++ Ch.rbrace :: rest)
               = Ch.quote :: t0).
    { rewrite skip_ws_lf_indent by exact Hws. destruct ps; eexists; reflexivity. }
    destruct Hsk as (t0 & Hsk).
    eapply parse_value_members with (c0 := Ch.quote) (t0 := t0).
    + exact Hsk.
    + reflexivity.
    + apply (members_round_trip (parse_value f) ind (Ch.lf :: indent) rest
               ((k0, x0) :: ps)).
      * discriminate.
      * rewrite Forall_forall in IH |- *. intros [k x] Hx w t Hw Ht. cbn [snd].
        assert (Hsx : size x <= f).
        { apply (in_map (fun '(_, x) => size x)) in Hx. apply list_sum_In in Hx. lia. }
        destruct f as [|f']; [pose proof (size_positive x); lia|].
        rewrite parse_value_ws by exact Hw.
        rewrite forallb_forall in Hwf, Hnf.
        apply (IH (k, x) Hx); auto.
        -- apply (Hwf (k, x) Hx).
        -- apply (Hnf (k, x) Hx).
      * exact Hws.
      * cbn [forallb]. now rewrite Hind.
      * assert (length ((k0, x0) :: ps)
                <= list_sum (map (fun '(_, x) => size x) ((k0, x0) :: ps))).
        { rewrite <- (length_map (fun '(_, x) => size x)). apply list_sum_length.
          rewrite Forall_forall. intros n Hn. apply in_map_iff in Hn.
          destruct Hn as ([k x] & <- & _). apply size_positive. }
        lia.
      * exact Hord.
Qed.

(** The text of a value is at least as long as the value is large. *)
Lemma join_length (sep : jsstring) (texts : list jsstring) (sizes : list nat) :
  Forall2 (fun n t => n <= length t) sizes texts ->
  list_sum sizes <= length (join sep texts).
Proof.
  induction 1 as [|n t sizes texts Hn Hrest IH]; [simpl; lia|].
  destruct texts as [|t' texts].
  - inversion Hrest. subst. simpl. lia.
  - change (join sep (t :: t' :: texts)) with (t ++ sep ++ join sep (t' :: texts)).
    change (list_sum (n :: sizes)) with (n + list_sum sizes).
    rewrite !length_app. lia.
Qed.

Lemma size_le_length (v : JSON) :
  wf_json v = true -> plain_numbers v = true ->
  forall indent, size v <= length (serialize indent v).
Proof.
  induction v as [|b|x|s|elements IH|properties IH] using JSON_induction;
    intros Hwf Hnf indent.
  - simpl. lia.
  - destruct b; simpl; lia.
  - destruct (serialize_head indent (JNumber x) Hwf Hnf) as (c & t & -> & _).
    simpl. lia.
  - simpl. lia.
  - destruct elements as [|e es]; [simpl; lia|].
    cbn [wf_json] in Hwf. rewrite forallb_forall in Hwf.
    cbn [plain_numbers] in Hnf. rewrite forallb_forall in Hnf.
    cbn [serialize size]. cbn [length]. rewrite !length_app.
    assert (Hsum : list_sum (map size (e :: es))
                   <= length (join (Ch.comma :: Ch.lf :: indent ++ gap)
                                (map (serialize (indent ++ gap)) (e :: es)))).
    { apply join_length. rewrite Forall_forall in IH.
      clear - IH Hwf Hnf. induction (e :: es) as [|x l IHl]; [constructor|].
      cbn [map]. constructor.
      - apply IH; [now left|apply Hwf; now left|apply Hnf; now left].
      - apply IHl; intros y Hy; [apply IH|apply Hwf|apply Hnf]; now right. }
    lia.
  - destruct properties as [|[k0 x0] ps]; [simpl; lia|].
    cbn [wf_json] in Hwf. apply andb_true_iff in Hwf. destruct Hwf as [_ Hwf].
    rewrite forallb_forall in Hwf.
    cbn [plain_numbers] in Hnf. rewrite forallb_forall in Hnf.
    cbn [serialize size]. cbn [length]. rewrite !length_app.
    assert (Hsum : list_sum (map (fun '(_, x) => size x) ((k0, x0) :: ps))
                   <= length (join (Ch.comma :: Ch.lf :: indent ++ gap)
                                (map (fun '(k, x) =>
                                        QuoteJSONString k ++ Ch.colon :: Ch.space
                                          :: serialize (indent ++ gap) x)
                                   ((k0, x0) :: ps)))).
    { apply join_length. rewrite Forall_forall in IH.
      clear - IH Hwf Hnf. induction ((k0, x0) :: ps) as [|[k x] l IHl]; [constructor|].
      cbn [map]. constructor.
      - rewrite length_app. cbn [length].
        assert (size x <= length (serialize (indent ++ gap) x)).
        { apply (IH (k, x)); [now left|apply (Hwf (k, x)); now left
                             |apply (Hnf (k, x)); now left]. }
        lia.
      - apply IHl; intros y Hy; [apply IH|apply Hwf|apply Hnf]; now right. }
    lia.
Qed.

(** [JSON.parse(JSON.stringify(v, null, 2))] is [v], for a value whose
    objects and Numbers are as [JSON.parse] builds them and whose Numbers
    are finite and not the negative zero. *)
Lemma parse_stringify (E : engine) (v : JSON) :
  wf_json v = true -> plain_numbers v = true ->
  JSON_parse E (JSON_stringify v) = Value v.
Proof.
  intros Hwf Hnf. unfold JSON_parse, parse_json, JSON_stringify.
  pose proof (parse_serialize v Hwf Hnf [] (S (length (serialize [] v))) [] eq_refl) as H.
  rewrite app_nil_r in H. rewrite H; [reflexivity| |reflexivity].
  pose proof (size_le_length v Hwf Hnf []). lia.
Qed.

(** ** Decoded values are well formed *)

Lemma key_before_asym (k k' : jsstring) :
  key_before k k' = true -> key_before k' k = false.
Proof.
  unfold key_before.
  destruct (array_index k) as [n|]; [|discriminate].
  destruct (array_index k') as [n'|]; [|reflexivity].
  intros H. apply N.ltb_lt in H. apply N.ltb_ge. lia.
Qed.

Lemma key_before_trans (k k' y : jsstring) :
  key_before k k' = true -> key_before y k' = false -> key_before y k = false.
Proof.
  unfold key_before.
  destruct (array_index k) as [n|]; [|discriminate].
  destruct (array_index y) as [m|]; [|reflexivity].
  destruct (array_index k') as [n'|]; [|discriminate].
  intros H1 H2. apply N.ltb_lt in H1. apply N.ltb_ge in H2. apply N.ltb_ge. lia.
Qed.

Lemma obj_replace_keys (k : jsstring) (x : JSON) (o : object) :
  map fst (obj_replace k x o) = map fst o.
Proof.
  induction o as [|[k' x'] o IH]; [reflexivity|].
  cbn [obj_replace]. destruct (str_eqb k k'); cbn [map fst]; now rewrite ?IH.
Qed.

Lemma obj_insert_In (k : jsstring) (x : JSON) (o : object) (y : jsstring) :
  In y (map fst (obj_insert k x o)) <-> y = k \/ In y (map fst o).
Proof.
  induction o as [|[k' x'] o IH]; cbn [obj_insert map fst In].
  - intuition.
  - destruct (key_before k k'); cbn [map fst In]; [intuition|].
    rewrite IH. intuition.
Qed.

Lemma ordered_keys_cons (k : jsstring) (ks : list jsstring) :
  ordered_keys (k :: ks) = true <->
  (forall y, In y ks -> str_eqb y k = false /\ key_before y k = false)
  /\ ordered_keys ks = true.
Proof.
  cbn [ordered_keys]. rewrite andb_true_iff, forallb_forall. split.
  - intros [H Hk]. split; [|exact Hk]. intros y Hy. specialize (H y Hy).
    apply andb_true_iff in H. destruct H as [H1 H2].
    split; [now destruct (str_eqb y k)|now destruct (key_before y k)].
  - intros [H Hk]. split; [|exact Hk]. intros y Hy. destruct (H y Hy) as [-> ->].
    reflexivity.
Qed.

Lemma obj_insert_ordered (k : jsstring) (x : JSON) (o : object) :
  ~ In k (map fst o) -> ordered_keys (map fst o) = true ->
  ordered_keys (map fst (obj_insert k x o)) = true.
Proof.
  induction o as [|[k' x'] o IH]; intros Hk Ho; [reflexivity|].
  cbn [map fst] in Hk, Ho. cbn [obj_insert].
  apply ordered_keys_cons in Ho. destruct Ho as [Hall Ho].
  destruct (key_before k k') eqn:Hb; cbn [map fst].
  - apply ordered_keys_cons. split.
    + intros y [<-|Hy].
      * split; [|now apply key_before_asym].
        destruct (str_eqb k' k) eqn:He; [|reflexivity].
        apply str_eqb_eq in He. subst. exfalso. apply Hk. now left.
      * split.
        -- destruct (str_eqb y k) eqn:He; [|reflexivity].
           apply str_eqb_eq in He. subst. exfalso. apply Hk. now right.
        -- apply key_before_trans with (k' := k'); [exact Hb|]. now apply Hall.
    + apply ordered_keys_cons. now split.
  - apply ordered_keys_cons. split.
    + intros y Hy. apply obj_insert_In in Hy. destruct Hy as [->|Hy]; [|now apply Hall].
      split; [|exact Hb].
      destruct (str_eqb k k') eqn:He; [|reflexivity].
      apply str_eqb_eq in He. subst. exfalso. apply Hk. now left.
    + apply IH; [|exact Ho]. intros H. apply Hk. now right.
Qed.

Lemma obj_set_wf (k : jsstring) (x : JSON) (o : object) :
  wf_json (JObject o) = true -> wf_json x = true -> wf_json (JObject (obj_set k x o)) = true.
Proof.
  cbn [wf_json]. intros Ho Hx. apply andb_true_iff in Ho. destruct Ho as [Hord Hall].
  apply andb_true_iff. unfold obj_set.
  destruct (has_key k o) eqn:Hh.
  - split; [now rewrite obj_replace_keys|].
    clear Hord Hh. induction o as [|[k' x'] o IH]; [reflexivity|].
    cbn [forallb] in Hall. apply andb_true_iff in Hall. destruct Hall as [H1 H2].
    cbn [obj_replace]. destruct (str_eqb k k'); cbn [forallb].
    + now rewrite Hx, H2.
    + now rewrite H1, IH.
  - split.
    + apply obj_insert_ordered; [|exact Hord].
      intros H. apply has_key_In in H. congruence.
    + clear Hord Hh. induction o as [|[k' x'] o IH]; [cbn; now rewrite Hx|].
      cbn [forallb] in Hall. apply andb_true_iff in Hall. destruct Hall as [H1 H2].
      cbn [obj_insert]. destruct (key_before k k'); cbn [forallb].
      * now rewrite Hx, H1, H2.
      * now rewrite H1, IH.
Qed.

Lemma parse_elements_wf (pv : jsstring -> parsed JSON) :
  (forall s v r, pv s = POk v r -> wf_json v = true) ->
  forall n s l r, parse_elements pv n s = POk l r -> forallb wf_json l = true.
Proof.
  intros Hpv. induction n as [|n IH]; intros s l r; cbn [parse_elements]; [discriminate|].
  destruct (pv s) as [v r1|e] eqn:Hv; [|discriminate].
  apply Hpv in Hv.
  destruct (skip_ws r1) as [|c r2]; [discriminate|].
  destruct (N.eqb c Ch.comma).
  - intros H. apply pmap_ok in H. destruct H as (l' & H & ->).
    cbn [forallb]. rewrite Hv. exact (IH _ _ _ H).
  - destruct (N.eqb c Ch.rbracket); [|discriminate].
    intros H. injection H as <- _. cbn [forallb]. now rewrite Hv.
Qed.

Lemma parse_members_wf (pv : jsstring -> parsed JSON) :
  (forall s v r, pv s = POk v r -> wf_json v = true) ->
  forall n s acc o r,
    wf_json (JObject acc) = true ->
    parse_members pv n s acc = POk o r -> wf_json (JObject o) = true.
Proof.
  intros Hpv. induction n as [|n IH]; intros s acc o r Hacc; cbn [parse_members];
    [discriminate|].
  destruct (skip_ws s) as [|c s1]; [discriminate|].
  destruct (N.eqb c Ch.quote); [|discriminate].
  destruct (parse_chars s1) as [key r1|e]; [|discriminate].
  destruct (skip_ws r1) as [|c1 r2]; [discriminate|].
  destruct (N.eqb c1 Ch.colon); [|discriminate].
  destruct (pv r2) as [v r3|e] eqn:Hv; [|discriminate].
  apply Hpv in Hv.
  destruct (skip_ws r3) as [|c2 r4]; [discriminate|].
  destruct (N.eqb c2 Ch.comma).
  - apply IH. now apply obj_set_wf.
  - destruct (N.eqb c2 Ch.rbrace); [|discriminate].
    intros H. injection H as <- _. now apply obj_set_wf.
Qed.

Lemma parse_value_wf (f : nat) :
  forall s v r, parse_value f s = POk v r -> wf_json v = true.
Proof.
  induction f as [|f IH]; intros s v r; cbn [parse_value]; [discriminate|].
  destruct (skip_ws s) as [|c s1]; [discriminate|].
  destruct (N.eqb c Ch.lbrace).
  { destruct (skip_ws s1) as [|c' s2]; [discriminate|].
    destruct (N.eqb c' Ch.rbrace).
    - intros H. now injection H as <- _.
    - intros H. apply pmap_ok in H. destruct H as (o & H & ->).
      apply (parse_members_wf _ IH) in H; [exact H|reflexivity]. }
  destruct (N.eqb c Ch.lbracket).
  { destruct (skip_ws s1) as [|c' s2]; [discriminate|].
    destruct (N.eqb c' Ch.rbracket).
    - intros H. now injection H as <- _.
    - intros H. apply pmap_ok in H. destruct H as (l & H & ->).
      apply (parse_elements_wf _ IH) in H. exact H. }
  destruct (N.eqb c Ch.quote).
  { intros H. apply pmap_ok in H. now destruct H as (k & _ & ->). }
  destruct (startsWith (js "true") (c :: s1)); [intros H; now injection H as <- _|].
  destruct (startsWith (js "false") (c :: s1)); [intros H; now injection H as <- _|].
  destruct (startsWith (js "null") (c :: s1)); [intros H; now injection H as <- _|].
  destruct (_ || _); [|discriminate].
  intros H. apply pmap_ok in H. destruct H as (k & _ & ->). apply to_number_wf.
Qed.

(** Every value that [JSON.parse] returns is well formed. *)
Lemma JSON_parse_wf (E : engine) (text : jsstring) (v : JSON) :
  JSON_parse E text = Value v -> wf_json v = true.
Proof.
  intros H. apply JSON_parse_inv in H. destruct H as (r & H & _).
  now apply parse_value_wf in H.
Qed.

(** ** Export and import *)

Lemma generated_accepted_import (E : engine) (v : JSON) (c : console) :
  generated_accepted E v c -> import_accepted E v.
Proof.
  rewrite generated_accepted_iff, import_accepted_iff.
  intros (o & elements & -> & _ & Hf & Hb). now exists o, elements.
Qed.

(** The negative zero is written as [0], and read back as the positive
    zero. *)
Lemma negative_zero_written_as_zero :
  JSON_parse reference_engine (js "-0") = Value (JNumber (Zero true))
  /\ JSON_stringify (JNumber (Zero true)) = js "0"
  /\ JSON_parse reference_engine (js "0") = Value (JNumber (Zero false)).
Proof. repeat split; vm_compute; reflexivity. Qed.

(** C9, as stated, fails: a number of the text beyond the range of
    binary64 is decoded to an infinity, which is truthy, so that both
    checks accept the schema; [JSON.stringify] writes [null] for it, and
    the import of the exported file refuses the field without [id]. *)
Lemma round_trip_counterexample :
  JSON_parse reference_engine overflow_text = Value overflow_schema
  /\ catch_all (check_generated reference_engine overflow_schema) []
     = (Success overflow_schema, [])
  /\ validateFormSchema reference_engine overflow_schema
     = Value {| isValid := true; error := None |}
  /\ handleExport {| formSchema := Some overflow_schema;
                     errorText := None; toastMessage := None |}
     = ({| formSchema := Some overflow_schema;
           errorText := None;
           toastMessage := Some (js "JSON exported successfully!") |},
        Some (JSON_stringify overflow_schema))
  /\ JSON_parse reference_engine (JSON_stringify overflow_schema)
     = Value overflow_schema_read_back
  /\ handleFileChange reference_engine (JSON_stringify overflow_schema)
       {| formSchema := None; errorText := None; toastMessage := None |}
     = {| formSchema := None;
          errorText := Some (js "Invalid JSON file: missing required field properties");
          toastMessage := None |}
  /\ ~ round_trip reference_engine overflow_schema.
Proof.
  split; [vm_compute; reflexivity|].
  split; [vm_compute; reflexivity|].
  split; [vm_compute; reflexivity|].
  split; [reflexivity|].
  split; [vm_compute; reflexivity|].
  split; [vm_compute; reflexivity|].
  intros H.
  assert (Hacc : import_accepted reference_engine overflow_schema).
  { exists {| isValid := true; error := None |}. split; vm_compute; reflexivity. }
  destruct (H (or_intror Hacc)
              {| formSchema := Some overflow_schema;
                 errorText := None; toastMessage := None |} eq_refl)
    as (file & st' & Hexport & Himport).
  injection Hexport as _ <-.
  specialize (Himport {| formSchema := None; errorText := None; toastMessage := None |}).
  assert (Hrefused : formSchema
                       (handleFileChange reference_engine (JSON_stringify overflow_schema)
                          {| formSchema := None; errorText := None; toastMessage := None |})
                     = None) by (vm_compute; reflexivity).
  rewrite Hrefused in Himport. discriminate.
Qed.

(** C9, amended. Round trip. Take a schema that the page displays: a
    value decoded from some text, accepted by the check of the AI-output
    path or by [validateFormSchema], whose Numbers are finite and not the
    negative zero.  Exporting it gives a file; importing that file,
    whatever the page displays by then, decodes it, passes
    [validateFormSchema], and displays a schema equal to the original. *)
Theorem export_import_round_trip (E : engine) (text : jsstring) (v : JSON)
  (st st0 : state) (c : console) :
  JSON_parse E text = Value v ->
  plain_numbers v = true ->
  generated_accepted E v c \/ import_accepted E v ->
  formSchema st = Some v ->
  exists file st',
    handleExport st = (st', Some file)
    /\ file = JSON_stringify v
    /\ JSON_parse E file = Value v
    /\ handleFileChange E file st0
       = {| formSchema := Some v;
            errorText := None;
            toastMessage := Some (js "Form loaded successfully!") |}.
Proof.
  intros Hdecoded Hnf Hacc Hst.
  assert (Himp : import_accepted E v).
  { destruct Hacc as [H|H]; [now apply generated_accepted_import in H|exact H]. }
  pose proof (JSON_parse_wf E text v Hdecoded) as Hwf.
  pose proof (parse_stringify E v Hwf Hnf) as Hround.
  pose proof Himp as Himp'. apply import_accepted_iff in Himp'.
  destruct Himp' as (o & elements & -> & _ & _).
  destruct Himp as (verdict & Hverdict & Hvalid).
  eexists _, _. split; [|split; [reflexivity|split; [exact Hround|]]].
  - unfold handleExport. rewrite Hst. reflexivity.
  - unfold handleFileChange. rewrite Hround, Hverdict, Hvalid. reflexivity.
Qed.

Lemma export_import_round_trip_witness :
  exists file st',
    handleExport numbered_state = (st', Some file)
    /\ file = JSON_stringify numbered_schema
    /\ JSON_parse reference_engine file = Value numbered_schema
    /\ handleFileChange reference_engine file sample_state
       = {| formSchema := Some numbered_schema;
            errorText := None;
            toastMessage := Some (js "Form loaded successfully!") |}.
Proof.
  apply (export_import_round_trip reference_engine numbered_text numbered_schema
           numbered_state sample_state []).
  - vm_compute. reflexivity.
  - reflexivity.
  - left. exists numbered_schema, []. vm_compute. reflexivity.
  - reflexivity.
Defined.

(** ** The reader of JSON never runs out of fuel *)

Lemma suffix_shorter (r s : jsstring) (c : char) : suffix (c :: r) s -> length r < length s.
Proof. intros H. apply suffix_length in H. simpl in H. lia. Qed.

Lemma skip_ws_shorter (s r : jsstring) (c : char) :
  skip_ws s = c :: r -> length r < length s.
Proof.
  intros H. apply suffix_shorter with (c := c). rewrite <- H. apply suffix_skip_ws.
Qed.

Lemma parse_elements_fuel (pv pv' : jsstring -> parsed JSON) (bound : nat) :
  (forall r, length r < bound -> pv' r = pv r) ->
  (forall s v r, pv s = POk v r -> suffix r s) ->
  forall n n' s, length s < bound -> length s < n -> length s < n' ->
    parse_elements pv' n' s = parse_elements pv n s.
Proof.
  intros Hagree Hsuf. induction n as [|n IH]; intros n' s Hb Hn Hn'; [lia|].
  destruct n' as [|n']; [lia|]. cbn [parse_elements].
  rewrite Hagree by exact Hb.
  destruct (pv s) as [v r1|e] eqn:Hv; [|reflexivity].
  apply Hsuf, suffix_length in Hv.
  destruct (skip_ws r1) as [|c r2] eqn:Hw; [reflexivity|].
  apply skip_ws_shorter in Hw.
  destruct (N.eqb c Ch.comma); [|reflexivity].
  rewrite (IH n' r2) by lia. reflexivity.
Qed.

Lemma parse_members_fuel (pv pv' : jsstring -> parsed JSON) (bound : nat) :
  (forall r, length r < bound -> pv' r = pv r) ->
  (forall s v r, pv s = POk v r -> suffix r s) ->
  forall n n' s acc, length s <= bound -> length s < n -> length s < n' ->
    parse_members pv' n' s acc = parse_members pv n s acc.
Proof.
  intros Hagree Hsuf. induction n as [|n IH]; intros n' s acc Hb Hn Hn'; [lia|].
  destruct n' as [|n']; [lia|]. cbn [parse_members].
  destruct (skip_ws s) as [|c s1] eqn:Hw0; [reflexivity|].
  apply skip_ws_shorter in Hw0.
  destruct (N.eqb c Ch.quote); [|reflexivity].
  destruct (parse_chars s1) as [key r1|e] eqn:Hk; [|reflexivity].
  apply parse_chars_suffix in Hk. destruct Hk as [_ Hk].
  destruct (skip_ws r1) as [|c1 r2] eqn:Hw1; [reflexivity|].
  apply skip_ws_shorter in Hw1.
  destruct (N.eqb c1 Ch.colon); [|reflexivity].
  rewrite Hagree by lia.
  destruct (pv r2) as [v r3|e] eqn:Hv; [|reflexivity].
  apply Hsuf, suffix_length in Hv.
  destruct (skip_ws r3) as [|c2 r4] eqn:Hw2; [reflexivity|].
  apply skip_ws_shorter in Hw2.
  destruct (N.eqb c2 Ch.comma); [|reflexivity].
  apply IH; lia.
Qed.

(** With more fuel than the text is long, more fuel changes nothing:
    the failures of [parse_json] are failures of the text. *)
Lemma parse_value_fuel (f : nat) :
  forall f' s, length s < f -> f <= f' -> parse_value f' s = parse_value f s.
Proof.
  induction f as [|f IH]; intros f' s Hs Hf; [lia|].
  destruct f' as [|f']; [lia|]. cbn [parse_value].
  destruct (skip_ws s) as [|c s1] eqn:Hw; [reflexivity|].
  apply skip_ws_shorter in Hw.
  assert (Hagree : forall r, length r < f -> parse_value f' r = parse_value f r)
    by (intros r Hr; apply IH; lia).
  destruct (N.eqb c Ch.lbrace).
  { destruct (skip_ws s1) as [|c' s2]; [reflexivity|].
    destruct (N.eqb c' Ch.rbrace); [reflexivity|].
    rewrite (parse_members_fuel (parse_value f) (parse_value f') f Hagree
               (parse_value_suffix f) f f' s1 []) by lia.
    reflexivity. }
  destruct (N.eqb c Ch.lbracket); [|reflexivity].
  destruct (skip_ws s1) as [|c' s2]; [reflexivity|].
  destruct (N.eqb c' Ch.rbracket); [reflexivity|].
  rewrite (parse_elements_fuel (parse_value f) (parse_value f') f Hagree
             (parse_value_suffix f) f f' s1) by lia.
  reflexivity.
Qed.

(** ** Values of the declared type *)

Lemma strings_plain_numbers (l : list jsstring) : forallb plain_numbers (map JString l) = true.
Proof. induction l as [|s l IH]; [reflexivity|exact IH]. Qed.

Lemma strings_wf (l : list jsstring) : forallb wf_json (map JString l) = true.
Proof. induction l as [|s l IH]; [reflexivity|exact IH]. Qed.

Lemma field_json_plain_numbers (f : Form.FormField) : plain_numbers (Form.field_json f) = true.
Proof.
  destruct f as [i l t [p|] r [o|]]; cbn; rewrite ?strings_plain_numbers; reflexivity.
Qed.

Lemma field_json_wf (f : Form.FormField) : wf_json (Form.field_json f) = true.
Proof.
  destruct f as [i l t [p|] r [o|]]; cbn -[ordered_keys];
    rewrite ?strings_wf; reflexivity.
Qed.

Lemma schema_json_plain_numbers (s : Form.FormSchema) : plain_numbers (Form.schema_json s) = true.
Proof.
  destruct s as [t d fs]. cbn. rewrite andb_true_r.
  induction fs as [|f fs IH]; [reflexivity|].
  cbn [map forallb]. now rewrite field_json_plain_numbers, IH.
Qed.

Lemma schema_json_wf (s : Form.FormSchema) : wf_json (Form.schema_json s) = true.
Proof.
  destruct s as [t d fs]. unfold Form.schema_json.
  cbn [wf_json Form.formTitle Form.formDescription Form.fields].
  apply andb_true_iff. split; [reflexivity|].
  cbn [forallb wf_json andb]. rewrite andb_true_r.
  induction fs as [|f fs IH]; [reflexivity|].
  cbn [map forallb]. now rewrite field_json_wf, IH.
Qed.

(** Every value of type [FormSchema] is written and read back unchanged. *)
Lemma typed_schema_round_trip (E : engine) (s : Form.FormSchema) :
  JSON_parse E (JSON_stringify (Form.schema_json s)) = Value (Form.schema_json s).
Proof.
  apply parse_stringify; [apply schema_json_wf|apply schema_json_plain_numbers].
Qed.
(* ================================================================== *)
(** * Part III: properties of the rest of the code *)
(* ================================================================== *)

(** ** Where the braces are *)

Lemma indexOf_from_spec (p : char -> bool) (s : jsstring) :
  forall i : Z,
    (forallb (fun x => negb (p x)) s = true /\ indexOf_from p s i = (-1)%Z)
    \/ (exists a c b, s = a ++ c :: b
          /\ forallb (fun x => negb (p x)) a = true /\ p c = true
          /\ indexOf_from p s i = (i + Z.of_nat (length a))%Z).
Proof.
  induction s as [|c r IH]; intros i; cbn [indexOf_from forallb].
  - left. split; reflexivity.
  - destruct (p c) eqn:Hc; cbn [negb andb].
    + right. exists [], c, r. cbn [app length forallb Z.of_nat]. repeat split; auto. lia.
    + destruct (IH (i + 1)%Z) as [[Hf Hi]|(a & x & b & -> & Ha & Hx & Hi)].
      * left. split; assumption.
      * right. exists (c :: a), x, b. cbn [app length forallb]. rewrite Hc, Ha.
        repeat split; auto. rewrite Hi. lia.
Qed.

Lemma lastIndexOf_from_spec (p : char -> bool) (s : jsstring) :
  forall i found : Z,
    (forallb (fun x => negb (p x)) s = true /\ lastIndexOf_from p s i found = found)
    \/ (exists a c b, s = a ++ c :: b
          /\ p c = true /\ forallb (fun x => negb (p x)) b = true
          /\ lastIndexOf_from p s i found = (i + Z.of_nat (length a))%Z).
Proof.
  induction s as [|c r IH] using rev_ind; intros i found.
  - left. split; reflexivity.
  - rewrite lastIndexOf_from_app. cbn [lastIndexOf_from].
    destruct (p c) eqn:Hc.
    + right. exists r, c, []. repeat split; auto.
    + destruct (IH i found) as [[Hf Hi]|(a & x & b & -> & Hx & Hb & Hi)].
      * left. rewrite forallb_app, Hf. cbn [forallb]. rewrite Hc. split; [reflexivity|exact Hi].
      * right. exists a, x, (b ++ [c]). rewrite <- app_assoc. cbn [app].
        rewrite forallb_app, Hb. cbn [forallb]. rewrite Hc. repeat split; auto.
Qed.

Lemma braces_differ (c : char) : is_lbrace c = true -> is_rbrace c = true -> False.
Proof.
  unfold is_lbrace, is_rbrace. intros H1 H2.
  apply N.eqb_eq in H1. apply N.eqb_eq in H2. subst c. discriminate.
Qed.

(** The test of the cut holds exactly on the texts that hold a braced
    text between a beginning without opening brace and an end without
    closing brace. *)
Lemma brace_pair_framed (s : jsstring) :
  has_brace_pair s = true -> exists m, framed (Ch.lbrace :: m ++ [Ch.rbrace]) s.
Proof.
  unfold has_brace_pair, indexOf, lastIndexOf. intros H.
  apply andb_true_iff in H. destruct H as [H Hgt].
  apply andb_true_iff in H. destruct H as [Hf Hl].
  destruct (indexOf_from_spec is_lbrace s 0) as [[_ Hi]|(a1 & c1 & b1 & Hs1 & Ha1 & Hc1 & Hi)].
  { rewrite Hi in Hf. discriminate. }
  destruct (lastIndexOf_from_spec is_rbrace s 0 (-1))
    as [[_ Hj]|(a2 & c2 & b2 & Hs2 & Hc2 & Hb2 & Hj)].
  { rewrite Hj in Hl. discriminate. }
  rewrite Hi, Hj in Hgt. apply Z.gtb_lt in Hgt.
  assert (Hlen : length a1 < length a2) by lia.
  assert (Heq : a1 ++ c1 :: b1 = a2 ++ c2 :: b2) by congruence.
  apply app_eq_app in Heq. destruct Heq as (l & [[Ha Hb]|[Ha Hb]]).
  - subst a1. rewrite length_app in Hlen. lia.
  - subst a2. destruct l as [|x l].
    + rewrite length_app in Hlen. cbn in Hlen. lia.
    + cbn [app] in Hb. injection Hb as <- Hb.
      exists l, a1, b2. split; [|split; assumption].
      apply N.eqb_eq in Hc1. apply N.eqb_eq in Hc2. subst c1 c2.
      rewrite Hs1, Hb. cbn [app]. rewrite <- app_assoc. reflexivity.
Qed.

Lemma upto_last_rbrace_none (s : jsstring) :
  forallb (fun x => negb (is_rbrace x)) s = true -> upto_last_rbrace s = None.
Proof.
  induction s as [|c r IH]; cbn [forallb upto_last_rbrace]; [reflexivity|].
  intros H. apply andb_true_iff in H. destruct H as [Hc Hr].
  rewrite (IH Hr). apply negb_true_iff in Hc. now rewrite Hc.
Qed.

Lemma match_braces_no_rbrace (s : jsstring) :
  forallb (fun x => negb (is_rbrace x)) s = true -> match_braces s = None.
Proof.
  induction s as [|c r IH]; cbn [forallb match_braces]; [reflexivity|].
  intros H. apply andb_true_iff in H. destruct H as [_ Hr].
  rewrite (upto_last_rbrace_none _ Hr), (IH Hr). now destruct (is_lbrace c).
Qed.

Lemma match_braces_skip (a s : jsstring) :
  forallb (fun x => negb (is_lbrace x)) a = true -> match_braces (a ++ s) = match_braces s.
Proof.
  induction a as [|c r IH]; cbn [forallb app]; [reflexivity|].
  intros H. apply andb_true_iff in H. destruct H as [Hc Hr].
  cbn [match_braces]. apply negb_true_iff in Hc. rewrite Hc. exact (IH Hr).
Qed.

Lemma forallb_suffix (p : char -> bool) (a b : jsstring) :
  forallb p (a ++ b) = true -> forallb p b = true.
Proof. rewrite forallb_app. intros H. now apply andb_true_iff in H. Qed.

Lemma no_brace_pair_no_match (s : jsstring) :
  has_brace_pair s = false -> match_braces s = None.
Proof.
  unfold has_brace_pair, indexOf, lastIndexOf. intros H.
  destruct (indexOf_from_spec is_lbrace s 0) as [[Hn _]|(a1 & c1 & b1 & Hs1 & Ha1 & Hc1 & Hi)].
  { rewrite <- (app_nil_r s). now apply match_braces_skip. }
  destruct (lastIndexOf_from_spec is_rbrace s 0 (-1))
    as [[Hn _]|(a2 & c2 & b2 & Hs2 & Hc2 & Hb2 & Hj)].
  { now apply match_braces_no_rbrace. }
  rewrite Hi, Hj in H.
  assert (Hle : length a2 <= length a1).
  { destruct (Z.gtb_spec (0 + Z.of_nat (length a2)) (0 + Z.of_nat (length a1))) as [Hgt|Hle].
    - exfalso. revert H.
      replace (0 + Z.of_nat (length a1) =? -1)%Z with false by (symmetry; apply Z.eqb_neq; lia).
      replace (0 + Z.of_nat (length a2) =? -1)%Z with false by (symmetry; apply Z.eqb_neq; lia).
      discriminate.
    - lia. }
  assert (Heq : a1 ++ c1 :: b1 = a2 ++ c2 :: b2) by congruence.
  apply app_eq_app in Heq. destruct Heq as (l & [[Ha Hb]|[Ha Hb]]).
  - (* a1 = a2 ++ l *)
    destruct l as [|x l].
    + cbn [app] in Hb. injection Hb as Hc _. subst c2.
      exfalso. exact (braces_differ _ Hc1 Hc2).
    + cbn [app] in Hb. injection Hb as _ Hb.
      assert (Hfree : forallb (fun x => negb (is_rbrace x)) (c1 :: b1) = true).
      { rewrite Hb in Hb2. exact (forallb_suffix _ _ _ Hb2). }
      rewrite Hs1, match_braces_skip by exact Ha1.
      now apply match_braces_no_rbrace.
  - subst a2. destruct l as [|x l].
    + cbn [app] in Hb. injection Hb as Hc _. subst c2.
      exfalso. exact (braces_differ _ Hc1 Hc2).
    + rewrite length_app in Hle. cbn [length] in Hle. lia.
Qed.

(** The cleaned text, after the fences: cut to its braces if it has a
    pair of them. *)
Lemma clean_cut (text : jsstring) :
  exists u, clean text = if has_brace_pair u
                         then substring (indexOf is_lbrace u) (lastIndexOf is_rbrace u + 1) u
                         else u.
Proof.
  unfold clean.
  set (u := if startsWith (js "```json") (trim text) then _ else _).
  exists u. reflexivity.
Qed.

Lemma clean_braced_or_unpaired (text : jsstring) :
  (exists m, clean text = Ch.lbrace :: m ++ [Ch.rbrace])
  \/ has_brace_pair (clean text) = false.
Proof.
  destruct (clean_cut text) as (u & ->).
  destruct (has_brace_pair u) eqn:Hp; [left|right; exact Hp].
  destruct (brace_pair_framed _ Hp) as (m & Hm).
  exists m. now apply framed_boundaries.
Qed.

Lemma fallbacks_on_clean (E : engine) (text : jsstring) :
  (fallbackA E (clean text) = JSON_parse E (clean text)
   /\ fallbackB E (clean text) = JSON_parse E (clean text))
  \/ (fallbackA E (clean text) = Raised (Error (js "No JSON object found with regex"))
      /\ fallbackB E (clean text) = Raised (Error (js "Could not find JSON boundaries"))).
Proof.
  destruct (clean_braced_or_unpaired text) as [(m & ->)|Hn].
  - left. apply fallbacks_repeat_primary.
  - right. split.
    + unfold fallbackA. now rewrite (no_brace_pair_no_match _ Hn).
    + unfold fallbackB. unfold has_brace_pair in Hn. now rewrite Hn.
Qed.

(** X2: fallbacks A and B never recover anything.  On the cleaned text
    each of them decodes the very text that the first attempt decoded, or
    finds no braces; a value recovered after the first attempt failed is
    the value of the largest candidate of the depth scan. *)
Theorem recovery_after_failure_is_by_scan (E : engine) (text : jsstring) (c c' : console)
  (v : JSON) :
  extract E text c = (Normal v, c') ->
  (JSON_parse E (clean text) = Value v /\ c' = c)
  \/ (exists parseError candidate,
        JSON_parse E (clean text) = Raised parseError
        /\ (exists eA, fallbackA E (clean text) = Raised eA)
        /\ (exists eB, fallbackB E (clean text) = Raised eB)
        /\ largest (scan_objects (clean text)) = Some candidate
        /\ JSON_parse E candidate = Value v
        /\ c' = c ++ parse_log (clean text) parseError).
Proof.
  rewrite extract_eq.
  destruct (JSON_parse E (clean text)) as [v0|e] eqn:Hp.
  { intros H. injection H as <- <-. left. split; reflexivity. }
  cbv zeta.
  assert (HA : exists eA, fallbackA E (clean text) = Raised eA).
  { destruct (fallbacks_on_clean E text) as [[-> _]|[-> _]]; rewrite ?Hp; eauto. }
  assert (HB : exists eB, fallbackB E (clean text) = Raised eB).
  { destruct (fallbacks_on_clean E text) as [[_ ->]|[_ ->]]; rewrite ?Hp; eauto. }
  destruct HA as (eA & HA). destruct HB as (eB & HB). rewrite HA, HB.
  destruct (fallbackC E (clean text)) as [v0|eC] eqn:HC; [|discriminate].
  intros H. injection H as <- <-. right.
  unfold fallbackC in HC.
  destruct (largest (scan_objects (clean text))) as [candidate|] eqn:HL; [|discriminate].
  exists e, candidate. repeat split; eauto.
Qed.

Lemma recovery_after_failure_is_by_scan_witness :
  (JSON_parse reference_engine (clean (jq "{'a':1} {'formTitle':'X','fields':[]}"))
   = Value (JObject [(js "formTitle", JString (js "X")); (js "fields", JArray [])])
   /\ parse_log (clean (jq "{'a':1} {'formTitle':'X','fields':[]}"))
        (SyntaxError (js "Unexpected token { in JSON at position 8")) = [])
  \/ (exists parseError candidate,
        JSON_parse reference_engine (clean (jq "{'a':1} {'formTitle':'X','fields':[]}"))
        = Raised parseError
        /\ (exists eA, fallbackA reference_engine
                         (clean (jq "{'a':1} {'formTitle':'X','fields':[]}")) = Raised eA)
        /\ (exists eB, fallbackB reference_engine
                         (clean (jq "{'a':1} {'formTitle':'X','fields':[]}")) = Raised eB)
        /\ largest (scan_objects (clean (jq "{'a':1} {'formTitle':'X','fields':[]}")))
           = Some candidate
        /\ JSON_parse reference_engine candidate
           = Value (JObject [(js "formTitle", JString (js "X")); (js "fields", JArray [])])
        /\ parse_log (clean (jq "{'a':1} {'formTitle':'X','fields':[]}"))
             (SyntaxError (js "Unexpected token { in JSON at position 8"))
           = [] ++ parse_log (clean (jq "{'a':1} {'formTitle':'X','fields':[]}")) parseError).
Proof.
  apply (recovery_after_failure_is_by_scan reference_engine
           (jq "{'a':1} {'formTitle':'X','fields':[]}") []).
  vm_compute. reflexivity.
Defined.

(** ** The candidates of the depth scan *)

Lemma still_open_app (s t : jsstring) :
  forall d, still_open d (s ++ t)
            = match still_open d s with
              | Some d' => still_open d' t
              | None => None
              end.
Proof.
  induction s as [|c r IH]; intros d; cbn [app still_open]; [reflexivity|].
  destruct (is_lbrace c); [apply IH|].
  destruct (is_rbrace c); [|apply IH].
  destruct d; [reflexivity|apply IH].
Qed.

Lemma closes_app (s t : jsstring) :
  forall d d', still_open d s = Some d' -> closes d (s ++ t) = closes d' t.
Proof.
  induction s as [|c r IH]; intros d d'; cbn [app still_open closes].
  - intros H. now injection H as ->.
  - destruct (is_lbrace c); [apply IH|].
    destruct (is_rbrace c); [|apply IH].
    destruct d; [discriminate|apply IH].
Qed.

Lemma in_order_cons (l : list jsstring) (c : char) (t : jsstring) :
  in_order l t -> in_order l (c :: t).
Proof.
  destruct l as [|x rest]; cbn [in_order]; [trivial|].
  intros (a & b & -> & H). exists (c :: a), b. split; [reflexivity|exact H].
Qed.

Lemma scan_loop_invariant (j : jsstring) :
  forall (rest pre opened : jsstring) (depth start : Z) (acc : list jsstring),
    j = pre ++ opened ++ rest ->
    (opened = [] /\ start = (-1)%Z
     \/ exists s d, opened = Ch.lbrace :: s /\ still_open 0 s = Some d
                    /\ depth = Z.of_nat (S d) /\ start = Z.of_nat (length pre)) ->
    exists found,
      scan_loop j rest (Z.of_nat (length pre + length opened)) depth start acc = acc ++ found
      /\ Forall (fun x => one_object x = true) found
      /\ in_order found (opened ++ rest).
Proof.
  induction rest as [|c rest IH]; intros pre opened depth start acc Hj Hst.
  { exists []. cbn [scan_loop in_order]. rewrite app_nil_r. auto. }
  assert (Hnext : forall o : jsstring,
            (Z.of_nat (length pre + length o) + 1)%Z
            = Z.of_nat (length pre + length (o ++ [c]))).
  { intros o. rewrite length_app. cbn [length]. lia. }
  assert (Hshift : (Z.of_nat (length pre + length (@nil char)) + 1)%Z
                   = Z.of_nat (length (pre ++ [c]) + length (@nil char))).
  { rewrite length_app. cbn [length]. lia. }
  cbn [scan_loop].
  destruct Hst as [[-> ->]|(s & d & -> & Hopen & -> & ->)].
  - (* no brace is open *)
    assert (Hclosed : forall depth' acc',
              exists found,
                scan_loop j rest (Z.of_nat (length pre + length (@nil char)) + 1)
                  depth' (-1) acc' = acc' ++ found
                /\ Forall (fun x => one_object x = true) found
                /\ in_order found ([] ++ c :: rest)).
    { intros depth' acc'.
      destruct (IH (pre ++ [c]) [] depth' (-1)%Z acc') as (found & Hrun & Hall & Hord).
      - rewrite Hj. cbn [app]. rewrite <- app_assoc. reflexivity.
      - left. split; reflexivity.
      - exists found. rewrite Hshift, Hrun. split; [reflexivity|].
        split; [exact Hall|]. cbn [app] in *. now apply in_order_cons. }
    destruct (is_lbrace c) eqn:Hl.
    + destruct (Z.eqb_spec depth 0) as [->|Hd].
      * destruct (IH pre [c] 1%Z (Z.of_nat (length pre + length (@nil char))) acc)
          as (found & Hrun & Hall & Hord).
        -- rewrite Hj. reflexivity.
        -- right. exists [], 0. apply N.eqb_eq in Hl. subst c.
           repeat split. cbn [length]. f_equal. lia.
        -- exists found. rewrite (Hnext []). cbn [app] in *.
           change (0 + 1)%Z with 1%Z. rewrite Hrun. auto.
      * apply Hclosed.
    + destruct (is_rbrace c).
      * change (negb (-1 =? -1)%Z) with false. rewrite andb_false_r. apply Hclosed.
      * apply Hclosed.
  - (* the brace at [start] is open *)
    assert (Hstart : (Z.of_nat (length pre) =? -1)%Z = false) by (apply Z.eqb_neq; lia).
    assert (Hcont : forall d' acc',
              still_open 0 (s ++ [c]) = Some d' ->
              exists found,
                scan_loop j rest (Z.of_nat (length pre + length (Ch.lbrace :: s)) + 1)
                  (Z.of_nat (S d')) (Z.of_nat (length pre)) acc' = acc' ++ found
                /\ Forall (fun x => one_object x = true) found
                /\ in_order found ((Ch.lbrace :: s) ++ c :: rest)).
    { intros d' acc' Hopen'.
      destruct (IH pre ((Ch.lbrace :: s) ++ [c]) (Z.of_nat (S d')) (Z.of_nat (length pre)) acc')
        as (found & Hrun & Hall & Hord).
      - rewrite Hj. rewrite <- (app_assoc (Ch.lbrace :: s)). reflexivity.
      - right. exists (s ++ [c]), d'. repeat split. exact Hopen'.
      - exists found. rewrite Hnext, Hrun. split; [reflexivity|].
        split; [exact Hall|]. rewrite <- app_assoc in Hord. exact Hord. }
    destruct (is_lbrace c) eqn:Hl.
    + replace (Z.of_nat (S d) =? 0)%Z with false by (symmetry; apply Z.eqb_neq; lia).
      replace (Z.of_nat (S d) + 1)%Z with (Z.of_nat (S (S d))) by lia.
      apply Hcont. rewrite still_open_app, Hopen. cbn [still_open]. now rewrite Hl.
    + destruct (is_rbrace c) eqn:Hr.
      * rewrite Hstart. cbn [negb]. rewrite andb_true_r.
        replace (Z.of_nat (S d) - 1)%Z with (Z.of_nat d) by lia.
        destruct d as [|d].
        -- cbn [Z.of_nat Z.eqb].
           assert (Hcand : substring (Z.of_nat (length pre))
                             (Z.of_nat (length pre + length (Ch.lbrace :: s)) + 1) j
                           = (Ch.lbrace :: s) ++ [c]).
           { rewrite Hnext, Hj.
             replace (pre ++ (Ch.lbrace :: s) ++ c :: rest)
               with (pre ++ ((Ch.lbrace :: s) ++ [c]) ++ rest)
               by (rewrite <- (app_assoc (Ch.lbrace :: s)); reflexivity).
             apply substring_middle. }
           rewrite Hcand.
           destruct (IH (pre ++ (Ch.lbrace :: s) ++ [c]) [] 0%Z (-1)%Z
                       (acc ++ [(Ch.lbrace :: s) ++ [c]]))
             as (found & Hrun & Hall & Hord).
           ++ rewrite Hj. rewrite <- !app_assoc. reflexivity.
           ++ left. split; reflexivity.
           ++ exists (((Ch.lbrace :: s) ++ [c]) :: found).
              replace (Z.of_nat (length pre + length (Ch.lbrace :: s)) + 1)%Z
                with (Z.of_nat (length (pre ++ (Ch.lbrace :: s) ++ [c]) + length (@nil char)))
                by (rewrite !length_app; cbn [length]; lia).
              split; [etransitivity; [exact Hrun|]; rewrite <- app_assoc; reflexivity|].
              split.
              ** constructor; [|exact Hall].
                 cbn [app one_object]. change (is_lbrace Ch.lbrace) with true. cbn [andb].
                 rewrite (closes_app s [c] 0 0 Hopen). cbn [closes]. now rewrite Hl, Hr.
              ** cbn [in_order]. exists [], rest. split; [|exact Hord].
                 cbn [app]. rewrite <- app_assoc. reflexivity.
        -- replace (Z.of_nat (S d) =? 0)%Z with false by (symmetry; apply Z.eqb_neq; lia).
           cbn [andb]. apply Hcont.
           rewrite still_open_app, Hopen. cbn [still_open]. now rewrite Hl, Hr.
      * apply Hcont. rewrite still_open_app, Hopen. cbn [still_open]. now rewrite Hl, Hr.
Qed.

(** X3: every candidate that the depth scan collects begins with an
    opening brace that its last character closes, and not before; the
    candidates occur in the text one after the other, without overlap. *)
Theorem scan_candidates_are_complete_objects (jsonString : jsstring) :
  Forall (fun candidate => one_object candidate = true) (scan_objects jsonString)
  /\ in_order (scan_objects jsonString) jsonString.
Proof.
  destruct (scan_loop_invariant jsonString jsonString [] [] 0%Z (-1)%Z [])
    as (found & Hrun & Hall & Hord).
  - reflexivity.
  - left. split; reflexivity.
  - unfold scan_objects. cbn [length Nat.add Z.of_nat app] in *. rewrite Hrun. auto.
Qed.

(** ** The reader of JSON: less input

    What the reader leaves unread it has not looked at, its first
    character apart: the text can be cut inside what remains. *)

Lemma peel (t0 x s : jsstring) (c : char) :
  t0 ++ x = c :: s -> length x <= length s -> exists t0', t0 = c :: t0' /\ s = t0' ++ x.
Proof.
  destruct t0 as [|a t0]; cbn [app]; intros H Hl.
  - subst x. cbn [length] in Hl. lia.
  - injection H as -> <-. now exists t0.
Qed.

Lemma suffix_length_le (r s : jsstring) : suffix r s -> length r <= length s.
Proof. intros (pre & ->). rewrite length_app. lia. Qed.

Lemma skip_ws_cut (t0 x r : jsstring) (c : char) :
  skip_ws (t0 ++ x) = c :: r -> length x <= length r ->
  exists r', r = r' ++ x /\ skip_ws t0 = c :: r'.
Proof.
  unfold skip_ws. induction t0 as [|a t0 IH]; cbn [app]; intros H Hl.
  - apply skip_ws_shorter in H. lia.
  - cbn [dropWhile] in *. destruct (is_json_ws a); [now apply IH|].
    injection H as <- <-. now exists t0.
Qed.

Lemma parse_chars_cut (t : jsstring) :
  forall k r, parse_chars t = POk k r ->
  forall t0 x, t = t0 ++ x -> length x <= length r ->
  exists r', r = r' ++ x /\ parse_chars t0 = POk k r'.
Proof.
  induction t as [t IH] using length_induction. intros k r H t0 x Ht Hl.
  destruct t as [|c s]; [discriminate|].
  cbn [parse_chars] in H.
  destruct (N.eqb c Ch.quote) eqn:Hq.
  { injection H as <- <-.
    destruct (peel t0 x s c (eq_sym Ht) Hl) as (t1 & -> & ->).
    exists t1. split; [reflexivity|]. cbn [parse_chars]. now rewrite Hq. }
  destruct (N.eqb c Ch.backslash) eqn:Hb.
  - destruct s as [|e s1]; [discriminate|].
    destruct (N.eqb e 117) eqn:Hu.
    + destruct s1 as [|h1 [|h2 [|h3 [|h4 s2]]]]; try discriminate.
      destruct (hex4 h1 h2 h3 h4) as [u|] eqn:Hh; [|discriminate].
      apply pmap_ok in H. destruct H as (k' & H & ->).
      pose proof (parse_chars_suffix _ _ _ H) as [_ Hlt].
      destruct (peel t0 x _ c (eq_sym Ht) ltac:(cbn [length]; lia)) as (t1 & -> & Ht1).
      destruct (peel t1 x _ e (eq_sym Ht1) ltac:(cbn [length]; lia)) as (t2 & -> & Ht2).
      destruct (peel t2 x _ h1 (eq_sym Ht2) ltac:(cbn [length]; lia)) as (t3 & -> & Ht3).
      destruct (peel t3 x _ h2 (eq_sym Ht3) ltac:(cbn [length]; lia)) as (t4 & -> & Ht4).
      destruct (peel t4 x _ h3 (eq_sym Ht4) ltac:(cbn [length]; lia)) as (t5 & -> & Ht5).
      destruct (peel t5 x _ h4 (eq_sym Ht5) ltac:(lia)) as (t6 & -> & Ht6).
      destruct (IH s2 ltac:(cbn [length]; lia) _ _ H t6 x Ht6 Hl) as (r' & -> & Hr').
      exists r'. split; [reflexivity|].
      cbn [parse_chars]. now rewrite Hq, Hb, Hu, Hh, Hr'.
    + destruct (unescape e) as [u|] eqn:He; [|discriminate].
      apply pmap_ok in H. destruct H as (k' & H & ->).
      pose proof (parse_chars_suffix _ _ _ H) as [_ Hlt].
      destruct (peel t0 x _ c (eq_sym Ht) ltac:(cbn [length]; lia)) as (t1 & -> & Ht1).
      destruct (peel t1 x _ e (eq_sym Ht1) ltac:(lia)) as (t2 & -> & Ht2).
      destruct (IH s1 ltac:(cbn [length]; lia) _ _ H t2 x Ht2 Hl) as (r' & -> & Hr').
      exists r'. split; [reflexivity|].
      cbn [parse_chars]. now rewrite Hq, Hb, Hu, He, Hr'.
  - destruct (c <? 32)%N eqn:Hc; [discriminate|].
    apply pmap_ok in H. destruct H as (k' & H & ->).
    pose proof (parse_chars_suffix _ _ _ H) as [_ Hlt].
    destruct (peel t0 x _ c (eq_sym Ht) ltac:(lia)) as (t1 & -> & Ht1).
    destruct (IH s ltac:(cbn [length]; lia) _ _ H t1 x Ht1 Hl) as (r' & -> & Hr').
    exists r'. split; [reflexivity|].
    cbn [parse_chars]. now rewrite Hq, Hb, Hc, Hr'.
Qed.

Lemma span_digits_cut (t0 x ds r : jsstring) :
  span_digits (t0 ++ x) = (ds, r) -> length x < length r ->
  exists r', r = r' ++ x /\ r' <> [] /\ span_digits t0 = (ds, r').
Proof.
  revert ds. induction t0 as [|a t0 IH]; cbn [app]; intros ds H Hl.
  - apply span_digits_app in H. destruct H as [-> _]. rewrite length_app in Hl. lia.
  - cbn [span_digits] in *. destruct (is_digit a).
    + destruct (span_digits (t0 ++ x)) as [ds' r1] eqn:Hs. injection H as <- ->.
      destruct (IH _ eq_refl Hl) as (r' & -> & Hne & ->). now exists r'.
    + injection H as <- <-. exists (a :: t0). repeat split. discriminate.
Qed.

Lemma lex_exponent_cut (pre t0 x lit r : jsstring) :
  lex_exponent pre (t0 ++ x) = POk lit r -> length x < length r ->
  exists r', r = r' ++ x /\ r' <> [] /\ lex_exponent pre t0 = POk lit r'.
Proof.
  intros H Hl.
  pose proof (suffix_length_le _ _ (lex_exponent_suffix _ _ _ _ H)) as Hs.
  destruct t0 as [|e t1]; [cbn [app] in Hs; lia|].
  cbn [app] in H. unfold lex_exponent in *.
  destruct (is_e e); [|injection H as <- <-; exists (e :: t1); repeat split; discriminate].
  destruct t1 as [|c t2].
  { cbn [app] in H.
    assert (Hx : length r < length x).
    { destruct x as [|c x']; [cbn in H; discriminate|].
      destruct (N.eqb c Ch.plus || N.eqb c Ch.minus)%bool.
      - destruct (span_digits x') as [ds r2] eqn:Hd. destruct ds; [discriminate|].
        injection H as _ <-. apply span_digits_app in Hd. destruct Hd as [-> _].
        cbn [length]. rewrite length_app. cbn [length]. lia.
      - destruct (span_digits (c :: x')) as [ds r2] eqn:Hd. destruct ds; [discriminate|].
        injection H as _ <-. apply span_digits_app in Hd. destruct Hd as [Hd _].
        rewrite Hd, length_app. cbn [length]. lia. }
    lia. }
  cbn [app] in H.
  destruct (N.eqb c Ch.plus || N.eqb c Ch.minus)%bool.
  - destruct (span_digits (t2 ++ x)) as [ds r2] eqn:Hd.
    destruct ds as [|d ds]; [discriminate|]. injection H as <- <-.
    destruct (span_digits_cut _ _ _ _ Hd Hl) as (r' & -> & Hne & ->). now exists r'.
  - change (c :: t2 ++ x) with ((c :: t2) ++ x) in H.
    destruct (span_digits ((c :: t2) ++ x)) as [ds r2] eqn:Hd.
    destruct ds as [|d ds]; [discriminate|]. injection H as <- <-.
    destruct (span_digits_cut _ _ _ _ Hd Hl) as (r' & -> & Hne & ->). now exists r'.
Qed.

Lemma lex_fraction_cut (pre t0 x lit r : jsstring) :
  lex_fraction pre (t0 ++ x) = POk lit r -> length x < length r ->
  exists r', r = r' ++ x /\ r' <> [] /\ lex_fraction pre t0 = POk lit r'.
Proof.
  intros H Hl.
  pose proof (suffix_length_le _ _ (lex_fraction_suffix _ _ _ _ H)) as Hs.
  destruct t0 as [|c t1]; [cbn [app] in Hs; lia|].
  cbn [app] in H. unfold lex_fraction in *.
  destruct (N.eqb c Ch.dot).
  - destruct (span_digits (t1 ++ x)) as [ds r1] eqn:Hd.
    destruct ds as [|d ds]; [discriminate|].
    pose proof (suffix_length_le _ _ (lex_exponent_suffix _ _ _ _ H)) as Hs1.
    destruct (span_digits_cut _ _ _ _ Hd ltac:(lia)) as (r1' & -> & Hne & ->).
    now apply lex_exponent_cut.
  - change (c :: t1 ++ x) with ((c :: t1) ++ x) in H. now apply lex_exponent_cut.
Qed.

Lemma lex_number_cut (t0 x lit r : jsstring) :
  lex_number (t0 ++ x) = POk lit r -> length x < length r ->
  exists r', r = r' ++ x /\ r' <> [] /\ lex_number t0 = POk lit r'.
Proof.
  assert (Hunsigned : forall (sign t0 : jsstring),
    match t0 ++ x with
    | [] => PErr []
    | c :: r0 =>
        if N.eqb c Ch.zero then lex_fraction (sign ++ [c]) r0
        else if is_digit c
             then let (ds, r') := span_digits r0 in lex_fraction (sign ++ c :: ds) r'
             else PErr (t0 ++ x)
    end = POk lit r -> length x < length r ->
    exists r', r = r' ++ x /\ r' <> [] /\
      match t0 with
      | [] => PErr []
      | c :: r0 =>
          if N.eqb c Ch.zero then lex_fraction (sign ++ [c]) r0
          else if is_digit c
               then let (ds, r') := span_digits r0 in lex_fraction (sign ++ c :: ds) r'
               else PErr t0
      end = POk lit r').
  { intros sign t1 H Hl.
    destruct t1 as [|c t2].
    { cbn [app] in *. exfalso.
      destruct x as [|c x']; [discriminate|].
      destruct (N.eqb c Ch.zero).
      - apply lex_fraction_suffix in H. apply suffix_length_le in H. cbn [length] in *. lia.
      - destruct (is_digit c); [|discriminate].
        destruct (span_digits x') as [ds r1] eqn:Hd.
        apply lex_fraction_suffix in H. apply suffix_length_le in H.
        apply span_digits_app in Hd. destruct Hd as [-> _].
        cbn [length] in *. rewrite length_app in Hl. lia. }
    cbn [app] in H.
    destruct (N.eqb c Ch.zero); [now apply lex_fraction_cut|].
    destruct (is_digit c); [|discriminate].
    destruct (span_digits (t2 ++ x)) as [ds r1] eqn:Hd.
    pose proof (suffix_length_le _ _ (lex_fraction_suffix _ _ _ _ H)) as Hs1.
    destruct (span_digits_cut _ _ _ _ Hd ltac:(lia)) as (r1' & -> & Hne & ->).
    now apply lex_fraction_cut. }
  intros H Hl.
  pose proof (lex_number_suffix _ _ _ H) as [Hsuf _]. apply suffix_length_le in Hsuf.
  unfold lex_number in *.
  destruct t0 as [|c t1]; [cbn [app] in Hsuf; lia|].
  cbn [app] in H.
  destruct (N.eqb c Ch.minus).
  - now apply Hunsigned.
  - now apply (Hunsigned [] (c :: t1)).
Qed.

Lemma startsWith_cut (p : jsstring) :
  forall t0 x, startsWith p (t0 ++ x) = true ->
    length x <= length (skipn (length p) (t0 ++ x)) ->
    startsWith p t0 = true /\ skipn (length p) (t0 ++ x) = skipn (length p) t0 ++ x.
Proof.
  induction p as [|a p IH]; intros t0 x H Hl; [now split|].
  destruct (t0 ++ x) as [|c s] eqn:Ht; [discriminate|].
  cbn [startsWith length skipn] in *.
  apply andb_true_iff in H. destruct H as [Hac H].
  assert (Hs : length x <= length s).
  { rewrite length_skipn in Hl. lia. }
  destruct (peel t0 x s c Ht Hs) as (t1 & -> & ->).
  cbn [startsWith skipn]. rewrite Hac. now apply IH.
Qed.

Lemma startsWith_false_cut (p t0 x : jsstring) :
  startsWith p (t0 ++ x) = false -> startsWith p t0 = false.
Proof.
  intros H. destruct (startsWith p t0) eqn:Hp; [|reflexivity].
  destruct (startsWith_ext _ _ x Hp) as [Ht _]. congruence.
Qed.

Lemma closed_shorter (c : char) (r s : jsstring) :
  (exists pre, s = pre ++ c :: r) -> length r < length s.
Proof. intros (pre & ->). rewrite length_app. cbn [length]. lia. Qed.

Lemma parse_elements_cut (x : jsstring) (pv : jsstring -> parsed JSON) :
  (forall s v r, pv s = POk v r -> suffix r s) ->
  (forall t0 v r, pv (t0 ++ x) = POk v r -> length x < length r ->
     exists r', r = r' ++ x /\ pv t0 = POk v r') ->
  forall n t0 l r, parse_elements pv n (t0 ++ x) = POk l r -> length x <= length r ->
    exists r', r = r' ++ x /\ parse_elements pv n t0 = POk l r'.
Proof.
  intros Hsuf Hpv. induction n as [|n IH]; intros t0 l r H Hl; [discriminate|].
  pose proof (closed_shorter _ _ _ (parse_elements_closed pv Hsuf _ _ _ _ H)) as Hr.
  cbn [parse_elements] in *.
  destruct (pv (t0 ++ x)) as [v r1|] eqn:Hv; [|discriminate].
  destruct (skip_ws r1) as [|c r2] eqn:Hw; [discriminate|].
  pose proof (skip_ws_shorter _ _ _ Hw) as Hw'.
  assert (Hr2 : length r <= length r2).
  { destruct (N.eqb c Ch.comma).
    - apply pmap_ok in H. destruct H as (l' & H & _).
      destruct n; [discriminate|].
      pose proof (closed_shorter _ _ _ (parse_elements_closed pv Hsuf _ _ _ _ H)). lia.
    - destruct (N.eqb c Ch.rbracket); [|discriminate]. injection H as _ <-. lia. }
  destruct (Hpv _ _ _ Hv ltac:(lengths)) as (r1' & -> & ->).
  destruct (skip_ws_cut _ _ _ _ Hw ltac:(lengths)) as (r2' & -> & ->).
  destruct (N.eqb c Ch.comma).
  - apply pmap_ok in H. destruct H as (l' & H & ->).
    destruct (IH _ _ _ H Hl) as (r' & -> & ->). now exists r'.
  - destruct (N.eqb c Ch.rbracket); [|discriminate]. injection H as <- <-. now exists r2'.
Qed.

Lemma parse_members_cut (x : jsstring) (pv : jsstring -> parsed JSON) :
  (forall s v r, pv s = POk v r -> suffix r s) ->
  (forall t0 v r, pv (t0 ++ x) = POk v r -> length x < length r ->
     exists r', r = r' ++ x /\ pv t0 = POk v r') ->
  forall n t0 acc o r, parse_members pv n (t0 ++ x) acc = POk o r -> length x <= length r ->
    exists r', r = r' ++ x /\ parse_members pv n t0 acc = POk o r'.
Proof.
  intros Hsuf Hpv. induction n as [|n IH]; intros t0 acc o r H Hl; [discriminate|].
  cbn [parse_members] in *.
  destruct (skip_ws (t0 ++ x)) as [|c s1] eqn:Hw0; [discriminate|].
  destruct (N.eqb c Ch.quote) eqn:Hq; [|discriminate].
  destruct (parse_chars s1) as [key r1|] eqn:Hk; [|discriminate].
  destruct (skip_ws r1) as [|c1 r2] eqn:Hw1; [discriminate|].
  destruct (N.eqb c1 Ch.colon) eqn:Hcol; [|discriminate].
  destruct (pv r2) as [v r3|] eqn:Hv; [|discriminate].
  destruct (skip_ws r3) as [|c2 r4] eqn:Hw2; [discriminate|].
  pose proof (parse_chars_suffix _ _ _ Hk) as [_ L1].
  pose proof (skip_ws_shorter _ _ _ Hw1) as L2.
  pose proof (suffix_length_le _ _ (Hsuf _ _ _ Hv)) as L3.
  pose proof (skip_ws_shorter _ _ _ Hw2) as L4.
  assert (L5 : length r <= length r4).
  { destruct (N.eqb c2 Ch.comma).
    - destruct n; [discriminate|].
      pose proof (closed_shorter _ _ _ (parse_members_closed pv Hsuf _ _ _ _ _ H)). lia.
    - destruct (N.eqb c2 Ch.rbrace); [|discriminate]. injection H as _ <-. lia. }
  destruct (skip_ws_cut _ _ _ _ Hw0 ltac:(lengths)) as (s1' & -> & ->).
  destruct (parse_chars_cut _ _ _ Hk s1' x eq_refl ltac:(lengths)) as (r1' & -> & ->).
  destruct (skip_ws_cut _ _ _ _ Hw1 ltac:(lengths)) as (r2' & -> & ->).
  destruct (Hpv _ _ _ Hv ltac:(lengths)) as (r3' & -> & ->).
  destruct (skip_ws_cut _ _ _ _ Hw2 ltac:(lengths)) as (r4' & -> & ->).
  rewrite Hq, Hcol.
  destruct (N.eqb c2 Ch.comma); [now apply IH|].
  destruct (N.eqb c2 Ch.rbrace); [|discriminate]. injection H as <- <-. now exists r4'.
Qed.

Lemma parse_members_head (pv : jsstring -> parsed JSON) (n : nat) (s : jsstring)
  (acc o : object) (r : jsstring) :
  parse_members pv n s acc = POk o r -> exists s1, skip_ws s = Ch.quote :: s1.
Proof.
  destruct n; [discriminate|]. cbn [parse_members].
  destruct (skip_ws s) as [|c s1]; [discriminate|].
  destruct (N.eqb_spec c Ch.quote) as [->|]; [|discriminate]. intros _. now exists s1.
Qed.

Lemma parse_value_head (f : nat) (s : jsstring) (v : JSON) (r : jsstring) :
  parse_value f s = POk v r ->
  exists c s1, skip_ws s = c :: s1 /\ N.eqb c Ch.rbracket = false
               /\ length r <= length s1.
Proof.
  destruct f as [|f]; [discriminate|]. cbn [parse_value].
  pose proof (parse_value_suffix f) as Hsuf.
  destruct (skip_ws s) as [|c s1]; [discriminate|].
  intros H. exists c, s1. split; [reflexivity|].
  destruct (N.eqb_spec c Ch.lbrace) as [->|_].
  { split; [reflexivity|].
    destruct (skip_ws s1) as [|c' s2] eqn:Hw; [discriminate|].
    pose proof (skip_ws_shorter _ _ _ Hw).
    destruct (N.eqb c' Ch.rbrace).
    - injection H as _ <-. lia.
    - apply pmap_ok in H. destruct H as (o & H & _).
      pose proof (closed_shorter _ _ _ (parse_members_closed _ Hsuf _ _ _ _ _ H)). lia. }
  destruct (N.eqb_spec c Ch.lbracket) as [->|_].
  { split; [reflexivity|].
    destruct (skip_ws s1) as [|c' s2] eqn:Hw; [discriminate|].
    pose proof (skip_ws_shorter _ _ _ Hw).
    destruct (N.eqb c' Ch.rbracket).
    - injection H as _ <-. lia.
    - apply pmap_ok in H. destruct H as (o & H & _).
      pose proof (closed_shorter _ _ _ (parse_elements_closed _ Hsuf _ _ _ _ H)). lia. }
  destruct (N.eqb_spec c Ch.quote) as [->|_].
  { split; [reflexivity|].
    apply pmap_ok in H. destruct H as (k & H & _).
    apply parse_chars_suffix in H. lia. }
  assert (Hlit : forall (a : char) (p : jsstring),
            N.eqb a Ch.rbracket = false ->
            startsWith (a :: p) (c :: s1) = true ->
            N.eqb c Ch.rbracket = false
            /\ length (skipn (length (a :: p)) (c :: s1)) <= length s1).
  { intros a p Ha Hp. cbn [startsWith] in Hp. apply andb_true_iff in Hp.
    destruct Hp as [Hac _]. apply N.eqb_eq in Hac. subst a. split; [exact Ha|].
    cbn [length skipn]. rewrite length_skipn. lia. }
  destruct (startsWith (js "true") (c :: s1)) eqn:Ht.
  { injection H as _ <-. now apply (Hlit 116%N (js "rue")). }
  destruct (startsWith (js "false") (c :: s1)) eqn:Hf.
  { injection H as _ <-. now apply (Hlit 102%N (js "alse")). }
  destruct (startsWith (js "null") (c :: s1)) eqn:Hn.
  { injection H as _ <-. now apply (Hlit 110%N (js "ull")). }
  destruct (N.eqb c Ch.minus || is_digit c)%bool eqn:Hd; [|discriminate].
  apply pmap_ok in H. destruct H as (lit & H & _).
  apply lex_number_suffix in H. destruct H as [_ H]. cbn [length] in H.
  split; [|lia].
  apply N.eqb_neq. intros ->. discriminate.
Qed.

Lemma parse_value_cut (x : jsstring) (f : nat) :
  forall t0 v r, parse_value f (t0 ++ x) = POk v r ->
    length x < length r \/ (is_number v = false /\ length x <= length r) ->
    exists r', r = r' ++ x /\ parse_value f t0 = POk v r'.
Proof.
  induction f as [|f IH]; intros t0 v r H Hl; [discriminate|].
  assert (Hle : length x <= length r) by (destruct Hl as [Hl|[_ Hl]]; lia).
  assert (Hpv : forall t0 v r, parse_value f (t0 ++ x) = POk v r -> length x < length r ->
                  exists r', r = r' ++ x /\ parse_value f t0 = POk v r')
    by (intros; apply IH; auto).
  pose proof (parse_value_suffix f) as Hsuf.
  destruct (parse_value_head _ _ _ _ H) as (c & s1 & Hw & _ & Hs1).
  cbn [parse_value] in *. rewrite Hw in H.
  destruct (skip_ws_cut _ _ _ _ Hw ltac:(lia)) as (s1' & -> & ->).
  destruct (N.eqb c Ch.lbrace).
  { destruct (skip_ws (s1' ++ x)) as [|c' s2] eqn:Hw1; [discriminate|].
    destruct (N.eqb c' Ch.rbrace) eqn:Hc'.
    - injection H as <- <-.
      destruct (skip_ws_cut _ _ _ _ Hw1 Hle) as (s2' & -> & ->).
      rewrite Hc'. now exists s2'.
    - apply pmap_ok in H. destruct H as (o & H & ->).
      destruct (parse_members_cut x _ Hsuf Hpv _ _ _ _ _ H Hle) as (r' & -> & Hm).
      destruct (parse_members_head _ _ _ _ _ _ Hm) as (s2' & ->).
      change (N.eqb Ch.quote Ch.rbrace) with false. cbv iota.
      rewrite Hm. now exists r'. }
  destruct (N.eqb c Ch.lbracket).
  { destruct (skip_ws (s1' ++ x)) as [|c' s2] eqn:Hw1; [discriminate|].
    destruct (N.eqb c' Ch.rbracket) eqn:Hc'.
    - injection H as <- <-.
      destruct (skip_ws_cut _ _ _ _ Hw1 Hle) as (s2' & -> & ->).
      rewrite Hc'. now exists s2'.
    - apply pmap_ok in H. destruct H as (l & H & ->).
      destruct (parse_elements_cut x _ Hsuf Hpv _ _ _ _ H Hle) as (r' & -> & Hm).
      assert (Hh : exists c2 s2', skip_ws s1' = c2 :: s2' /\ N.eqb c2 Ch.rbracket = false).
      { destruct f as [|f']; [discriminate|]. cbn [parse_elements] in Hm.
        destruct (parse_value (S f') s1') as [v1 r1|] eqn:Hv1; [|discriminate].
        destruct (parse_value_head _ _ _ _ Hv1) as (c2 & s2' & Hh & Hc2 & _).
        now exists c2, s2'. }
      destruct Hh as (c2 & s2' & -> & ->).
      rewrite Hm. now exists r'. }
  destruct (N.eqb c Ch.quote).
  { apply pmap_ok in H. destruct H as (k & H & ->).
    destruct (parse_chars_cut _ _ _ H s1' x eq_refl Hle) as (r' & -> & ->). now exists r'. }
  change (c :: s1' ++ x) with ((c :: s1') ++ x) in H.
  destruct (startsWith (js "true") ((c :: s1') ++ x)) eqn:Ht.
  { injection H as <- <-.
    destruct (startsWith_cut _ _ _ Ht Hle) as [Hp Hk]. rewrite Hp.
    exists (skipn 4 (c :: s1')). split; [exact Hk|reflexivity]. }
  apply startsWith_false_cut in Ht. rewrite Ht.
  destruct (startsWith (js "false") ((c :: s1') ++ x)) eqn:Hf.
  { injection H as <- <-.
    destruct (startsWith_cut _ _ _ Hf Hle) as [Hp Hk]. rewrite Hp.
    exists (skipn 5 (c :: s1')). split; [exact Hk|reflexivity]. }
  apply startsWith_false_cut in Hf. rewrite Hf.
  destruct (startsWith (js "null") ((c :: s1') ++ x)) eqn:Hn.
  { injection H as <- <-.
    destruct (startsWith_cut _ _ _ Hn Hle) as [Hp Hk]. rewrite Hp.
    exists (skipn 4 (c :: s1')). split; [exact Hk|reflexivity]. }
  apply startsWith_false_cut in Hn. rewrite Hn.
  destruct (N.eqb c Ch.minus || is_digit c)%bool; [|discriminate].
  apply pmap_ok in H. destruct H as (lit & H & ->).
  destruct Hl as [Hl|[Hl _]]; [|discriminate].
  destruct (lex_number_cut _ _ _ _ H Hl) as (r' & -> & _ & ->). now exists r'.
Qed.

(** A text that reads as an object holds the text of the object between
    white space, and the object alone reads as the same value. *)
Lemma JSON_parse_object_text (E : engine) (t : jsstring) (o : object) :
  JSON_parse E t = Value (JObject o) ->
  exists w1 m w2,
    t = w1 ++ (Ch.lbrace :: m ++ [Ch.rbrace]) ++ w2
    /\ forallb is_json_ws w1 = true /\ forallb is_json_ws w2 = true
    /\ JSON_parse E (Ch.lbrace :: m ++ [Ch.rbrace]) = Value (JObject o).
Proof.
  intros H. destruct (JSON_parse_inv _ _ _ H) as (r & Hv & Hr).
  destruct (parse_value_object _ _ _ _ Hv) as (s1 & Hw & m & ->).
  destruct (dropWhile_suffix is_json_ws t) as (w1 & Ht & Hw1).
  fold (skip_ws t) in Ht. rewrite Hw in Ht.
  apply dropWhile_nil in Hr.
  exists w1, m, r.
  assert (Ht' : t = w1 ++ (Ch.lbrace :: m ++ [Ch.rbrace]) ++ r).
  { rewrite Ht at 1. cbn [app]. rewrite <- app_assoc. reflexivity. }
  split; [exact Ht'|]. split; [exact Hw1|]. split; [exact Hr|].
  rewrite Ht' in Hv at 2. rewrite parse_value_ws in Hv by exact Hw1.
  destruct (parse_value_cut r _ _ _ _ Hv (or_intror (conj eq_refl (le_n _))))
    as (r' & Hr' & Hcut).
  assert (r' = []).
  { apply (f_equal (@length char)) in Hr'. rewrite length_app in Hr'.
    destruct r'; [reflexivity|cbn [length] in Hr'; lia]. }
  subst r'.
  unfold JSON_parse, parse_json.
  rewrite <- (parse_value_fuel (S (length (Ch.lbrace :: m ++ [Ch.rbrace]))) (S (length t))),
    Hcut; [reflexivity|lia|].
  rewrite Ht'. rewrite !length_app. lia.
Qed.

(** ** What the two cleanings leave of a text *)

Lemma brace_free_app (a b : jsstring) :
  brace_free a = true -> brace_free b = true -> brace_free (a ++ b) = true.
Proof. unfold brace_free. intros Ha Hb. now rewrite forallb_app, Ha, Hb. Qed.

Lemma spaces_brace_free (a : jsstring) : forallb is_space a = true -> brace_free a = true.
Proof.
  unfold brace_free. rewrite !forallb_forall. intros H x Hx.
  destruct (space_not_brace x (H x Hx)) as [-> ->]. reflexivity.
Qed.

Lemma json_ws_brace_free (a : jsstring) : forallb is_json_ws a = true -> brace_free a = true.
Proof.
  intros H. apply spaces_brace_free. rewrite forallb_forall in *.
  intros x Hx. apply is_json_ws_space. now apply H.
Qed.

Lemma brace_free_no_lbrace (a : jsstring) :
  brace_free a = true -> forallb (fun c => negb (is_lbrace c)) a = true.
Proof.
  unfold brace_free. rewrite !forallb_forall. intros H x Hx.
  specialize (H x Hx). now apply andb_true_iff in H.
Qed.

Lemma brace_free_no_rbrace (a : jsstring) :
  brace_free a = true -> forallb (fun c => negb (is_rbrace c)) a = true.
Proof.
  unfold brace_free. rewrite !forallb_forall. intros H x Hx.
  specialize (H x Hx). now apply andb_true_iff in H.
Qed.

Lemma trim_framed (text : jsstring) :
  exists a b, text = a ++ trim text ++ b /\ brace_free a = true /\ brace_free b = true.
Proof.
  unfold trim, trimStart.
  destruct (dropWhile_suffix is_space text) as (a & Ha & Hsa).
  destruct (trimEnd_prefix (dropWhile is_space text)) as (b & Hb & Hsb).
  exists a, b. split; [|split; now apply spaces_brace_free].
  rewrite <- Hb. exact Ha.
Qed.

Lemma startsWith_split (p s : jsstring) :
  startsWith p s = true -> s = p ++ skipn (length p) s.
Proof.
  revert s. induction p as [|a p IH]; intros s H; [reflexivity|].
  destruct s as [|c s]; [discriminate|].
  cbn [startsWith] in H. apply andb_true_iff in H. destruct H as [Hac H].
  apply N.eqb_eq in Hac. subst c. cbn [length skipn app]. f_equal. now apply IH.
Qed.

Lemma drop_lf_framed (s : jsstring) :
  exists l, s = l ++ Route.drop_lf s /\ brace_free l = true.
Proof.
  unfold Route.drop_lf. destruct s as [|c r]; [now exists []|].
  destruct (N.eqb_spec c Ch.lf) as [->|_]; [now exists [Ch.lf]|now exists []].
Qed.

Lemma route_opening_framed (p s : jsstring) :
  brace_free p = true -> startsWith p s = true ->
  exists l, s = l ++ Route.drop_lf (skipn (length p) s) /\ brace_free l = true.
Proof.
  intros Hp Hs. destruct (drop_lf_framed (skipn (length p) s)) as (l & Hl & Hbl).
  exists (p ++ l). split; [|now apply brace_free_app].
  rewrite <- app_assoc, <- Hl. now apply startsWith_split.
Qed.

Lemma route_closing_framed (s : jsstring) :
  exists l, s = Route.strip_closing_fence s ++ l /\ brace_free l = true.
Proof.
  unfold Route.strip_closing_fence.
  destruct (rev s) as [|a [|b [|c r]]] eqn:Hr; try (exists []; now rewrite app_nil_r).
  destruct (N.eqb a Ch.backtick && N.eqb b Ch.backtick && N.eqb c Ch.backtick)%bool eqn:Hf;
    [|exists []; now rewrite app_nil_r].
  apply andb_true_iff in Hf. destruct Hf as [Hf Hc].
  apply andb_true_iff in Hf. destruct Hf as [Ha Hb].
  apply N.eqb_eq in Ha, Hb, Hc. subst a b c.
  destruct (drop_lf_framed r) as (l & Hl & Hbl).
  exists (rev l ++ js "```"). split.
  - rewrite <- (rev_involutive s), Hr. cbn [rev]. rewrite Hl at 1.
    rewrite rev_app_distr, <- !app_assoc. reflexivity.
  - apply brace_free_app; [|reflexivity].
    unfold brace_free in *. rewrite forallb_forall in *. intros x Hx.
    apply Hbl. now apply in_rev.
Qed.

(** The cleaning of the route takes white space and fences away, at both
    ends, and nothing else. *)
Lemma route_clean_framed (text : jsstring) :
  exists a b, text = a ++ Route.clean text ++ b
              /\ brace_free a = true /\ brace_free b = true.
Proof.
  destruct (trim_framed text) as (a & b & Ht & Ha & Hb).
  assert (Hfence : forall p,
            brace_free p = true -> startsWith p (trim text) = true ->
            exists a' b', text = a' ++ Route.strip_closing_fence
                                        (Route.drop_lf (skipn (length p) (trim text))) ++ b'
                          /\ brace_free a' = true /\ brace_free b' = true).
  { intros p Hp Hs.
    destruct (route_opening_framed p _ Hp Hs) as (l1 & Hl1 & Hb1).
    destruct (route_closing_framed (Route.drop_lf (skipn (length p) (trim text))))
      as (l2 & Hl2 & Hb2).
    exists (a ++ l1), (l2 ++ b). split; [|split; now apply brace_free_app].
    rewrite Ht at 1. rewrite Hl1 at 1. rewrite Hl2 at 1.
    rewrite <- !app_assoc. reflexivity. }
  unfold Route.clean.
  destruct (startsWith (js "```json") (trim text)) eqn:Hj.
  - unfold Route.strip_json_fence. rewrite Hj. now apply (Hfence (js "```json")).
  - destruct (startsWith (js "```") (trim text)) eqn:Hf.
    + unfold Route.strip_fence. rewrite Hf. now apply (Hfence (js "```")).
    + now exists a, b.
Qed.

(** ** An object in prose, fences or white space *)

Lemma framed_object (pre t post : jsstring) (E : engine) (o : object) :
  JSON_parse E t = Value (JObject o) ->
  forallb (fun a => negb (is_lbrace a)) pre = true ->
  forallb (fun a => negb (is_rbrace a)) post = true ->
  exists m, clean (pre ++ t ++ post) = Ch.lbrace :: m ++ [Ch.rbrace]
            /\ JSON_parse E (Ch.lbrace :: m ++ [Ch.rbrace]) = Value (JObject o).
Proof.
  intros Ht Hpre Hpost.
  destruct (JSON_parse_object_text _ _ _ Ht) as (w1 & m & w2 & -> & Hw1 & Hw2 & Hm).
  exists m. split; [|exact Hm].
  apply clean_framed. exists (pre ++ w1), (w2 ++ post). split.
  - rewrite <- !app_assoc. reflexivity.
  - rewrite !forallb_app, Hpre, Hpost.
    rewrite (brace_free_no_lbrace _ (json_ws_brace_free _ Hw1)).
    rewrite (brace_free_no_rbrace _ (json_ws_brace_free _ Hw2)). split; reflexivity.
Qed.

Lemma extract_framed_object (E : engine) (pre t post : jsstring) (o : object) (c : console) :
  JSON_parse E t = Value (JObject o) ->
  forallb (fun a => negb (is_lbrace a)) pre = true ->
  forallb (fun a => negb (is_rbrace a)) post = true ->
  extract E (pre ++ t ++ post) c = (Normal (JObject o), c).
Proof.
  intros Ht Hpre Hpost.
  destruct (framed_object pre t post E o Ht Hpre Hpost) as (m & Hc & Hm).
  now rewrite extract_eq, Hc, Hm.
Qed.

(** X1: a completion that holds the text of one JSON object, with before
    it a text without opening brace and after it a text without closing
    brace (prose, white space, a Markdown fence), is decoded to that
    object by the first attempt, and nothing is logged. *)
Theorem wrapped_object_recovered (E : engine) (pre o post : jsstring) (v : JSON)
  (c : console) :
  JSON_parse E o = Value v -> is_object v = true ->
  forallb (fun a => negb (is_lbrace a)) pre = true ->
  forallb (fun a => negb (is_rbrace a)) post = true ->
  extract E (pre ++ o ++ post) c = (Normal v, c)
  /\ generateFormInternal E (pre ++ o ++ post) c = generateFormInternal E o c.
Proof.
  intros Hv Ho Hpre Hpost. destruct v as [| | | | |properties]; try discriminate.
  pose proof (extract_framed_object E pre o post properties c Hv Hpre Hpost) as H1.
  pose proof (extract_framed_object E [] o [] properties c Hv eq_refl eq_refl) as H2.
  cbn [app] in H2. rewrite app_nil_r in H2.
  split; [exact H1|].
  unfold generateFormInternal, catch_all, bind. now rewrite H1, H2.
Qed.

Lemma wrapped_object_recovered_witness :
  extract reference_engine ((js "```json" ++ [Ch.lf]) ++ sample_text ++ (Ch.lf :: js "```")) []
  = (Normal sample_schema, [])
  /\ generateFormInternal reference_engine
       ((js "```json" ++ [Ch.lf]) ++ sample_text ++ (Ch.lf :: js "```")) []
     = generateFormInternal reference_engine sample_text [].
Proof.
  apply (wrapped_object_recovered reference_engine
           (js "```json" ++ [Ch.lf]) sample_text (Ch.lf :: js "```") sample_schema []);
    reflexivity.
Defined.

(** ** What the cascade cannot recover *)

Lemma scan_one_object (o : jsstring) : one_object o = true -> scan_objects o = [o].
Proof.
  intros H. unfold scan_objects.
  rewrite (scan_loop_object_end o o 0 [] H (Z.le_refl 0)). cbn [app].
  rewrite substring_all by lia. reflexivity.
Qed.

(** X20: when the cleaned text is one complete object for the count of
    braces, the cascade adds nothing to the first attempt: if that attempt
    fails, every fallback decodes the same text and the extraction
    fails. *)
Theorem single_object_is_not_recovered (E : engine) (text : jsstring) (c : console) :
  one_object (clean text) = true ->
  extract E text c
  = match JSON_parse E (clean text) with
    | Value v => (Normal v, c)
    | Raised parseError =>
        (Return (parse_failure parseError), c ++ parse_log (clean text) parseError)
    end.
Proof.
  intros H. rewrite extract_eq.
  destruct (JSON_parse E (clean text)) as [v|e] eqn:Hp; [reflexivity|]. cbv zeta.
  destruct (one_object_braced _ H) as (m & Hm).
  destruct (fallbacks_repeat_primary E m) as [HA HB].
  rewrite <- Hm in HA, HB. rewrite HA, HB, Hp.
  unfold fallbackC. rewrite (scan_one_object _ H). cbn [largest fold_left].
  now rewrite Hp.
Qed.

Lemma single_object_is_not_recovered_witness :
  extract reference_engine (jq "{'formTitle':'T','fields':[],}") []
  = match JSON_parse reference_engine (clean (jq "{'formTitle':'T','fields':[],}")) with
    | Value v => (Normal v, [])
    | Raised parseError =>
        (Return (parse_failure parseError),
         [] ++ parse_log (clean (jq "{'formTitle':'T','fields':[],}")) parseError)
    end.
Proof.
  apply (single_object_is_not_recovered reference_engine
           (jq "{'formTitle':'T','fields':[],}") []).
  reflexivity.
Defined.

(** ** The messages of [generateFormInternal] *)

(** X21: [generateFormInternal] fails with one of five messages only:
    the sentence on the parsing strategies around the error of the first
    decode, one of the two messages of the check, or the engine's message
    for reading [formTitle] or [id] of [null].  What it returns as a
    schema passes its check. *)
Theorem failure_messages (E : engine) (text : jsstring) (c : console) :
  match fst (generateFormInternal E text c) with
  | Success schema =>
      catch_all (check_generated E schema) c = (Success schema, c)
  | Failure reason =>
      (exists parseError, JSON_parse E (clean text) = Raised parseError
                          /\ Failure reason = parse_failure parseError)
      \/ In reason [js "Invalid form schema generated: missing formTitle or fields";
                    js "Invalid field structure in generated schema";
                    null_property_message E (js "formTitle");
                    null_property_message E (js "id")]
  end.
Proof.
  unfold generateFormInternal. unfold catch_all at 1. unfold bind.
  rewrite extract_eq.
  assert (Hcheck : forall v c1,
    match fst (let (c0, c') := check_generated E v c1 in
               match c0 with
               | Normal r | Return r => (r, c')
               | Throw e =>
                   (Failure (message e),
                    c' ++ [[LString (js "Error generating form:"); LError e]])
               end) with
    | Success schema => catch_all (check_generated E schema) c = (Success schema, c)
    | Failure reason =>
        (exists parseError, JSON_parse E (clean text) = Raised parseError
                            /\ Failure reason = parse_failure parseError)
        \/ In reason [js "Invalid form schema generated: missing formTitle or fields";
                      js "Invalid field structure in generated schema";
                      null_property_message E (js "formTitle");
                      null_property_message E (js "id")]
    end).
  { intros v c1. rewrite check_generated_eq.
    destruct v as [| | | | |o]; cbn [fst message];
      try (right; now left); try (right; right; right; now left).
    destruct (truthy (lookup (js "formTitle") o)) eqn:Ht;
      [|cbn [fst]; right; now left].
    destruct (lookup (js "fields") o) as [[| | | |elements|]|] eqn:Hf;
      cbn [fst]; try (right; now left).
    rewrite check_fields_first_incomplete.
    destruct (first_incomplete elements) as [[]|] eqn:Hi; cbn [fst message];
      try (right; right; now left); try (right; right; right; right; now left).
    unfold catch_all.
    now rewrite check_generated_eq, Ht, Hf, check_fields_first_incomplete, Hi. }
  destruct (JSON_parse E (clean text)) as [v|e] eqn:Hp; [apply Hcheck|]. cbv zeta.
  destruct (fallbackA E (clean text)); [apply Hcheck|].
  destruct (fallbackB E (clean text)); [apply Hcheck|].
  destruct (fallbackC E (clean text)); [apply Hcheck|].
  cbn [fst]. unfold parse_failure. left. exists e. split; reflexivity.
Qed.

(** ** An empty array of fields *)

(** X22: a schema with a title and an empty array of fields passes the
    check of [generateFormInternal] and [validateFormSchema]: an array,
    even empty, is truthy. *)
Theorem empty_fields_are_accepted (E : engine) (properties : object) (c : console) :
  truthy (lookup (js "formTitle") properties) = true ->
  lookup (js "fields") properties = Some (JArray []) ->
  catch_all (check_generated E (JObject properties)) c = (Success (JObject properties), c)
  /\ validateFormSchema E (JObject properties) = Value {| isValid := true; error := None |}.
Proof.
  intros Ht Hf. split.
  - unfold catch_all. now rewrite check_generated_eq, Ht, Hf.
  - now rewrite validateFormSchema_eq, Hf.
Qed.

Lemma empty_fields_are_accepted_witness :
  catch_all (check_generated reference_engine
               (JObject [(js "formTitle", JString (js "T")); (js "fields", JArray [])])) []
  = (Success (JObject [(js "formTitle", JString (js "T")); (js "fields", JArray [])]), [])
  /\ validateFormSchema reference_engine
       (JObject [(js "formTitle", JString (js "T")); (js "fields", JArray [])])
     = Value {| isValid := true; error := None |}.
Proof.
  apply (empty_fields_are_accepted reference_engine
           [(js "formTitle", JString (js "T")); (js "fields", JArray [])] []);
    reflexivity.
Defined.

(** ** What is generated can be imported *)

Lemma extract_occurs (E : engine) (text : jsstring) (c c' : console) (v : JSON) :
  extract E text c = (Normal v, c') ->
  exists s, occurs_in s text /\ JSON_parse E s = Value v.
Proof.
  rewrite extract_eq.
  assert (Hsub : forall s, occurs_in s (clean text) -> occurs_in s text).
  { intros s Hs. exact (occurs_in_trans _ _ _ Hs (occurs_in_clean text)). }
  destruct (JSON_parse E (clean text)) as [v0|e] eqn:Hp.
  { intros H. injection H as <- _. exists (clean text). split; [apply occurs_in_clean|exact Hp]. }
  cbv zeta.
  destruct (fallbackA E (clean text)) as [v0|eA] eqn:HA.
  { intros H. injection H as <- _.
    destruct (fallbackA_occurs _ _ _ HA) as (s & Hs & Hv). exists s. auto. }
  destruct (fallbackB E (clean text)) as [v0|eB] eqn:HB.
  { intros H. injection H as <- _.
    destruct (fallbackB_occurs _ _ _ HB) as (s & Hs & Hv). exists s. auto. }
  destruct (fallbackC E (clean text)) as [v0|eC] eqn:HC; [|discriminate].
  intros H. injection H as <- _.
  destruct (fallbackC_occurs _ _ _ HC) as (s & Hs & Hv). exists s. auto.
Qed.

Lemma check_generated_success (E : engine) (v schema : JSON) (c c' : console) :
  catch_all (check_generated E v) c = (Success schema, c') -> schema = v /\ c' = c.
Proof.
  unfold catch_all. rewrite check_generated_eq.
  destruct v as [| | | | |o]; try discriminate.
  destruct (truthy (lookup (js "formTitle") o)); [|discriminate].
  destruct (lookup (js "fields") o) as [[| | | |elements|]|]; try discriminate.
  rewrite check_fields_first_incomplete.
  destruct (first_incomplete elements) as [[]|]; try discriminate.
  intros H. injection H as <- <-. split; reflexivity.
Qed.

Lemma extract_console (E : engine) (text : jsstring) (c c' : console) (v : JSON) :
  extract E text c = (Normal v, c') ->
  c' = c \/ exists parseError, JSON_parse E (clean text) = Raised parseError
                               /\ c' = c ++ parse_log (clean text) parseError.
Proof.
  rewrite extract_eq.
  destruct (JSON_parse E (clean text)) as [v0|e] eqn:Hp.
  { intros H. injection H as _ <-. now left. }
  cbv zeta. intros H. right. exists e. split; [reflexivity|].
  destruct (fallbackA E (clean text)); [now injection H as _ <-|].
  destruct (fallbackB E (clean text)); [now injection H as _ <-|].
  destruct (fallbackC E (clean text)); [now injection H as _ <-|discriminate].
Qed.

Lemma generated_run (E : engine) (text : jsstring) (c c' : console) (schema : JSON) :
  generateFormInternal E text c = (Success schema, c') ->
  extract E text c = (Normal schema, c')
  /\ catch_all (check_generated E schema) c' = (Success schema, c').
Proof.
  unfold generateFormInternal. intros H.
  assert (Hrun : exists v c1, extract E text c = (Normal v, c1)
                              /\ catch_all (check_generated E v) c1 = (Success schema, c')).
  { unfold catch_all, bind in H. unfold catch_all.
    destruct (extract E text c) as [[v|r|e] c1] eqn:Hx.
    - exists v, c1. split; [reflexivity|exact H].
    - injection H as -> <-.
      rewrite extract_eq in Hx.
      destruct (JSON_parse E (clean text)); [discriminate|]. cbv zeta in Hx.
      destruct (fallbackA E (clean text)); [discriminate|].
      destruct (fallbackB E (clean text)); [discriminate|].
      destruct (fallbackC E (clean text)); discriminate.
    - discriminate. }
  destruct Hrun as (v & c1 & Hx & Hc).
  destruct (check_generated_success _ _ _ _ _ Hc) as [-> ->]. now split.
Qed.

Lemma accepted_is_valid (E : engine) (v : JSON) (c : console) :
  catch_all (check_generated E v) c = (Success v, c) ->
  truthy (formTitle_of v) = true
  /\ validateFormSchema E v = Value {| isValid := true; error := None |}.
Proof.
  intros Hc.
  assert (Hacc : generated_accepted E v c) by (exists v, c; exact Hc).
  apply generated_accepted_iff in Hacc.
  destruct Hacc as (o & elements & -> & Ht & Hf & Hall).
  split; [exact Ht|].
  rewrite validateFormSchema_eq, Hf, validate_fields_first_incomplete, Hall. reflexivity.
Qed.

(** X4: a schema that [generateFormInternal] returns is the value of a
    part of the completion, has a title, and passes [validateFormSchema]:
    what is generated can be exported and imported again.  The console is
    written to only when the first decode failed. *)
Theorem generated_schema_is_importable (E : engine) (text : jsstring) (c c' : console)
  (schema : JSON) :
  generateFormInternal E text c = (Success schema, c') ->
  (exists s, occurs_in s text /\ JSON_parse E s = Value schema)
  /\ truthy (formTitle_of schema) = true
  /\ validateFormSchema E schema = Value {| isValid := true; error := None |}
  /\ (c' = c \/ exists parseError, JSON_parse E (clean text) = Raised parseError
                                   /\ c' = c ++ parse_log (clean text) parseError).
Proof.
  intros H. destruct (generated_run _ _ _ _ _ H) as [Hx Hc].
  destruct (accepted_is_valid _ _ _ Hc) as [Ht Hv].
  split; [exact (extract_occurs _ _ _ _ _ Hx)|].
  split; [exact Ht|].
  split; [exact Hv|exact (extract_console _ _ _ _ _ Hx)].
Qed.

Lemma generated_schema_is_importable_witness :
  (exists s, occurs_in s sample_text /\ JSON_parse reference_engine s = Value sample_schema)
  /\ truthy (formTitle_of sample_schema) = true
  /\ validateFormSchema reference_engine sample_schema
     = Value {| isValid := true; error := None |}
  /\ (@nil (list logged) = [] \/ exists parseError,
                   JSON_parse reference_engine (clean sample_text) = Raised parseError
                   /\ [] = [] ++ parse_log (clean sample_text) parseError).
Proof.
  apply (generated_schema_is_importable reference_engine sample_text [] [] sample_schema).
  vm_compute. reflexivity.
Defined.

(** ** The verdicts of [validateFormSchema] and the import *)

Lemma first_incomplete_split (fields : list JSON) (bad : JSON) :
  first_incomplete fields = Some bad <->
  exists before after,
    fields = before ++ bad :: after
    /\ forallb complete_field before = true /\ complete_field bad = false.
Proof.
  induction fields as [|f rest IH]; cbn [first_incomplete].
  - split; [discriminate|]. intros ([|] & after & H & _); discriminate.
  - destruct (complete_field f) eqn:Hf.
    + rewrite IH. split.
      * intros (before & after & -> & Hb & Hbad).
        exists (f :: before), after. cbn [app forallb]. now rewrite Hf, Hb.
      * intros ([|x before] & after & H & Hb & Hbad); cbn [app] in H; injection H as -> ->.
        -- congruence.
        -- cbn [forallb] in Hb. apply andb_true_iff in Hb. exists before, after. tauto.
    + split.
      * intros H. injection H as ->. exists [], rest. auto.
      * intros ([|x before] & after & H & Hb & Hbad); cbn [app] in H; injection H as -> ->.
        -- reflexivity.
        -- cbn [forallb] in Hb. rewrite Hf in Hb. discriminate.
Qed.

(** X5: [validateFormSchema] throws exactly when the value is an object
    whose [fields] is an array that holds [null] after elements that are
    all complete; the exception is the [TypeError] of reading [id] of
    [null].  On every other value it returns a verdict. *)
Theorem validateFormSchema_raises_on_null_field_only (E : engine) (schema : JSON) (e : exn) :
  validateFormSchema E schema = Raised e <->
  e = TypeError (null_property_message E (js "id"))
  /\ exists properties before after,
       schema = JObject properties
       /\ lookup (js "fields") properties = Some (JArray (before ++ JNull :: after))
       /\ forallb complete_field before = true.
Proof.
  rewrite validateFormSchema_eq. split.
  - destruct schema as [| | | | |o]; try discriminate.
    destruct (lookup (js "fields") o) as [[| | | |elements|]|] eqn:Hl; try discriminate.
    rewrite validate_fields_first_incomplete.
    destruct (first_incomplete elements) as [bad|] eqn:Hf; [|discriminate].
    destruct bad; try discriminate.
    intros H. injection H as <-. split; [reflexivity|].
    apply first_incomplete_split in Hf. destruct Hf as (before & after & -> & Hb & _).
    exists o, before, after. auto.
  - intros (-> & o & before & after & -> & Hf & Hb). rewrite Hf.
    rewrite validate_fields_first_incomplete.
    assert (H : first_incomplete (before ++ JNull :: after) = Some JNull).
    { apply first_incomplete_split. exists before, after. auto. }
    rewrite H. reflexivity.
Qed.

Lemma validateFormSchema_valid (E : engine) (schema : JSON) (verdict : validation) :
  validateFormSchema E schema = Value verdict ->
  (verdict = {| isValid := true; error := None |})
  \/ (isValid verdict = false /\ exists msg, error verdict = Some msg /\ msg <> []).
Proof.
  rewrite validateFormSchema_eq.
  assert (Hbad : forall msg : string,
            msg <> ""%string ->
            Value {| isValid := false; error := Some (js msg) |} = Value verdict ->
            verdict = {| isValid := true; error := None |}
            \/ (isValid verdict = false /\ exists m, error verdict = Some m /\ m <> [])).
  { intros msg Hmsg H. injection H as <-. right. split; [reflexivity|].
    exists (js msg). split; [reflexivity|].
    destruct msg; [congruence|discriminate]. }
  destruct schema as [| | | | |o]; try (apply Hbad; discriminate).
  destruct (lookup (js "fields") o) as [[| | | |elements|]|];
    try (apply Hbad; discriminate).
  rewrite validate_fields_first_incomplete.
  destruct (first_incomplete elements) as [[]|]; try discriminate;
    try (apply Hbad; discriminate).
  intros H. injection H as <-. now left.
Qed.

(** X6: [handleFileChange] either loads the decoded value, which
    [validateFormSchema] accepted, clears the error and shows the toast,
    or leaves the form and the toast as they were and sets an error
    message that is not empty. *)
Theorem failed_import_keeps_the_form (E : engine) (jsonString : jsstring) (st : state) :
  (exists schema,
     JSON_parse E jsonString = Value schema
     /\ validateFormSchema E schema = Value {| isValid := true; error := None |}
     /\ handleFileChange E jsonString st
        = {| formSchema := Some schema;
             errorText := None;
             toastMessage := Some (js "Form loaded successfully!") |})
  \/ ((forall schema, JSON_parse E jsonString = Value schema ->
         validateFormSchema E schema <> Value {| isValid := true; error := None |})
      /\ formSchema (handleFileChange E jsonString st) = formSchema st
      /\ toastMessage (handleFileChange E jsonString st) = toastMessage st
      /\ exists msg, errorText (handleFileChange E jsonString st) = Some msg /\ msg <> []).
Proof.
  unfold handleFileChange.
  destruct (JSON_parse E jsonString) as [schema|e] eqn:Hp.
  - destruct (validateFormSchema E schema) as [verdict|e] eqn:Hv.
    + destruct (validateFormSchema_valid _ _ _ Hv) as [->|(Hf & msg & Hm & Hne)].
      * left. exists schema. repeat split. exact Hv.
      * right. rewrite Hf. cbn [negb formSchema toastMessage errorText].
        split.
        { intros s Hs. injection Hs as <-. rewrite Hv. intros H. injection H as ->. discriminate. }
        repeat split. rewrite Hm.
        destruct msg as [|a m]; [congruence|]. exists (a :: m). split; [reflexivity|discriminate].
    + right. cbn [formSchema toastMessage errorText]. split.
      { intros s Hs. injection Hs as <-. rewrite Hv. discriminate. }
      repeat split. eexists. split; [reflexivity|discriminate].
  - right. cbn [formSchema toastMessage errorText]. split; [discriminate|].
    repeat split. eexists. split; [reflexivity|discriminate].
Qed.

(** ** Schemas of the declared type *)

Lemma type_name_nonempty (t : Form.FieldType) : nonempty (Form.type_name t) = true.
Proof. destruct t; reflexivity. Qed.

Lemma truthy_string (s : jsstring) : truthy (Some (JString s)) = nonempty s.
Proof. destruct s; reflexivity. Qed.

Lemma complete_field_typed (f : Form.FormField) :
  complete_field (Form.field_json f) = named_field f.
Proof.
  unfold Form.field_json, complete_field, named_field.
  change (lookup (js "id") _) with (Some (JString (Form.id f))).
  change (lookup (js "label") _) with (Some (JString (Form.label f))).
  change (lookup (js "type") _) with (Some (JString (Form.type_name (Form.type f)))).
  rewrite !truthy_string, type_name_nonempty. apply andb_true_r.
Qed.

Lemma first_incomplete_typed (fields : list Form.FormField) :
  first_incomplete (map Form.field_json fields)
  = option_map Form.field_json (find (fun f => negb (named_field f)) fields).
Proof.
  induction fields as [|f rest IH]; [reflexivity|].
  cbn [map first_incomplete find]. rewrite complete_field_typed.
  destruct (named_field f); [exact IH|reflexivity].
Qed.

Lemma find_none_forallb (fields : list Form.FormField) :
  find (fun f => negb (named_field f)) fields = None <-> forallb named_field fields = true.
Proof.
  induction fields as [|f rest IH]; cbn [find forallb]; [tauto|].
  destruct (named_field f); cbn [negb andb]; [exact IH|]. split; discriminate.
Qed.

Lemma serialize_object_braced (indent : jsstring) (p : jsstring * JSON) (ps : object) :
  exists m, serialize indent (JObject (p :: ps)) = Ch.lbrace :: m ++ [Ch.rbrace].
Proof.
  exists (Ch.lf :: (indent ++ gap)
            ++ join (Ch.comma :: Ch.lf :: indent ++ gap)
                 (map (fun '(k, x) =>
                         QuoteJSONString k ++ Ch.colon :: Ch.space
                           :: serialize (indent ++ gap) x) (p :: ps))
            ++ Ch.lf :: indent).
  cbn [serialize]. cbn [app]. do 2 f_equal.
  rewrite <- !app_assoc. cbn [app]. reflexivity.
Qed.

Lemma stringify_schema_braced (s : Form.FormSchema) :
  exists m, JSON_stringify (Form.schema_json s) = Ch.lbrace :: m ++ [Ch.rbrace].
Proof. apply serialize_object_braced. Qed.

Lemma typed_schema_extracted (E : engine) (s : Form.FormSchema) (pre post : jsstring)
  (c : console) :
  forallb (fun a => negb (is_lbrace a)) pre = true ->
  forallb (fun a => negb (is_rbrace a)) post = true ->
  extract E (pre ++ JSON_stringify (Form.schema_json s) ++ post) c
  = (Normal (Form.schema_json s), c).
Proof.
  intros Hpre Hpost.
  destruct (stringify_schema_braced s) as (m & Hm).
  assert (Hclean : clean (pre ++ JSON_stringify (Form.schema_json s) ++ post)
                   = JSON_stringify (Form.schema_json s)).
  { rewrite Hm. apply clean_framed. exists pre, post. auto. }
  assert (Hparse : JSON_parse E (JSON_stringify (Form.schema_json s))
                   = Value (Form.schema_json s)).
  { apply parse_stringify; [apply schema_json_wf|apply schema_json_plain_numbers]. }
  now rewrite extract_eq, Hclean, Hparse.
Qed.

Lemma typed_schema_checked (E : engine) (s : Form.FormSchema) (c : console) :
  nonempty (Form.formTitle s) = true ->
  forallb named_field (Form.fields s) = true ->
  catch_all (check_generated E (Form.schema_json s)) c = (Success (Form.schema_json s), c).
Proof.
  intros Ht Hf. unfold catch_all. rewrite check_generated_eq.
  unfold Form.schema_json at 1.
  change (lookup (js "formTitle") _) with (Some (JString (Form.formTitle s))).
  change (lookup (js "fields") _) with (Some (JArray (map Form.field_json (Form.fields s)))).
  rewrite truthy_string, Ht, check_fields_first_incomplete, first_incomplete_typed.
  apply find_none_forallb in Hf. rewrite Hf. reflexivity.
Qed.

(** X7: the text that [JSON.stringify] writes for a schema of the
    declared type, with a title and with fields that have an id and a
    label, is accepted by [generateFormInternal] as that schema, whatever
    its strings hold (braces, quotes, backticks), alone or inside prose or
    a fence without braces. *)
Theorem typed_schema_text_is_accepted (E : engine) (s : Form.FormSchema)
  (pre post : jsstring) (c : console) :
  nonempty (Form.formTitle s) = true ->
  forallb named_field (Form.fields s) = true ->
  forallb (fun a => negb (is_lbrace a)) pre = true ->
  forallb (fun a => negb (is_rbrace a)) post = true ->
  generateFormInternal E (pre ++ JSON_stringify (Form.schema_json s) ++ post) c
  = (Success (Form.schema_json s), c).
Proof.
  intros Ht Hf Hpre Hpost.
  unfold generateFormInternal. unfold catch_all at 1. unfold bind.
  rewrite (typed_schema_extracted E s pre post c Hpre Hpost).
  exact (typed_schema_checked E s c Ht Hf).
Qed.

Lemma typed_schema_text_is_accepted_witness :
  generateFormInternal reference_engine
    ((js "```json" ++ [Ch.lf]) ++ JSON_stringify (Form.schema_json sample_form)
       ++ (Ch.lf :: js "```")) []
  = (Success (Form.schema_json sample_form), []).
Proof.
  apply (typed_schema_text_is_accepted reference_engine sample_form
           (js "```json" ++ [Ch.lf]) (Ch.lf :: js "```") []); reflexivity.
Defined.

(** X8: a schema of the declared type that is exported is imported
    again unchanged exactly when each of its fields has an id and a label;
    otherwise the import is refused for missing field properties and the
    form on the page is kept.  The title plays no part. *)
Theorem typed_schema_export_import (E : engine) (s : Form.FormSchema) (st : state) :
  formSchema st = Some (Form.schema_json s) ->
  exists st',
    handleExport st = (st', Some (JSON_stringify (Form.schema_json s)))
    /\ handleFileChange E (JSON_stringify (Form.schema_json s)) st'
       = if forallb named_field (Form.fields s)
         then {| formSchema := Some (Form.schema_json s);
                 errorText := None;
                 toastMessage := Some (js "Form loaded successfully!") |}
         else {| formSchema := Some (Form.schema_json s);
                 errorText := Some (js "Invalid JSON file: missing required field properties");
                 toastMessage := Some (js "JSON exported successfully!") |}.
Proof.
  intros Hst.
  assert (Hparse : JSON_parse E (JSON_stringify (Form.schema_json s))
                   = Value (Form.schema_json s)).
  { apply parse_stringify; [apply schema_json_wf|apply schema_json_plain_numbers]. }
  eexists. split.
  - unfold handleExport. rewrite Hst. reflexivity.
  - unfold handleFileChange. rewrite Hparse, validateFormSchema_eq.
    unfold Form.schema_json at 1. cbv beta iota.
    change (lookup (js "fields") _) with (Some (JArray (map Form.field_json (Form.fields s)))).
    cbv beta iota.
    rewrite validate_fields_first_incomplete, first_incomplete_typed.
    cbn [formSchema errorText toastMessage].
    destruct (find (fun f => negb (named_field f)) (Form.fields s)) as [f|] eqn:Hfind.
    + assert (Hno : forallb named_field (Form.fields s) = false).
      { destruct (forallb named_field (Form.fields s)) eqn:Hall; [|reflexivity].
        apply find_none_forallb in Hall. congruence. }
      rewrite Hno. reflexivity.
    + apply find_none_forallb in Hfind. rewrite Hfind. reflexivity.
Qed.

Lemma typed_schema_export_import_witness :
  exists st',
    handleExport sample_state = (st', Some (JSON_stringify (Form.schema_json sample_form)))
    /\ handleFileChange reference_engine (JSON_stringify (Form.schema_json sample_form)) st'
       = if forallb named_field (Form.fields sample_form)
         then {| formSchema := Some (Form.schema_json sample_form);
                 errorText := None;
                 toastMessage := Some (js "Form loaded successfully!") |}
         else {| formSchema := Some (Form.schema_json sample_form);
                 errorText := Some (js "Invalid JSON file: missing required field properties");
                 toastMessage := Some (js "JSON exported successfully!") |}.
Proof.
  apply (typed_schema_export_import reference_engine sample_form sample_state). reflexivity.
Defined.

(** ** The server action *)

Lemma blank_prompt (prompt : jsstring) :
  (negb (truthy (Some (JString prompt))) || (length (trim prompt) =? 0)%nat)%bool = true
  <-> trim prompt = [].
Proof.
  split.
  - intros H. apply orb_true_iff in H. destruct H as [H|H].
    + destruct prompt; [reflexivity|discriminate].
    + apply Nat.eqb_eq in H. now destruct (trim prompt).
  - intros ->. apply orb_true_r.
Qed.

(** X9: [generateForm] refuses a missing or empty key, then a prompt
    that is blank once trimmed, both without calling the model and without
    logging; after that its result is the one of [generateFormInternal],
    or the timeout message when the answer does not come in 60 seconds.
    The second branch of its [catch] is never taken. *)
Theorem generateForm_by_cases (E : engine) (W : wording) (apiKey : option jsstring)
  (prompt : jsstring) (network : N -> option (outcome Action.Response)) (c : console) :
  Action.generateForm E W apiKey prompt network c
  = match apiKey with
    | None | Some [] => (Failure (js "GEMINI_API_KEY is not configured"), c)
    | Some (_ :: _) =>
        match trim prompt with
        | [] => (Failure (js "Prompt is required"), c)
        | _ :: _ =>
            match network 60000%N with
            | None =>
                (Failure (js "Timeout: The operation exceeded 60 seconds. Please try again."), c)
            | Some fetched => Action.generateFormInternal E W fetched c
            end
        end
    end.
Proof.
  unfold Action.generateForm.
  destruct apiKey as [[|k key]|]; try reflexivity.
  change (negb (truthy (option_map JString (Some (k :: key))))) with false. cbv iota.
  destruct (negb (truthy (Some (JString prompt))) || (length (trim prompt) =? 0)%nat)%bool
    eqn:Hblank.
  - apply blank_prompt in Hblank. now rewrite Hblank.
  - destruct (trim prompt) as [|a p] eqn:Ht.
    + assert (H : trim prompt = []) by exact Ht. apply blank_prompt in H. congruence.
    + unfold Action.withTimeout. destruct (network 60000%N) as [fetched|]; reflexivity.
Qed.

Lemma generateForm_answered (E : engine) (W : wording) (k : char) (key prompt : jsstring)
  (network : N -> option (outcome Action.Response)) (fetched : outcome Action.Response)
  (c : console) :
  trim prompt <> [] -> network 60000%N = Some fetched ->
  Action.generateForm E W (Some (k :: key)) prompt network c
  = Action.generateFormInternal E W fetched c.
Proof.
  intros Hp Hn. unfold Action.generateForm.
  change (negb (truthy (option_map JString (Some (k :: key))))) with false. cbv iota.
  destruct (negb (truthy (Some (JString prompt))) || (length (trim prompt) =? 0)%nat)%bool
    eqn:Hblank.
  - apply blank_prompt in Hblank. contradiction.
  - unfold Action.withTimeout. now rewrite Hn.
Qed.

Lemma generateForm_inv (E : engine) (W : wording) (apiKey : option jsstring)
  (prompt : jsstring) (network : N -> option (outcome Action.Response)) (c c' : console)
  (schema : JSON) :
  Action.generateForm E W apiKey prompt network c = (Success schema, c') ->
  exists k key fetched,
    apiKey = Some (k :: key) /\ trim prompt <> [] /\ network 60000%N = Some fetched
    /\ Action.generateFormInternal E W fetched c = (Success schema, c').
Proof.
  unfold Action.generateForm.
  destruct apiKey as [[|k key]|]; try discriminate.
  change (negb (truthy (option_map JString (Some (k :: key))))) with false. cbv iota.
  destruct (negb (truthy (Some (JString prompt))) || (length (trim prompt) =? 0)%nat)%bool
    eqn:Hblank; [discriminate|].
  unfold Action.withTimeout.
  destruct (network 60000%N) as [fetched|]; [|discriminate].
  intros H. exists k, key, fetched.
  split; [reflexivity|]. split; [|split; [reflexivity|exact H]].
  intros Ht. apply blank_prompt in Ht. congruence.
Qed.

Lemma internal_reads_completion (E : engine) (W : wording) (response : Action.Response)
  (bodyText text : jsstring) (data : JSON) (c : console) :
  Action.ok response = true ->
  Action.body response = Value bodyText ->
  JSON_parse E bodyText = Value data ->
  Action.completion_text E W data = Value (Some (JString text)) ->
  Action.generateFormInternal E W (Value response) c = generateFormInternal E text c.
Proof.
  intros Hok Hbody Hdata Htext.
  unfold Action.generateFormInternal, generateFormInternal, catch_all, bind, lift,
    Action.json, and_then.
  rewrite Hok, Hbody, Hdata, Htext. reflexivity.
Qed.

Lemma internal_success (E : engine) (W : wording) (fetched : outcome Action.Response)
  (c c' : console) (schema : JSON) :
  Action.generateFormInternal E W fetched c = (Success schema, c') ->
  exists response bodyText data text,
    fetched = Value response
    /\ Action.ok response = true
    /\ Action.body response = Value bodyText
    /\ JSON_parse E bodyText = Value data
    /\ Action.completion_text E W data = Value (Some (JString text))
    /\ generateFormInternal E text c = (Success schema, c').
Proof.
  intros H.
  destruct fetched as [response|e]; [|discriminate].
  destruct (Action.ok response) eqn:Hok.
  2:{ unfold Action.generateFormInternal, catch_all, bind, lift in H. rewrite Hok in H.
      cbn [negb] in H. destruct (Action.body response); discriminate. }
  destruct (Action.body response) as [bodyText|e] eqn:Hbody.
  2:{ unfold Action.generateFormInternal, catch_all, bind, lift, Action.json, and_then in H.
      rewrite Hok, Hbody in H. discriminate. }
  destruct (JSON_parse E bodyText) as [data|e] eqn:Hdata.
  2:{ unfold Action.generateFormInternal, catch_all, bind, lift, Action.json, and_then in H.
      rewrite Hok, Hbody, Hdata in H. discriminate. }
  destruct (Action.completion_text E W data) as [jsonString|e] eqn:Htext.
  2:{ unfold Action.generateFormInternal, catch_all, bind, lift, Action.json, and_then in H.
      rewrite Hok, Hbody, Hdata, Htext in H. discriminate. }
  assert (Hs : exists text, jsonString = Some (JString text)).
  { unfold Action.generateFormInternal, catch_all, bind, lift, Action.json, and_then in H.
    rewrite Hok, Hbody, Hdata, Htext in H. cbn [negb] in H.
    destruct jsonString as [[| | |text| |]|]; try discriminate. now exists text. }
  destruct Hs as (text & ->).
  exists response, bodyText, data, text. repeat split; try assumption.
  rewrite <- H. symmetry.
  exact (internal_reads_completion E W response bodyText text data c Hok Hbody Hdata Htext).
Qed.

(** X10: [generateForm] returns a schema only when the key is set, the
    prompt is not blank, the model answered in time with a response that
    is ok, whose body decodes and holds a string at
    [candidates[0].content.parts[0].text], and [generateFormInternal]
    returns that schema for that string; the schema then has a title and
    passes [validateFormSchema]. *)
Theorem generateForm_success (E : engine) (W : wording) (apiKey : option jsstring)
  (prompt : jsstring) (network : N -> option (outcome Action.Response)) (c c' : console)
  (schema : JSON) :
  Action.generateForm E W apiKey prompt network c = (Success schema, c') ->
  (exists key, apiKey = Some key /\ key <> [])
  /\ trim prompt <> []
  /\ (exists response bodyText data text,
        network 60000%N = Some (Value response)
        /\ Action.ok response = true
        /\ Action.body response = Value bodyText
        /\ JSON_parse E bodyText = Value data
        /\ Action.completion_text E W data = Value (Some (JString text))
        /\ generateFormInternal E text c = (Success schema, c'))
  /\ truthy (formTitle_of schema) = true
  /\ validateFormSchema E schema = Value {| isValid := true; error := None |}.
Proof.
  intros H. apply generateForm_inv in H.
  destruct H as (k & key & fetched & -> & Hp & Hn & H).
  apply internal_success in H.
  destruct H as (response & bodyText & data & text & -> & Hok & Hbody & Hdata & Htext & Hrun).
  destruct (generated_run _ _ _ _ _ Hrun) as [_ Hc].
  destruct (accepted_is_valid _ _ _ Hc) as [Ht Hv].
  split; [exists (k :: key); split; [reflexivity|discriminate]|].
  split; [exact Hp|].
  split; [exists response, bodyText, data, text; repeat split; assumption|].
  split; assumption.
Qed.

Lemma generateForm_success_witness :
  (exists key, Some (js "key") = Some key /\ key <> [])
  /\ trim (js "A form") <> []
  /\ (exists response bodyText data text,
        sample_network 60000%N = Some (Value response)
        /\ Action.ok response = true
        /\ Action.body response = Value bodyText
        /\ JSON_parse reference_engine bodyText = Value data
        /\ Action.completion_text reference_engine reference_wording data
           = Value (Some (JString text))
        /\ generateFormInternal reference_engine text [] = (Success sample_schema, []))
  /\ truthy (formTitle_of sample_schema) = true
  /\ validateFormSchema reference_engine sample_schema
     = Value {| isValid := true; error := None |}.
Proof.
  apply (generateForm_success reference_engine reference_wording (Some (js "key"))
           (js "A form") sample_network [] [] sample_schema).
  vm_compute. reflexivity.
Defined.

(** X11: when the response of the model is not ok, the failure names its
    status and status text; the body of the response goes to the console
    and not into the message.  If the body cannot be read, the failure
    carries the message of that error. *)
Theorem http_error_is_reported (E : engine) (W : wording) (k : char) (key prompt : jsstring)
  (network : N -> option (outcome Action.Response)) (response : Action.Response)
  (c : console) :
  trim prompt <> [] ->
  network 60000%N = Some (Value response) ->
  Action.ok response = false ->
  Action.generateForm E W (Some (k :: key)) prompt network c
  = match Action.body response with
    | Value errorText =>
        (Failure (js "Gemini API Error: " ++ decimal (Action.status response)
                    ++ js " " ++ Action.statusText response),
         c ++ [[LString (js "Gemini API Error:"); LNumber (Action.status response);
                LString errorText]])
    | Raised e =>
        (Failure (message e), c ++ [[LString (js "Error generating form:"); LError e]])
    end.
Proof.
  intros Hp Hn Hok. rewrite (generateForm_answered E W k key prompt network _ c Hp Hn).
  unfold Action.generateFormInternal, catch_all, bind, lift, console_error, return_.
  rewrite Hok. cbn [negb]. destruct (Action.body response); reflexivity.
Qed.

(** X12: an answer of the model that decodes to an object without
    [candidates], or with an empty array of them, makes [generateForm]
    fail with the message of the engine's [TypeError] for reading a
    property of [undefined], which is also logged. *)
Theorem answer_without_candidates (E : engine) (W : wording) (k : char)
  (key prompt : jsstring) (network : N -> option (outcome Action.Response))
  (response : Action.Response) (bodyText : jsstring) (properties : object) (c : console) :
  trim prompt <> [] ->
  network 60000%N = Some (Value response) ->
  Action.ok response = true ->
  Action.body response = Value bodyText ->
  JSON_parse E bodyText = Value (JObject properties) ->
  lookup (js "candidates") properties = None
  \/ lookup (js "candidates") properties = Some (JArray []) ->
  let e := TypeError (undefined_property_message W
                        (match lookup (js "candidates") properties with
                         | None => js "0"
                         | Some _ => js "content"
                         end)) in
  Action.generateForm E W (Some (k :: key)) prompt network c
  = (Failure (message e), c ++ [[LString (js "Error generating form:"); LError e]]).
Proof.
  intros Hp Hn Hok Hbody Hdata Hc e.
  rewrite (generateForm_answered E W k key prompt network _ c Hp Hn).
  unfold Action.generateFormInternal, catch_all, bind, lift, Action.json, and_then.
  rewrite Hok, Hbody, Hdata. cbn [negb].
  unfold Action.completion_text, and_then, Get. subst e.
  destruct Hc as [-> | ->]; reflexivity.
Qed.

Lemma http_error_is_reported_witness :
  Action.generateForm reference_engine reference_wording (Some (js "key")) (js "A form")
    (fun _ => Some (Value {| Action.ok := false; Action.status := 429;
                             Action.statusText := js "Too Many Requests";
                             Action.body := Value (js "quota") |})) []
  = (Failure (js "Gemini API Error: 429 Too Many Requests"),
     [[LString (js "Gemini API Error:"); LNumber 429; LString (js "quota")]]).
Proof.
  apply (http_error_is_reported reference_engine reference_wording 107%N (js "ey")
           (js "A form")
           (fun _ => Some (Value {| Action.ok := false; Action.status := 429;
                                    Action.statusText := js "Too Many Requests";
                                    Action.body := Value (js "quota") |}))
           {| Action.ok := false; Action.status := 429;
              Action.statusText := js "Too Many Requests";
              Action.body := Value (js "quota") |} []);
    first [reflexivity | discriminate].
Defined.

Lemma answer_without_candidates_witness :
  Action.generateForm reference_engine reference_wording (Some (js "key")) (js "A form")
    (fun _ => Some (Value {| Action.ok := true; Action.status := 200;
                             Action.statusText := js "OK";
                             Action.body := Value (jq "{'promptFeedback':{}}") |})) []
  = (Failure (js "Cannot read properties of undefined (reading '0')"),
     [[LString (js "Error generating form:");
       LError (TypeError (js "Cannot read properties of undefined (reading '0')"))]]).
Proof.
  apply (answer_without_candidates reference_engine reference_wording 107%N (js "ey")
           (js "A form")
           (fun _ => Some (Value {| Action.ok := true; Action.status := 200;
                                    Action.statusText := js "OK";
                                    Action.body := Value (jq "{'promptFeedback':{}}") |}))
           {| Action.ok := true; Action.status := 200;
              Action.statusText := js "OK";
              Action.body := Value (jq "{'promptFeedback':{}}") |}
           (jq "{'promptFeedback':{}}") [(js "promptFeedback", JObject [])] []);
    first [reflexivity | discriminate | (left; reflexivity)].
Defined.

(** ** The API route *)

Lemma route_check_fields (E : engine) (formSchema : JSON) (fields : list JSON) :
  Route.check_fields E formSchema fields =
  match first_incomplete fields with
  | None => Value {| Route.body := Route.SchemaBody formSchema; Route.status := 200 |}
  | Some JNull => Raised (TypeError (null_property_message E (js "id")))
  | Some _ =>
      Value {| Route.body := Route.ErrorBody (js "Invalid field structure in generated schema");
               Route.status := 500 |}
  end.
Proof.
  induction fields as [|field rest IH]; [reflexivity|].
  cbn [Route.check_fields first_incomplete]. unfold and_then.
  destruct (complete_field field) eqn:Hc.
  - rewrite field_incomplete_complete by now apply complete_field_not_null.
    rewrite Hc. exact IH.
  - destruct field as [|b|l|s|els|o]; try reflexivity.
    rewrite field_incomplete_complete by discriminate. now rewrite Hc.
Qed.

Lemma route_check (E : engine) (v : JSON) :
  Route.check E v =
  match v with
  | JNull => Raised (TypeError (null_property_message E (js "formTitle")))
  | JObject o =>
      match truthy (lookup (js "formTitle") o), lookup (js "fields") o with
      | true, Some (JArray elements) => Route.check_fields E v elements
      | _, _ => Value {| Route.body := Route.ErrorBody (js "Invalid form schema generated");
                         Route.status := 500 |}
      end
  | _ => Value {| Route.body := Route.ErrorBody (js "Invalid form schema generated");
                  Route.status := 500 |}
  end.
Proof.
  unfold Route.check, and_then.
  destruct v as [|b|l|s|els|o]; cbn [Get]; try reflexivity.
  destruct (truthy (lookup (js "formTitle") o));
    destruct (lookup (js "fields") o) as [[|b|l|s|elements|o']|];
    cbn [truthy isArray negb orb]; try reflexivity;
    try (now destruct b); try (now destruct (is_zero l)); now destruct s.
Qed.

(** The check of the route accepts what the check of the server action
    accepts. *)
Lemma route_check_accepts (E : engine) (v schema : JSON) (status : nat) :
  Route.check E v = Value {| Route.body := Route.SchemaBody schema; Route.status := status |}
  <-> schema = v /\ status = 200 /\ generated_accepted E v [].
Proof.
  rewrite route_check, generated_accepted_iff. split.
  - destruct v as [| | | | |o]; try discriminate.
    destruct (truthy (lookup (js "formTitle") o)) eqn:Ht; [|discriminate].
    destruct (lookup (js "fields") o) as [[| | | |elements|]|] eqn:Hf; try discriminate.
    rewrite route_check_fields.
    destruct (first_incomplete elements) as [[]|] eqn:Hi; try discriminate.
    intros H. injection H as <- <-. repeat split. exists o, elements. auto.
  - intros (-> & -> & o & elements & -> & Ht & Hf & Hi).
    now rewrite Ht, Hf, route_check_fields, Hi.
Qed.

Lemma route_check_messages (E : engine) (v : JSON) (response : Route.NextResponse) :
  Route.check E v = Value response ->
  (exists schema, response = {| Route.body := Route.SchemaBody schema; Route.status := 200 |})
  \/ (exists m, response = {| Route.body := Route.ErrorBody m; Route.status := 500 |}
                /\ In m [js "Invalid form schema generated";
                         js "Invalid field structure in generated schema"]).
Proof.
  rewrite route_check.
  assert (H1 : Value {| Route.body := Route.ErrorBody (js "Invalid form schema generated");
                        Route.status := 500 |} = Value response ->
               (exists schema, response = {| Route.body := Route.SchemaBody schema;
                                             Route.status := 200 |})
               \/ (exists m, response = {| Route.body := Route.ErrorBody m; Route.status := 500 |}
                             /\ In m [js "Invalid form schema generated";
                                      js "Invalid field structure in generated schema"])).
  { intros H. injection H as <-. right. eexists. split; [reflexivity|]. now left. }
  destruct v as [| | | | |o]; try exact H1; try discriminate.
  destruct (truthy (lookup (js "formTitle") o)); [|exact H1].
  destruct (lookup (js "fields") o) as [[| | | |elements|]|]; try exact H1.
  rewrite route_check_fields.
  destruct (first_incomplete elements) as [[]|]; try discriminate;
    intros H; injection H as <-;
    try (right; eexists; split; [reflexivity|]; right; now left).
  left. eexists. reflexivity.
Qed.

(** X13: [POST] always answers: 200 with a schema, 400 for a missing
    description, or 500 with one of four fixed messages.  The message of
    an exception is logged and never sent. *)
Theorem POST_answers (E : engine) (W : wording) (request : jsstring)
  (apiKey : option jsstring) (generated : outcome jsstring) (c : console) :
  let answer := Route.POST E W request apiKey generated c in
  (Route.status (fst answer) = 200
   /\ (exists schema, Route.body (fst answer) = Route.SchemaBody schema)
   /\ snd answer = c)
  \/ (Route.status (fst answer) = 400
      /\ Route.body (fst answer) = Route.ErrorBody (js "Description is required")
      /\ snd answer = c)
  \/ (Route.status (fst answer) = 500
      /\ (exists m, Route.body (fst answer) = Route.ErrorBody m
                    /\ In m [js "GEMINI_API_KEY is not configured";
                             js "Invalid form schema generated";
                             js "Invalid field structure in generated schema"])
      /\ snd answer = c)
  \/ (Route.status (fst answer) = 500
      /\ Route.body (fst answer)
         = Route.ErrorBody (js "Failed to generate form. Please try again.")
      /\ exists error, snd answer = c ++ [[LString (js "Error generating form:"); LError error]]).
Proof.
  intros answer. subst answer. unfold Route.POST.
  destruct (Route.handle E W request apiKey generated) as [response|error] eqn:Hh.
  2:{ right. right. right. cbn [fst snd Route.status Route.body]. repeat split. now exists error. }
  cbn [fst snd].
  unfold Route.handle, and_then in Hh.
  destruct (JSON_parse E request) as [parsed|]; [|discriminate].
  destruct (destructure E W parsed (js "description")) as [description|]; [|discriminate].
  destruct (negb (truthy description)
            || negb (match description with Some (JString _) => true | _ => false end))%bool.
  { injection Hh as <-. right. left. repeat split. }
  destruct (negb (truthy (option_map JString apiKey))).
  { injection Hh as <-. right. right. left. cbn [Route.status Route.body]. repeat split.
    eexists. split; [reflexivity|]. now left. }
  destruct generated as [text|]; [|discriminate].
  destruct (JSON_parse E (Route.clean text)) as [formSchema|]; [|discriminate].
  destruct (route_check_messages _ _ _ Hh) as [(schema & ->)|(m & -> & Hm)].
  - left. cbn [Route.status Route.body]. repeat split. now exists schema.
  - right. right. left. cbn [Route.status Route.body]. repeat split.
    exists m. split; [reflexivity|]. right. exact Hm.
Qed.

Lemma generated_accepted_run (E : engine) (v : JSON) (c0 c : console) :
  generated_accepted E v c0 <-> catch_all (check_generated E v) c = (Success v, c).
Proof.
  rewrite generated_accepted_iff. split.
  - intros (o & elements & -> & Ht & Hf & Hi).
    unfold catch_all. rewrite check_generated_eq, Ht, Hf, check_fields_first_incomplete, Hi.
    reflexivity.
  - intros H. assert (Ha : generated_accepted E v c) by (exists v, c; exact H).
    now apply generated_accepted_iff in Ha.
Qed.

Lemma route_success_inv (E : engine) (W : wording) (request : jsstring)
  (apiKey : option jsstring) (generated : outcome jsstring) (c c' : console)
  (schema : JSON) (status : nat) :
  Route.POST E W request apiKey generated c
  = ({| Route.body := Route.SchemaBody schema; Route.status := status |}, c') ->
  status = 200 /\ c' = c
  /\ exists parsed d description k key text,
       JSON_parse E request = Value parsed
       /\ destructure E W parsed (js "description")
          = Value (Some (JString (d :: description)))
       /\ apiKey = Some (k :: key)
       /\ generated = Value text
       /\ JSON_parse E (Route.clean text) = Value schema
       /\ catch_all (check_generated E schema) c = (Success schema, c).
Proof.
  unfold Route.POST, Route.handle, and_then.
  destruct (JSON_parse E request) as [parsed|] eqn:Hp; [|discriminate].
  destruct (destructure E W parsed (js "description")) as [description|] eqn:Hdes;
    [|discriminate].
  destruct (negb (truthy description)
            || negb (match description with Some (JString _) => true | _ => false end))%bool
    eqn:Hd; [discriminate|].
  apply orb_false_iff in Hd. destruct Hd as [Hd1 Hd2].
  destruct description as [[| | |[|d description]| |]|]; try discriminate.
  destruct apiKey as [[|k key]|]; try discriminate.
  cbn [option_map truthy negb].
  destruct generated as [text|]; [|discriminate].
  destruct (JSON_parse E (Route.clean text)) as [formSchema|] eqn:Hs; [|discriminate].
  destruct (Route.check E formSchema) as [response|] eqn:Hc; [|discriminate].
  intros H. injection H as -> <-.
  apply route_check_accepts in Hc. destruct Hc as (-> & -> & Hacc).
  split; [reflexivity|]. split; [reflexivity|].
  exists parsed, d, description, k, key, text.
  split; [reflexivity|]. split; [exact Hdes|]. split; [reflexivity|].
  split; [reflexivity|]. split; [exact Hs|].
  now apply (generated_accepted_run E formSchema []).
Qed.

(** X14: [POST] answers with a schema exactly when the body of the
    request decodes to a value with a non-empty string as [description],
    the key is set, the model answered, its text decodes once the fences
    are taken away, and the check of the server action accepts the
    value. *)
Theorem POST_succeeds_iff (E : engine) (W : wording) (request : jsstring)
  (apiKey : option jsstring) (generated : outcome jsstring) (c c' : console)
  (schema : JSON) (status : nat) :
  Route.POST E W request apiKey generated c
  = ({| Route.body := Route.SchemaBody schema; Route.status := status |}, c')
  <-> status = 200 /\ c' = c
      /\ exists parsed d description k key text,
           JSON_parse E request = Value parsed
           /\ destructure E W parsed (js "description")
              = Value (Some (JString (d :: description)))
           /\ apiKey = Some (k :: key)
           /\ generated = Value text
           /\ JSON_parse E (Route.clean text) = Value schema
           /\ catch_all (check_generated E schema) c = (Success schema, c).
Proof.
  split; [apply route_success_inv|].
  unfold Route.POST, Route.handle, and_then.
  intros (-> & -> & parsed & d & description & k & key & text
            & -> & -> & -> & -> & -> & Hacc).
  cbn [truthy negb orb option_map].
  apply (generated_accepted_run E schema []) in Hacc.
  assert (Hc : Route.check E schema
               = Value {| Route.body := Route.SchemaBody schema; Route.status := 200 |}).
  { apply route_check_accepts. auto. }
  rewrite Hc. reflexivity.
Qed.

(** ** The server action accepts what the route accepts *)

(** X15: whenever the route answers with a schema for a text of the
    model, the server action returns the same schema for that text, and
    logs nothing. *)
Theorem action_accepts_what_route_accepts (E : engine) (W : wording) (request : jsstring)
  (apiKey : option jsstring) (text : jsstring) (c c' : console) (schema : JSON)
  (status : nat) :
  Route.POST E W request apiKey (Value text) c
  = ({| Route.body := Route.SchemaBody schema; Route.status := status |}, c') ->
  generateFormInternal E text c = (Success schema, c).
Proof.
  intros H. apply route_success_inv in H.
  destruct H as (_ & _ & parsed & d & description & k & key & text' & _ & _ & _ & Ht & Hs & Hacc).
  injection Ht as <-.
  assert (Ho : exists o, schema = JObject o).
  { apply (generated_accepted_run E schema []) in Hacc.
    apply generated_accepted_iff in Hacc. destruct Hacc as (o & _ & -> & _). now exists o. }
  destruct Ho as (o & ->).
  destruct (route_clean_framed text) as (a & b & Htext & Ha & Hb).
  assert (Hx : extract E text c = (Normal (JObject o), c)).
  { rewrite Htext at 1.
    apply extract_framed_object;
      [exact Hs|now apply brace_free_no_lbrace|now apply brace_free_no_rbrace]. }
  unfold generateFormInternal. unfold catch_all at 1. unfold bind. rewrite Hx.
  unfold catch_all in Hacc. exact Hacc.
Qed.

Lemma action_accepts_what_route_accepts_witness :
  generateFormInternal reference_engine fenced_text [] = (Success sample_schema, []).
Proof.
  apply (action_accepts_what_route_accepts reference_engine reference_wording
           (jq "{'description':'A form'}") (Some (js "key")) fenced_text [] []
           sample_schema 200).
  vm_compute. reflexivity.
Defined.

(** ** The page: what [handleGenerate] displays *)

Lemma blank_trimmed (prompt : jsstring) :
  negb (truthy (Some (JString (trim prompt)))) = true <-> trim prompt = [].
Proof. destruct (trim prompt); split; (reflexivity || discriminate). Qed.

(** X16: after [handleGenerate] with a prompt that is not blank, a form
    is displayed only if the server action returned it in this call; no
    error is displayed with it, it has a title and it passes
    [validateFormSchema]. *)
Theorem displayed_form_passed_the_checks (E : engine) (W : wording)
  (apiKey : option jsstring) (network : N -> option (outcome Action.Response))
  (c : console) (h : home) (schema : JSON) :
  trim (prompt h) <> [] ->
  formSchema (page (handleGenerate
                      (fun p => fst (Action.generateForm E W apiKey p network c)) h))
  = Some schema ->
  handleGenerate (fun p => fst (Action.generateForm E W apiKey p network c)) h
  = {| prompt := prompt h;
       page := {| formSchema := Some schema;
                  errorText := None;
                  toastMessage := toastMessage (page h) |} |}
  /\ fst (Action.generateForm E W apiKey (prompt h) network c) = Success schema
  /\ truthy (formTitle_of schema) = true
  /\ validateFormSchema E schema = Value {| isValid := true; error := None |}.
Proof.
  intros Hp. unfold handleGenerate.
  destruct (negb (truthy (Some (JString (trim (prompt h)))))) eqn:Hb.
  { apply blank_trimmed in Hb. contradiction. }
  destruct (Action.generateForm E W apiKey (prompt h) network c) as [r c'] eqn:Hg.
  cbn [fst]. destruct r as [v|m]; cbn [page formSchema]; [|discriminate].
  intros H. injection H as ->.
  destruct (generateForm_inv _ _ _ _ _ _ _ _ Hg) as (k & key & fetched & _ & _ & _ & Hi).
  destruct (internal_success _ _ _ _ _ _ Hi)
    as (_ & _ & _ & text & _ & _ & _ & _ & _ & Hrun).
  destruct (generated_run _ _ _ _ _ Hrun) as [_ Hc].
  destruct (accepted_is_valid _ _ _ Hc) as [Ht Hv].
  repeat split; assumption.
Qed.

Lemma displayed_form_passed_the_checks_witness :
  handleGenerate
    (fun p => fst (Action.generateForm reference_engine reference_wording
                     (Some (js "key")) p sample_network [])) sample_home
  = {| prompt := prompt sample_home;
       page := {| formSchema := Some sample_schema;
                  errorText := None;
                  toastMessage := toastMessage (page sample_home) |} |}
  /\ fst (Action.generateForm reference_engine reference_wording
            (Some (js "key")) (prompt sample_home) sample_network []) = Success sample_schema
  /\ truthy (formTitle_of sample_schema) = true
  /\ validateFormSchema reference_engine sample_schema
     = Value {| isValid := true; error := None |}.
Proof.
  apply (displayed_form_passed_the_checks reference_engine reference_wording
           (Some (js "key")) sample_network [] sample_home sample_schema).
  - discriminate.
  - vm_compute. reflexivity.
Defined.

(** X17: from the answer of the model to the page.  When the completion
    is the text that [JSON.stringify] writes for a schema of the declared
    type with a title and named fields, inside prose or a fence, the
    server action returns that schema and [handleGenerate] displays it
    with no error. *)
Theorem typed_answer_is_displayed (E : engine) (W : wording) (k : char) (key : jsstring)
  (network : N -> option (outcome Action.Response)) (response : Action.Response)
  (bodyText pre post : jsstring) (data : JSON) (s : Form.FormSchema)
  (c : console) (h : home) :
  trim (prompt h) <> [] ->
  network 60000%N = Some (Value response) ->
  Action.ok response = true ->
  Action.body response = Value bodyText ->
  JSON_parse E bodyText = Value data ->
  Action.completion_text E W data
  = Value (Some (JString (pre ++ JSON_stringify (Form.schema_json s) ++ post))) ->
  nonempty (Form.formTitle s) = true ->
  forallb named_field (Form.fields s) = true ->
  forallb (fun a => negb (is_lbrace a)) pre = true ->
  forallb (fun a => negb (is_rbrace a)) post = true ->
  Action.generateForm E W (Some (k :: key)) (prompt h) network c
  = (Success (Form.schema_json s), c)
  /\ handleGenerate (fun p => fst (Action.generateForm E W (Some (k :: key)) p network c)) h
     = {| prompt := prompt h;
          page := {| formSchema := Some (Form.schema_json s);
                     errorText := None;
                     toastMessage := toastMessage (page h) |} |}.
Proof.
  intros Hp Hn Hok Hbody Hdata Htext Ht Hf Hpre Hpost.
  assert (Hg : Action.generateForm E W (Some (k :: key)) (prompt h) network c
               = (Success (Form.schema_json s), c)).
  { rewrite (generateForm_answered E W k key (prompt h) network _ c Hp Hn).
    rewrite (internal_reads_completion E W response bodyText _ data c Hok Hbody Hdata Htext).
    unfold generateFormInternal. unfold catch_all at 1. unfold bind.
    rewrite (typed_schema_extracted E s pre post c Hpre Hpost).
    exact (typed_schema_checked E s c Ht Hf). }
  split; [exact Hg|].
  unfold handleGenerate.
  destruct (negb (truthy (Some (JString (trim (prompt h)))))) eqn:Hb.
  { apply blank_trimmed in Hb. contradiction. }
  now rewrite Hg.
Qed.

Lemma typed_answer_is_displayed_witness :
  Action.generateForm reference_engine reference_wording (Some (js "key"))
    (prompt sample_home) (fun _ => Some (Value fenced_response)) []
  = (Success (Form.schema_json sample_form), [])
  /\ handleGenerate
       (fun p => fst (Action.generateForm reference_engine reference_wording
                        (Some (js "key")) p (fun _ => Some (Value fenced_response)) []))
       sample_home
     = {| prompt := prompt sample_home;
          page := {| formSchema := Some (Form.schema_json sample_form);
                     errorText := None;
                     toastMessage := toastMessage (page sample_home) |} |}.
Proof.
  apply (typed_answer_is_displayed reference_engine reference_wording 107%N (js "ey")
           (fun _ => Some (Value fenced_response)) fenced_response
           (JSON_stringify (answer_with fenced_text))
           (js "```json" ++ [Ch.lf]) (Ch.lf :: js "```")
           (answer_with fenced_text) sample_form [] sample_home);
    first [reflexivity | discriminate].
Defined.

(** ** Names made from the title *)

Lemma replace_non_alnum_chars (p : char -> bool) (r s : jsstring) :
  forallb p r = true -> (forall c, is_alnum c = true -> p c = true) ->
  forallb p (replace_non_alnum r s) = true.
Proof.
  intros Hr Hp. induction s as [|c s IH]; [reflexivity|].
  cbn [replace_non_alnum]. rewrite forallb_app, IH, andb_true_r.
  destruct (is_alnum c) eqn:Hc; [|exact Hr]. cbn [forallb]. now rewrite (Hp c Hc).
Qed.

Lemma replace_non_alnum_length (r s : jsstring) :
  length r = 1 -> length (replace_non_alnum r s) = length s.
Proof.
  intros Hr. induction s as [|c s IH]; [reflexivity|].
  cbn [replace_non_alnum]. rewrite length_app, IH.
  destruct (is_alnum c); cbn [length]; lia.
Qed.

Lemma componentName_filter (s : jsstring) : componentName s = filter is_alnum s.
Proof.
  unfold componentName. induction s as [|c s IH]; [reflexivity|].
  cbn [replace_non_alnum filter]. rewrite IH. now destruct (is_alnum c).
Qed.

Lemma hd_filter (p : char -> bool) (s : jsstring) : hd_error (filter p s) = find p s.
Proof.
  induction s as [|c s IH]; [reflexivity|].
  cbn [filter find]. now destruct (p c).
Qed.

(** X18: the name of the generated component holds letters and digits
    only and begins with the first letter or digit of the title, which may
    be a digit; the name of the PDF file holds letters, digits, hyphens
    and dots only, and is as long as the title and eleven more. *)
Theorem names_from_title (formTitle : jsstring) :
  forallb is_alnum (component_function formTitle) = true
  /\ hd_error (component_function formTitle)
     = Some (match find is_alnum formTitle with
             | Some c => c
             | None => 70%N
             end)
  /\ forallb (fun c => is_alnum c || N.eqb c 45 || N.eqb c 46)%bool (fileName formTitle) = true
  /\ length (fileName formTitle) = length formTitle + 11.
Proof.
  split; [|split; [|split]].
  - unfold component_function, componentName. rewrite forallb_app.
    rewrite replace_non_alnum_chars; auto.
  - unfold component_function. rewrite componentName_filter.
    rewrite <- hd_filter. now destruct (filter is_alnum formTitle).
  - unfold fileName. rewrite forallb_app.
    rewrite replace_non_alnum_chars; [reflexivity|reflexivity|].
    intros c Hc. now rewrite Hc.
  - unfold fileName. rewrite length_app, replace_non_alnum_length by reflexivity.
    reflexivity.
Qed.

(** ** The default values of the form *)

Lemma str_eqb_neq (a b : jsstring) : str_eqb a b = false <-> a <> b.
Proof.
  split.
  - intros H Heq. apply str_eqb_eq in Heq. congruence.
  - intros H. destruct (str_eqb a b) eqn:Hab; [|reflexivity].
    apply str_eqb_eq in Hab. contradiction.
Qed.

Lemma lookup_obj_replace (p k : jsstring) (v : JSON) (o : object) :
  lookup p (obj_replace k v o)
  = if str_eqb p k then (if has_key k o then Some v else None) else lookup p o.
Proof.
  unfold has_key. induction o as [|[k' v'] o IH]; cbn [obj_replace lookup].
  - now destruct (str_eqb p k).
  - destruct (str_eqb k k') eqn:Hk.
    + apply str_eqb_eq in Hk. subst k'. cbn [lookup].
      now destruct (str_eqb p k).
    + cbn [lookup]. rewrite IH.
      destruct (str_eqb p k) eqn:Hp; [|reflexivity].
      apply str_eqb_eq in Hp. subst p. now rewrite Hk.
Qed.

Lemma lookup_obj_insert (p k : jsstring) (v : JSON) (o : object) :
  has_key k o = false ->
  lookup p (obj_insert k v o) = if str_eqb p k then Some v else lookup p o.
Proof.
  unfold has_key. induction o as [|[k' v'] o IH]; cbn [obj_insert lookup]; intros Hk.
  - reflexivity.
  - destruct (str_eqb k k') eqn:Hkk; [discriminate|].
    destruct (key_before k k'); cbn [lookup].
    + reflexivity.
    + rewrite (IH Hk).
      destruct (str_eqb p k') eqn:Hp; [|reflexivity].
      apply str_eqb_eq in Hp. subst p.
      destruct (str_eqb k' k) eqn:Hk'; [|reflexivity].
      apply str_eqb_eq in Hk'. subst k'. rewrite str_eqb_refl in Hkk. discriminate.
Qed.

Lemma lookup_obj_set (p k : jsstring) (v : JSON) (o : object) :
  lookup p (obj_set k v o) = if str_eqb p k then Some v else lookup p o.
Proof.
  unfold obj_set. destruct (has_key k o) eqn:Hk.
  - rewrite lookup_obj_replace, Hk. reflexivity.
  - now apply lookup_obj_insert.
Qed.

Lemma find_snoc {A : Type} (p : A -> bool) (l : list A) (x : A) :
  find p (l ++ [x]) = match find p l with
                      | Some y => Some y
                      | None => if p x then Some x else None
                      end.
Proof.
  induction l as [|a l IH]; cbn [app find]; [reflexivity|].
  destruct (p a); [reflexivity|exact IH].
Qed.

Lemma default_values_from (fields : list Form.FormField) (k : jsstring) :
  forall acc : object,
    lookup k (fold_left (fun acc field =>
                           assign (Form.id field) (default_value field) acc) fields acc)
    = if str_eqb k (js "__proto__") then lookup k acc
      else match find (fun f => str_eqb k (Form.id f)) (rev fields) with
           | Some f => Some (default_value f)
           | None => lookup k acc
           end.
Proof.
  induction fields as [|f fields IH]; intros acc; cbn [fold_left rev find].
  - now destruct (str_eqb k (js "__proto__")).
  - rewrite IH, find_snoc.
    assert (Hassign : lookup k (assign (Form.id f) (default_value f) acc)
                      = if str_eqb k (js "__proto__") then lookup k acc
                        else if str_eqb k (Form.id f) then Some (default_value f)
                             else lookup k acc).
    { unfold assign.
      destruct (str_eqb (Form.id f) (js "__proto__")) eqn:Hid.
      - apply str_eqb_eq in Hid. rewrite Hid.
        now destruct (str_eqb k (js "__proto__")).
      - rewrite lookup_obj_set.
        destruct (str_eqb k (js "__proto__")) eqn:Hk; [|reflexivity].
        apply str_eqb_eq in Hk. subst k.
        destruct (str_eqb (js "__proto__") (Form.id f)) eqn:Hk'; [|reflexivity].
        apply str_eqb_eq in Hk'. rewrite <- Hk', str_eqb_refl in Hid. discriminate. }
    rewrite Hassign.
    destruct (str_eqb k (js "__proto__")); [reflexivity|].
    destruct (find (fun f0 => str_eqb k (Form.id f0)) (rev fields)); [reflexivity|].
    now destruct (str_eqb k (Form.id f)).
Qed.

(** X19: the default values of the form hold, for each id, the default
    of the last field with that id: [false] for a checkbox, the empty
    string otherwise; no other key, and never [__proto__]. *)
Theorem default_values_lookup (fields : list Form.FormField) (k : jsstring) :
  lookup k (defaultValues fields)
  = if str_eqb k (js "__proto__") then None
    else option_map default_value (find (fun f => str_eqb k (Form.id f)) (rev fields)).
Proof.
  unfold defaultValues. rewrite default_values_from. cbn [lookup].
  destruct (str_eqb k (js "__proto__")); [reflexivity|].
  now destruct (find (fun f => str_eqb k (Form.id f)) (rev fields)).
Qed.
